(** * Diff.js of mongoose-dp: structural diff and revert over JavaScript values

    A shallow embedding of [src/src/Diff.js].  JavaScript values live in an
    explicit store (objects are compared by reference, and the diff engine's
    cycle guard depends on it); [deepDiff] threads the store because the
    order-independent mode sorts arrays in place; [revertChange] mutates the
    store and may throw.

    Boundaries of the model: every own property is an enumerable, writable
    data property and every object is extensible; functions, symbols and
    bigints are not values of the model, so that reading a property that an
    object inherits from a built-in prototype leaves the model (see
    [getV]), and so does an assignment that the prototype chain takes (see
    [setV]); an array has fewer than 2^32 - 1 elements. *)

From Stdlib Require Import ZArith Lia Bool DecimalString DecimalNat Floats.SpecFloat.
From stdpp Require Import base option list strings.

(** ** Values and the store *)

Abbreviation addr := nat.

(** A JavaScript value: the primitives, or a reference into the store.
    Numbers are IEEE 754 binary64 values. *)
Inductive value :=
| VUndef
| VNull
| VBool (b : bool)
| VNum (n : spec_float)
| VStr (s : string)
| VRef (a : addr).

(** What kind of object a store cell is.  An array keeps its indexed
    elements apart from its named properties; [None] is a hole.  A date
    keeps its time value ([None] is the invalid date, whose time value is
    NaN); a regular expression keeps its source and flags. *)
Inductive class :=
| CObject
| CArray (elems : list (option value))
| CDate (time : option Z)
| CRegExp (source flags : string).

(** An object: its class and its own named properties in enumeration
    order. *)
Record object := Obj { cls : class; props : list (string * value) }.

Abbreviation heap := (list object).

Definition deref (h : heap) (v : value) : option object :=
  match v with
  | VRef a => h !! a
  | _ => None
  end.

(** ** Numbers *)

Definition numOfZ (z : Z) : spec_float := binary_normalize 53 1024 z 0 false.
Definition numOfNat (n : nat) : spec_float := numOfZ (Z.of_nat n).

(** [Number.isNaN] on a number. *)
Definition numIsNaN (n : spec_float) : bool :=
  match n with S754_nan => true | _ => false end.

Definition numIsZero (n : spec_float) : bool :=
  match n with S754_zero _ => true | _ => false end.

(** ** Property keys *)

(** [i.toString()] for an array index. *)
Definition indexToString (i : nat) : string :=
  NilZero.string_of_uint (Nat.to_uint i).

(** A property key that is a canonical array index. *)
Definition parseIndex (k : string) : option nat :=
  match NilZero.uint_of_string k with
  | Some u =>
      let n := Nat.of_uint u in
      if String.eqb (indexToString n) k then Some n else None
  | None => None
  end.

(** A property key that is an array index: a canonical decimal below
    2^32 - 1.  Only such keys address the elements of an array when it is
    written, and only such keys are enumerated before the other keys of an
    object. *)
Definition arrayIndex (k : string) : option nat :=
  match parseIndex k with
  | Some n => if (Z.of_nat n <? 4294967295)%Z then Some n else None
  | None => None
  end.

Fixpoint assoc {A : Type} (k : string) (l : list (string * A)) : option A :=
  match l with
  | [] => None
  | (k', v) :: l' => if String.eqb k' k then Some v else assoc k l'
  end.

(** ** Primitive operations of the language *)

(** [!!v] *)
Definition truthy (v : value) : bool :=
  match v with
  | VUndef | VNull => false
  | VBool b => b
  | VNum n => negb (numIsZero n || numIsNaN n)
  | VStr s => negb (String.eqb s "")
  | VRef _ => true
  end.

(** [typeof v] *)
Definition typeof (v : value) : string :=
  match v with
  | VUndef => "undefined"
  | VNull => "object"
  | VBool _ => "boolean"
  | VNum _ => "number"
  | VStr _ => "string"
  | VRef _ => "object"
  end.

(** [v === w] *)
Definition strictEq (v w : value) : bool :=
  match v, w with
  | VUndef, VUndef => true
  | VNull, VNull => true
  | VBool a, VBool b => Bool.eqb a b
  | VNum a, VNum b => SFeqb a b
  | VStr a, VStr b => String.eqb a b
  | VRef a, VRef b => Nat.eqb a b
  | _, _ => false
  end.

(** [Array.isArray(v)] *)
Definition isArray (h : heap) (v : value) : bool :=
  match deref h v with
  | Some (Obj (CArray _) _) => true
  | _ => false
  end.

(** The indexed elements of an array ([[]] for anything else). *)
Definition elemsOf (h : heap) (v : value) : list (option value) :=
  match deref h v with
  | Some (Obj (CArray es) _) => es
  | _ => []
  end.

(** [arr[i]]: a hole or an index past the end reads as [undefined]. *)
Definition getIndex (h : heap) (v : value) (i : nat) : value :=
  match elemsOf h v !! i with
  | Some (Some x) => x
  | _ => VUndef
  end.

(** The single-character string [s[i]]. *)
Definition charAt (s : string) (i : nat) : option string :=
  match String.get i s with
  | Some c => Some (String c EmptyString)
  | None => None
  end.

(** [o[k]] for an object [o] of the store. *)
Definition getOwn (o : object) (k : string) : value :=
  match cls o, parseIndex k with
  | CArray es, Some i =>
      match es !! i with Some (Some x) => x | _ => VUndef end
  | CArray es, None =>
      if String.eqb k "length" then VNum (numOfNat (length es))
      else default VUndef (assoc k (props o))
  | _, _ => default VUndef (assoc k (props o))
  end.

(** [v[k]] where [v] is known to be an object. *)
Definition getProp (h : heap) (v : value) (k : string) : value :=
  match deref h v with
  | Some o => getOwn o k
  | None => VUndef
  end.

(** Whether [Object.getOwnPropertyDescriptor(v, k)] is defined, for a
    truthy [v]. *)
Definition hasOwnProperty (h : heap) (v : value) (k : string) : bool :=
  match v with
  | VRef a =>
      match h !! a with
      | Some o =>
          match cls o, parseIndex k with
          | CArray es, Some i =>
              match es !! i with Some (Some _) => true | _ => false end
          | CArray es, None =>
              String.eqb k "length" || bool_decide (is_Some (assoc k (props o)))
          | _, _ => bool_decide (is_Some (assoc k (props o)))
          end
      | None => false
      end
  | VStr s =>
      match parseIndex k with
      | Some i => bool_decide (i < String.length s)
      | None => String.eqb k "length"
      end
  | _ => false
  end.

(** [Object.keys(v)] where [v] is an object. *)
Definition indexKeys (es : list (option value)) : list string :=
  omap (fun '(i, e) => match e with Some _ => Some (indexToString i) | None => None end)
       (imap pair es).

Definition ownKeys (h : heap) (v : value) : list string :=
  match deref h v with
  | Some (Obj (CArray es) ps) => indexKeys es ++ map fst ps
  | Some (Obj _ ps) => map fst ps
  | None => []
  end.

(** [re.toString()] for a regular expression; any other value is returned
    as it is (the engine only calls this on values classified "regexp"). *)
Definition regexpToString (h : heap) (v : value) : value :=
  match deref h v with
  | Some (Obj (CRegExp src fl) _) => VStr ("/" +:+ src +:+ "/" +:+ fl)
  | _ => v
  end.

(** The time value of a date; [None] is NaN. *)
Definition timeValue (h : heap) (v : value) : option Z :=
  match deref h v with
  | Some (Obj (CDate t) _) => t
  | _ => None
  end.

(** [lhs - rhs !== 0] for two dates: the difference of two time values is
    zero exactly when both are valid and equal; with an invalid date the
    difference is NaN, which is [!== 0]. *)
Definition dateMinusNonZero (h : heap) (lhs rhs : value) : bool :=
  match timeValue h lhs, timeValue h rhs with
  | Some a, Some b => negb (Z.eqb a b)
  | _, _ => true
  end.

(** ** The external helpers of [./utils] *)

(** Modelled from the spec: [realTypeOf], the Type Classifier of [./utils],
    is not part of the sources.  The spec gives its contract: "given any
    value, returns a canonical type tag (e.g. "array", "object", "date",
    "regexp", "number", "null", "undefined", "nan", ...)". *)
Definition realTypeOf (h : heap) (v : value) : string :=
  match v with
  | VUndef => "undefined"
  | VNull => "null"
  | VBool _ => "boolean"
  | VNum n => if numIsNaN n then "nan" else "number"
  | VStr _ => "string"
  | VRef a =>
      match h !! a with
      | Some (Obj (CArray _) _) => "array"
      | Some (Obj (CDate _) _) => "date"
      | Some (Obj (CRegExp _ _) _) => "regexp"
      | _ => "object"
      end
  end.

(** ** Change records *)

(** The item wrapped by an array change: [{ k: 'N', r }] or [{ k: 'D', l }]. *)
Inductive RawItemT :=
| ItN (r : value)
| ItD (l : value).

(** The records [deepDiff] pushes: [{ k: 'N', p, r }], [{ k: 'D', p, l }],
    [{ k: 'E', p, l, r }] and [{ k: 'A', p, i, it }]. *)
Inductive RawChangeT :=
| ChN (p : list string) (r : value)
| ChD (p : list string) (l : value)
| ChE (p : list string) (l r : value)
| ChA (p : list string) (i : nat) (it : RawItemT).

Definition PrefilterT := list string -> string -> bool.

(** A frame of the comparison stack. *)
Record StackT := Frame { st_lhs : value; st_rhs : value }.

Record DeepDiffOptsT := Opts {
  prefilter : option PrefilterT;
  orderIndependent : bool;
  key : option string;
  path : option (list string);
  stack : option (list StackT)
}.

(** The options the public entry points pass: [{ prefilter, orderIndependent }]. *)
Definition topOpts (pf : option PrefilterT) (oi : bool) : DeepDiffOptsT :=
  Opts pf oi None None None.

(** ** Sorting, for the order-independent mode *)

(** [Array.prototype.sort] with the comparator [(a, b) => hash(a) - hash(b)]:
    a stable sort by ascending key. *)
Fixpoint insertByHash (hash : value -> Z) (x : value) (l : list value) : list value :=
  match l with
  | [] => [x]
  | y :: l' =>
      if (hash x <=? hash y)%Z then x :: y :: l' else y :: insertByHash hash x l'
  end.

Definition sortByHash (hash : value -> Z) (l : list value) : list value :=
  foldr (insertByHash hash) [] l.

Definition isUndefElem (e : option value) : bool :=
  match e with Some VUndef => true | _ => false end.

Definition isHole (e : option value) : bool :=
  match e with None => true | _ => false end.

Definition comparedElem (e : option value) : option value :=
  match e with
  | Some VUndef | None => None
  | Some x => Some x
  end.

(** [sort] never passes [undefined] to the comparator: the sorted values
    come first, then every [undefined], then the holes. *)
Definition sortElems (hash : value -> Z) (es : list (option value)) : list (option value) :=
  map Some (sortByHash hash (omap comparedElem es))
    ++ List.filter isUndefElem es ++ List.filter isHole es.

(** ** The diff engine *)

Definition diffResult : Type := option (heap * list RawChangeT).

(** [if (key)]: the key is present and not the empty string. *)
Definition keyTruthy (key : option string) : bool :=
  match key with
  | Some k => negb (String.eqb k "")
  | None => false
  end.

(** The property name an optional key denotes ([undefined] converts to the
    name "undefined"). *)
Definition keyName (key : option string) : string :=
  default "undefined" key.

(** [stack && stack.length > 0 && stack[stack.length - 1].side &&
    Object.getOwnPropertyDescriptor(stack[stack.length - 1].side, key)];
    the most recent frame is the head of the list. *)
Definition recoverable (h : heap) (side : StackT -> value) (stack : list StackT)
    (key : option string) : bool :=
  match stack with
  | top :: _ => truthy (side top) && hasOwnProperty h (side top) (keyName key)
  | [] => false
  end.

(** [rhsKeys.indexOf(lhsKey)], on the key array whose consumed entries are
    [null]. *)
Fixpoint indexOfKey (k : string) (ks : list (option string)) : option nat :=
  match ks with
  | [] => None
  | Some k' :: ks' => if String.eqb k' k then Some 0 else S <$> indexOfKey k ks'
  | None :: ks' => S <$> indexOfKey k ks'
  end.

Section DeepDiff.

  (** The order-independent hash of [./utils] is not part of the sources; it
      is a parameter of the engine. *)
Variable getOrderIndependentHash : heap -> value -> Z.

  (** [arr.sort((a, b) => hash(a) - hash(b))], in place. *)
Definition sortInPlace (h : heap) (v : value) : heap :=
    match v with
    | VRef a =>
        match h !! a with
        | Some (Obj (CArray es) ps) =>
            <[a := Obj (CArray (sortElems (getOrderIndependentHash h) es)) ps]> h
        | _ => h
        end
    | _ => h
    end.

  (** The two tail loops of the array case: one record per index from
      [lo + n - 1] down to [lo], each wrapping the element of [arr] there. *)
Fixpoint tailItems (mk : value -> RawItemT) (p : list string) (h : heap)
      (arr : value) (lo n : nat) : list RawChangeT :=
    match n with
    | 0 => []
    | S n' => ChA p (lo + n') (mk (getIndex h arr (lo + n'))) :: tailItems mk p h arr lo n'
    end.

Section Loops.

    (** The recursive call, with the options that do not change left out. *)
Variable rec : heap -> value -> value -> string -> diffResult.

    (** [while (i >= 0) { deepDiff(lhs[i], rhs[i], ..., key: i.toString()); --i; }]
        started at [i = n - 1]. *)
Fixpoint arrayLoop (h : heap) (lhs rhs : value) (n : nat) : diffResult :=
      match n with
      | 0 => Some (h, [])
      | S i =>
          '(h1, c1) ← rec h (getIndex h lhs i) (getIndex h rhs i) (indexToString i);
          '(h2, c2) ← arrayLoop h1 lhs rhs i;
          Some (h2, c1 ++ c2)
      end.

    (** [lhsKeys.forEach(...)]: returns the key array of the right side with
        the consumed keys nulled out. *)
Fixpoint lhsKeysLoop (h : heap) (lhs rhs : value) (lhsKeys : list string)
        (rhsKeys : list (option string))
        : option (heap * list RawChangeT * list (option string)) :=
      match lhsKeys with
      | [] => Some (h, [], rhsKeys)
      | lhsKey :: ks =>
          match indexOfKey lhsKey rhsKeys with
          | Some other =>
              '(h1, c1) ← rec h (getProp h lhs lhsKey) (getProp h rhs lhsKey) lhsKey;
              '(h2, c2, rk) ← lhsKeysLoop h1 lhs rhs ks (<[other := None]> rhsKeys);
              Some (h2, c1 ++ c2, rk)
          | None =>
              '(h1, c1) ← rec h (getProp h lhs lhsKey) VNull lhsKey;
              '(h2, c2, rk) ← lhsKeysLoop h1 lhs rhs ks rhsKeys;
              Some (h2, c1 ++ c2, rk)
          end
      end.

    (** [rhsKeys.forEach(rhsKey => { if (rhsKey) deepDiff(null, rhs[rhsKey], ...) })] *)
Fixpoint rhsKeysLoop (h : heap) (rhs : value) (rhsKeys : list (option string))
        : diffResult :=
      match rhsKeys with
      | [] => Some (h, [])
      | rhsKey :: ks =>
          if keyTruthy rhsKey then
            '(h1, c1) ← rec h VNull (getProp h rhs (keyName rhsKey)) (keyName rhsKey);
            '(h2, c2) ← rhsKeysLoop h1 rhs ks;
            Some (h2, c1 ++ c2)
          else rhsKeysLoop h rhs ks
      end.

End Loops.

  (** The body of [deepDiff(lhs, rhs, changes, opts)], with the recursive call
    [deepDiff] left open.  The result is the store after the call and the
    records the call pushes onto [changes], in order.  The stack is the same
    after the call as before it (every push is popped), so it is passed
    down by value. *)
Definition deepDiffBody
    (deepDiff : heap -> value -> value -> DeepDiffOptsT -> diffResult)
    (h : heap) (lhs rhs : value) (opts : DeepDiffOptsT) : diffResult :=
  let stack := default [] (stack opts) in
  let currentPath := default [] (path opts) in
  if keyTruthy (key opts) &&
     match prefilter opts with
     | Some pf => pf currentPath (keyName (key opts))
     | None => false
     end
  then Some (h, [])
  else
    let currentPath :=
      if keyTruthy (key opts) then currentPath ++ [keyName (key opts)]
      else currentPath in
    let bothRegexp :=
      String.eqb (realTypeOf h lhs) "regexp" && String.eqb (realTypeOf h rhs) "regexp" in
    let lhs := if bothRegexp then regexpToString h lhs else lhs in
    let rhs := if bothRegexp then regexpToString h rhs else rhs in
    let ldefined := truthy lhs || recoverable h st_lhs stack (key opts) in
    let rdefined := truthy rhs || recoverable h st_rhs stack (key opts) in
    if negb ldefined && rdefined then Some (h, [ChN currentPath rhs])
    else if negb rdefined && ldefined then Some (h, [ChD currentPath lhs])
    else if negb (String.eqb (realTypeOf h lhs) (realTypeOf h rhs)) then
      Some (h, [ChE currentPath lhs rhs])
    else if String.eqb (realTypeOf h lhs) "date" && dateMinusNonZero h lhs rhs then
      Some (h, [ChE currentPath lhs rhs])
    else if truthy lhs && truthy rhs && String.eqb (typeof lhs) "object" then
      if existsb (fun f => strictEq (st_lhs f) lhs) stack then
        if negb (strictEq lhs rhs) then Some (h, [ChE currentPath lhs rhs])
        else Some (h, [])
      else
        let stack := Frame lhs rhs :: stack in
        let rec := fun h' l r k =>
          deepDiff h' l r
            (Opts (prefilter opts) (orderIndependent opts) (Some k)
                  (Some currentPath) (Some stack)) in
        if isArray h lhs then
          let h := if orderIndependent opts then sortInPlace h lhs else h in
          let h := if orderIndependent opts then sortInPlace h rhs else h in
          let lr := length (elemsOf h rhs) in
          let ll := length (elemsOf h lhs) in
          let added := tailItems ItN currentPath h rhs ll (lr - ll) in
          let removed := tailItems ItD currentPath h lhs lr (ll - lr) in
          '(h', cs) ← arrayLoop rec h lhs rhs (min lr ll);
          Some (h', added ++ removed ++ cs)
        else
          let lhsKeys := ownKeys h lhs in
          let rhsKeys := map Some (ownKeys h rhs) in
          '(h1, c1, rhsKeys) ← lhsKeysLoop rec h lhs rhs lhsKeys rhsKeys;
          '(h2, c2) ← rhsKeysLoop rec h1 rhs rhsKeys;
          Some (h2, c1 ++ c2)
    else if negb (strictEq lhs rhs) then
      if negb (String.eqb (typeof lhs) "number" &&
               match lhs with VNum n => numIsNaN n | _ => false end &&
               match rhs with VNum n => numIsNaN n | _ => false end)
      then Some (h, [ChE currentPath lhs rhs])
      else Some (h, [])
    else Some (h, []).

(** [deepDiff]: [None] when the recursion is deeper than [fuel]. *)
Fixpoint deepDiff (fuel : nat) : heap -> value -> value -> DeepDiffOptsT -> diffResult :=
  match fuel with
  | 0 => fun _ _ _ _ => None
  | S fuel' => deepDiffBody (deepDiff fuel')
  end.

(** [diff(left, right, options)]: the engine started with an empty record
    list and [{ prefilter, orderIndependent }].  The recursion is never
    deeper than the number of objects in the store plus two (see
    [diff_total]): every level but the last two pushes another object of
    the store. *)
Definition diff (h : heap) (left right : value) (pf : option PrefilterT) (oi : bool)
    : diffResult :=
  deepDiff (length h + 2) h left right (topOpts pf oi).

End DeepDiff.

(** The comparison of the common prefix of two arrays: [cmp h i] is the
    comparison at index [i] in the store [h]; the indices below [n] are
    compared from [n - 1] down to 0, each in the store that the previous
    comparison left, and the records are put together in that order. *)
Inductive comparedDown (cmp : heap -> nat -> diffResult)
    : nat -> heap -> heap -> list RawChangeT -> Prop :=
| comparedDown_0 h : comparedDown cmp 0 h h []
| comparedDown_S i h h1 c1 h2 c2 :
    cmp h i = Some (h1, c1) ->
    comparedDown cmp i h1 h2 c2 ->
    comparedDown cmp (S i) h h2 (c1 ++ c2).

(** ** Outcomes of code that can throw *)

Inductive exn :=
| TypeError
| Error (msg : string).

(** [OutsideModel]: the call leaves the fragment of the language that the
    model covers (nothing is claimed about it). *)
Inductive outcome (A : Type) :=
| Returns (a : A)
| Throws (e : exn)
| OutsideModel.

Arguments Returns {A} a.
Arguments Throws {A} e.
Arguments OutsideModel {A}.

Definition obind {A B : Type} (m : outcome A) (f : A -> outcome B) : outcome B :=
  match m with
  | Returns a => f a
  | Throws e => Throws e
  | OutsideModel => OutsideModel
  end.

Notation "'do' x <- m ; k" := (obind m (fun x => k))
  (at level 10, x name, m at level 100, k at level 200).
Notation "'do' ' p <- m ; k" := (obind m (fun x => match x with p => k end))
  (at level 10, p pattern, m at level 100, k at level 200).

(** ** Reading, writing and deleting properties (module code is strict) *)

(** The names of the properties of [Object.prototype], which every object
    of the model inherits: the built-in prototypes are as the language
    defines them, and no program changes them. *)
Definition objectPrototypeNames : list string :=
  ["constructor"; "__defineGetter__"; "__defineSetter__"; "hasOwnProperty";
   "__lookupGetter__"; "__lookupSetter__"; "isPrototypeOf"; "propertyIsEnumerable";
   "toString"; "valueOf"; "__proto__"; "toLocaleString"].

Definition inheritedName (k : string) : bool :=
  bool_decide (k ∈ objectPrototypeNames).

(** What [it[k]] finds when [k] is not an own property of the object: on a
    plain object [undefined], unless the name is inherited from
    [Object.prototype]; on an array [undefined] for an index, which no
    prototype defines.  An inherited property is a function or an accessor:
    reading it leaves the model, and so does reading any other name that an
    array, a date or a regular expression does not have itself, since their
    prototypes define many. *)
Definition getInherited (c : class) (k : string) : outcome value :=
  match c with
  | CObject => if inheritedName k then OutsideModel else Returns VUndef
  | CArray _ =>
      match parseIndex k with
      | Some _ => Returns VUndef
      | None => OutsideModel
      end
  | _ => OutsideModel
  end.

(** [it[k]]: the own property if there is one, else what the prototype
    chain has.  A number or a boolean has no own property, and a string has
    its characters and its length. *)
Definition getV (h : heap) (it : value) (k : string) : outcome value :=
  match it with
  | VUndef | VNull => Throws TypeError
  | VBool _ | VNum _ => OutsideModel
  | VStr s =>
      match parseIndex k with
      | Some i =>
          match charAt s i with
          | Some c => Returns (VStr c)
          | None => OutsideModel
          end
      | None =>
          if String.eqb k "length" then Returns (VNum (numOfNat (String.length s)))
          else OutsideModel
      end
  | VRef a =>
      match h !! a with
      | Some o =>
          if hasOwnProperty h it k then Returns (getOwn o k)
          else getInherited (cls o) k
      | None => Returns VUndef
      end
  end.

(** Is [k] the key of an own named property? *)
Definition hasKey {A : Type} (k : string) (ps : list (string * A)) : bool :=
  bool_decide (is_Some (assoc k ps)).

Fixpoint replaceProp {A : Type} (k : string) (v : A) (ps : list (string * A))
    : list (string * A) :=
  match ps with
  | [] => []
  | (k', v') :: ps' =>
      if String.eqb k' k then (k', v) :: ps' else (k', v') :: replaceProp k v ps'
  end.

(** A new key that is an array index goes among the leading keys that are
    array indices, in ascending order; they are enumerated before every
    other key. *)
Fixpoint insertIndexProp {A : Type} (i : nat) (k : string) (v : A)
    (ps : list (string * A)) : list (string * A) :=
  match ps with
  | [] => [(k, v)]
  | (k', v') :: ps' =>
      match arrayIndex k' with
      | Some j => if j <? i then (k', v') :: insertIndexProp i k v ps'
                  else (k, v) :: (k', v') :: ps'
      | None => (k, v) :: (k', v') :: ps'
      end
  end.

(** A new key: an array index in its place, any other key last. *)
Definition insertProp {A : Type} (k : string) (v : A) (ps : list (string * A))
    : list (string * A) :=
  match arrayIndex k with
  | Some i => insertIndexProp i k v ps
  | None => ps ++ [(k, v)]
  end.

Definition setNamed {A : Type} (k : string) (v : A) (ps : list (string * A))
    : list (string * A) :=
  if hasKey k ps then replaceProp k v ps else insertProp k v ps.

Fixpoint removeProp {A : Type} (k : string) (ps : list (string * A))
    : list (string * A) :=
  match ps with
  | [] => []
  | (k', v') :: ps' =>
      if String.eqb k' k then ps' else (k', v') :: removeProp k ps'
  end.

(** [arr[i] = v]: the array grows, with holes, when [i] is past its end. *)
Definition setElem (i : nat) (v : value) (es : list (option value)) : list (option value) :=
  if i <? length es then <[i := Some v]> es
  else es ++ replicate (i - length es) None ++ [Some v].

(** [o[k] = v] on an object of the store.  Writing an array's [length] is
    outside the model. *)
Definition setOwn (o : object) (k : string) (v : value) : outcome object :=
  match cls o, arrayIndex k with
  | CArray es, Some i => Returns (Obj (CArray (setElem i v es)) (props o))
  | CArray es, None =>
      if String.eqb k "length" then OutsideModel
      else Returns (Obj (cls o) (setNamed k v (props o)))
  | _, _ => Returns (Obj (cls o) (setNamed k v (props o)))
  end.

(** Whether an assignment to a key the object does not have itself is
    taken by the prototype chain instead of creating an own property:
    [__proto__] is an accessor of [Object.prototype] with a setter, and the
    prototype of a regular expression has accessors without one.  The other
    inherited properties are writable data properties, which an assignment
    shadows by an own property. *)
Definition inheritedAccessor (c : class) (k : string) : bool :=
  String.eqb k "__proto__" ||
  match c with CRegExp _ _ => true | _ => false end.

(** [it[k] = v]: an own property is overwritten; a new one is created
    unless the prototype chain takes the assignment, which leaves the
    model.  Creating a property on a primitive throws in strict code. *)
Definition setV (h : heap) (it : value) (k : string) (v : value) : outcome heap :=
  match it with
  | VRef a =>
      match h !! a with
      | Some o =>
          if negb (hasOwnProperty h it k) && inheritedAccessor (cls o) k
          then OutsideModel
          else do o' <- setOwn o k v; Returns (<[a := o']> h)
      | None => Returns h
      end
  | VUndef | VNull => Throws TypeError
  | VBool _ | VNum _ | VStr _ =>
      if String.eqb k "__proto__" then OutsideModel else Throws TypeError
  end.

(** [delete o[k]] on an object of the store: deleting an array element
    leaves a hole; an array's [length] cannot be deleted. *)
Definition deleteOwn (o : object) (k : string) : outcome object :=
  match cls o, arrayIndex k with
  | CArray es, Some i => Returns (Obj (CArray (<[i := None]> es)) (props o))
  | CArray es, None =>
      if String.eqb k "length" then Throws TypeError
      else Returns (Obj (cls o) (removeProp k (props o)))
  | _, _ => Returns (Obj (cls o) (removeProp k (props o)))
  end.

(** [delete it[k]] *)
Definition deleteV (h : heap) (it : value) (k : string) : outcome heap :=
  match it with
  | VUndef | VNull => Throws TypeError
  | VBool _ | VNum _ => Returns h
  | VStr s =>
      if hasOwnProperty h it k then Throws TypeError else Returns h
  | VRef a =>
      match h !! a with
      | Some o => do o' <- deleteOwn o k; Returns (<[a := o']> h)
      | None => Returns h
      end
  end.

(** ** The revert engine *)

(** A change record as [revertChange] receives it: an object read by field
    name.  A field holds a value, an array of keys, or a nested record. *)
#[warnings="-register-all"] Inductive field :=
| FVal (v : value)
| FKeys (p : list string)
| FRec (fs : list (string * field)).

Definition changeDoc := list (string * field).

(** The object literals that [deepDiff] pushes. *)
Definition rawItemObject (it : RawItemT) : changeDoc :=
  match it with
  | ItN r => [("k", FVal (VStr "N")); ("r", FVal r)]
  | ItD l => [("k", FVal (VStr "D")); ("l", FVal l)]
  end.

Definition rawObject (c : RawChangeT) : changeDoc :=
  match c with
  | ChN p r => [("k", FVal (VStr "N")); ("p", FKeys p); ("r", FVal r)]
  | ChD p l => [("k", FVal (VStr "D")); ("p", FKeys p); ("l", FVal l)]
  | ChE p l r => [("k", FVal (VStr "E")); ("p", FKeys p); ("l", FVal l); ("r", FVal r)]
  | ChA p i it =>
      [("k", FVal (VStr "A")); ("p", FKeys p); ("i", FVal (VNum (numOfNat i)));
       ("it", FRec (rawItemObject it))]
  end.

(** Truthiness of a field that may be absent. *)
Definition fieldTruthy (f : option field) : bool :=
  match f with
  | Some (FVal v) => truthy v
  | Some _ => true
  | None => false
  end.

(** [switch (change.kind)]: which case a kind selects. *)
Inductive kindCase := CaseA | CaseD | CaseE | CaseN | CaseDefault.

Definition kindCaseOf (f : option field) : kindCase :=
  match f with
  | Some (FVal (VStr s)) =>
      if String.eqb s "A" then CaseA
      else if String.eqb s "D" then CaseD
      else if String.eqb s "E" then CaseE
      else if String.eqb s "N" then CaseN
      else CaseDefault
  | _ => CaseDefault
  end.

(** [change.lhs] as a value of the store; a key array or a nested record in
    that field is outside the model. *)
Definition fieldValue (f : option field) : outcome value :=
  match f with
  | None => Returns VUndef
  | Some (FVal v) => Returns v
  | Some _ => OutsideModel
  end.

(** The loop of [revertChange] over the segments before the last one:
    [if (typeof it[k] === 'undefined') it[k] = {}; it = it[k];] *)
Fixpoint walk (h : heap) (it : value) (ks : list string) : outcome (heap * value) :=
  match ks with
  | [] => Returns (h, it)
  | k :: ks' =>
      do v <- getV h it k;
      do h1 <- (if String.eqb (typeof v) "undefined"
                then setV (h ++ [Obj CObject []]) it k (VRef (length h))
                else Returns h);
      do it' <- getV h1 it k;
      walk h1 it' ks'
  end.

(** The value reached from [v] along segments that are all present: each
    segment reads, on the object itself, a value other than [undefined]. *)
Fixpoint follows (h : heap) (v : value) (ks : list string) : option value :=
  match ks with
  | [] => Some v
  | k :: ks' =>
      match v with
      | VRef _ =>
          match getProp h v k with
          | VUndef => None
          | x => follows h x ks'
          end
      | _ => None
      end
  end.

(** The objects created for the missing segments [ks] below a new object
    at address [n]: each holds the next one under its segment, the last is
    empty. *)
Fixpoint chain (n : nat) (ks : list string) : list object :=
  match ks with
  | [] => [Obj CObject []]
  | k :: ks' => Obj CObject [(k, VRef (S n))] :: chain (S n) ks'
  end.

(** The store after creating the segments [k1 :: ks] from the plain object
    at [a]: the first new object is stored under [k1], the others follow
    at the end of the store. *)
Definition vivified (h : heap) (a : addr) (ps : list (string * value))
    (k1 : string) (ks : list string) : heap :=
  <[a := Obj CObject (setNamed k1 (VRef (length h)) ps)]> h ++ chain (length h) ks.

Section Revert.

  (** The array-revert helper of [./utils] is not part of the sources; it is
      a parameter: it receives the store, the array found at the final
      location, and the record's [index] and [item] fields. *)
Variable revertArrayChange :
    heap -> value -> option field -> option field -> outcome heap.

  (** [revertChange(target, change)]; [None] is an absent ([undefined] or
      [null]) change. *)
Definition revertChange (h : heap) (target : value) (change : option changeDoc)
      : outcome heap :=
    match change with
    | Some c =>
        if truthy target && fieldTruthy (assoc "kind" c) then
          match assoc "path" c with
          | None => Throws TypeError
          | Some (FKeys p) =>
              do '(h1, it) <- walk h target (take (length p - 1) p);
              let k := default "undefined" (p !! (length p - 1)) in
              match kindCaseOf (assoc "kind" c) with
              | CaseA =>
                  do arr <- getV h1 it k;
                  revertArrayChange h1 arr (assoc "index" c) (assoc "item" c)
              | CaseD | CaseE =>
                  do l <- fieldValue (assoc "lhs" c);
                  setV h1 it k l
              | CaseN => deleteV h1 it k
              | CaseDefault => Returns h1
              end
          | Some _ => OutsideModel
          end
        else Returns h
    | None => Returns h
    end.

End Revert.

(** ** The observer and the collector *)

Section Observe.

Variable getOrderIndependentHash : heap -> value -> Z.

  (** What an observer can change: the store and state [W] of its own. *)
Context {W : Type}.

Definition observerT : Type := RawChangeT -> heap * W -> outcome (heap * W).

  (** [changes.forEach(observer)]: stops at the first call that throws. *)
Fixpoint forEach (observer : observerT) (changes : list RawChangeT) (s : heap * W)
      : outcome (heap * W) :=
    match changes with
    | [] => Returns s
    | c :: cs => do s' <- observer c s; forEach observer cs s'
    end.

  (** [observableDiff(lhs, rhs, observer, prefilter, orderIndependent)]:
      the result is the store, the observer's state and the array
      [changes]. *)
Definition observableDiff (h : heap) (w : W) (lhs rhs : value)
      (observer : option observerT) (pf : option PrefilterT) (oi : bool)
      : option (outcome (heap * W * list RawChangeT)) :=
    '(h1, changes) ← diff getOrderIndependentHash h lhs rhs pf oi;
    Some (do '(h2, w2) <-
               match observer with
               | Some f => forEach f changes (h1, w)
               | None => Returns (h1, w)
               end;
          Returns (h2, w2, changes)).

End Observe.

(** What [findDiff] is given as [accum]: nothing (a falsy value), an array,
    an object without a [push] property, or an object whose [push] is truthy
    but not a function. *)
Inductive accumT :=
| AccumArray (items : list RawChangeT)
| AccumNoPush
| AccumPushNotCallable.

(** The observer [findDiff] builds around a truthy [accum]. *)
Definition accumObserver : @observerT accumT :=
  fun difference '(h, accum) =>
    match accum with
    | AccumNoPush => Throws (Error "accum should have a 'push()' function")
    | AccumPushNotCallable => Throws TypeError
    | AccumArray items => Returns (h, AccumArray (items ++ [difference]))
    end.

Inductive findResult :=
| FoundAccum (accum : accumT)
| FoundChanges (changes : list RawChangeT).

(** [findDiff(lhs, rhs, orderIndependent, prefilter, accum)] *)
Definition findDiff (hash : heap -> value -> Z) (h : heap) (lhs rhs : value)
    (oi : bool) (pf : option PrefilterT) (accum : option accumT)
    : option (outcome (heap * findResult)) :=
  match accum with
  | Some a =>
      r ← observableDiff hash h a lhs rhs (Some accumObserver) pf oi;
      Some (do '(h', a', _) <- r; Returns (h', FoundAccum a'))
  | None =>
      r ← observableDiff (W := unit) hash h tt lhs rhs None pf oi;
      Some (do '(h', _, changes) <- r; Returns (h', FoundChanges changes))
  end.

(** * Properties *)

Arguments deepDiff : simpl never.
Arguments deepDiffBody : simpl never.
Arguments arrayIndex : simpl never.

(** ** Keys *)

Lemma indexToString_nonempty (i : nat) : indexToString i <> "".
Proof.
  unfold indexToString, NilZero.string_of_uint.
  destruct (Nat.to_uint i); simpl; congruence.
Qed.

Lemma keyTruthy_index (i : nat) : keyTruthy (Some (indexToString i)) = true.
Proof.
  simpl. apply negb_true_iff, String.eqb_neq, indexToString_nonempty.
Qed.

Lemma keyTruthy_Some (k : string) : k <> "" -> keyTruthy (Some k) = true.
Proof.
  intros Hk. simpl. now apply negb_true_iff, String.eqb_neq.
Qed.

(** ** More fuel never changes a result *)

(** [a] refines to [b]: whatever [a] returns, [b] returns too. *)
Definition refines {A : Type} (a b : option A) : Prop :=
  forall r, a = Some r -> b = Some r.

Lemma refines_refl {A : Type} (a : option A) : refines a a.
Proof. now intros r. Qed.

Lemma refines_bind {A B : Type} (a b : option A) (f g : A -> option B) :
  refines a b -> (forall x, refines (f x) (g x)) ->
  refines (a ≫= f) (b ≫= g).
Proof.
  intros Hab Hfg r. destruct a as [x|]; simpl; [|done].
  rewrite (Hab x eq_refl). simpl. apply Hfg.
Qed.

Lemma refines_antisym {A : Type} (a b : option A) :
  refines a b -> refines b a -> a = b.
Proof.
  intros Hab Hba. destruct a as [x|], b as [y|]; try done.
  - symmetry. now apply Hab.
  - now specialize (Hab x eq_refl).
  - now specialize (Hba y eq_refl).
Qed.

Section LoopsMono.

Variables rec1 rec2 : heap -> value -> value -> string -> diffResult.
Hypothesis rec_mono : forall h l r k, refines (rec1 h l r k) (rec2 h l r k).

Lemma arrayLoop_mono n : forall h l r,
  refines (arrayLoop rec1 h l r n) (arrayLoop rec2 h l r n).
Proof.
  induction n as [|n IH]; intros h l r; simpl; [apply refines_refl|].
  apply refines_bind; [apply rec_mono|]. intros [h1 c1].
  apply refines_bind; [apply IH|]. intros [h2 c2]. apply refines_refl.
Qed.

Lemma lhsKeysLoop_mono ks : forall h l r rk,
  refines (lhsKeysLoop rec1 h l r ks rk) (lhsKeysLoop rec2 h l r ks rk).
Proof.
  induction ks as [|k ks IH]; intros h l r rk; simpl; [apply refines_refl|].
  destruct (indexOfKey k rk).
  - apply refines_bind; [apply rec_mono|]. intros [h1 c1].
    apply refines_bind; [apply IH|]. intros [[h2 c2] rk2]. apply refines_refl.
  - apply refines_bind; [apply rec_mono|]. intros [h1 c1].
    apply refines_bind; [apply IH|]. intros [[h2 c2] rk2]. apply refines_refl.
Qed.

Lemma rhsKeysLoop_mono rk : forall h r,
  refines (rhsKeysLoop rec1 h r rk) (rhsKeysLoop rec2 h r rk).
Proof.
  induction rk as [|k rk IH]; intros h r; simpl; [apply refines_refl|].
  destruct (keyTruthy k); [|apply IH].
  apply refines_bind; [apply rec_mono|]. intros [h1 c1].
  apply refines_bind; [apply IH|]. intros [h2 c2]. apply refines_refl.
Qed.

End LoopsMono.

(** Peel the conditionals that two runs of the body have in common. *)
Ltac same_branches :=
  repeat match goal with
  | |- refines (if ?c then _ else _) (if ?c then _ else _) => destruct c
  | |- refines ?a ?a => apply refines_refl
  end.

Lemma deepDiffBody_mono hash d1 d2 :
  (forall h l r o, refines (d1 h l r o) (d2 h l r o)) ->
  forall h l r o, refines (deepDiffBody hash d1 h l r o) (deepDiffBody hash d2 h l r o).
Proof.
  intros Hd h l r o. unfold deepDiffBody. cbv zeta. same_branches.
  - apply refines_bind; [apply arrayLoop_mono; intros; apply Hd|].
    intros [h' cs]. apply refines_refl.
  - apply refines_bind; [apply lhsKeysLoop_mono; intros; apply Hd|].
    intros [[h1 c1] rk]. apply refines_bind; [apply rhsKeysLoop_mono; intros; apply Hd|].
    intros [h2 c2]. apply refines_refl.
Qed.

Lemma deepDiff_S hash fuel h l r o :
  deepDiff hash (S fuel) h l r o = deepDiffBody hash (deepDiff hash fuel) h l r o.
Proof. reflexivity. Qed.

Lemma deepDiff_mono_S hash fuel : forall h l r o,
  refines (deepDiff hash fuel h l r o) (deepDiff hash (S fuel) h l r o).
Proof.
  induction fuel as [|fuel IH]; intros h l r o; [done|].
  rewrite !deepDiff_S. now apply deepDiffBody_mono.
Qed.

Lemma deepDiff_mono hash fuel fuel' h l r o res :
  fuel <= fuel' ->
  deepDiff hash fuel h l r o = Some res ->
  deepDiff hash fuel' h l r o = Some res.
Proof.
  induction 1 as [|m _ IH]; [done|].
  intros H. now apply deepDiff_mono_S, IH.
Qed.

(** ** What a run preserves: the store and the paths of the records *)

Definition changePath (c : RawChangeT) : list string :=
  match c with
  | ChN p _ | ChD p _ | ChE p _ _ | ChA p _ _ => p
  end.

(** The path a call works at: the path it is given, extended by its key
    unless the key is absent or empty. *)
Definition currentPathOf (o : DeepDiffOptsT) : list string :=
  if keyTruthy (key o) then default [] (path o) ++ [keyName (key o)]
  else default [] (path o).

Definition underPath (p : list string) (c : RawChangeT) : Prop :=
  p `prefix_of` changePath c.

Lemma underPath_weaken p k c : underPath (p ++ k) c -> underPath p c.
Proof.
  unfold underPath. intros H. etrans; [|exact H]. now apply prefix_app_r.
Qed.

Lemma Forall_underPath_weaken p k cs :
  Forall (underPath (p ++ k)) cs -> Forall (underPath p) cs.
Proof.
  intros H. eapply Forall_impl; [exact H|]. intros c. apply underPath_weaken.
Qed.

Section LoopsInv.

Variable R : heap -> heap -> Prop.
Hypothesis R_refl : forall h, R h h.
Hypothesis R_trans : forall h1 h2 h3, R h1 h2 -> R h2 h3 -> R h1 h3.
Variable C : RawChangeT -> Prop.
Variable rec : heap -> value -> value -> string -> diffResult.
Hypothesis rec_inv : forall h l r k h' cs,
  rec h l r k = Some (h', cs) -> R h h' /\ Forall C cs.

Lemma arrayLoop_inv n : forall h l r h' cs,
  arrayLoop rec h l r n = Some (h', cs) -> R h h' /\ Forall C cs.
Proof.
  induction n as [|n IH]; intros h l r h' cs H; simpl in H.
  - simplify_eq. split; [apply R_refl|constructor].
  - destruct (rec h _ _ _) as [[h1 c1]|] eqn:E1; simpl in H; [|done].
    destruct (arrayLoop rec h1 l r n) as [[h2 c2]|] eqn:E2; simpl in H; [|done].
    simplify_eq. apply rec_inv in E1 as [? ?]. apply IH in E2 as [? ?].
    split; [eauto|]. now apply Forall_app.
Qed.

Lemma lhsKeysLoop_inv ks : forall h l r rk h' cs rk',
  lhsKeysLoop rec h l r ks rk = Some (h', cs, rk') -> R h h' /\ Forall C cs.
Proof.
  induction ks as [|k ks IH]; intros h l r rk h' cs rk' H; simpl in H.
  - simplify_eq. split; [apply R_refl|constructor].
  - destruct (indexOfKey k rk).
    + destruct (rec h _ _ _) as [[h1 c1]|] eqn:E1; simpl in H; [|done].
      destruct (lhsKeysLoop rec h1 l r ks _) as [[[h2 c2] rk2]|] eqn:E2;
        simpl in H; [|done].
      simplify_eq. apply rec_inv in E1 as [? ?]. apply IH in E2 as [? ?].
      split; [eauto|]. now apply Forall_app.
    + destruct (rec h _ _ _) as [[h1 c1]|] eqn:E1; simpl in H; [|done].
      destruct (lhsKeysLoop rec h1 l r ks _) as [[[h2 c2] rk2]|] eqn:E2;
        simpl in H; [|done].
      simplify_eq. apply rec_inv in E1 as [? ?]. apply IH in E2 as [? ?].
      split; [eauto|]. now apply Forall_app.
Qed.

Lemma rhsKeysLoop_inv rk : forall h r h' cs,
  rhsKeysLoop rec h r rk = Some (h', cs) -> R h h' /\ Forall C cs.
Proof.
  induction rk as [|k rk IH]; intros h r h' cs H; simpl in H.
  - simplify_eq. split; [apply R_refl|constructor].
  - destruct (keyTruthy k); [|eauto].
    destruct (rec h _ _ _) as [[h1 c1]|] eqn:E1; simpl in H; [|done].
    destruct (rhsKeysLoop rec h1 r rk) as [[h2 c2]|] eqn:E2; simpl in H; [|done].
    simplify_eq. apply rec_inv in E1 as [? ?]. apply IH in E2 as [? ?].
    split; [eauto|]. now apply Forall_app.
Qed.

End LoopsInv.

(** Split a run of the body into the branch it took. *)
Ltac body_cases H :=
  unfold deepDiffBody in H; cbv zeta in H;
  repeat match type of H with
  | (if ?c then _ else _) = _ => destruct c eqn:?
  end.

Section BodyInv.

Variable hash : heap -> value -> Z.

(** A relation between the store before and after a run. *)
Variable R : heap -> heap -> Prop.
Hypothesis R_refl : forall h, R h h.
Hypothesis R_trans : forall h1 h2 h3, R h1 h2 -> R h2 h3 -> R h1 h3.
Variable oi : bool.
Hypothesis R_sort : oi = true -> forall h v, R h (sortInPlace hash h v).

(** A property of the records of a run that works at a given path: it holds
    of a record at that very path, and of the records of a run one
    (non-empty) key below. *)
Variable C : list string -> RawChangeT -> Prop.
Hypothesis C_here : forall p c, changePath c = p -> C p c.
Hypothesis C_weaken : forall p k c, k <> "" -> C (p ++ [k]) c -> C p c.

Variable d : heap -> value -> value -> DeepDiffOptsT -> diffResult.
Hypothesis d_inv : forall h l r o h' cs,
  orderIndependent o = oi ->
  d h l r o = Some (h', cs) -> R h h' /\ Forall (C (currentPathOf o)) cs.

Lemma tailItems_here mk p h arr lo n :
  Forall (C p) (tailItems mk p h arr lo n).
Proof using C_here.
  induction n as [|n IH]; simpl; constructor; [|done]. now apply C_here.
Qed.

Lemma deepDiffBody_inv h l r o h' cs :
  orderIndependent o = oi ->
  deepDiffBody hash d h l r o = Some (h', cs) ->
  R h h' /\ Forall (C (currentPathOf o)) cs.
Proof using All.
  intros Hoi H. subst oi.
  assert (Hrec : forall k h0 l0 r0 h1 cs1 st,
    d h0 l0 r0 (Opts (prefilter o) (orderIndependent o) (Some k)
                     (Some (currentPathOf o)) st) = Some (h1, cs1) ->
    R h0 h1 /\ Forall (C (currentPathOf o)) cs1).
  { intros k h0 l0 r0 h1 cs1 st E. apply d_inv in E as [? E]; [|done].
    split; [done|]. unfold currentPathOf at 1 in E. cbn [key path keyName] in E.
    cbn [default from_option id] in E.
    destruct (keyTruthy (Some k)) eqn:Ek; [|done].
    eapply Forall_impl; [exact E|]. intros c. apply C_weaken.
    simpl in Ek. now apply negb_true_iff, String.eqb_neq in Ek. }
  unfold deepDiffBody in H; cbv zeta in H. fold (currentPathOf o) in H.
  repeat match type of H with
  | (if ?c then _ else _) = _ => destruct c eqn:?
  end; simplify_eq;
  try (split; [apply R_refl|]; repeat constructor; now apply C_here).
  - destruct (arrayLoop _ _ _ _ _) as [[h1 c1]|] eqn:E; simpl in H; [|done].
    simplify_eq.
    eapply arrayLoop_inv in E as [? ?]; [| done | done | intros; eapply Hrec; eauto].
    split.
    + eapply R_trans; [|eassumption].
      destruct (orderIndependent o); [|apply R_refl].
      eapply R_trans; apply R_sort; done.
    + rewrite !Forall_app. split_and!; [apply tailItems_here..|done].
  - destruct (lhsKeysLoop _ _ _ _ _ _) as [[[h1 c1] rk]|] eqn:E1; simpl in H; [|done].
    destruct (rhsKeysLoop _ _ _ _) as [[h2 c2]|] eqn:E2; simpl in H; [|done].
    simplify_eq.
    eapply lhsKeysLoop_inv in E1 as [? ?]; [| done | done | intros; eapply Hrec; eauto].
    eapply rhsKeysLoop_inv in E2 as [? ?]; [| done | done | intros; eapply Hrec; eauto].
    split; [eauto|]. now apply Forall_app.
Qed.

End BodyInv.

Lemma deepDiff_inv hash (R : heap -> heap -> Prop) oi
    (C : list string -> RawChangeT -> Prop) :
  (forall h, R h h) ->
  (forall h1 h2 h3, R h1 h2 -> R h2 h3 -> R h1 h3) ->
  (oi = true -> forall h v, R h (sortInPlace hash h v)) ->
  (forall p c, changePath c = p -> C p c) ->
  (forall p k c, k <> "" -> C (p ++ [k]) c -> C p c) ->
  forall fuel h l r o h' cs,
  orderIndependent o = oi ->
  deepDiff hash fuel h l r o = Some (h', cs) ->
  R h h' /\ Forall (C (currentPathOf o)) cs.
Proof.
  intros Hrefl Htrans Hsort Hhere Hweaken.
  induction fuel as [|fuel IH]; intros h l r o h' cs Hoi H; [done|].
  rewrite deepDiff_S in H.
  eapply (deepDiffBody_inv hash R Hrefl Htrans oi Hsort C Hhere Hweaken); eauto.
Qed.

Lemma underPath_here p c : changePath c = p -> underPath p c.
Proof. intros <-. now unfold underPath. Qed.

Lemma underPath_weaken_key p k c : k <> "" -> underPath (p ++ [k]) c -> underPath p c.
Proof. intros _. apply underPath_weaken. Qed.

Lemma sortInPlace_length hash h v : length (sortInPlace hash h v) = length h.
Proof.
  unfold sortInPlace. destruct v; try done.
  destruct (h !! a) as [[[] ?]|]; try done. apply length_insert.
Qed.

(** A run keeps the size of the store. *)
Lemma deepDiff_length hash fuel h l r o h' cs :
  deepDiff hash fuel h l r o = Some (h', cs) -> length h' = length h.
Proof.
  intros H.
  eapply (deepDiff_inv hash (fun h1 h2 => length h2 = length h1) _ underPath)
    in H as [? _];
    [done| done | congruence | | apply underPath_here | apply underPath_weaken_key
    | reflexivity].
  intros _ h0 v. apply sortInPlace_length.
Qed.

(** Without the order-independent mode a run leaves the store as it is. *)
Lemma deepDiff_positional_heap hash fuel h l r o h' cs :
  orderIndependent o = false ->
  deepDiff hash fuel h l r o = Some (h', cs) -> h' = h.
Proof.
  intros Hoi H.
  eapply (deepDiff_inv hash (fun h1 h2 => h2 = h1) false underPath) in H as [? _];
    [done| done | congruence | done | apply underPath_here
    | apply underPath_weaken_key | done].
Qed.

(** Every record of a run lies at or below the path the run works at. *)
Lemma deepDiff_paths hash fuel h l r o h' cs :
  deepDiff hash fuel h l r o = Some (h', cs) ->
  Forall (underPath (currentPathOf o)) cs.
Proof.
  intros H.
  eapply (deepDiff_inv hash (fun _ _ => True) _ underPath) in H as [_ ?];
    [done | done | done | done | apply underPath_here | apply underPath_weaken_key
    | reflexivity].
Qed.

(** No record of a run has the empty string as a segment of its path, unless
    the path the run was given has it: an empty key is never appended. *)
Lemma deepDiff_no_empty_segment hash fuel h l r o h' cs :
  deepDiff hash fuel h l r o = Some (h', cs) ->
  Forall (fun c => "" ∈ changePath c -> "" ∈ currentPathOf o) cs.
Proof.
  intros H.
  eapply (deepDiff_inv hash (fun _ _ => True) _
            (fun p c => "" ∈ changePath c -> "" ∈ p)) in H as [_ ?];
    [done | done | done | done | | | reflexivity].
  - now intros p c ->.
  - intros p k c Hk Hc Hin. apply Hc in Hin.
    apply elem_of_app in Hin as [?|Hin]; [done|].
    apply list_elem_of_singleton in Hin. congruence.
Qed.

(** ** Termination *)

(** The objects on the left of the stack's frames. *)
Definition stackAddrs (st : list StackT) : list addr :=
  omap (fun f => match st_lhs f with VRef a => Some a | _ => None end) st.

Definition isRef (v : value) : bool :=
  match v with VRef _ => true | _ => false end.

Lemma existsb_stack_addr st a :
  existsb (fun f => strictEq (st_lhs f) (VRef a)) st = false -> a ∉ stackAddrs st.
Proof.
  induction st as [|[l r] st IH]; simpl; [intros _; apply not_elem_of_nil|].
  intros [Hl Hst]%orb_false_iff. unfold stackAddrs. simpl.
  destruct l; simpl in *; try (now apply IH).
  apply not_elem_of_cons. split; [|now apply IH].
  intros ->. now rewrite Nat.eqb_refl in Hl.
Qed.

Lemma bounded_NoDup_length (l : list nat) (n : nat) :
  NoDup l -> Forall (fun a => a < n) l -> length l <= n.
Proof.
  intros Hnd Hlt. rewrite <- (length_seq n 0).
  apply submseteq_length, NoDup_submseteq; [done|].
  intros a Ha. apply elem_of_seq. rewrite Forall_forall in Hlt.
  specialize (Hlt a Ha). lia.
Qed.

Lemma truthy_object_isRef v :
  truthy v = true -> String.eqb (typeof v) "object" = true -> isRef v = true.
Proof. destruct v; simpl; try done. Qed.

Section LoopsTotal.

Variable n : nat.
Variable rec : heap -> value -> value -> string -> diffResult.

Lemma rhsKeysLoop_total rk : forall h r,
  (forall h r k, length h = n -> exists h' cs,
     rec h VNull r k = Some (h', cs) /\ length h' = n) ->
  length h = n ->
  exists h' cs, rhsKeysLoop rec h r rk = Some (h', cs) /\ length h' = n.
Proof.
  intros h r Hrec. revert h r.
  induction rk as [|k rk IH]; intros h r Hh; simpl; [eauto|].
  destruct (keyTruthy k); [|eauto].
  destruct (Hrec h (getProp h r (keyName k)) (keyName k) Hh) as (h1 & c1 & -> & Hh1).
  simpl. destruct (IH h1 r Hh1) as (h2 & c2 & -> & Hh2). simpl. eauto.
Qed.

Hypothesis rec_total : forall h l r k, length h = n ->
  exists h' cs, rec h l r k = Some (h', cs) /\ length h' = n.

Lemma arrayLoop_total m : forall h l r,
  length h = n ->
  exists h' cs, arrayLoop rec h l r m = Some (h', cs) /\ length h' = n.
Proof.
  induction m as [|m IH]; intros h l r Hh; simpl; [eauto|].
  destruct (rec_total h (getIndex h l m) (getIndex h r m) (indexToString m) Hh)
    as (h1 & c1 & -> & Hh1).
  simpl. destruct (IH h1 l r Hh1) as (h2 & c2 & -> & Hh2). simpl. eauto.
Qed.

Lemma lhsKeysLoop_total ks : forall h l r rk,
  length h = n ->
  exists h' cs rk', lhsKeysLoop rec h l r ks rk = Some (h', cs, rk') /\ length h' = n.
Proof.
  induction ks as [|k ks IH]; intros h l r rk Hh; simpl; [eauto|].
  destruct (indexOfKey k rk).
  - destruct (rec_total h (getProp h l k) (getProp h r k) k Hh) as (h1 & c1 & -> & Hh1).
    simpl. destruct (IH h1 l r (<[n0:=None]> rk) Hh1) as (h2 & c2 & rk2 & -> & Hh2).
    simpl. eauto.
  - destruct (rec_total h (getProp h l k) VNull k Hh) as (h1 & c1 & -> & Hh1).
    simpl. destruct (IH h1 l r rk Hh1) as (h2 & c2 & rk2 & -> & Hh2).
    simpl. eauto.
Qed.

End LoopsTotal.

(** The stack invariant of a run started from an empty stack: the objects on
    the left of its frames are distinct objects of the store. *)
Definition stackOK (n : nat) (st : list StackT) : Prop :=
  NoDup (stackAddrs st) /\ Forall (fun a => a < n) (stackAddrs st).

Lemma regexpToString_nonref h v : isRef v = false -> regexpToString h v = v.
Proof. now destruct v. Qed.

Lemma stackOK_push n st a r :
  stackOK n st -> a ∉ stackAddrs st -> a < n ->
  stackOK n (Frame (VRef a) r :: st).
Proof.
  intros [Hnd Hlt] Hnew Ha. split; unfold stackAddrs; simpl.
  - now constructor.
  - now constructor.
Qed.

Lemma deepDiff_total_aux hash : forall fuel h l r o,
  (stackOK (length h) (default [] (stack o)) /\
   length h + 2 <= fuel + length (stackAddrs (default [] (stack o))))
    \/ (isRef l = false /\ 1 <= fuel) ->
  exists h' cs, deepDiff hash fuel h l r o = Some (h', cs) /\ length h' = length h.
Proof.
  induction fuel as [|fuel IH]; intros h l r o Hfuel.
  { destruct Hfuel as [[[Hnd Hlt] ?]|[_ ?]]; [|lia].
    pose proof (bounded_NoDup_length _ _ Hnd Hlt). lia. }
  rewrite deepDiff_S. unfold deepDiffBody. cbv zeta.
  set (bothRegexp := String.eqb (realTypeOf h l) "regexp" && String.eqb (realTypeOf h r) "regexp").
  set (lhs := if bothRegexp then regexpToString h l else l).
  set (rhs := if bothRegexp then regexpToString h r else r).
  set (st := default [] (stack o)) in *.
  set (p := if keyTruthy (key o) then _ else _).
  assert (HA : isRef lhs = true ->
    stackOK (length h) st /\ length h + 2 <= S fuel + length (stackAddrs st)).
  { intros Href. destruct Hfuel as [?|[Hnr _]]; [done|]. exfalso.
    subst lhs. rewrite regexpToString_nonref in Href by done.
    destruct bothRegexp; congruence. }
  clearbody lhs rhs p. clear Hfuel bothRegexp.
  repeat match goal with
  | |- exists _ _, (if ?c then _ else _) = _ /\ _ => destruct c eqn:?
  end; eauto.
  all: match goal with
       | H : truthy _ && truthy _ && String.eqb (typeof _) "object" = true |- _ =>
           apply andb_true_iff in H as [[Hl Hr]%andb_true_iff Hobj]
       end.
  all: pose proof (truthy_object_isRef _ Hl Hobj) as Hrefl.
  all: destruct lhs as [| | | | |a]; try done.
  all: destruct (HA eq_refl) as [Hst HA']; clear HA.
  all: match goal with
       | H : existsb _ _ = false |- _ => apply existsb_stack_addr in H; rename H into Hnew
       end.
  all: assert (Hrec : a < length h -> forall h0 l0 r0 k, length h0 = length h ->
         exists h' cs,
           deepDiff hash fuel h0 l0 r0
             (Opts (prefilter o) (orderIndependent o) (Some k) (Some p)
                   (Some (Frame (VRef a) rhs :: st))) = Some (h', cs)
           /\ length h' = length h)
    by (intros Ha h0 l0 r0 k Hh0; rewrite <- Hh0; apply IH; left; simpl; split;
        [ rewrite Hh0; now apply stackOK_push
        | unfold stackAddrs; simpl; fold (stackAddrs st); lia ]).
  - assert (Ha : a < length h).
    { unfold isArray in *. simpl in *. destruct (h !! a) eqn:E; [|congruence].
      now apply lookup_lt_Some in E. }
    match goal with
    | |- context [arrayLoop ?rec ?hs ?l ?r ?m] =>
        destruct (arrayLoop_total (length h) rec (Hrec Ha) m hs l r) as (h1 & c1 & -> & Hh1)
    end.
    { destruct (orderIndependent o); [|done]. now rewrite !sortInPlace_length. }
    simpl. eauto.
  - destruct (h !! a) as [ob|] eqn:E.
    + assert (Ha : a < length h) by now apply lookup_lt_Some in E.
      match goal with
      | |- context [lhsKeysLoop ?rec ?hs ?l ?r ?ks ?rk] =>
          destruct (lhsKeysLoop_total (length h) rec (Hrec Ha) ks hs l r rk eq_refl)
            as (h1 & c1 & rk1 & -> & Hh1)
      end.
      simpl.
      match goal with
      | |- context [rhsKeysLoop ?rec ?hs ?r ?rk] =>
          destruct (rhsKeysLoop_total (length h) rec rk hs r) as (h2 & c2 & -> & Hh2)
      end; [intros; now apply (Hrec Ha) | done |].
      simpl. eauto.
    + unfold ownKeys at 1. simpl. rewrite E. simpl.
      match goal with
      | |- context [rhsKeysLoop ?rec ?hs ?r ?rk] =>
          destruct (rhsKeysLoop_total (length h) rec rk hs r) as (h2 & c2 & -> & Hh2)
      end; [| done | simpl; eauto].
      intros h0 r0 k Hh0. rewrite <- Hh0. apply IH.
      right. split; [done|]. destruct Hst as [Hnd Hlt].
      pose proof (bounded_NoDup_length _ _ Hnd Hlt). lia.
Qed.

(** [diff] always returns: the bound on the depth of the recursion is
    enough on every store, cyclic or not. *)
Lemma diff_total hash h l r pf oi :
  exists h' cs, diff hash h l r pf oi = Some (h', cs) /\ length h' = length h.
Proof.
  apply deepDiff_total_aux. left. simpl. split; [|lia].
  split; [constructor|constructor].
Qed.

(** ** Concrete inputs *)

(** A hash that gives every element the same key: sorting by it leaves an
    array as it is. *)
Definition zeroHash : heap -> value -> Z := fun _ _ => 0%Z.
(** The number [z]. *)
Definition num (z : Z) : value := VNum (numOfZ z).

Lemma diff_top hash h l r pf oi :
  diff hash h l r pf oi = deepDiffBody hash (deepDiff hash (length h + 1)) h l r (topOpts pf oi).
Proof. unfold diff. now replace (length h + 2) with (S (length h + 1)) by lia. Qed.

(** C4, as amended.  For two values whose type tags differ, [diff] yields
    exactly one record, at the root path: Edited with both raw values when
    both are truthy or both falsy, New with the right value when only the
    left one is falsy, Deleted with the left value when only the right one
    is falsy (at the root there is no frame to recover a falsy value
    from). *)
Theorem diff_type_mismatch hash h v1 v2 pf oi :
  realTypeOf h v1 <> realTypeOf h v2 ->
  diff hash h v1 v2 pf oi =
    Some (h, [if negb (truthy v1) && truthy v2 then ChN [] v2
              else if negb (truthy v2) && truthy v1 then ChD [] v1
              else ChE [] v1 v2]).
Proof.
  intros Htag. rewrite diff_top. unfold deepDiffBody, topOpts. simpl.
  assert (Hre : String.eqb (realTypeOf h v1) "regexp" && String.eqb (realTypeOf h v2) "regexp" = false).
  { apply andb_false_iff.
    destruct (String.eqb_spec (realTypeOf h v1) "regexp") as [E1|]; [|now left].
    destruct (String.eqb_spec (realTypeOf h v2) "regexp") as [E2|]; [|now right].
    congruence. }
  rewrite Hre. rewrite !orb_false_r.
  destruct (negb (truthy v1) && truthy v2); [done|].
  destruct (negb (truthy v2) && truthy v1); [done|].
  apply String.eqb_neq in Htag. now rewrite Htag.
Qed.

(** The prefilter, if there is one, does not reject key [k] under path [p]. *)
Definition accepts (pf : option PrefilterT) (p : list string) (k : string) : Prop :=
  match pf with
  | Some f => f p k = false
  | None => True
  end.

Lemma accepts_false pf p k :
  accepts pf p k ->
  match pf with Some f => f p k | None => false end = false.
Proof. now destruct pf. Qed.

Lemma getProp_plain h a ps k :
  h !! a = Some (Obj CObject ps) ->
  getProp h (VRef a) k = default VUndef (assoc k ps).
Proof. intros Ha. unfold getProp. simpl. now rewrite Ha. Qed.

Lemma hasOwnProperty_plain h a ps k :
  h !! a = Some (Obj CObject ps) ->
  hasOwnProperty h (VRef a) k = bool_decide (is_Some (assoc k ps)).
Proof. intros Ha. unfold hasOwnProperty. now rewrite Ha. Qed.

(** A key only the left object has: the value is recovered from the frame
    by the own-property check, and the record is a deletion. *)
Lemma deepDiff_left_only hash fuel h v p k a b st pf oi :
  k <> "" -> accepts pf p k ->
  truthy a = true ->
  hasOwnProperty h a k = true ->
  truthy b && hasOwnProperty h b k = false ->
  deepDiff hash (S fuel) h v VNull
    (Opts pf oi (Some k) (Some p) (Some (Frame a b :: st)))
  = Some (h, [ChD (p ++ [k]) v]).
Proof.
  intros Hk Hpf Ha Hak Hbk. rewrite deepDiff_S. unfold deepDiffBody.
  cbn [key prefilter path stack default from_option id keyName].
  rewrite (keyTruthy_Some _ Hk), (accepts_false _ _ _ Hpf).
  cbn [andb realTypeOf]. rewrite andb_false_r.
  unfold recoverable. cbn [st_lhs st_rhs keyName default from_option id].
  rewrite Ha, Hak, Hbk. cbn [truthy andb orb negb]. now rewrite orb_true_r.
Qed.

(** C6.  A present value, falsy or not, is told from an absent one by the
    own-property check on the enclosing frame: [diff({k: v}, {})] is exactly
    one Deleted record at path [[k]] with stored value [v], whatever the
    mode and for every prefilter that lets the key through. *)
Theorem diff_present_falsy hash h a b k v pf oi :
  k <> "" ->
  h !! a = Some (Obj CObject [(k, v)]) ->
  h !! b = Some (Obj CObject []) ->
  accepts pf [] k ->
  diff hash h (VRef a) (VRef b) pf oi = Some (h, [ChD [k] v]).
Proof.
  intros Hk Ha Hb Hpf. rewrite diff_top, Nat.add_1_r.
  unfold deepDiffBody, topOpts, isArray, ownKeys.
  repeat (progress (simpl; rewrite ?Ha, ?Hb)).
  rewrite (getProp_plain _ _ _ _ Ha). cbn [assoc]. rewrite String.eqb_refl.
  cbn [default from_option id].
  rewrite deepDiff_left_only; try done.
  - rewrite (hasOwnProperty_plain _ _ _ _ Ha). simpl. now rewrite String.eqb_refl.
  - now rewrite (hasOwnProperty_plain _ _ _ _ Hb).
Qed.

(** C8, as amended.  For two separately built self-referential objects
    [a = {self: a}] and [b = {self: b}], [diff(a, b)] terminates and yields
    exactly one Edited record at path [["self"]] carrying the two
    references: the cycle check stops the descent on re-entry of [a], and
    the two references are not identical. *)
Theorem diff_self_cycles hash h a b pf oi :
  a <> b ->
  h !! a = Some (Obj CObject [("self", VRef a)]) ->
  h !! b = Some (Obj CObject [("self", VRef b)]) ->
  accepts pf [] "self" ->
  diff hash h (VRef a) (VRef b) pf oi = Some (h, [ChE ["self"] (VRef a) (VRef b)]).
Proof.
  intros Hab Ha Hb Hpf. rewrite diff_top, Nat.add_1_r.
  unfold deepDiffBody, topOpts, isArray, ownKeys.
  repeat (progress (simpl; rewrite ?Ha, ?Hb)).
  rewrite (getProp_plain _ _ _ _ Ha), (getProp_plain _ _ _ _ Hb). simpl.
  rewrite deepDiff_S. unfold deepDiffBody. simpl.
  rewrite (accepts_false _ _ _ Hpf).
  repeat (progress (simpl; rewrite ?Ha, ?Hb)).
  rewrite Nat.eqb_refl. simpl.
  apply Nat.eqb_neq in Hab. rewrite Hab. simpl. done.
Qed.

Lemma insertByHash_length f x l : length (insertByHash f x l) = S (length l).
Proof.
  induction l as [|y l IH]; simpl; [done|].
  destruct (f x <=? f y)%Z; simpl; [done|]. now rewrite IH.
Qed.

Lemma sortByHash_length f l : length (sortByHash f l) = length l.
Proof.
  induction l as [|x l IH]; simpl; [done|].
  unfold sortByHash in *. now rewrite insertByHash_length, IH.
Qed.

Lemma sortElems_length f es : length (sortElems f es) = length es.
Proof.
  unfold sortElems. rewrite !length_app, length_map, sortByHash_length.
  induction es as [|e es IH]; [done|].
  destruct e as [[]|]; cbn [omap list_omap comparedElem List.filter isUndefElem isHole length];
    cbn [length] in IH; lia.
Qed.

Lemma elemsOf_sortInPlace_length hash h v w :
  length (elemsOf (sortInPlace hash h v) w) = length (elemsOf h w).
Proof.
  unfold sortInPlace. destruct v as [| | | | |a]; try done.
  destruct (h !! a) as [[[] ps]|] eqn:Ea; try done.
  unfold elemsOf. destruct w as [| | | | |c]; try done. simpl.
  destruct (decide (c = a)) as [->|Hne].
  - rewrite list_lookup_insert_eq by now apply lookup_lt_Some in Ea.
    rewrite Ea. apply sortElems_length.
  - now rewrite list_lookup_insert_ne.
Qed.

Lemma isArray_sortInPlace hash h v w :
  isArray (sortInPlace hash h v) w = isArray h w.
Proof.
  unfold sortInPlace. destruct v as [| | | | |a]; try done.
  destruct (h !! a) as [[[] ps]|] eqn:Ea; try done.
  unfold isArray. destruct w as [| | | | |c]; try done. simpl.
  destruct (decide (c = a)) as [->|Hne].
  - rewrite list_lookup_insert_eq by now apply lookup_lt_Some in Ea.
    now rewrite Ea.
  - now rewrite list_lookup_insert_ne.
Qed.

Lemma tailItems_map mk p h arr lo n :
  tailItems mk p h arr lo n
  = map (fun i => ChA p i (mk (getIndex h arr i))) (reverse (seq lo n)).
Proof.
  induction n as [|n IH]; [done|].
  rewrite seq_S, reverse_app. simpl. now rewrite IH.
Qed.

Lemma arrayLoop_paths hash fuel pf oi p st n : forall h l r h' cs,
  arrayLoop (fun h0 l0 r0 k =>
     deepDiff hash fuel h0 l0 r0 (Opts pf oi (Some k) (Some p) st)) h l r n
    = Some (h', cs) ->
  Forall (fun c => exists i, i < n /\ underPath (p ++ [indexToString i]) c) cs.
Proof.
  induction n as [|n IH]; intros h l r h' cs H; simpl in H.
  - simplify_eq. constructor.
  - destruct (deepDiff _ _ _ _ _ _) as [[h1 c1]|] eqn:E1; simpl in H; [|done].
    destruct (arrayLoop _ _ _ _ _) as [[h2 c2]|] eqn:E2; simpl in H; [|done].
    simplify_eq. apply Forall_app. split.
    + apply deepDiff_paths in E1. unfold currentPathOf in E1.
      cbn [key path] in E1. rewrite keyTruthy_index in E1.
      eapply Forall_impl; [exact E1|]. intros c Hc. exists n. split; [lia|done].
    + apply IH in E2. eapply Forall_impl; [exact E2|].
      intros c (i & Hi & Hc). exists i. split; [lia|done].
Qed.

Lemma SFeqb_refl n : numIsNaN n = false -> SFeqb n n = true.
Proof.
  destruct n as [s|s| |s m e]; try done; unfold SFeqb; simpl.
  - now destruct s.
  - rewrite Z.compare_refl, Pos.compare_cont_refl. now destruct s.
Qed.

Lemma strictEq_refl v :
  strictEq v v = match v with VNum n => negb (numIsNaN n) | _ => true end.
Proof.
  destruct v as [| |b|n|s|a]; simpl; try done.
  - now destruct b.
  - destruct (numIsNaN n) eqn:E; [now destruct n|]. now apply SFeqb_refl.
  - apply String.eqb_refl.
  - apply Nat.eqb_refl.
Qed.

Lemma realTypeOf_nonref h v t :
  isRef v = false -> In t ["regexp"; "date"; "array"; "object"] ->
  String.eqb (realTypeOf h v) t = false.
Proof.
  intros Hv Ht. simpl in Ht.
  destruct v as [| |b|n|s|a]; try done; simpl; try destruct (numIsNaN n);
    destruct Ht as [<-|[<-|[<-|[<-|[]]]]]; reflexivity.
Qed.

(** A primitive compared with itself gives no record, NaN included, when
    both sides are present or both absent. *)
Lemma deepDiff_same_primitive hash fuel h v o :
  isRef v = false ->
  recoverable h st_lhs (default [] (stack o)) (key o)
    = recoverable h st_rhs (default [] (stack o)) (key o) ->
  deepDiff hash (S fuel) h v v o = Some (h, []).
Proof.
  intros Hv Hrec. rewrite deepDiff_S. unfold deepDiffBody. cbv zeta.
  destruct (keyTruthy (key o) && _); [done|].
  rewrite (realTypeOf_nonref h v "regexp") by (simpl; tauto).
  cbn [andb]. rewrite Hrec.
  destruct (negb _ && _) eqn:E1.
  { apply andb_true_iff in E1 as [E1 E2]. rewrite E2 in E1. done. }
  rewrite String.eqb_refl. cbn [negb].
  rewrite (realTypeOf_nonref h v "date") by (simpl; tauto). cbn [andb].
  replace (truthy v && truthy v && String.eqb (typeof v) "object") with false
    by (destruct v; simpl; try done; now rewrite ?andb_false_r).
  rewrite strictEq_refl. destruct v as [| |b|n|s|a]; try done. simpl.
  now destruct (numIsNaN n).
Qed.

Lemma parseIndex_indexToString i : parseIndex (indexToString i) = Some i.
Proof.
  unfold parseIndex, indexToString.
  destruct (Nat.to_uint i) eqn:Ed.
  { apply (f_equal Nat.of_uint) in Ed. rewrite DecimalNat.Unsigned.of_to in Ed.
    now subst i. }
  all: rewrite NilZero.usu by done; rewrite <- Ed, DecimalNat.Unsigned.of_to;
       now rewrite String.eqb_refl.
Qed.

(** The store of [diff([1,2], [1,2,3,4])]: the left array at 0, the right
    array at 1. *)
Definition growStore : heap :=
  [Obj (CArray [Some (num 1); Some (num 2)]) [];
   Obj (CArray [Some (num 1); Some (num 2); Some (num 3); Some (num 4)]) []].

Lemma diff_grow_example hash pf :
  diff hash growStore (VRef 0) (VRef 1) pf false
  = Some (growStore, [ChA [] 3 (ItN (num 4)); ChA [] 2 (ItN (num 3))]).
Proof.
  unfold diff. change (length growStore + 2) with 4.
  rewrite deepDiff_S. unfold deepDiffBody, topOpts.
  cbn -[num].
  rewrite deepDiff_same_primitive by reflexivity. cbn -[num].
  rewrite deepDiff_same_primitive by reflexivity. reflexivity.
Qed.

Lemma realTypeOf_array h a es ps :
  h !! a = Some (Obj (CArray es) ps) -> realTypeOf h (VRef a) = "array".
Proof. intros Ha. simpl. now rewrite Ha. Qed.

Lemma isArray_array h a es ps :
  h !! a = Some (Obj (CArray es) ps) -> isArray h (VRef a) = true.
Proof. intros Ha. unfold isArray. simpl. now rewrite Ha. Qed.

Lemma elemsOf_array h a es ps :
  h !! a = Some (Obj (CArray es) ps) -> elemsOf h (VRef a) = es.
Proof. intros Ha. unfold elemsOf. simpl. now rewrite Ha. Qed.

Lemma diff_arrays hash (h : heap) a b le pl re pr pf (oi : bool) :
  h !! a = Some (Obj (CArray le) pl) ->
  h !! b = Some (Obj (CArray re) pr) ->
  let hs := if oi then sortInPlace hash (sortInPlace hash h (VRef a)) (VRef b)
            else h in
  diff hash h (VRef a) (VRef b) pf oi =
    '(h', cs) ← arrayLoop
        (fun h0 l0 r0 k =>
           deepDiff hash (length h + 1) h0 l0 r0
             (Opts pf oi (Some k) (Some []) (Some [Frame (VRef a) (VRef b)])))
        hs (VRef a) (VRef b) (min (length re) (length le));
    Some (h', tailItems ItN [] hs (VRef b) (length le) (length re - length le)
              ++ tailItems ItD [] hs (VRef a) (length re) (length le - length re)
              ++ cs).
Proof.
  intros Ha Hb hs. rewrite diff_top. unfold deepDiffBody, topOpts.
  cbn [key prefilter path stack orderIndependent default from_option id keyTruthy
       andb recoverable orb truthy negb typeof existsb].
  rewrite (realTypeOf_array _ _ _ _ Ha), (realTypeOf_array _ _ _ _ Hb).
  change (String.eqb "array" "regexp") with false.
  change (String.eqb "array" "array") with true.
  change (String.eqb "array" "date") with false.
  change (String.eqb "object" "object") with true.
  cbn [andb negb truthy typeof].
  rewrite (realTypeOf_array _ _ _ _ Ha), (realTypeOf_array _ _ _ _ Hb).
  change (String.eqb "array" "array") with true.
  change (String.eqb "array" "date") with false.
  change (String.eqb "object" "object") with true.
  cbn [andb negb]. rewrite (isArray_array _ _ _ _ Ha).
  assert (Hhs : (if oi then sortInPlace hash (if oi then sortInPlace hash h (VRef a) else h) (VRef b)
                 else if oi then sortInPlace hash h (VRef a) else h) = hs)
    by (subst hs; now destruct oi).
  rewrite Hhs.
  assert (Hlr : length (elemsOf hs (VRef b)) = length re).
  { subst hs. destruct oi; rewrite ?elemsOf_sortInPlace_length;
      now rewrite (elemsOf_array _ _ _ _ Hb). }
  assert (Hll : length (elemsOf hs (VRef a)) = length le).
  { subst hs. destruct oi; rewrite ?elemsOf_sortInPlace_length;
      now rewrite (elemsOf_array _ _ _ _ Ha). }
  rewrite Hlr, Hll. reflexivity.
Qed.

(** ** The observer and the collector *)

Lemma forEach_pure {W : Type} (g : RawChangeT -> heap * W -> heap * W) changes s :
  forEach (fun c s => Returns (g c s)) changes s
  = Returns (fold_left (fun s c => g c s) changes s).
Proof.
  revert s. induction changes as [|c cs IH]; intros s; simpl; [done|]. apply IH.
Qed.

Lemma forEach_accumArray changes h items :
  forEach accumObserver changes (h, AccumArray items)
  = Returns (h, AccumArray (items ++ changes)).
Proof.
  revert items. induction changes as [|c cs IH]; intros items; simpl.
  - now rewrite app_nil_r.
  - rewrite IH. now rewrite <- app_assoc.
Qed.

(** C9.  [observableDiff] always returns the records of the diff, in
    emission order, with or without an observer; an observer is called once
    per record, in emission order, starting from the store the completed
    traversal left: the traversal does not depend on the observer. *)
Theorem observableDiff_spec {W : Type} hash (h : heap) (w : W) lhs rhs pf oi :
  exists h1 changes,
    diff hash h lhs rhs pf oi = Some (h1, changes)
    /\ observableDiff hash h w lhs rhs None pf oi = Some (Returns (h1, w, changes))
    /\ (forall g : RawChangeT -> heap * W -> heap * W,
          observableDiff hash h w lhs rhs (Some (fun c s => Returns (g c s))) pf oi
          = Some (Returns (fold_left (fun s c => g c s) changes (h1, w), changes)))
    /\ (forall f : observerT,
          observableDiff hash h w lhs rhs (Some f) pf oi
          = Some (do s <- forEach f changes (h1, w); Returns (s, changes)))
    /\ observableDiff hash h [] lhs rhs
         (Some (fun c '(h', log) => Returns (h', log ++ [c]))) pf oi
       = Some (Returns (h1, changes, changes)).
Proof.
  destruct (diff_total hash h lhs rhs pf oi) as (h1 & changes & Hd & _).
  exists h1, changes. unfold observableDiff. rewrite Hd. simpl.
  split; [done|]. split; [done|]. split; [|split].
  - intros g. rewrite forEach_pure. now destruct (fold_left _ _ _).
  - intros f. destruct (forEach f changes (h1, w)) as [[h2 w2]| |]; done.
  - assert (H : forall cs log, forEach (W := list RawChangeT)
              (fun c '(h', log) => Returns (h', log ++ [c])) cs (h1, log)
              = Returns (h1, log ++ cs)).
    { induction cs as [|c cs IH]; intros log; simpl; [now rewrite app_nil_r|].
      rewrite IH. now rewrite <- app_assoc. }
    now rewrite H.
Qed.

(** C2, as amended.  Without a sink [findDiff] returns the fresh array of
    records; with an array as sink every record is appended to it, in
    order, and the sink is returned; with a sink that has no [push] the
    error is raised when the first record is delivered, so a diff without
    records returns that sink and raises nothing. *)
Theorem findDiff_spec hash (h : heap) lhs rhs oi pf :
  exists h1 changes,
    diff hash h lhs rhs pf oi = Some (h1, changes)
    /\ findDiff hash h lhs rhs oi pf None = Some (Returns (h1, FoundChanges changes))
    /\ (forall items,
          findDiff hash h lhs rhs oi pf (Some (AccumArray items))
          = Some (Returns (h1, FoundAccum (AccumArray (items ++ changes)))))
    /\ findDiff hash h lhs rhs oi pf (Some AccumNoPush)
       = Some (match changes with
               | [] => Returns (h1, FoundAccum AccumNoPush)
               | _ :: _ => Throws (Error "accum should have a 'push()' function")
               end).
Proof.
  destruct (diff_total hash h lhs rhs pf oi) as (h1 & changes & Hd & _).
  exists h1, changes. unfold findDiff, observableDiff. rewrite Hd. simpl.
  split; [done|]. split; [done|]. split.
  - intros items. now rewrite forEach_accumArray.
  - now destruct changes.
Qed.

(** C2 as stated fails: a sink without [push] and a diff without records. *)
Lemma findDiff_counterexample :
  findDiff zeroHash [] (num 1) (num 1) false None (Some AccumNoPush)
  = Some (Returns ([], FoundAccum AccumNoPush)).
Proof. reflexivity. Qed.

(** ** The revert engine *)

(** The store of [target = {}]. *)
Definition emptyObjectStore : heap := [Obj CObject []].

(** ** The empty string as a key *)

(** What the prefilter, if there is one, answers. *)
Definition rejects (pf : option PrefilterT) (p : list string) (k : string) : bool :=
  match pf with
  | Some f => f p k
  | None => false
  end.

(** Two prefilters that answer alike on every non-empty key. *)
Definition agreeOnKeys (pf1 pf2 : option PrefilterT) : Prop :=
  forall p k, k <> "" -> rejects pf1 p k = rejects pf2 p k.

Lemma deepDiffBody_prefilter hash d1 d2 pf1 pf2 :
  agreeOnKeys pf1 pf2 ->
  (forall h l r oi k p st,
     refines (d1 h l r (Opts pf1 oi k p st)) (d2 h l r (Opts pf2 oi k p st))) ->
  forall h l r oi k p st,
    refines (deepDiffBody hash d1 h l r (Opts pf1 oi k p st))
            (deepDiffBody hash d2 h l r (Opts pf2 oi k p st)).
Proof.
  intros Hpf Hd h l r oi k p st. unfold deepDiffBody. cbv zeta.
  cbn [key prefilter path stack orderIndependent].
  fold (rejects pf1 (default [] p) (keyName k)).
  fold (rejects pf2 (default [] p) (keyName k)).
  assert (Hk : keyTruthy k && rejects pf1 (default [] p) (keyName k)
             = keyTruthy k && rejects pf2 (default [] p) (keyName k)).
  { destruct k as [k|]; [|done]. simpl.
    destruct (String.eqb_spec k ""); [done|]. simpl. now apply Hpf. }
  rewrite Hk. same_branches.
  - apply refines_bind; [apply arrayLoop_mono; intros; apply Hd|].
    intros [h' cs]. apply refines_refl.
  - apply refines_bind; [apply lhsKeysLoop_mono; intros; apply Hd|].
    intros [[h1 c1] rk]. apply refines_bind; [apply rhsKeysLoop_mono; intros; apply Hd|].
    intros [h2 c2]. apply refines_refl.
Qed.

(** A prefilter is only ever asked about non-empty keys. *)
Lemma deepDiff_prefilter hash pf1 pf2 :
  agreeOnKeys pf1 pf2 ->
  forall fuel h l r oi k p st,
    deepDiff hash fuel h l r (Opts pf1 oi k p st)
    = deepDiff hash fuel h l r (Opts pf2 oi k p st).
Proof.
  intros Hpf.
  assert (Hsym : agreeOnKeys pf2 pf1) by (intros p k Hk; symmetry; now apply Hpf).
  assert (H : forall pf1 pf2, agreeOnKeys pf1 pf2 -> forall fuel h l r oi k p st,
    refines (deepDiff hash fuel h l r (Opts pf1 oi k p st))
            (deepDiff hash fuel h l r (Opts pf2 oi k p st))).
  { clear. intros pf1 pf2 Hpf. induction fuel as [|fuel IH]; intros; [done|].
    rewrite !deepDiff_S. now apply deepDiffBody_prefilter. }
  intros. apply refines_antisym; now apply H.
Qed.

Lemma elem_of_insert_sub {A : Type} (l : list A) i x y :
  x ∈ <[i:=y]> l -> x = y \/ x ∈ l.
Proof.
  intros [j Hj]%list_elem_of_lookup.
  apply list_lookup_insert_Some in Hj as [(-> & <- & _)|[_ Hj]]; [now left|].
  right. now apply list_elem_of_lookup_2 in Hj.
Qed.

Section KeyLoopsPaths.

Variable hash : heap -> value -> Z.
Variable fuel : nat.
Variable pf : option PrefilterT.
Variable oi : bool.
Variable p : list string.
Variable st : option (list StackT).

Let rec := fun h0 l0 r0 k =>
  deepDiff hash fuel h0 l0 r0 (Opts pf oi (Some k) (Some p) st).

(** The path a child run under key [k] works at. *)
Definition childPath (p : list string) (k : string) : list string :=
  if String.eqb k "" then p else p ++ [k].

Lemma rec_paths h l r k h' cs :
  rec h l r k = Some (h', cs) -> Forall (underPath (childPath p k)) cs.
Proof.
  intros H. apply deepDiff_paths in H. unfold currentPathOf in H. simpl in H.
  unfold childPath. now destruct (String.eqb k "").
Qed.

Lemma lhsKeysLoop_paths ks : forall h l r rk h' cs rk',
  lhsKeysLoop rec h l r ks rk = Some (h', cs, rk') ->
  Forall (fun c => exists k, k ∈ ks /\ underPath (childPath p k) c) cs
  /\ (forall k, Some k ∈ rk' -> Some k ∈ rk).
Proof.
  induction ks as [|k ks IH]; intros h l r rk h' cs rk' H; simpl in H.
  - simplify_eq. split; [constructor|done].
  - destruct (indexOfKey k rk) as [other|].
    + destruct (rec h _ _ _) as [[h1 c1]|] eqn:E1; simpl in H; [|done].
      destruct (lhsKeysLoop rec h1 l r ks _) as [[[h2 c2] rk2]|] eqn:E2;
        simpl in H; [|done].
      simplify_eq. apply rec_paths in E1. apply IH in E2 as [E2 Hrk]. split.
      * apply Forall_app. split.
        -- eapply Forall_impl; [exact E1|]. intros c Hc. exists k.
           split; [apply list_elem_of_here|done].
        -- eapply Forall_impl; [exact E2|]. intros c (k' & Hk' & Hc). exists k'.
           split; [now apply list_elem_of_further|done].
      * intros k' Hk'. apply Hrk in Hk'.
        now apply elem_of_insert_sub in Hk' as [?|?].
    + destruct (rec h _ _ _) as [[h1 c1]|] eqn:E1; simpl in H; [|done].
      destruct (lhsKeysLoop rec h1 l r ks _) as [[[h2 c2] rk2]|] eqn:E2;
        simpl in H; [|done].
      simplify_eq. apply rec_paths in E1. apply IH in E2 as [E2 Hrk]. split; [|done].
      apply Forall_app. split.
      * eapply Forall_impl; [exact E1|]. intros c Hc. exists k.
        split; [apply list_elem_of_here|done].
      * eapply Forall_impl; [exact E2|]. intros c (k' & Hk' & Hc). exists k'.
        split; [now apply list_elem_of_further|done].
Qed.

Lemma rhsKeysLoop_paths rk : forall h r h' cs,
  rhsKeysLoop rec h r rk = Some (h', cs) ->
  Forall (fun c => exists k, Some k ∈ rk /\ k <> "" /\ underPath (p ++ [k]) c) cs.
Proof.
  induction rk as [|ok rk IH]; intros h r h' cs H; simpl in H.
  - simplify_eq. constructor.
  - destruct (keyTruthy ok) eqn:Ek.
    + destruct ok as [k|]; [|done]. simpl in H, Ek.
      apply negb_true_iff in Ek.
      destruct (rec h _ _ _) as [[h1 c1]|] eqn:E1; simpl in H; [|done].
      destruct (rhsKeysLoop rec h1 r rk) as [[h2 c2]|] eqn:E2; simpl in H; [|done].
      simplify_eq. apply rec_paths in E1. unfold childPath in E1. rewrite Ek in E1.
      apply IH in E2. apply Forall_app. split.
      * eapply Forall_impl; [exact E1|]. intros c Hc. exists k.
        split; [apply list_elem_of_here|]. split; [now apply String.eqb_neq|done].
      * eapply Forall_impl; [exact E2|]. intros c (k' & Hk' & Hc). exists k'.
        split; [now apply list_elem_of_further|done].
    + apply IH in H. eapply Forall_impl; [exact H|]. intros c (k' & Hk' & Hc).
      exists k'. split; [now apply list_elem_of_further|done].
Qed.

End KeyLoopsPaths.

Lemma realTypeOf_plain h a ps :
  h !! a = Some (Obj CObject ps) -> realTypeOf h (VRef a) = "object".
Proof. intros Ha. simpl. now rewrite Ha. Qed.

Lemma isArray_plain h a ps :
  h !! a = Some (Obj CObject ps) -> isArray h (VRef a) = false.
Proof. intros Ha. unfold isArray. simpl. now rewrite Ha. Qed.

Lemma ownKeys_plain h a ps :
  h !! a = Some (Obj CObject ps) -> ownKeys h (VRef a) = map fst ps.
Proof. intros Ha. unfold ownKeys. simpl. now rewrite Ha. Qed.

(** The root call on two plain objects is the two key loops. *)
Lemma diff_objects hash (h : heap) a b psa psb pf (oi : bool) :
  h !! a = Some (Obj CObject psa) ->
  h !! b = Some (Obj CObject psb) ->
  let rec := fun h0 l0 r0 k =>
    deepDiff hash (length h + 1) h0 l0 r0
      (Opts pf oi (Some k) (Some []) (Some [Frame (VRef a) (VRef b)])) in
  diff hash h (VRef a) (VRef b) pf oi =
    '(h1, c1, rk) ← lhsKeysLoop rec h (VRef a) (VRef b) (map fst psa)
                       (map Some (map fst psb));
    '(h2, c2) ← rhsKeysLoop rec h1 (VRef b) rk;
    Some (h2, c1 ++ c2).
Proof.
  intros Ha Hb rec. rewrite diff_top. unfold deepDiffBody, topOpts.
  cbn [key prefilter path stack orderIndependent default from_option id keyTruthy
       andb recoverable orb truthy negb typeof existsb].
  rewrite (realTypeOf_plain _ _ _ Ha), (realTypeOf_plain _ _ _ Hb).
  change (String.eqb "object" "regexp") with false.
  change (String.eqb "object" "object") with true.
  change (String.eqb "object" "date") with false.
  cbn [andb negb truthy typeof].
  rewrite (realTypeOf_plain _ _ _ Ha), (realTypeOf_plain _ _ _ Hb).
  change (String.eqb "object" "object") with true.
  change (String.eqb "object" "date") with false.
  cbn [andb negb]. rewrite (isArray_plain _ _ _ Ha).
  rewrite (ownKeys_plain _ _ _ Ha), (ownKeys_plain _ _ _ Hb). reflexivity.
Qed.

Lemma assoc_None_keys {A : Type} k (ps : list (string * A)) :
  assoc k ps = None -> k ∉ map fst ps.
Proof.
  induction ps as [|[k' v] ps IH]; simpl; [intros _; apply not_elem_of_nil|].
  destruct (String.eqb_spec k' k) as [->|Hne]; [done|].
  intros H. apply not_elem_of_cons. split; [congruence|now apply IH].
Qed.

(** The store of [diff({"": 1}, {"": 2})]. *)
Definition emptyKeyStore : heap :=
  [Obj CObject [("", num 1)]; Obj CObject [("", num 2)]].

Lemma diff_empty_key_example hash pf oi :
  diff hash emptyKeyStore (VRef 0) (VRef 1) pf oi
  = Some (emptyKeyStore, [ChE [] (num 1) (num 2)]).
Proof. vm_compute. reflexivity. Qed.

(** C10.  The empty string as a key.  (1) When the right object has the key
    [""] and the left one has not, no record is attributable to it: every
    record lies under a non-empty key of one of the two objects; in
    particular [diff({}, {"": v})] is empty.  (2) A prefilter is never asked
    about the key [""]: two prefilters that agree on the non-empty keys give
    the same run.  (3) A run under the key [""] works at its parent's path:
    its records lie at or below that path, and the empty segment is not in
    their paths unless it was in the parent's; so [diff({"": 1}, {"": 2})]
    is one Edited record at the root path. *)
Theorem empty_key_handling :
  (forall hash (h : heap) a b psa psb pf (oi : bool),
     h !! a = Some (Obj CObject psa) ->
     h !! b = Some (Obj CObject psb) ->
     assoc "" psa = None -> is_Some (assoc "" psb) ->
     exists h' cs,
       diff hash h (VRef a) (VRef b) pf oi = Some (h', cs)
       /\ Forall (fun c => exists k rest,
                    changePath c = k :: rest /\ k <> ""
                    /\ (k ∈ map fst psa \/ k ∈ map fst psb)) cs)
  /\ (forall hash (h : heap) a b v pf (oi : bool),
        h !! a = Some (Obj CObject []) ->
        h !! b = Some (Obj CObject [("", v)]) ->
        diff hash h (VRef a) (VRef b) pf oi = Some (h, []))
  /\ (forall hash pf1 pf2 fuel (h : heap) l r oi k p st,
        agreeOnKeys pf1 pf2 ->
        deepDiff hash fuel h l r (Opts pf1 oi k p st)
        = deepDiff hash fuel h l r (Opts pf2 oi k p st))
  /\ (forall hash fuel (h : heap) l r pf oi p st h' cs,
        deepDiff hash fuel h l r (Opts pf oi (Some "") (Some p) st) = Some (h', cs) ->
        Forall (fun c => p `prefix_of` changePath c
                         /\ ("" ∈ changePath c -> "" ∈ p)) cs)
  /\ (forall hash pf oi,
        diff hash emptyKeyStore (VRef 0) (VRef 1) pf oi
        = Some (emptyKeyStore, [ChE [] (num 1) (num 2)])).
Proof.
  split_and!.
  - intros hash h a b psa psb pf oi Ha Hb Hla _.
    destruct (diff_total hash h (VRef a) (VRef b) pf oi) as (h' & cs & Hd & _).
    exists h', cs. split; [done|].
    rewrite (diff_objects _ _ _ _ _ _ _ _ Ha Hb) in Hd.
    destruct (lhsKeysLoop _ _ _ _ _ _) as [[[h1 c1] rk]|] eqn:E1; simpl in Hd; [|done].
    destruct (rhsKeysLoop _ _ _ _) as [[h2 c2]|] eqn:E2; simpl in Hd; [|done].
    simplify_eq. apply lhsKeysLoop_paths in E1 as [E1 Hrk].
    apply rhsKeysLoop_paths in E2. apply assoc_None_keys in Hla.
    apply Forall_app. split.
    + eapply Forall_impl; [exact E1|]. intros c (k & Hk & Hc).
      assert (Hne : k <> "") by (intros ->; done).
      unfold childPath in Hc. apply String.eqb_neq in Hne as Hne'. rewrite Hne' in Hc.
      destruct Hc as [rest Hc]. exists k, rest. simpl in Hc. eauto.
    + eapply Forall_impl; [exact E2|]. intros c (k & Hk & Hne & [rest Hc]).
      exists k, rest. simpl in Hc. split; [done|]. split; [done|]. right.
      apply Hrk in Hk. apply list_elem_of_fmap in Hk as (k' & [= <-] & Hk). done.
  - intros hash h a b v pf oi Ha Hb.
    now rewrite (diff_objects _ _ _ _ _ _ _ _ Ha Hb).
  - intros. now apply deepDiff_prefilter.
  - intros hash fuel h l r pf oi p st h' cs H.
    pose proof (deepDiff_paths _ _ _ _ _ _ _ _ H) as H1.
    pose proof (deepDiff_no_empty_segment _ _ _ _ _ _ _ _ H) as H2.
    unfold currentPathOf in H1, H2. simpl in H1, H2.
    apply Forall_and. split; done.
  - apply diff_empty_key_example.
Qed.

Lemma empty_key_handling_witness :
  exists h' cs,
    diff zeroHash [Obj CObject [("a", num 1)]; Obj CObject [("", num 2); ("b", num 3)]]
      (VRef 0) (VRef 1) None false = Some (h', cs)
    /\ Forall (fun c => exists k rest,
                 changePath c = k :: rest /\ k <> ""
                 /\ (k ∈ map fst [("a", num 1)]
                     \/ k ∈ map fst [("", num 2); ("b", num 3)])) cs.
Proof.
  apply (proj1 empty_key_handling zeroHash
           [Obj CObject [("a", num 1)]; Obj CObject [("", num 2); ("b", num 3)]]
           0 1 [("a", num 1)] [("", num 2); ("b", num 3)] None false);
    [reflexivity | reflexivity | reflexivity | eexists; reflexivity].
Defined.

(** ** Reflexivity *)

(** No object of the store is an invalid date. *)
Definition noInvalidDate (h : heap) : Prop :=
  forall a o, h !! a = Some o -> cls o <> CDate None.

Lemma indexOfKey_Some k rk i :
  indexOfKey k rk = Some i ->
  omap id rk ≡ₚ k :: omap id (<[i:=None]> rk).
Proof.
  revert i. induction rk as [|[k'|] rk IH]; intros i H; simpl in H; [done| |].
  - destruct (String.eqb_spec k' k) as [->|Hne].
    + now simplify_eq.
    + destruct (indexOfKey k rk) as [j|]; [|done]. simpl in H. simplify_eq.
      simpl. rewrite (IH j eq_refl). apply Permutation_swap.
  - destruct (indexOfKey k rk) as [j|]; [|done]. simpl in H. simplify_eq.
    simpl. now apply IH.
Qed.

Lemma indexOfKey_elem k rk :
  k ∈ omap id rk -> is_Some (indexOfKey k rk).
Proof.
  induction rk as [|[k'|] rk IH]; simpl; [by intros ?%elem_of_nil| |].
  - intros [->|Hin]%elem_of_cons.
    + now rewrite String.eqb_refl.
    + destruct (String.eqb k' k); [done|]. destruct (IH Hin) as [j ->]. done.
  - intros Hin. destruct (IH Hin) as [j ->]. done.
Qed.

Section LoopsRefl.

Variable rec : heap -> value -> value -> string -> diffResult.
Variable h : heap.
Hypothesis rec_refl : forall x k h' cs,
  rec h x x k = Some (h', cs) -> h' = h /\ cs = [].

Lemma arrayLoop_refl n v h' cs :
  arrayLoop rec h v v n = Some (h', cs) -> h' = h /\ cs = [].
Proof.
  revert h' cs. induction n as [|n IH]; intros h' cs H; simpl in H.
  - now simplify_eq.
  - destruct (rec h _ _ _) as [[h1 c1]|] eqn:E1; simpl in H; [|done].
    apply rec_refl in E1 as [-> ->].
    destruct (arrayLoop rec h v v n) as [[h2 c2]|] eqn:E2; simpl in H; [|done].
    destruct (IH _ _ eq_refl) as [-> ->]. now simplify_eq.
Qed.

Lemma lhsKeysLoop_refl ks : forall v rk h' cs rk',
  omap id rk ≡ₚ ks ->
  lhsKeysLoop rec h v v ks rk = Some (h', cs, rk') ->
  h' = h /\ cs = [] /\ omap id rk' = [].
Proof.
  induction ks as [|k ks IH]; intros v rk h' cs rk' Hperm H; simpl in H.
  - simplify_eq. split; [done|]. split; [done|]. now apply Permutation_nil_r.
  - destruct (indexOfKey_elem k rk) as [i Hi].
    { rewrite Hperm. apply list_elem_of_here. }
    rewrite Hi in H.
    destruct (rec h _ _ _) as [[h1 c1]|] eqn:E1; simpl in H; [|done].
    apply rec_refl in E1 as [-> ->].
    destruct (lhsKeysLoop rec h v v ks _) as [[[h2 c2] rk2]|] eqn:E2; simpl in H; [|done].
    apply IH in E2 as (-> & -> & Hrk).
    + now simplify_eq.
    + apply indexOfKey_Some in Hi. rewrite Hi in Hperm.
      now apply Permutation_cons_inv in Hperm.
Qed.

Lemma rhsKeysLoop_consumed rk : forall v,
  omap id rk = [] -> rhsKeysLoop rec h v rk = Some (h, []).
Proof.
  induction rk as [|[k|] rk IH]; intros v H; simpl in *; [done|done|]. now apply IH.
Qed.

End LoopsRefl.

Lemma realTypeOf_date h v :
  realTypeOf h v = "date" ->
  exists a t ps, v = VRef a /\ h !! a = Some (Obj (CDate t) ps).
Proof.
  destruct v as [| |b|n|s|a]; simpl; try done; [now destruct (numIsNaN n)|].
  destruct (h !! a) as [[[| |t|] ps]|] eqn:Ea; try done.
  intros _. now exists a, t, ps.
Qed.

(** Without the order-independent mode and without invalid dates in the
    store, comparing a value with itself gives no record, whatever is
    reachable from it (cycles included) and for every prefilter. *)
Lemma deepDiff_reflexive hash h :
  noInvalidDate h ->
  forall fuel v o h' cs,
    orderIndependent o = false ->
    match default [] (stack o) with
    | top :: _ => st_lhs top = st_rhs top
    | [] => True
    end ->
    deepDiff hash fuel h v v o = Some (h', cs) -> h' = h /\ cs = [].
Proof.
  intros Hdate. induction fuel as [|fuel IH]; intros v o h' cs Hoi Htop H; [done|].
  rewrite deepDiff_S in H. unfold deepDiffBody in H. cbv zeta in H.
  set (st := default [] (stack o)) in *.
  destruct (keyTruthy (key o) && _); [now simplify_eq|].
  set (both := String.eqb (realTypeOf h v) "regexp" && String.eqb (realTypeOf h v) "regexp") in H.
  set (x := if both then regexpToString h v else v) in H.
  assert (Hrec : recoverable h st_lhs st (key o) = recoverable h st_rhs st (key o)).
  { unfold recoverable. destruct st as [|top st']; [done|]. now rewrite Htop. }
  rewrite Hrec in H. clearbody x. clear both.
  destruct (negb _ && _) eqn:E1.
  { apply andb_true_iff in E1 as [E1 E2]. rewrite E2 in E1. done. }
  rewrite String.eqb_refl in H. cbn [negb] in H.
  destruct (String.eqb (realTypeOf h x) "date" && dateMinusNonZero h x x) eqn:E2.
  { apply andb_true_iff in E2 as [E2 E3]. apply String.eqb_eq in E2.
    apply realTypeOf_date in E2 as (a & t & ps & -> & Ha).
    unfold dateMinusNonZero, timeValue in E3. simpl in E3. rewrite Ha in E3.
    destruct t as [t|]; [now rewrite Z.eqb_refl in E3|].
    now apply Hdate in Ha. }
  destruct (truthy x && truthy x && String.eqb (typeof x) "object") eqn:E3.
  - apply andb_true_iff in E3 as [[Hx _]%andb_true_iff Hobj].
    pose proof (truthy_object_isRef _ Hx Hobj) as Href.
    destruct (existsb _ st).
    { rewrite strictEq_refl in H. destruct x; try done. simpl in H. now simplify_eq. }
    rewrite Hoi in H.
    assert (Hr : forall y k h1 cs1,
      deepDiff hash fuel h y y
        (Opts (prefilter o) false (Some k)
           (Some (if keyTruthy (key o) then default [] (path o) ++ [keyName (key o)]
                  else default [] (path o)))
           (Some (Frame x x :: st))) = Some (h1, cs1) -> h1 = h /\ cs1 = []).
    { intros y k h1 cs1 E. now apply IH in E. }
    destruct (isArray h x).
    + rewrite Nat.sub_diag, Nat.min_id in H. simpl in H.
      destruct (arrayLoop _ _ _ _ _) as [[h1 c1]|] eqn:E; simpl in H; [|done].
      apply arrayLoop_refl in E as [-> ->]; [|exact Hr]. now simplify_eq.
    + destruct (lhsKeysLoop _ _ _ _ _ _) as [[[h1 c1] rk]|] eqn:E; simpl in H; [|done].
      apply lhsKeysLoop_refl in E as (-> & -> & Hrk); [|exact Hr|].
      * rewrite rhsKeysLoop_consumed in H by done. simpl in H. now simplify_eq.
      * clear. induction (ownKeys h x) as [|k ks IHk]; simpl; [done|]. now rewrite IHk.
  - rewrite strictEq_refl in H. destruct x as [| |b|n|s|a]; simpl in *; try (now simplify_eq).
    destruct (numIsNaN n); simpl in H; now simplify_eq.
Qed.

(** The store of [v = new Date(NaN)]. *)
Definition invalidDateStore : heap := [Obj (CDate None) []].

(** C5.  Comparing a value with itself gives no record on every store that
    holds no invalid date, NaN included; but an invalid date, whose time
    value is NaN, is reported as edited against itself: the date test
    [lhs - rhs !== 0] lacks the NaN case that the number test has. *)
Theorem diff_reflexive_but_invalid_date :
  (forall hash (h : heap) v pf,
     noInvalidDate h -> diff hash h v v pf false = Some (h, []))
  /\ (forall hash pf oi,
        diff hash invalidDateStore (VRef 0) (VRef 0) pf oi
        = Some (invalidDateStore, [ChE [] (VRef 0) (VRef 0)]))
  /\ (forall hash pf oi,
        diff hash [] (VNum S754_nan) (VNum S754_nan) pf oi = Some ([], [])).
Proof.
  split_and!.
  - intros hash h v pf Hdate.
    destruct (diff_total hash h v v pf false) as (h' & cs & Hd & _).
    rewrite Hd. apply (deepDiff_reflexive hash h Hdate) in Hd as [-> ->]; done.
  - intros. vm_compute. reflexivity.
  - intros. vm_compute. reflexivity.
Qed.

Lemma diff_reflexive_witness :
  diff zeroHash [Obj CObject [("self", VRef 0); ("n", VNum S754_nan)]] (VRef 0) (VRef 0)
    None false
  = Some ([Obj CObject [("self", VRef 0); ("n", VNum S754_nan)]], []).
Proof.
  apply (proj1 diff_reflexive_but_invalid_date zeroHash
           [Obj CObject [("self", VRef 0); ("n", VNum S754_nan)]] (VRef 0) None).
  intros a o Ha. destruct a as [|a]; simpl in Ha; [|done]. now simplify_eq.
Defined.

(** ** Diff followed by revert *)

(** Modelled from the spec: the spec has one Change Record for both engines,
    with the fields kind, path, the stored left and right values, index and
    item; the code that turns the records [deepDiff] pushes into the records
    [revertChange] reads (the [./definitions] module and its callers) is not
    part of the sources.  [toChangeDoc] gives a raw record the field names
    that [revertChange] reads. *)
Definition toItemDoc (it : RawItemT) : changeDoc :=
  match it with
  | ItN r => [("kind", FVal (VStr "N")); ("rhs", FVal r)]
  | ItD l => [("kind", FVal (VStr "D")); ("lhs", FVal l)]
  end.

Definition toChangeDoc (c : RawChangeT) : changeDoc :=
  match c with
  | ChN p r => [("kind", FVal (VStr "N")); ("path", FKeys p); ("rhs", FVal r)]
  | ChD p l => [("kind", FVal (VStr "D")); ("path", FKeys p); ("lhs", FVal l)]
  | ChE p l r =>
      [("kind", FVal (VStr "E")); ("path", FKeys p); ("lhs", FVal l); ("rhs", FVal r)]
  | ChA p i it =>
      [("kind", FVal (VStr "A")); ("path", FKeys p); ("index", FVal (VNum (numOfNat i)));
       ("item", FRec (toItemDoc it))]
  end.

(** [docs.forEach(doc => revertChange(target, doc))] *)
Fixpoint revertAll (rac : heap -> value -> option field -> option field -> outcome heap)
    (docs : list changeDoc) (h : heap) (target : value) : outcome heap :=
  match docs with
  | [] => Returns h
  | doc :: docs' =>
      do h1 <- revertChange rac h target (Some doc);
      revertAll rac docs' h1 target
  end.

(** SameValueZero: [===], except that NaN is the same as NaN. *)
Definition sameValueZero (v w : value) : bool :=
  strictEq v w ||
  match v, w with
  | VNum a, VNum b => numIsNaN a && numIsNaN b
  | _, _ => false
  end.

(** Deep equality of two values of a store: primitives by SameValueZero,
    plain objects by reference or key by key, whatever the key order. *)
#[warnings="-register-all"] Inductive deepEq (h : heap) : value -> value -> Prop :=
| deepEq_prim v w :
    isRef v = false -> isRef w = false -> sameValueZero v w = true ->
    deepEq h v w
| deepEq_same a : deepEq h (VRef a) (VRef a)
| deepEq_object a b ps qs :
    h !! a = Some (Obj CObject ps) ->
    h !! b = Some (Obj CObject qs) ->
    (forall k v, assoc k ps = Some v ->
       exists w, assoc k qs = Some w /\ deepEq h v w) ->
    (forall k w, assoc k qs = Some w -> is_Some (assoc k ps)) ->
    deepEq h (VRef a) (VRef b).

(** A finite tree of plain objects of the store: a node is the object at an
    address with its properties in enumeration order, a leaf any other
    value. *)
#[warnings="-register-all"] Inductive atree :=
| AVal (v : value)
| ANode (a : addr) (kids : list (string * atree)).

Definition valueOf (t : atree) : value :=
  match t with
  | AVal v => v
  | ANode a _ => VRef a
  end.

Definition isNode (t : atree) : bool :=
  match t with ANode _ _ => true | AVal _ => false end.

(** The properties of a node with the given children. *)
Definition kidProps (kids : list (string * atree)) : list (string * value) :=
  map (fun kt => (kt.1, valueOf kt.2)) kids.

(** The addresses of the nodes. *)
Fixpoint addrs (t : atree) : list addr :=
  match t with
  | AVal _ => []
  | ANode a kids =>
      a :: (fix all (ks : list (string * atree)) : list addr :=
              match ks with
              | [] => []
              | kt :: ks' => addrs kt.2 ++ all ks'
              end) kids
  end.

Definition kidAddrs (kids : list (string * atree)) : list addr :=
  flat_map (fun kt => addrs kt.2) kids.

(** A property of every leaf and of every node of a tree. *)
Fixpoint treeAll (PL : value -> Prop) (PN : addr -> list (string * atree) -> Prop)
    (t : atree) : Prop :=
  match t with
  | AVal v => PL v
  | ANode a kids =>
      PN a kids
      /\ (fix all (ks : list (string * atree)) : Prop :=
            match ks with
            | [] => True
            | kt :: ks' => treeAll PL PN kt.2 /\ all ks'
            end) kids
  end.

(** The store holds the tree. *)
Definition arepr (h : heap) : atree -> Prop :=
  treeAll (fun _ => True) (fun a kids => h !! a = Some (Obj CObject (kidProps kids))).

(** Every leaf is a primitive. *)
Definition primLeaves : atree -> Prop :=
  treeAll (fun v => isRef v = false) (fun _ _ => True).

(** The keys of every node are distinct and none is empty. *)
Definition keysOK : atree -> Prop :=
  treeAll (fun _ => True)
          (fun _ kids => NoDup (map fst kids) /\ ("" ∉ map fst kids)).

(** No node lies below itself. *)
Definition acyclicTree : atree -> Prop :=
  treeAll (fun _ => True) (fun a kids => a ∉ kidAddrs kids).

(** [t] is a copy of [r]: the same keys in the same order, the same leaves,
    nodes for nodes. *)
Fixpoint copyOf (t r : atree) : Prop :=
  match t, r with
  | AVal v, AVal w => v = w
  | ANode _ tk, ANode _ rk =>
      (fix all (ts rs : list (string * atree)) : Prop :=
         match ts, rs with
         | [], [] => True
         | kt :: ts', kr :: rs' => kt.1 = kr.1 /\ copyOf kt.2 kr.2 /\ all ts' rs'
         | _, _ => False
         end) tk rk
  | _, _ => False
  end.

(** What a run records for the pair of values under a key of both objects,
    unless both are nodes. *)
Definition leafChange (p : list string) (lv rv : value) : list RawChangeT :=
  if sameValueZero lv rv then [] else [ChE p lv rv].

(** The records of a run on two trees, as a function of the trees. *)
Fixpoint tdiff (p : list string) (l r : atree) {struct l} : list RawChangeT :=
  match l, r with
  | ANode _ lk, ANode _ rk =>
      (fix lloop (ks : list (string * atree)) : list RawChangeT :=
         match ks with
         | [] => []
         | kt :: ks' =>
             match assoc kt.1 rk with
             | Some rt =>
                 match kt.2, rt with
                 | ANode _ _, ANode _ _ => tdiff (p ++ [kt.1]) kt.2 rt
                 | lt, _ => leafChange (p ++ [kt.1]) (valueOf lt) (valueOf rt)
                 end
             | None => [ChD (p ++ [kt.1]) (valueOf kt.2)]
             end ++ lloop ks'
         end) lk
      ++ flat_map (fun kr => if hasKey kr.1 lk then []
                             else [ChN (p ++ [kr.1]) (valueOf kr.2)]) rk
  | _, _ => []
  end.

(** The records for one key of the left object. *)
Definition tchild (p : list string) (rk : list (string * atree))
    (kt : string * atree) : list RawChangeT :=
  match assoc kt.1 rk with
  | Some rt =>
      match kt.2, rt with
      | ANode _ _, ANode _ _ => tdiff (p ++ [kt.1]) kt.2 rt
      | lt, _ => leafChange (p ++ [kt.1]) (valueOf lt) (valueOf rt)
      end
  | None => [ChD (p ++ [kt.1]) (valueOf kt.2)]
  end.

(** The records for the keys only the right object has. *)
Definition tnew (p : list string) (lk rk : list (string * atree)) : list RawChangeT :=
  flat_map (fun kr => if hasKey kr.1 lk then []
                      else [ChN (p ++ [kr.1]) (valueOf kr.2)]) rk.

(** *** Trees: unfolding and induction *)

Lemma treeAll_node PL PN a kids :
  treeAll PL PN (ANode a kids) <->
  PN a kids /\ Forall (fun kt => treeAll PL PN kt.2) kids.
Proof.
  simpl. apply and_iff_compat_l.
  induction kids as [|kt kids IH].
  - split; intros _; [apply Forall_nil_2|exact I].
  - rewrite Forall_cons, IH. done.
Qed.

Lemma addrs_node a kids : addrs (ANode a kids) = a :: kidAddrs kids.
Proof.
  unfold kidAddrs. simpl. f_equal.
  all: induction kids as [|kt kids IH]; [done|]; simpl; now rewrite IH.
Qed.

Lemma tdiff_node p a lk b rk :
  tdiff p (ANode a lk) (ANode b rk)
  = flat_map (tchild p rk) lk ++ tnew p lk rk.
Proof.
  simpl. fold (tnew p lk rk). f_equal.
  all: induction lk as [|kt lk IH]; [done|]; simpl; now rewrite IH.
Qed.

Lemma copyOf_node a tk b rk :
  copyOf (ANode a tk) (ANode b rk) <->
  Forall2 (fun kt kr => kt.1 = kr.1 /\ copyOf kt.2 kr.2) tk rk.
Proof.
  simpl. revert rk. induction tk as [|kt tk IH]; intros [|kr rk].
  - split; intros _; [apply Forall2_nil_2|exact I].
  - split; [done|inversion 1].
  - split; [done|inversion 1].
  - rewrite Forall2_cons, IH. tauto.
Qed.

Fixpoint atree_ind' (P : atree -> Prop)
    (Hval : forall v, P (AVal v))
    (Hnode : forall a kids, Forall (fun kt => P kt.2) kids -> P (ANode a kids))
    (t : atree) : P t :=
  match t with
  | AVal v => Hval v
  | ANode a kids =>
      Hnode a kids
        ((fix all (ks : list (string * atree)) : Forall (fun kt => P kt.2) ks :=
            match ks with
            | [] => List.Forall_nil _
            | kt :: ks' =>
                List.Forall_cons _ kt ks' (atree_ind' P Hval Hnode kt.2) (all ks')
            end) kids)
  end.

(** *** Association lists *)

Lemma assoc_Some_elem {A : Type} k (l : list (string * A)) v :
  assoc k l = Some v -> (k, v) ∈ l.
Proof.
  induction l as [|[k' v'] l IH]; simpl; [done|].
  destruct (String.eqb_spec k' k) as [->|Hne].
  - intros [= ->]. apply list_elem_of_here.
  - intros H. apply list_elem_of_further. now apply IH.
Qed.

Lemma assoc_NoDup {A : Type} k (l : list (string * A)) v :
  NoDup (map fst l) -> (k, v) ∈ l -> assoc k l = Some v.
Proof.
  induction l as [|[k' v'] l IH]; simpl; [by intros _ ?%elem_of_nil|].
  intros [Hk' Hnd]%NoDup_cons [[= -> ->]|Hin]%elem_of_cons.
  - now rewrite String.eqb_refl.
  - destruct (String.eqb_spec k' k) as [->|Hne]; [|now apply IH].
    exfalso. apply Hk'. apply list_elem_of_fmap. now exists (k, v).
Qed.

Lemma assoc_is_Some_keys {A : Type} k (l : list (string * A)) :
  is_Some (assoc k l) <-> k ∈ map fst l.
Proof.
  induction l as [|[k' v'] l IH]; simpl.
  - split; [by intros [? ?]|by intros ?%elem_of_nil].
  - destruct (String.eqb_spec k' k) as [->|Hne].
    + split; [intros _; apply list_elem_of_here|by eauto].
    + rewrite IH, elem_of_cons. split; [tauto|]. intros [?|?]; [congruence|done].
Qed.

Lemma assoc_kidProps k kids :
  assoc k (kidProps kids) = valueOf <$> assoc k kids.
Proof.
  induction kids as [|[k' t] kids IH]; simpl; [done|].
  now destruct (String.eqb k' k).
Qed.

Lemma keys_kidProps kids : map fst (kidProps kids) = map fst kids.
Proof. unfold kidProps. rewrite map_map. done. Qed.

Lemma hasKey_true {A : Type} k (l : list (string * A)) :
  hasKey k l = true <-> k ∈ map fst l.
Proof. unfold hasKey. rewrite bool_decide_eq_true. apply assoc_is_Some_keys. Qed.

Lemma hasKey_false {A : Type} k (l : list (string * A)) :
  hasKey k l = false <-> k ∉ map fst l.
Proof. unfold hasKey. rewrite bool_decide_eq_false. now rewrite assoc_is_Some_keys. Qed.

(** *** The key array of the right object while the left keys are walked *)

(** The key array in which the keys of [D] are consumed. *)
Definition mask (D : list string) (k : string) : option string :=
  if bool_decide (k ∈ D) then None else Some k.

Lemma indexOfKey_mask_None k D ks :
  k ∉ ks \/ k ∈ D -> indexOfKey k (map (mask D) ks) = None.
Proof.
  intros H. induction ks as [|k' ks IH]; simpl; [done|].
  unfold mask at 1. case_bool_decide as Hk'.
  - rewrite IH; [done|]. destruct H as [H|H]; [|now right].
    left. intros ?. apply H. now apply list_elem_of_further.
  - destruct (String.eqb_spec k' k) as [->|Hne].
    + destruct H as [H|H]; [|done]. exfalso. apply H, list_elem_of_here.
    + rewrite IH; [done|]. destruct H as [H|H]; [|now right].
      left. intros ?. apply H. now apply list_elem_of_further.
Qed.

Lemma mask_other k k' D : k' <> k -> mask (k :: D) k' = mask D k'.
Proof.
  intros Hne. unfold mask. apply (f_equal (fun b : bool => if b then None else Some k')).
  apply bool_decide_ext. rewrite elem_of_cons. split; [|tauto].
  intros [?|?]; [congruence|done].
Qed.

Lemma mask_absent k D ks :
  k ∉ ks -> map (mask (k :: D)) ks = map (mask D) ks.
Proof.
  intros Hk. apply map_ext_in. intros x Hx. apply mask_other.
  intros ->. apply Hk. now apply list_elem_of_In.
Qed.

Lemma indexOfKey_mask_Some k D ks :
  NoDup ks -> k ∈ ks -> k ∉ D ->
  exists i, indexOfKey k (map (mask D) ks) = Some i
            /\ <[i:=None]> (map (mask D) ks) = map (mask (k :: D)) ks.
Proof.
  intros Hnd Hin HD. induction ks as [|k' ks IH]; [by apply elem_of_nil in Hin|].
  apply NoDup_cons in Hnd as [Hk' Hnd]. cbn [map].
  destruct (decide (k' = k)) as [->|Hne].
  - exists 0. replace (mask D k) with (Some k)
      by (unfold mask; now rewrite bool_decide_eq_false_2).
    replace (mask (k :: D) k) with (@None string)
      by (unfold mask; rewrite bool_decide_eq_true_2; [done|apply list_elem_of_here]).
    simpl. rewrite String.eqb_refl. split; [done|]. now rewrite mask_absent.
  - apply elem_of_cons in Hin as [?|Hin]; [congruence|].
    destruct (IH Hnd Hin) as (i & Hi & Hins).
    exists (S i). rewrite (mask_other _ _ _ Hne). split.
    + simpl. destruct (mask D k') as [k''|] eqn:Em; rewrite Hi; [|done].
      unfold mask in Em. case_bool_decide; [done|]. simplify_eq.
      apply String.eqb_neq in Hne. now rewrite Hne.
    + simpl. now rewrite Hins.
Qed.


(** *** The engine on trees *)

(** A value of a tree: a primitive or a plain object. *)
Definition plainOrPrim (h : heap) (v : value) : Prop :=
  match v with
  | VRef x => exists ps, h !! x = Some (Obj CObject ps)
  | _ => True
  end.

Lemma SFeqb_not_nan a b : SFeqb a b = true -> numIsNaN a = false /\ numIsNaN b = false.
Proof. unfold SFeqb. destruct a, b; simpl; done. Qed.

Lemma sameValueZero_realTypeOf h v w :
  sameValueZero v w = true -> realTypeOf h v = realTypeOf h w.
Proof.
  unfold sameValueZero. destruct v as [| |b1|n1|s1|a1], w as [| |b2|n2|s2|a2];
    simpl; try done.
  - intros [H|H]%orb_true_iff.
    + apply SFeqb_not_nan in H as [-> ->]. done.
    + apply andb_true_iff in H as [-> ->]. done.
  - rewrite orb_false_r. now intros ->%Nat.eqb_eq.
Qed.

Lemma plainOrPrim_tag h v t :
  plainOrPrim h v -> In t ["regexp"; "date"; "array"] ->
  String.eqb (realTypeOf h v) t = false.
Proof.
  intros Hv Ht. destruct v as [| |b|n|s|a].
  1-5: apply realTypeOf_nonref; [done|simpl in *; tauto].
  destruct Hv as [ps Hps]. simpl. rewrite Hps.
  simpl in Ht. destruct Ht as [<-|[<-|[<-|[]]]]; reflexivity.
Qed.

Lemma plainOrPrim_valueOf h t : arepr h t -> primLeaves t -> plainOrPrim h (valueOf t).
Proof.
  destruct t as [v|a kids]; simpl.
  - intros _ Hv. now destruct v.
  - intros [Ha _] _. eauto.
Qed.

Lemma existsb_stack_notin st a :
  a ∉ stackAddrs st -> existsb (fun f => strictEq (st_lhs f) (VRef a)) st = false.
Proof.
  induction st as [|[l r] st IH]; simpl; [done|].
  unfold stackAddrs. simpl. intros Hnot.
  destruct l as [| | | | |x]; simpl in *; try (now apply IH).
  apply not_elem_of_cons in Hnot as [Hne Hnot].
  apply orb_false_iff. split; [|now apply IH].
  apply Nat.eqb_neq. congruence.
Qed.

Section TreeDiff.

Variable hash : heap -> value -> Z.
Variable pf : option PrefilterT.
Variable oi : bool.
Hypothesis pf_accepts : forall p k, rejects pf p k = false.

(** The pair of values under a key of both objects, unless both are
    objects. *)
Lemma deepDiff_leaf_child fuel h lv rv k p a b st :
  k <> "" ->
  hasOwnProperty h (VRef a) k = true ->
  hasOwnProperty h (VRef b) k = true ->
  plainOrPrim h lv -> plainOrPrim h rv ->
  isRef lv && isRef rv = false ->
  deepDiff hash (S fuel) h lv rv
    (Opts pf oi (Some k) (Some p) (Some (Frame (VRef a) (VRef b) :: st)))
  = Some (h, leafChange (p ++ [k]) lv rv).
Proof using pf_accepts.
  intros Hk Hak Hbk Hlv Hrv Hnot. rewrite deepDiff_S. unfold deepDiffBody.
  cbn [key prefilter path stack default from_option id keyName].
  rewrite (keyTruthy_Some _ Hk). fold (rejects pf p k). rewrite pf_accepts.
  cbn [andb]. rewrite (plainOrPrim_tag h lv "regexp") by (done || (simpl; tauto)).
  cbn [andb]. unfold recoverable. cbn [st_lhs st_rhs keyName default from_option id truthy].
  rewrite Hak, Hbk. cbn [andb]. rewrite !orb_true_r. cbn [andb negb].
  unfold leafChange.
  destruct (String.eqb_spec (realTypeOf h lv) (realTypeOf h rv)) as [Heq|Hne].
  - cbn [negb]. rewrite (plainOrPrim_tag h lv "date") by (done || (simpl; tauto)).
    cbn [andb].
    assert (Hprim : isRef lv = false /\ isRef rv = false).
    { destruct lv as [| | | | |x], rv as [| | | | |y]; try done; exfalso.
      all: simpl in Hlv, Hrv;
           repeat match goal with
           | H : exists ps, _ !! _ = Some _ |- _ => destruct H as [? H]
           end.
      all: simpl in Heq;
           repeat match goal with
           | H : ?h !! ?z = Some _ |- _ => rewrite H in Heq; clear H
           end; try done.
      all: now destruct (numIsNaN _). }
    destruct Hprim as [Hl Hr].
    replace (truthy lv && truthy rv && String.eqb (typeof lv) "object") with false
      by (destruct lv; simpl in *; try done; now rewrite ?andb_false_r).
    unfold sameValueZero. destruct (strictEq lv rv); [done|]. cbn [negb orb].
    destruct lv as [| | |n1| |], rv as [| | |n2| |]; try done.
    all: simpl; rewrite ?andb_false_r; try done.
    now destruct (numIsNaN n1 && numIsNaN n2).
  - cbn [negb].
    destruct (sameValueZero lv rv) eqn:E; [|done].
    now apply (sameValueZero_realTypeOf h) in E.
Qed.

(** A key only the right object has. *)
Lemma deepDiff_right_only fuel h rv k p a b st :
  k <> "" ->
  hasOwnProperty h (VRef a) k = false ->
  hasOwnProperty h (VRef b) k = true ->
  deepDiff hash (S fuel) h VNull rv
    (Opts pf oi (Some k) (Some p) (Some (Frame (VRef a) (VRef b) :: st)))
  = Some (h, [ChN (p ++ [k]) rv]).
Proof using pf_accepts.
  intros Hk Hak Hbk. rewrite deepDiff_S. unfold deepDiffBody.
  cbn [key prefilter path stack default from_option id keyName].
  rewrite (keyTruthy_Some _ Hk). fold (rejects pf p k). rewrite pf_accepts.
  cbn [andb realTypeOf]. unfold recoverable.
  cbn [st_lhs st_rhs keyName default from_option id truthy String.eqb Ascii.eqb Bool.eqb].
  rewrite Hak, Hbk. cbn [andb orb negb]. now rewrite orb_true_r.
Qed.


(** The body on two plain objects: the two key loops. *)
Lemma deepDiffBody_plain d h a b psa psb o :
  h !! a = Some (Obj CObject psa) ->
  h !! b = Some (Obj CObject psb) ->
  prefilter o = pf ->
  existsb (fun f => strictEq (st_lhs f) (VRef a)) (default [] (stack o)) = false ->
  let rec := fun h0 l0 r0 k =>
    d h0 l0 r0 (Opts pf (orderIndependent o) (Some k) (Some (currentPathOf o))
                  (Some (Frame (VRef a) (VRef b) :: default [] (stack o)))) in
  deepDiffBody hash d h (VRef a) (VRef b) o =
    '(h1, c1, rk) ← lhsKeysLoop rec h (VRef a) (VRef b) (map fst psa)
                       (map Some (map fst psb));
    '(h2, c2) ← rhsKeysLoop rec h1 (VRef b) rk;
    Some (h2, c1 ++ c2).
Proof using pf_accepts.
  intros Ha Hb Hpf Hst rec. unfold deepDiffBody. cbv zeta. rewrite Hpf.
  fold (rejects pf (default [] (path o)) (keyName (key o))).
  rewrite pf_accepts, andb_false_r. fold (currentPathOf o).
  rewrite (realTypeOf_plain _ _ _ Ha), (realTypeOf_plain _ _ _ Hb).
  change (String.eqb "object" "regexp") with false.
  cbn [andb truthy orb negb typeof].
  rewrite (realTypeOf_plain _ _ _ Ha), (realTypeOf_plain _ _ _ Hb).
  change (String.eqb "object" "object") with true.
  change (String.eqb "object" "date") with false.
  cbn [andb negb]. rewrite Hst, (isArray_plain _ _ _ Ha).
  rewrite (ownKeys_plain _ _ _ Ha), (ownKeys_plain _ _ _ Hb). reflexivity.
Qed.

(** The recursive call of the body on the nodes at [a] and [b]. *)
Definition childCall (fuel : nat) (a b : addr) (cp : list string) (st : list StackT)
    : heap -> value -> value -> string -> diffResult :=
  fun h0 l0 r0 k =>
    deepDiff hash fuel h0 l0 r0
      (Opts pf oi (Some k) (Some cp) (Some (Frame (VRef a) (VRef b) :: st))).

Section NodeLoops.

Variable fuel : nat.
Variable h : heap.
Variables a b : addr.
Variables lk rk : list (string * atree).
Variable cp : list string.
Variable st : list StackT.

Hypothesis Ha : h !! a = Some (Obj CObject (kidProps lk)).
Hypothesis Hb : h !! b = Some (Obj CObject (kidProps rk)).
Hypothesis lk_nodup : NoDup (map fst lk).
Hypothesis rk_nodup : NoDup (map fst rk).
Hypothesis lk_nonempty : "" ∉ map fst lk.
Hypothesis rk_nonempty : "" ∉ map fst rk.
Hypothesis lk_repr : Forall (fun kt => arepr h kt.2 /\ primLeaves kt.2) lk.
Hypothesis rk_repr : Forall (fun kt => arepr h kt.2 /\ primLeaves kt.2) rk.

Local Abbreviation rec := (childCall fuel a b cp st).

(** What the induction gives for the children of the left node. *)
Definition childRuns (kt : string * atree) : Prop :=
  forall rt h' cs,
    isNode kt.2 = true -> isNode rt = true -> (kt.1, rt) ∈ rk ->
    rec h (valueOf kt.2) (valueOf rt) kt.1 = Some (h', cs) ->
    h' = h /\ cs = tdiff (cp ++ [kt.1]) kt.2 rt.

Lemma getProp_kid x kids k t :
  h !! x = Some (Obj CObject (kidProps kids)) ->
  NoDup (map fst kids) -> (k, t) ∈ kids ->
  getProp h (VRef x) k = valueOf t.
Proof.
  intros Hx Hnd Hin. rewrite (getProp_plain _ _ _ _ Hx), assoc_kidProps.
  now rewrite (assoc_NoDup _ _ _ Hnd Hin).
Qed.

Lemma hasOwn_kid x kids k :
  h !! x = Some (Obj CObject (kidProps kids)) ->
  hasOwnProperty h (VRef x) k = hasKey k kids.
Proof.
  intros Hx. rewrite (hasOwnProperty_plain _ _ _ _ Hx). unfold hasKey.
  apply bool_decide_ext. rewrite assoc_kidProps. now rewrite fmap_is_Some.
Qed.

Lemma lhsKeysLoop_tree ks : forall D h' cs rk',
  ks ⊆ lk -> NoDup (map fst ks) -> (forall k, k ∈ map fst ks -> k ∉ D) ->
  Forall childRuns ks ->
  lhsKeysLoop rec h (VRef a) (VRef b) (map fst ks) (map (mask D) (map fst rk))
    = Some (h', cs, rk') ->
  h' = h /\ cs = flat_map (tchild cp rk) ks
  /\ rk' = map (mask (reverse (map fst ks) ++ D)) (map fst rk).
Proof using All.
  induction ks as [|[k lt] ks IH]; intros D h' cs rk' Hsub Hnd HD Hkids H.
  { simpl in H. now simplify_eq. }
  cbn [map fst lhsKeysLoop] in H.
  apply NoDup_cons in Hnd as [Hk Hnd]. apply Forall_cons in Hkids as [Hkid Hkids].
  assert (Hin : (k, lt) ∈ lk) by (apply Hsub, list_elem_of_here).
  assert (Hkne : k <> "").
  { intros ->. apply lk_nonempty. apply list_elem_of_fmap. now exists ("", lt). }
  assert (HkD : k ∉ D) by (apply HD, list_elem_of_here).
  assert (Hlt : arepr h lt /\ primLeaves lt).
  { rewrite Forall_forall in lk_repr. now apply (lk_repr (k, lt)). }
  assert (Hlast : reverse (map fst ((k, lt) :: ks)) ++ D
                  = reverse (map fst ks) ++ k :: D).
  { cbn [map fst]. now rewrite reverse_cons, <- app_assoc. }
  rewrite Hlast. cbn [flat_map]. unfold tchild at 1. cbn [fst snd].
  rewrite (getProp_kid a lk k lt Ha lk_nodup Hin) in H.
  assert (Hown : hasOwnProperty h (VRef a) k = true).
  { rewrite (hasOwn_kid _ _ _ Ha). apply hasKey_true, list_elem_of_fmap.
    now exists (k, lt). }
  destruct (assoc k rk) as [rt|] eqn:Ert.
  - assert (Hinr : (k, rt) ∈ rk) by now apply assoc_Some_elem.
    assert (Hkr : k ∈ map fst rk) by (apply list_elem_of_fmap; now exists (k, rt)).
    destruct (indexOfKey_mask_Some k D (map fst rk) rk_nodup Hkr HkD) as (i & Hi & Hins).
    rewrite Hi, Hins in H.
    rewrite (getProp_kid b rk k rt Hb rk_nodup Hinr) in H.
    destruct (rec h (valueOf lt) (valueOf rt) k) as [[h1 c1]|] eqn:E1; simpl in H; [|done].
    assert (Hc1 : h1 = h /\ c1 = match lt, rt with
                                  | ANode _ _, ANode _ _ => tdiff (cp ++ [k]) lt rt
                                  | _, _ => leafChange (cp ++ [k]) (valueOf lt) (valueOf rt)
                                  end).
    { assert (Hrt : arepr h rt /\ primLeaves rt).
      { rewrite Forall_forall in rk_repr. now apply (rk_repr (k, rt)). }
      assert (Hleaf : isRef (valueOf lt) && isRef (valueOf rt) = false ->
                h1 = h /\ c1 = leafChange (cp ++ [k]) (valueOf lt) (valueOf rt)).
      { intros Hnot. unfold childCall in E1. destruct fuel as [|f]; [done|].
        rewrite deepDiff_leaf_child in E1; try done.
        - now simplify_eq.
        - rewrite (hasOwn_kid _ _ _ Hb). now apply hasKey_true.
        - now apply plainOrPrim_valueOf.
        - now apply plainOrPrim_valueOf. }
      destruct lt as [lv|la lkk], rt as [rv|rb rkk].
      - apply Hleaf. destruct Hlt as [_ Hp]. cbn in Hp. cbn [valueOf]. now rewrite Hp.
      - apply Hleaf. destruct Hlt as [_ Hp]. cbn in Hp. cbn [valueOf]. now rewrite Hp.
      - apply Hleaf. destruct Hrt as [_ Hp]. cbn in Hp. cbn [valueOf]. rewrite Hp.
        apply andb_false_r.
      - now apply (Hkid (ANode rb rkk)). }
    destruct Hc1 as [-> ->].
    apply bind_Some in H as ([[h2 c2] rk2] & E2 & H).
    apply IH in E2 as (-> & -> & ->); try done.
    + simplify_eq. split; [done|]. split; [|done]. f_equal.
      destruct lt, rt; done.
    + intros x Hx. apply Hsub. now apply list_elem_of_further.
    + intros k' Hk' [->|?]%elem_of_cons; [done|]. apply (HD k'); [|done].
      now apply list_elem_of_further.
  - assert (Hkr : k ∉ map fst rk).
    { intros Hkr. apply assoc_is_Some_keys in Hkr. rewrite Ert in Hkr. now destruct Hkr. }
    rewrite indexOfKey_mask_None in H by now left.
    destruct (rec h (valueOf lt) VNull k) as [[h1 c1]|] eqn:E1; simpl in H; [|done].
    unfold childCall in E1. destruct fuel as [|f]; [done|].
    rewrite deepDiff_left_only in E1; try done.
    + injection E1 as -> ->.
      apply bind_Some in H as ([[h2 c2] rk2] & E2 & H).
      rewrite <- (mask_absent k D (map fst rk) Hkr) in E2.
      apply IH in E2 as (-> & -> & ->); try done.
      * now simplify_eq.
      * intros x Hx. apply Hsub. now apply list_elem_of_further.
      * intros k' Hk' [->|?]%elem_of_cons; [done|]. apply (HD k'); [|done].
        now apply list_elem_of_further.
    + unfold accepts. specialize (pf_accepts cp k). unfold rejects in pf_accepts.
      now destruct pf.
    + cbn [truthy andb]. rewrite (hasOwn_kid _ _ _ Hb). now apply hasKey_false.
Qed.

Lemma rhsKeysLoop_tree D ks : forall h' cs,
  (forall k, k ∈ D <-> k ∈ map fst lk) ->
  ks ⊆ rk ->
  rhsKeysLoop rec h (VRef b) (map (mask D) (map fst ks)) = Some (h', cs) ->
  h' = h /\ cs = tnew cp lk ks.
Proof using All.
  intros h' cs HD. revert h' cs.
  induction ks as [|[k rt] ks IH]; intros h' cs Hsub H.
  { simpl in H. now simplify_eq. }
  cbn [map fst] in H. unfold tnew. cbn [flat_map fst snd].
  fold (tnew cp lk ks).
  assert (Hin : (k, rt) ∈ rk) by (apply Hsub, list_elem_of_here).
  assert (Hsub' : ks ⊆ rk) by (intros x Hx; apply Hsub; now apply list_elem_of_further).
  unfold mask at 1 in H. case_bool_decide as HkD; cbn [rhsKeysLoop] in H.
  - cbn [keyTruthy] in H. apply HD in HkD. apply hasKey_true in HkD. rewrite HkD.
    now apply IH.
  - assert (Hkne : k <> "").
    { intros ->. apply rk_nonempty. apply list_elem_of_fmap. now exists ("", rt). }
    rewrite (keyTruthy_Some _ Hkne) in H. cbn [keyName default from_option id] in H.
    rewrite (getProp_kid b rk k rt Hb rk_nodup Hin) in H.
    assert (Hkl : hasKey k lk = false).
    { apply hasKey_false. intros ?. apply HkD. now apply HD. }
    rewrite Hkl.
    destruct (rec h VNull (valueOf rt) k) as [[h1 c1]|] eqn:E1; simpl in H; [|done].
    unfold childCall in E1. destruct fuel as [|f]; [done|].
    rewrite deepDiff_right_only in E1; try done.
    + injection E1 as -> ->.
      apply bind_Some in H as ([h2 c2] & E2 & H).
      apply IH in E2 as [-> ->]; [|done]. now simplify_eq.
    + now rewrite (hasOwn_kid _ _ _ Ha).
    + rewrite (hasOwn_kid _ _ _ Hb). apply hasKey_true, list_elem_of_fmap.
      now exists (k, rt).
Qed.

End NodeLoops.

Lemma Forall_subtrees PL PN P kids :
  Forall (fun kt => treeAll PL PN kt.2) kids ->
  (forall t, treeAll PL PN t -> P t) ->
  Forall (fun kt : string * atree => P kt.2) kids.
Proof. intros H HP. eapply Forall_impl; [exact H|]. intros kt. apply HP. Qed.

Lemma kidAddrs_elem kids k t x :
  (k, t) ∈ kids -> x ∈ addrs t -> x ∈ kidAddrs kids.
Proof.
  intros Hin Hx. unfold kidAddrs. apply list_elem_of_In, in_flat_map.
  exists (k, t). split; now apply list_elem_of_In.
Qed.

(** A run on two trees records what [tdiff] says and leaves the store as it
    is. *)
Lemma deepDiff_nodes l : forall fuel h r o h' cs,
  isNode l = true -> isNode r = true ->
  arepr h l -> arepr h r -> primLeaves l -> primLeaves r ->
  keysOK l -> keysOK r -> acyclicTree l ->
  (forall x, x ∈ addrs l -> x ∉ stackAddrs (default [] (stack o))) ->
  prefilter o = pf -> orderIndependent o = oi ->
  deepDiff hash fuel h (valueOf l) (valueOf r) o = Some (h', cs) ->
  h' = h /\ cs = tdiff (currentPathOf o) l r.
Proof using pf_accepts.
  induction l as [v|a lk IH] using atree_ind';
    intros fuel h r o h' cs Hnl Hnr Hl Hr Hpl Hpr Hkl Hkr Hac Hst Hpf Hoi H; [done|].
  destruct r as [w|b rk]; [done|]. destruct fuel as [|fuel]; [done|].
  apply treeAll_node in Hl as [Ha Hl], Hr as [Hb Hr], Hpl as [_ Hpl], Hpr as [_ Hpr].
  apply treeAll_node in Hkl as [[Hndl Hnel] Hkl], Hkr as [[Hndr Hner] Hkr].
  apply treeAll_node in Hac as [Haa Hac].
  cbn [valueOf] in H. rewrite deepDiff_S in H.
  rewrite (deepDiffBody_plain _ _ _ _ _ _ _ Ha Hb Hpf) in H.
  2:{ apply existsb_stack_notin, Hst. rewrite addrs_node. apply list_elem_of_here. }
  rewrite Hoi, !keys_kidProps in H.
  fold (childCall fuel a b (currentPathOf o) (default [] (stack o))) in H.
  apply bind_Some in H as ([[h1 c1] rk1] & E1 & H).
  apply bind_Some in H as ([h2 c2] & E2 & H).
  assert (Hlr : Forall (fun kt => arepr h kt.2 /\ primLeaves kt.2) lk).
  { apply Forall_and. split; done. }
  assert (Hrr : Forall (fun kt => arepr h kt.2 /\ primLeaves kt.2) rk).
  { apply Forall_and. split; done. }
  change (map Some (map fst rk)) with (map Some (map fst rk)) in E1.
  replace (map Some (map fst rk)) with (map (mask []) (map fst rk)) in E1.
  2:{ apply map_ext. intros k. unfold mask. rewrite bool_decide_eq_false_2; [done|].
      apply not_elem_of_nil. }
  eapply (lhsKeysLoop_tree fuel h a b lk rk (currentPathOf o) (default [] (stack o))
            Ha Hb Hndl Hndr Hnel Hner Hlr Hrr lk) in E1 as (-> & -> & ->);
    [| done | done | intros k _; apply not_elem_of_nil |].
  - eapply (rhsKeysLoop_tree fuel h a b lk rk (currentPathOf o) (default [] (stack o))
              Ha Hb Hndl Hndr Hnel Hner Hlr Hrr _ rk) in E2 as [-> ->]; [| | done].
    + simplify_eq. split; [done|]. now rewrite tdiff_node.
    + intros k. rewrite app_nil_r, elem_of_reverse. done.
  - rewrite Forall_forall in IH, Hl, Hpl, Hkl, Hac. rewrite Forall_forall.
    intros [k lt] Hin rt h3 c3 Hnlt Hnrt Hinr Hrun. cbn [fst snd] in *.
    unfold childCall in Hrun.
    assert (Hkne : k <> "").
    { intros ->. apply Hnel. apply list_elem_of_fmap. now exists ("", lt). }
    rewrite Forall_forall in Hr, Hpr, Hkr.
    apply (IH (k, lt) Hin) in Hrun; cbn [fst snd]; try done.
    + unfold currentPathOf in Hrun at 1. cbn [key path keyName default from_option id] in Hrun.
      now rewrite (keyTruthy_Some _ Hkne) in Hrun.
    + now apply (Hl (k, lt)).
    + now apply (Hr (k, rt)).
    + now apply (Hpl (k, lt)).
    + now apply (Hpr (k, rt)).
    + now apply (Hkl (k, lt)).
    + now apply (Hkr (k, rt)).
    + now apply (Hac (k, lt)).
    + intros x Hx. cbn [stack default from_option id]. unfold stackAddrs. cbn.
      fold (stackAddrs (default [] (stack o))).
      apply not_elem_of_cons. split.
      * intros ->. apply Haa. now apply (kidAddrs_elem lk k lt).
      * apply Hst. rewrite addrs_node. apply list_elem_of_further.
        now apply (kidAddrs_elem lk k lt).
Qed.

(** [diff] on two trees. *)
Lemma diff_trees h l r :
  isNode l = true -> isNode r = true ->
  arepr h l -> arepr h r -> primLeaves l -> primLeaves r ->
  keysOK l -> keysOK r -> acyclicTree l ->
  diff hash h (valueOf l) (valueOf r) pf oi = Some (h, tdiff [] l r).
Proof using pf_accepts.
  intros Hnl Hnr Hl Hr Hpl Hpr Hkl Hkr Hac.
  destruct (diff_total hash h (valueOf l) (valueOf r) pf oi) as (h' & cs & Hd & _).
  rewrite Hd. unfold diff in Hd.
  apply (deepDiff_nodes l) in Hd as [-> ->]; try done.
  intros x _. apply not_elem_of_nil.
Qed.

End TreeDiff.

(** *** Reverting on a tree *)

(** The node a path leads to. *)
Fixpoint nodeAt (q : list string) (t : atree) : option (addr * list (string * atree)) :=
  match q with
  | [] =>
      match t with
      | ANode a kids => Some (a, kids)
      | AVal _ => None
      end
  | k :: q' =>
      match t with
      | ANode _ kids =>
          match assoc k kids with
          | Some c => nodeAt q' c
          | None => None
          end
      | AVal _ => None
      end
  end.

(** The tree in which the children of the node at path [q] are changed by
    [f]. *)
Fixpoint aupdate (q : list string)
    (f : list (string * atree) -> list (string * atree)) (t : atree) : option atree :=
  match q with
  | [] =>
      match t with
      | ANode a kids => Some (ANode a (f kids))
      | AVal _ => None
      end
  | k :: q' =>
      match t with
      | ANode a kids =>
          match assoc k kids with
          | Some c =>
              match aupdate q' f c with
              | Some c' => Some (ANode a (replaceProp k c' kids))
              | None => None
              end
          | None => None
          end
      | AVal _ => None
      end
  end.

(** The last segment of a path, as [revertChange] reads it. *)
Definition lastKey (p : list string) : string :=
  default "undefined" (p !! (length p - 1)).

(** What reverting one record does to a tree: a deletion or an edit stores
    the left value as it is, an addition removes the key. *)
Definition aapply (c : RawChangeT) (t : atree) : option atree :=
  match c with
  | ChD p l | ChE p l _ =>
      aupdate (take (length p - 1) p) (setNamed (lastKey p) (AVal l)) t
  | ChN p _ => aupdate (take (length p - 1) p) (removeProp (lastKey p)) t
  | ChA _ _ _ => None
  end.

Fixpoint aplay (cs : list RawChangeT) (t : atree) : option atree :=
  match cs with
  | [] => Some t
  | c :: cs' =>
      match aapply c t with
      | Some t' => aplay cs' t'
      | None => None
      end
  end.

(** The property lists of the store and of the tree change alike. *)
Lemma hasKey_kidProps k kids : hasKey k (kidProps kids) = hasKey k kids.
Proof.
  unfold hasKey. apply bool_decide_ext. rewrite assoc_kidProps. apply fmap_is_Some.
Qed.

Lemma kidProps_replaceProp k t kids :
  kidProps (replaceProp k t kids) = replaceProp k (valueOf t) (kidProps kids).
Proof.
  induction kids as [|[k' t'] kids IH]; simpl; [done|].
  destruct (String.eqb k' k); simpl; [done|]. now rewrite IH.
Qed.

Lemma kidProps_insertIndexProp i k t kids :
  kidProps (insertIndexProp i k t kids) = insertIndexProp i k (valueOf t) (kidProps kids).
Proof.
  induction kids as [|[k' t'] kids IH]; simpl; [done|].
  destruct (arrayIndex k') as [j|]; [|done].
  destruct (j <? i); simpl; [|done]. now rewrite IH.
Qed.

Lemma kidProps_setNamed k t kids :
  kidProps (setNamed k t kids) = setNamed k (valueOf t) (kidProps kids).
Proof.
  unfold setNamed. rewrite hasKey_kidProps. destruct (hasKey k kids).
  - apply kidProps_replaceProp.
  - unfold insertProp. destruct (arrayIndex k).
    + apply kidProps_insertIndexProp.
    + unfold kidProps. now rewrite map_app.
Qed.

Lemma kidProps_removeProp k kids :
  kidProps (removeProp k kids) = removeProp k (kidProps kids).
Proof.
  induction kids as [|[k' t'] kids IH]; simpl; [done|].
  destruct (String.eqb k' k); simpl; [done|]. now rewrite IH.
Qed.

(** Splitting the children at a key. *)
Lemma assoc_split {A : Type} k (l : list (string * A)) v :
  assoc k l = Some v ->
  exists pre post, l = pre ++ (k, v) :: post /\ (k ∉ map fst pre)
    /\ forall v', replaceProp k v' l = pre ++ (k, v') :: post.
Proof.
  induction l as [|[k' v'] l IH]; simpl; [done|].
  destruct (String.eqb_spec k' k) as [->|Hne].
  - intros [= ->]. exists [], l. split; [done|]. split; [apply not_elem_of_nil|done].
  - intros H. destruct (IH H) as (pre & post & -> & Hpre & Hrep).
    exists ((k', v') :: pre), post. split; [done|]. split.
    + simpl. apply not_elem_of_cons. split; [congruence|done].
    + intros v''. simpl. now rewrite Hrep.
Qed.

Lemma kidAddrs_app k1 k2 : kidAddrs (k1 ++ k2) = kidAddrs k1 ++ kidAddrs k2.
Proof. unfold kidAddrs. apply flat_map_app. Qed.

Lemma kidAddrs_cons kt kids : kidAddrs (kt :: kids) = addrs kt.2 ++ kidAddrs kids.
Proof. done. Qed.

Lemma arepr_frame h t x o : arepr h t -> x ∉ addrs t -> arepr (<[x:=o]> h) t.
Proof.
  induction t as [v|a kids IH] using atree_ind'; [done|].
  intros [Ha Hk]%treeAll_node Hx. rewrite addrs_node in Hx.
  apply not_elem_of_cons in Hx as [Hxa Hx]. apply treeAll_node. split.
  - now rewrite list_lookup_insert_ne.
  - rewrite Forall_forall in IH, Hk. rewrite Forall_forall. intros [k t] Hin.
    apply (IH (k, t) Hin); [now apply (Hk (k, t))|].
    intros ?. apply Hx. now apply (kidAddrs_elem kids k t).
Qed.

Lemma nodeAt_aupdate q f : forall t t',
  aupdate q f t = Some t' -> exists ap kp, nodeAt q t = Some (ap, kp).
Proof.
  induction q as [|k q IH]; intros [v|a kids] t' H; simpl in *; try done; [by eauto|].
  destruct (assoc k kids) as [c|]; [|done].
  destruct (aupdate q f c) as [c'|] eqn:E; [|done]. eauto.
Qed.

Lemma aupdate_valueOf q f : forall t t', aupdate q f t = Some t' -> valueOf t' = valueOf t.
Proof.
  destruct q as [|k q]; intros [v|a kids] t' H; simpl in *; try done; [now simplify_eq|].
  destruct (assoc k kids) as [c|]; [|done].
  destruct (aupdate q f c) as [c'|]; [|done]. now simplify_eq.
Qed.

Lemma aupdate_isNode q f : forall t t', aupdate q f t = Some t' -> isNode t' = true.
Proof.
  destruct q as [|k q]; intros [v|a kids] t' H; simpl in *; try done; [now simplify_eq|].
  destruct (assoc k kids) as [c|]; [|done].
  destruct (aupdate q f c) as [c'|]; [|done]. now simplify_eq.
Qed.

(** Reading a plain object: an own property, or a name that is neither
    its own nor inherited. *)
Lemma getV_plain_Some (h : heap) a ps k v :
  h !! a = Some (Obj CObject ps) -> assoc k ps = Some v ->
  getV h (VRef a) k = Returns v.
Proof.
  intros Ha Hk. unfold getV. rewrite Ha, (hasOwnProperty_plain _ _ _ _ Ha), Hk.
  rewrite bool_decide_eq_true_2 by eauto. unfold getOwn. cbn [cls props].
  now rewrite Hk.
Qed.

Lemma getV_plain_None (h : heap) a ps k :
  h !! a = Some (Obj CObject ps) -> assoc k ps = None -> inheritedName k = false ->
  getV h (VRef a) k = Returns VUndef.
Proof.
  intros Ha Hk Hinh. unfold getV. rewrite Ha, (hasOwnProperty_plain _ _ _ _ Ha), Hk.
  rewrite bool_decide_eq_false_2 by (intros [? ?]; done).
  cbn [cls getInherited]. now rewrite Hinh.
Qed.

(** The walk of [revertChange] along a path of the tree creates nothing
    and ends at the node the path leads to. *)
Lemma walk_nodeAt h q : forall t ap kp,
  arepr h t -> nodeAt q t = Some (ap, kp) ->
  walk h (valueOf t) q = Returns (h, VRef ap)
  /\ h !! ap = Some (Obj CObject (kidProps kp)) /\ ap ∈ addrs t.
Proof.
  induction q as [|k q IH]; intros [v|a kids] ap kp Ht H; simpl in H; try done.
  - simplify_eq. apply treeAll_node in Ht as [Ha _]. rewrite addrs_node.
    split; [done|]. split; [done|apply list_elem_of_here].
  - destruct (assoc k kids) as [c|] eqn:Ec; [|done].
    apply treeAll_node in Ht as [Ha Hk]. rewrite Forall_forall in Hk.
    pose proof (assoc_Some_elem _ _ _ Ec) as Hin.
    destruct (IH c ap kp (Hk (k, c) Hin) H) as (Hw & Hap & Hin').
    assert (Hc : isNode c = true) by (destruct q, c; done).
    assert (Hget : getV h (VRef a) k = Returns (valueOf c)).
    { apply (getV_plain_Some _ _ _ _ _ Ha). now rewrite assoc_kidProps, Ec. }
    split; [|split; [done|]].
    + cbn [walk valueOf]. rewrite Hget. cbn [obind].
      destruct c as [|ca ck]; [done|]. cbn [valueOf typeof].
      change (String.eqb "object" "undefined") with false.
      cbn [obind]. rewrite Hget. exact Hw.
    + rewrite addrs_node. apply list_elem_of_further.
      now apply (kidAddrs_elem kids k c).
Qed.

(** A change of the children of a node that keeps or drops the subtrees
    that were there and adds nothing but leaves. *)
Definition shrinking (f : list (string * atree) -> list (string * atree)) : Prop :=
  forall kids,
    (forall kt, kt ∈ f kids -> kt ∈ kids \/ isNode kt.2 = false)
    /\ kidAddrs (f kids) `sublist_of` kidAddrs kids.

Lemma shrinking_replaceProp k l : shrinking (replaceProp k (AVal l)).
Proof.
  intros kids. induction kids as [|[k' t] kids [IH1 IH2]]; simpl.
  - split; [by intros ? ?%elem_of_nil|done].
  - destruct (String.eqb k' k).
    + split.
      * intros kt [->|?]%elem_of_cons; [now right|]. left. now apply list_elem_of_further.
      * rewrite ?kidAddrs_cons. simpl. now apply sublist_inserts_l.
    + split.
      * intros kt [->|Hin]%elem_of_cons; [left; apply list_elem_of_here|].
        destruct (IH1 kt Hin); [left; now apply list_elem_of_further|now right].
      * rewrite ?kidAddrs_cons. now apply sublist_app.
Qed.

Lemma shrinking_insertIndexProp i k l : shrinking (insertIndexProp i k (AVal l)).
Proof.
  intros kids. induction kids as [|[k' t] kids [IH1 IH2]]; simpl.
  - split; [|done]. intros kt [->|?%elem_of_nil]%elem_of_cons; [now right|done].
  - assert (Hhere : (forall kt, kt ∈ (k, AVal l) :: (k', t) :: kids ->
                       kt ∈ (k', t) :: kids \/ isNode kt.2 = false)
                    /\ kidAddrs ((k, AVal l) :: (k', t) :: kids)
                         `sublist_of` kidAddrs ((k', t) :: kids)).
    { split; [|done]. intros kt [->|?]%elem_of_cons; [now right|now left]. }
    destruct (arrayIndex k') as [j|]; [|done]. destruct (j <? i); [|done]. split.
    + intros kt [->|Hin]%elem_of_cons; [left; apply list_elem_of_here|].
      destruct (IH1 kt Hin); [left; now apply list_elem_of_further|now right].
    + rewrite ?kidAddrs_cons. now apply sublist_app.
Qed.

Lemma shrinking_setNamed k l : shrinking (setNamed k (AVal l)).
Proof.
  intros kids. unfold setNamed. destruct (hasKey k kids).
  - apply shrinking_replaceProp.
  - unfold insertProp. destruct (arrayIndex k).
    + apply shrinking_insertIndexProp.
    + split.
      * intros kt [?|[->|?%elem_of_nil]%elem_of_cons]%elem_of_app;
          [now left|now right|done].
      * rewrite kidAddrs_app. simpl. now rewrite app_nil_r.
Qed.

Lemma shrinking_removeProp k : shrinking (removeProp k).
Proof.
  intros kids. induction kids as [|[k' t] kids [IH1 IH2]]; simpl.
  - split; [by intros ? ?%elem_of_nil|done].
  - destruct (String.eqb k' k).
    + split.
      * intros kt ?. left. now apply list_elem_of_further.
      * rewrite ?kidAddrs_cons. now apply sublist_inserts_l.
    + split.
      * intros kt [->|Hin]%elem_of_cons; [left; apply list_elem_of_here|].
        destruct (IH1 kt Hin); [left; now apply list_elem_of_further|now right].
      * rewrite ?kidAddrs_cons. now apply sublist_app.
Qed.

Lemma arepr_leaf h t : isNode t = false -> arepr h t.
Proof. now destruct t. Qed.

(** Writing the changed children into the store gives the changed tree. *)
Lemma aupdate_repr h f q : forall t t' ap kp,
  shrinking f ->
  arepr h t -> NoDup (addrs t) ->
  nodeAt q t = Some (ap, kp) -> aupdate q f t = Some t' ->
  arepr (<[ap := Obj CObject (kidProps (f kp))]> h) t'
  /\ addrs t' `sublist_of` addrs t.
Proof.
  intros t t' ap kp Hf. revert t t'.
  induction q as [|k q IH]; intros [v|a kids] t' Ht Hnd Hat Hup; simpl in Hat, Hup;
    try done.
  - simplify_eq. destruct (Hf kp) as [Hf1 Hf2].
    apply treeAll_node in Ht as [Ha Hk]. rewrite addrs_node in Hnd.
    apply NoDup_cons in Hnd as [Hap Hnd]. split.
    + apply treeAll_node. split.
      * apply list_lookup_insert_eq. now apply lookup_lt_Some in Ha.
      * rewrite Forall_forall in Hk. rewrite Forall_forall. intros kt Hin.
        destruct (Hf1 kt Hin) as [Hin'|Hleaf]; [|now apply arepr_leaf].
        apply arepr_frame; [now apply Hk|]. intros ?. apply Hap.
        destruct kt as [k t]. now apply (kidAddrs_elem kp k t).
    + rewrite !addrs_node. now apply sublist_skip.
  - destruct (assoc k kids) as [c|] eqn:Ec; [|done].
    destruct (aupdate q f c) as [c'|] eqn:Ec'; [|done]. simplify_eq.
    apply treeAll_node in Ht as [Ha Hk].
    destruct (assoc_split _ _ _ Ec) as (pre & post & -> & Hpre & Hrep).
    rewrite Hrep. rewrite addrs_node, kidAddrs_app, kidAddrs_cons in Hnd.
    cbn [snd] in Hnd. apply NoDup_cons in Hnd as [Ha' Hnd].
    apply NoDup_app in Hnd as (Hndpre & Hdis1 & Hnd).
    apply NoDup_app in Hnd as (Hndc & Hdis2 & Hndpost).
    apply Forall_app in Hk as [Hkpre Hk]. apply Forall_cons in Hk as [Hc Hkpost].
    cbn [snd] in Hc.
    destruct (IH c c' Hc Hndc Hat Ec') as [IH1 IH2].
    destruct (walk_nodeAt h q c ap kp Hc Hat) as (_ & _ & Hapc).
    assert (Hv : valueOf c' = valueOf c) by now apply aupdate_valueOf in Ec'.
    split.
    + apply treeAll_node. split.
      * rewrite list_lookup_insert_ne.
        2:{ intros ->. apply Ha'. apply elem_of_app. right. apply elem_of_app. now left. }
        rewrite Ha. do 2 f_equal. unfold kidProps. rewrite !map_app. simpl.
        now rewrite Hv.
      * apply Forall_app. split; [|apply Forall_cons; split; [done|]].
        -- rewrite Forall_forall in Hkpre. rewrite Forall_forall. intros [k' t] Hin.
           apply arepr_frame; [now apply (Hkpre (k', t))|].
           intros Hx. apply (Hdis1 ap); [now apply (kidAddrs_elem pre k' t)|].
           apply elem_of_app. now left.
        -- rewrite Forall_forall in Hkpost. rewrite Forall_forall. intros [k' t] Hin.
           apply arepr_frame; [now apply (Hkpost (k', t))|].
           intros Hx. apply (Hdis2 ap); [done|]. now apply (kidAddrs_elem post k' t).
    + rewrite !addrs_node, !kidAddrs_app, !kidAddrs_cons. cbn [snd].
      apply sublist_skip, sublist_app; [done|]. now apply sublist_app.
Qed.

Lemma setV_plain h a ps k v :
  h !! a = Some (Obj CObject ps) -> k <> "__proto__" ->
  setV h (VRef a) k v = Returns (<[a := Obj CObject (setNamed k v ps)]> h).
Proof.
  intros Ha Hk. unfold setV. rewrite Ha. cbn [cls].
  unfold inheritedAccessor. apply String.eqb_neq in Hk. rewrite Hk.
  cbn [orb]. now rewrite andb_false_r.
Qed.

Lemma deleteV_plain h a ps k :
  h !! a = Some (Obj CObject ps) ->
  deleteV h (VRef a) k = Returns (<[a := Obj CObject (removeProp k ps)]> h).
Proof. intros Ha. unfold deleteV. rewrite Ha. reflexivity. Qed.

(** Reverting one renamed record on a tree of the store. *)
Lemma revertChange_tree rac h t c t' :
  arepr h t -> NoDup (addrs t) -> isNode t = true ->
  lastKey (changePath c) <> "__proto__" ->
  aapply c t = Some t' ->
  exists h',
    revertChange rac h (valueOf t) (Some (toChangeDoc c)) = Returns h'
    /\ arepr h' t' /\ NoDup (addrs t') /\ isNode t' = true
    /\ valueOf t' = valueOf t
    /\ (forall x, x ∈ addrs t' -> x ∈ addrs t)
    /\ (forall x, x ∉ addrs t -> h' !! x = h !! x).
Proof.
  intros Ht Hnd Hnode Hlast Hap.
  assert (Hgen : forall f p, shrinking f ->
    aupdate (take (length p - 1) p) f t = Some t' ->
    exists ap kp,
      walk h (valueOf t) (take (length p - 1) p) = Returns (h, VRef ap)
      /\ h !! ap = Some (Obj CObject (kidProps kp))
      /\ arepr (<[ap := Obj CObject (kidProps (f kp))]> h) t'
      /\ NoDup (addrs t') /\ isNode t' = true /\ valueOf t' = valueOf t
      /\ (forall x, x ∈ addrs t' -> x ∈ addrs t)
      /\ (forall x, x ∉ addrs t -> <[ap := Obj CObject (kidProps (f kp))]> h !! x = h !! x)).
  { intros f p Hf Hup.
    destruct (nodeAt_aupdate _ _ _ _ Hup) as (ap & kp & Hat).
    destruct (walk_nodeAt h _ t ap kp Ht Hat) as (Hw & Hlk & Hin).
    destruct (aupdate_repr h f _ t t' ap kp Hf Ht Hnd Hat Hup) as [Hr Hsub].
    pose proof (aupdate_valueOf _ _ _ _ Hup) as Hv.
    exists ap, kp. split_and!; try done.
    - now apply (sublist_NoDup _ _ Hnd Hsub).
    - now apply (aupdate_isNode _ _ _ _ Hup).
    - intros x Hx. now apply (elem_of_sublist _ _ _ Hx Hsub).
    - intros x Hx. apply list_lookup_insert_ne. intros ->. done. }
  unfold revertChange. destruct t as [|a kids]; [done|]. cbn [valueOf truthy andb] in *.
  destruct c as [p r|p l|p l r|p i it]; cbn [aapply] in Hap; cbn [changePath] in Hlast;
    [| | |done].
  - destruct (Hgen _ p (shrinking_removeProp _) Hap)
      as (ap & kp & Hw & Hlk & Hr & Hnd' & Hn' & Hv & Hsub & Hfr).
    cbn -[addrs]. rewrite Hw. cbn [obind]. fold (lastKey p).
    rewrite (deleteV_plain _ _ _ _ Hlk), <- kidProps_removeProp. eauto 10.
  - destruct (Hgen _ p (shrinking_setNamed _ l) Hap)
      as (ap & kp & Hw & Hlk & Hr & Hnd' & Hn' & Hv & Hsub & Hfr).
    cbn -[addrs]. rewrite Hw. cbn [obind fieldValue]. fold (lastKey p).
    rewrite (setV_plain _ _ _ _ _ Hlk Hlast).
    change l with (valueOf (AVal l)) at 1. rewrite <- kidProps_setNamed. eauto 10.
  - destruct (Hgen _ p (shrinking_setNamed _ l) Hap)
      as (ap & kp & Hw & Hlk & Hr & Hnd' & Hn' & Hv & Hsub & Hfr).
    cbn -[addrs]. rewrite Hw. cbn [obind fieldValue]. fold (lastKey p).
    rewrite (setV_plain _ _ _ _ _ Hlk Hlast).
    change l with (valueOf (AVal l)) at 1. rewrite <- kidProps_setNamed. eauto 10.
Qed.

(** Reverting a list of renamed records, one after the other. *)
Lemma revertAll_tree rac cs : forall h t t',
  arepr h t -> NoDup (addrs t) -> isNode t = true ->
  Forall (fun c => lastKey (changePath c) <> "__proto__") cs ->
  aplay cs t = Some t' ->
  exists h',
    revertAll rac (map toChangeDoc cs) h (valueOf t) = Returns h'
    /\ arepr h' t' /\ valueOf t' = valueOf t
    /\ (forall x, x ∉ addrs t -> h' !! x = h !! x).
Proof.
  induction cs as [|c cs IH]; intros h t t' Ht Hnd Hnode Hkeys Hplay; simpl in Hplay.
  - simplify_eq. exists h. simpl. eauto.
  - destruct (aapply c t) as [t1|] eqn:E1; [|done].
    apply Forall_cons in Hkeys as [Hkc Hkeys].
    destruct (revertChange_tree rac h t c t1 Ht Hnd Hnode Hkc E1)
      as (h1 & Hrev & Hr1 & Hnd1 & Hn1 & Hv1 & Hsub1 & Hfr1).
    destruct (IH h1 t1 t' Hr1 Hnd1 Hn1 Hkeys Hplay) as (h' & Hall & Hr' & Hv' & Hfr').
    exists h'. cbn [map revertAll]. rewrite Hrev. cbn [obind]. rewrite <- Hv1, Hall.
    split_and!; try done.
    intros x Hx. rewrite Hfr'; [now apply Hfr1|]. intros ?. apply Hx. now apply Hsub1.
Qed.

(** *** Property lists, read through [assoc] *)

Lemma assoc_replaceProp_eq {A : Type} k (v : A) ps :
  is_Some (assoc k ps) -> assoc k (replaceProp k v ps) = Some v.
Proof.
  induction ps as [|[k' v'] ps IH]; simpl; [by intros [? ?]|].
  destruct (String.eqb k' k) eqn:E; simpl; rewrite E; [done|apply IH].
Qed.

Lemma assoc_replaceProp_ne {A : Type} k k' (v : A) ps :
  k' <> k -> assoc k' (replaceProp k v ps) = assoc k' ps.
Proof.
  intros Hne. induction ps as [|[k0 v0] ps IH]; simpl; [done|].
  destruct (String.eqb_spec k0 k) as [->|Hk]; simpl.
  - destruct (String.eqb_spec k k'); [congruence|done].
  - now rewrite IH.
Qed.

Lemma replaceProp_id {A : Type} k (v : A) ps :
  assoc k ps = Some v -> replaceProp k v ps = ps.
Proof.
  induction ps as [|[k' v'] ps IH]; simpl; [done|].
  destruct (String.eqb k' k); [now intros [= ->]|]. intros H. now rewrite IH.
Qed.

Lemma replaceProp_idem {A : Type} k (v w : A) ps :
  replaceProp k w (replaceProp k v ps) = replaceProp k w ps.
Proof.
  induction ps as [|[k' v'] ps IH]; simpl; [done|].
  destruct (String.eqb k' k) eqn:E; simpl; rewrite E; [done|now rewrite IH].
Qed.

Lemma assoc_app {A : Type} k (l1 l2 : list (string * A)) :
  assoc k (l1 ++ l2) = match assoc k l1 with Some v => Some v | None => assoc k l2 end.
Proof.
  induction l1 as [|[k' v'] l1 IH]; simpl; [done|]. now destruct (String.eqb k' k).
Qed.

Lemma assoc_insertIndexProp_eq {A : Type} i k (v : A) ps :
  assoc k ps = None -> assoc k (insertIndexProp i k v ps) = Some v.
Proof.
  induction ps as [|[k' v'] ps IH]; simpl; [now rewrite String.eqb_refl|].
  destruct (String.eqb k' k) eqn:E; [done|]. intros H.
  destruct (arrayIndex k') as [j|]; [destruct (j <? i)|]; simpl;
    rewrite ?E, ?String.eqb_refl; auto.
Qed.

Lemma assoc_insertIndexProp_ne {A : Type} i k k' (v : A) ps :
  k' <> k -> assoc k' (insertIndexProp i k v ps) = assoc k' ps.
Proof.
  intros Hne. apply String.eqb_neq in Hne. rewrite String.eqb_sym in Hne.
  induction ps as [|[k0 v0] ps IH]; simpl; [now rewrite Hne|].
  destruct (arrayIndex k0) as [j|]; [destruct (j <? i)|]; simpl; rewrite ?Hne, ?IH; done.
Qed.

Lemma assoc_setNamed_eq {A : Type} k (v : A) ps : assoc k (setNamed k v ps) = Some v.
Proof.
  unfold setNamed. destruct (hasKey k ps) eqn:E.
  - apply assoc_replaceProp_eq. apply assoc_is_Some_keys. now apply hasKey_true.
  - apply hasKey_false in E. rewrite <- assoc_is_Some_keys, <- eq_None_not_Some in E.
    unfold insertProp. destruct (arrayIndex k).
    + now apply assoc_insertIndexProp_eq.
    + rewrite assoc_app, E. simpl. now rewrite String.eqb_refl.
Qed.

Lemma assoc_setNamed_ne {A : Type} k k' (v : A) ps :
  k' <> k -> assoc k' (setNamed k v ps) = assoc k' ps.
Proof.
  intros Hne. unfold setNamed. destruct (hasKey k ps).
  - now apply assoc_replaceProp_ne.
  - unfold insertProp. destruct (arrayIndex k).
    + now apply assoc_insertIndexProp_ne.
    + rewrite assoc_app. destruct (assoc k' ps); [done|]. simpl.
      destruct (String.eqb_spec k k'); [congruence|done].
Qed.

Lemma assoc_removeProp_ne {A : Type} k k' (ps : list (string * A)) :
  k' <> k -> assoc k' (removeProp k ps) = assoc k' ps.
Proof.
  intros Hne. induction ps as [|[k0 v0] ps IH]; simpl; [done|].
  destruct (String.eqb_spec k0 k) as [->|Hk]; simpl.
  - destruct (String.eqb_spec k k'); [congruence|done].
  - now rewrite IH.
Qed.

Lemma assoc_removeProp_eq {A : Type} k (ps : list (string * A)) :
  NoDup (map fst ps) -> assoc k (removeProp k ps) = None.
Proof.
  induction ps as [|[k0 v0] ps IH]; simpl; [done|].
  intros [Hk0 Hnd]%NoDup_cons.
  destruct (String.eqb_spec k0 k) as [->|Hk]; simpl.
  - destruct (assoc k ps) eqn:E; [|done]. exfalso. apply Hk0.
    apply assoc_is_Some_keys. rewrite E. eauto.
  - destruct (String.eqb_spec k0 k); [congruence|]. now apply IH.
Qed.

Lemma removeProp_keys_sublist {A : Type} k (ps : list (string * A)) :
  map fst (removeProp k ps) `sublist_of` map fst ps.
Proof.
  induction ps as [|[k0 v0] ps IH]; simpl; [done|].
  destruct (String.eqb k0 k); simpl.
  - now apply sublist_cons.
  - now apply sublist_skip.
Qed.

(** *** Records below a key *)

(** The record with its path below the path [p0]. *)
Definition prependPath (p0 : list string) (c : RawChangeT) : RawChangeT :=
  match c with
  | ChN p r => ChN (p0 ++ p) r
  | ChD p l => ChD (p0 ++ p) l
  | ChE p l r => ChE (p0 ++ p) l r
  | ChA p i it => ChA (p0 ++ p) i it
  end.

Lemma leafChange_prepend p0 p lv rv :
  leafChange (p0 ++ p) lv rv = map (prependPath p0) (leafChange p lv rv).
Proof. unfold leafChange. now destruct (sameValueZero lv rv). Qed.

(** The records of a run below a path are the records of the run at the
    root, with the path put in front of theirs. *)
Lemma tdiff_prepend p0 l : forall p r,
  tdiff (p0 ++ p) l r = map (prependPath p0) (tdiff p l r).
Proof.
  induction l as [v|a lk IH] using atree_ind'; intros p [w|b rk]; try done.
  rewrite !tdiff_node, map_app. f_equal.
  - induction IH as [|[k lt] lk Hlt _ IHlk]; [done|].
    simpl. rewrite map_app, IHlk. f_equal.
    unfold tchild. simpl. rewrite <- app_assoc. destruct (assoc k rk) as [rt|]; [|done].
    destruct lt as [lv|la lkk], rt as [rv|ra rkk];
      try apply leafChange_prepend. apply Hlt.
  - unfold tnew. clear IH. induction rk as [|[k rt] rk IHrk]; [done|].
    simpl. rewrite map_app, IHrk. f_equal.
    rewrite <- app_assoc. now destruct (hasKey k lk).
Qed.

(** Every record of a run on two objects has a key to work at. *)
Lemma tdiff_paths_nonempty l r :
  Forall (fun c => changePath c <> []) (tdiff [] l r).
Proof.
  destruct l as [v|a lk], r as [w|b rk]; try apply Forall_nil_2.
  rewrite tdiff_node. apply Forall_app. split.
  - apply Forall_flat_map, Forall_forall. intros [k lt] _.
    unfold tchild. simpl. destruct (assoc k rk) as [rt|].
    + assert (Hleaf : forall lv rv,
        Forall (fun c => changePath c <> []) (leafChange [k] lv rv)).
      { intros lv rv. unfold leafChange. destruct (sameValueZero lv rv);
          [apply Forall_nil_2|]. now apply Forall_singleton. }
      destruct lt as [lv|la lkk], rt as [rv|ra rkk]; try apply Hleaf.
      change [k] with ([k] ++ []). rewrite tdiff_prepend.
      apply Forall_fmap, Forall_forall. now intros [] _.
    + now apply Forall_singleton.
  - unfold tnew. apply Forall_flat_map, Forall_forall. intros [k rt] _. simpl.
    destruct (hasKey k lk); [apply Forall_nil_2|]. now apply Forall_singleton.
Qed.

(** Reverting a record below the key [k] of an object reverts the record
    on the child under [k]. *)
Lemma aapply_lift k c a kids ch :
  changePath c <> [] -> assoc k kids = Some ch ->
  aapply (prependPath [k] c) (ANode a kids)
  = aapply c ch ≫= (fun ch' => Some (ANode a (replaceProp k ch' kids))).
Proof.
  intros Hp Hk.
  assert (Hgen : forall p f, p <> [] ->
    aupdate (take (length (k :: p) - 1) (k :: p)) f (ANode a kids)
    = aupdate (take (length p - 1) p) f ch
        ≫= (fun ch' => Some (ANode a (replaceProp k ch' kids)))).
  { intros [|k0 p] f Hne; [done|].
    cbn [length Nat.sub]. rewrite !Nat.sub_0_r. cbn [take aupdate]. rewrite Hk.
    now destruct (aupdate _ f ch). }
  assert (Hlast : forall p, p <> [] -> lastKey ([k] ++ p) = lastKey p).
  { intros [|k0 p] Hne; [done|]. unfold lastKey. cbn [app length Nat.sub].
    now rewrite !Nat.sub_0_r. }
  destruct c as [p r|p l|p l r|p i it]; simpl in Hp; cbn [prependPath aapply];
    rewrite ?Hlast by done; try apply Hgen; done.
Qed.

Lemma aplay_lift k a cs : forall kids ch ch',
  Forall (fun c => changePath c <> []) cs ->
  assoc k kids = Some ch -> aplay cs ch = Some ch' ->
  aplay (map (prependPath [k]) cs) (ANode a kids)
  = Some (ANode a (replaceProp k ch' kids)).
Proof.
  induction cs as [|c cs IH]; intros kids ch ch' Hne Hk Hplay; simpl in Hplay.
  - simplify_eq. simpl. now rewrite replaceProp_id.
  - apply Forall_cons in Hne as [Hc Hne].
    destruct (aapply c ch) as [ch1|] eqn:E1; [|done].
    cbn [map aplay]. rewrite (aapply_lift _ _ _ _ _ Hc Hk), E1. cbn.
    rewrite (IH _ ch1 ch' Hne); [now rewrite replaceProp_idem| |done].
    apply assoc_replaceProp_eq. rewrite Hk. eauto.
Qed.

Lemma aplay_app cs1 cs2 t :
  aplay (cs1 ++ cs2) t = aplay cs1 t ≫= aplay cs2.
Proof.
  revert t. induction cs1 as [|c cs1 IH]; intros t; simpl; [done|].
  destruct (aapply c t); [apply IH|done].
Qed.

(** *** The tree the records lead back to *)

(** The target holds what the left tree holds: the same keys, at a leaf the
    same value up to SameValueZero, and for an object of the left tree
    either that object itself or an object that matches it key by key. *)
Fixpoint matches (l t : atree) {struct l} : Prop :=
  match l, t with
  | AVal v, AVal w => sameValueZero v w = true
  | AVal _, ANode _ _ => False
  | ANode x _, AVal w => w = VRef x
  | ANode _ lk, ANode _ tk =>
      (fix all (ks : list (string * atree)) : Prop :=
         match ks with
         | [] => True
         | kt :: ks' =>
             (exists tt, assoc kt.1 tk = Some tt /\ matches kt.2 tt) /\ all ks'
         end) lk
      /\ (forall k, is_Some (assoc k tk) -> is_Some (assoc k lk))
  end.

Lemma matches_node x lk y tk :
  matches (ANode x lk) (ANode y tk) <->
  Forall (fun kt => exists tt, assoc kt.1 tk = Some tt /\ matches kt.2 tt) lk
  /\ (forall k, is_Some (assoc k tk) -> is_Some (assoc k lk)).
Proof.
  simpl. apply and_iff_compat_r.
  induction lk as [|kt lk IH].
  - split; intros _; [apply Forall_nil_2|exact I].
  - rewrite Forall_cons, IH. done.
Qed.

Lemma sameValueZero_refl v : sameValueZero v v = true.
Proof.
  unfold sameValueZero. rewrite strictEq_refl.
  destruct v as [| |b|n|s|a]; try done. simpl. now destruct (numIsNaN n).
Qed.

Lemma sameValueZero_ref_r v b : sameValueZero v (VRef b) = true -> v = VRef b.
Proof.
  unfold sameValueZero. destruct v as [| |c|n|s|a]; simpl; try done.
  rewrite orb_false_r. intros H. apply Nat.eqb_eq in H. now subst.
Qed.

Lemma sameValueZero_ref_l x w : sameValueZero (VRef x) w = true -> w = VRef x.
Proof.
  unfold sameValueZero. destruct w as [| |c|n|s|a]; simpl; try done.
  rewrite orb_false_r. intros H. apply Nat.eqb_eq in H. now subst.
Qed.

Lemma matches_self_leaf lt : matches lt (AVal (valueOf lt)).
Proof. destruct lt as [v|x lk]; simpl; [apply sameValueZero_refl|done]. Qed.

(** A copy has the keys of the original, and under each a copy. *)
Lemma copy_assoc (tk rk : list (string * atree)) k :
  Forall2 (fun kt kr => kt.1 = kr.1 /\ copyOf kt.2 kr.2) tk rk ->
  match assoc k rk with
  | Some rt => exists tt, assoc k tk = Some tt /\ copyOf tt rt
  | None => assoc k tk = None
  end.
Proof.
  induction 1 as [|[k1 tt] [k2 rt] tk rk [Hk Hc] _ IH]; simpl; [done|].
  simpl in Hk, Hc. subst k2. destruct (String.eqb k1 k); [eauto|done].
Qed.

Lemma copy_keys (tk rk : list (string * atree)) :
  Forall2 (fun kt kr => kt.1 = kr.1 /\ copyOf kt.2 kr.2) tk rk ->
  map fst tk = map fst rk.
Proof. induction 1 as [|? ? ? ? [Hk _] _ IH]; simpl; [done|]. now rewrite Hk, IH. Qed.

Lemma reverse_flat_map {A B : Type} (f : A -> list B) l :
  reverse (flat_map f l) = flat_map (fun x => reverse (f x)) (reverse l).
Proof.
  induction l as [|x l IH]; [done|].
  simpl. rewrite reverse_app, reverse_cons, flat_map_app, IH. simpl.
  now rewrite app_nil_r.
Qed.

Lemma is_Some_assoc_removeProp {A : Type} k k' (ps : list (string * A)) :
  NoDup (map fst ps) -> is_Some (assoc k' (removeProp k ps)) ->
  k' <> k /\ is_Some (assoc k' ps).
Proof.
  intros Hnd H. destruct (decide (k' = k)) as [->|Hne].
  - rewrite assoc_removeProp_eq in H by done. now destruct H.
  - now rewrite assoc_removeProp_ne in H.
Qed.

(** Reverting the additions, last one first, removes from the target the
    keys only the right object has. *)
Lemma revert_additions a (lk rs : list (string * atree)) : forall tk,
  NoDup (map fst tk) ->
  exists tk',
    aplay (flat_map (fun kr => reverse (if hasKey kr.1 lk then []
                                        else [ChN ([] ++ [kr.1]) (valueOf kr.2)])) rs)
          (ANode a tk) = Some (ANode a tk')
    /\ (forall k, hasKey k lk = true -> assoc k tk' = assoc k tk)
    /\ (forall k, k ∈ map fst rs -> hasKey k lk = false -> assoc k tk' = None)
    /\ (forall k, is_Some (assoc k tk') -> is_Some (assoc k tk)).
Proof.
  induction rs as [|[k rt] rs IH]; intros tk Hnd.
  - exists tk. simpl. split_and!; try done. by intros k ?%elem_of_nil.
  - simpl. destruct (hasKey k lk) eqn:Ek.
    + destruct (IH tk Hnd) as (tk' & Hplay & Hsame & Hgone & Hsub).
      exists tk'. simpl. split_and!; try done.
      intros k' [->|Hin]%elem_of_cons Hk'; [congruence|now apply Hgone].
    + assert (Hnd1 : NoDup (map fst (removeProp k tk)))
        by apply (sublist_NoDup _ _ Hnd (removeProp_keys_sublist k tk)).
      destruct (IH (removeProp k tk) Hnd1) as (tk' & Hplay & Hsame & Hgone & Hsub).
      exists tk'. split_and!.
      * exact Hplay.
      * intros k' Hk'. rewrite Hsame by done. apply assoc_removeProp_ne. congruence.
      * intros k' [->|Hin]%elem_of_cons Hk'; [|now apply Hgone].
        destruct (assoc k tk') eqn:E; [|done]. exfalso.
        assert (Hs : is_Some (assoc k tk')) by (rewrite E; eauto).
        apply Hsub, is_Some_assoc_removeProp in Hs as [? _]; done.
      * intros k' Hs. now apply Hsub, is_Some_assoc_removeProp in Hs as [_ ?].
Qed.

(** The records of a run on two objects, reverted last one first on a copy
    of the right one, lead back to the left one. *)
Definition revertsTo (l : atree) : Prop :=
  forall r t,
    isNode l = true -> isNode r = true ->
    primLeaves l -> keysOK l -> keysOK r -> copyOf t r ->
    exists t', aplay (reverse (tdiff [] l r)) t = Some t' /\ matches l t'.

(** The records for one key of the left object. *)
Lemma revert_key c (rk : list (string * atree)) k lt tk :
  revertsTo lt -> primLeaves lt -> keysOK lt ->
  Forall (fun kr => keysOK kr.2) rk ->
  match assoc k rk with
  | Some rt => exists tt, assoc k tk = Some tt /\ copyOf tt rt
  | None => assoc k tk = None
  end ->
  exists tk1,
    aplay (reverse (tchild [] rk (k, lt))) (ANode c tk) = Some (ANode c tk1)
    /\ (exists tt, assoc k tk1 = Some tt /\ matches lt tt)
    /\ (forall k', k' <> k -> assoc k' tk1 = assoc k' tk).
Proof.
  intros IH Hprim Hkeys Hrk Hcopy.
  assert (Hset : exists tk1,
    aapply (ChE [k] (valueOf lt) VUndef) (ANode c tk) = Some (ANode c tk1)
    /\ (exists tt, assoc k tk1 = Some tt /\ matches lt tt)
    /\ (forall k', k' <> k -> assoc k' tk1 = assoc k' tk)).
  { exists (setNamed k (AVal (valueOf lt)) tk). split_and!.
    - done.
    - exists (AVal (valueOf lt)). split; [apply assoc_setNamed_eq|apply matches_self_leaf].
    - intros k' Hne. now apply assoc_setNamed_ne. }
  assert (Hleaf : forall rt tt,
    assoc k tk = Some tt -> copyOf tt rt ->
    (isNode lt && isNode rt = false) ->
    exists tk1,
      aplay (reverse (leafChange [k] (valueOf lt) (valueOf rt))) (ANode c tk)
      = Some (ANode c tk1)
      /\ (exists tt, assoc k tk1 = Some tt /\ matches lt tt)
      /\ (forall k', k' <> k -> assoc k' tk1 = assoc k' tk)).
  { intros rt tt Htt Hc Hnn. unfold leafChange.
    destruct (sameValueZero (valueOf lt) (valueOf rt)) eqn:Esv.
    - exists tk. split_and!; try done. exists tt. split; [done|].
      destruct lt as [v|x lkk], rt as [w|b rkk], tt as [u|y tkk]; simpl in *; try done.
      + now subst.
      + apply sameValueZero_ref_r in Esv. subst v. done.
      + apply sameValueZero_ref_l in Esv. now subst.
    - destruct Hset as (tk1 & Hap & H1 & H2). exists tk1. split_and!; [|done|done].
      unfold reverse. simpl rev_append. cbn [aplay].
      change (aapply (ChE [k] (valueOf lt) (valueOf rt)) (ANode c tk))
        with (aapply (ChE [k] (valueOf lt) VUndef) (ANode c tk)).
      now rewrite Hap. }
  unfold tchild. cbn [fst snd app]. destruct (assoc k rk) as [rt|] eqn:Ek.
  - destruct Hcopy as (tt & Htt & Hc).
    destruct lt as [v|x lkk]; [now apply (Hleaf rt tt)|].
    destruct rt as [w|b rkk]; [now apply (Hleaf (AVal w) tt)|].
    change [k] with ([k] ++ []). rewrite tdiff_prepend, <- fmap_reverse.
    assert (Hrt : keysOK (ANode b rkk)).
    { rewrite Forall_forall in Hrk. apply (Hrk (k, ANode b rkk)).
      now apply assoc_Some_elem. }
    destruct (IH (ANode b rkk) tt eq_refl eq_refl Hprim Hkeys Hrt Hc) as (tt' & Hplay & Hm).
    exists (replaceProp k tt' tk). split_and!.
    + apply (aplay_lift _ _ _ _ tt); [|done|done].
      apply Forall_reverse, tdiff_paths_nonempty.
    + exists tt'. split; [|done]. apply assoc_replaceProp_eq. rewrite Htt. eauto.
    + intros k' Hne. now apply assoc_replaceProp_ne.
  - destruct Hset as (tk1 & Hap & H1 & H2). exists tk1. split_and!; [|done|done].
    unfold reverse. simpl rev_append. cbn [aplay].
    change (aapply (ChD [k] (valueOf lt)) (ANode c tk))
      with (aapply (ChE [k] (valueOf lt) VUndef) (ANode c tk)).
    now rewrite Hap.
Qed.

(** The records for the keys of the left object, last key first. *)
Lemma revert_keys c (rk : list (string * atree)) ls : forall tk,
  Forall (fun kt => revertsTo kt.2) ls ->
  NoDup (map fst ls) ->
  Forall (fun kt => primLeaves kt.2 /\ keysOK kt.2) ls ->
  Forall (fun kr => keysOK kr.2) rk ->
  Forall (fun kt => match assoc kt.1 rk with
                    | Some rt => exists tt, assoc kt.1 tk = Some tt /\ copyOf tt rt
                    | None => assoc kt.1 tk = None
                    end) ls ->
  exists tk',
    aplay (flat_map (fun kt => reverse (tchild [] rk kt)) ls) (ANode c tk)
    = Some (ANode c tk')
    /\ Forall (fun kt => exists tt, assoc kt.1 tk' = Some tt /\ matches kt.2 tt) ls
    /\ (forall k, k ∉ map fst ls -> assoc k tk' = assoc k tk).
Proof.
  induction ls as [|[k lt] ls IHls]; intros tk IH Hnd Hls Hrk Hcopy.
  - exists tk. simpl. split_and!; try done.
  - apply Forall_cons in IH as [IHk IH]. apply Forall_cons in Hls as [[Hp Hk] Hls].
    apply Forall_cons in Hcopy as [Hck Hcopy]. simpl in Hnd.
    apply NoDup_cons in Hnd as [Hnk Hnd]. simpl in IHk, Hp, Hk, Hck.
    destruct (revert_key c rk k lt tk IHk Hp Hk Hrk Hck) as (tk1 & Hplay1 & Hm1 & Hsame1).
    assert (Hcopy1 : Forall (fun kt => match assoc kt.1 rk with
                    | Some rt => exists tt, assoc kt.1 tk1 = Some tt /\ copyOf tt rt
                    | None => assoc kt.1 tk1 = None
                    end) ls).
    { rewrite Forall_forall in Hcopy. apply Forall_forall. intros [k' lt'] Hin.
      specialize (Hcopy _ Hin). simpl in *. rewrite Hsame1; [done|].
      intros ->. apply Hnk. apply list_elem_of_fmap. now exists (k, lt'). }
    destruct (IHls tk1 IH Hnd Hls Hrk Hcopy1) as (tk' & Hplay & Hm & Hsame).
    exists tk'. split_and!.
    + cbn [flat_map]. rewrite aplay_app, Hplay1. exact Hplay.
    + apply Forall_cons. split; [|done]. simpl. now rewrite Hsame.
    + intros k' Hk'. simpl in Hk'. apply not_elem_of_cons in Hk' as [Hne Hk'].
      rewrite Hsame by done. now apply Hsame1.
Qed.

(** Reverting the records of a run, last one first, on a copy of the right
    tree gives a tree that holds what the left tree holds. *)
Lemma tdiff_reverts l : revertsTo l.
Proof.
  induction l as [v|a lk IH] using atree_ind'; intros r t Hl Hr Hprim Hkeys Hrkeys Hcopy;
    [done|].
  destruct r as [w|b rk]; [done|]. destruct t as [u|c tk]; [done|].
  apply copyOf_node in Hcopy.
  apply treeAll_node in Hprim as [_ Hprim]. apply treeAll_node in Hkeys as [[Hlnd _] Hkeys].
  apply treeAll_node in Hrkeys as [[Hrnd _] Hrkeys].
  rewrite tdiff_node, reverse_app, aplay_app.
  unfold tnew. rewrite !reverse_flat_map.
  assert (Htnd : NoDup (map fst tk)) by now rewrite (copy_keys _ _ Hcopy).
  destruct (revert_additions c lk (reverse rk) tk Htnd)
    as (tkA & HplayA & Hsame & Hgone & Hsub).
  rewrite HplayA. cbn [mbind option_bind].
  destruct (revert_keys c rk (reverse lk) tkA) as (tk' & Hplay & Hm & Hrest).
  - now apply Forall_reverse.
  - now rewrite fmap_reverse, reverse_Permutation.
  - apply Forall_reverse. rewrite Forall_forall in Hprim, Hkeys. apply Forall_forall.
    intros kt Hin. split; [now apply Hprim|now apply Hkeys].
  - done.
  - apply Forall_reverse, Forall_forall. intros [k lt] Hin. simpl.
    rewrite Hsame; [apply copy_assoc, Hcopy|].
    apply hasKey_true, list_elem_of_fmap. now exists (k, lt).
  - exists (ANode c tk'). split; [done|]. apply matches_node. split.
    + now apply Forall_reverse in Hm; rewrite reverse_involutive in Hm.
    + intros k Hk. destruct (hasKey k lk) eqn:Ek.
      * now apply assoc_is_Some_keys, hasKey_true.
      * exfalso. rewrite Hrest in Hk.
        2:{ rewrite fmap_reverse, elem_of_reverse. now apply hasKey_false. }
        assert (Hr' : k ∈ map fst (reverse rk)).
        { rewrite fmap_reverse, elem_of_reverse. change (k ∈ map fst rk).
          rewrite <- (copy_keys _ _ Hcopy). now apply assoc_is_Some_keys, Hsub. }
        rewrite (Hgone k Hr' Ek) in Hk. now destruct Hk.
Qed.

(** A target that holds what the left tree holds is deeply equal to it. *)
Lemma matches_deepEq h l : forall t,
  arepr h l -> arepr h t -> primLeaves l -> matches l t ->
  deepEq h (valueOf l) (valueOf t).
Proof.
  induction l as [v|a lk IH] using atree_ind'; intros [w|c tk] Hl Ht Hprim Hm;
    simpl in Hm; try done.
  - simpl in Hprim. apply deepEq_prim; [done| |done].
    destruct w; try done. apply sameValueZero_ref_r in Hm. now subst.
  - subst w. apply deepEq_same.
  - apply (matches_node a lk c tk) in Hm as [Hm Hk].
    apply treeAll_node in Hl as [Ha Hl]. apply treeAll_node in Ht as [Hc Ht].
    apply treeAll_node in Hprim as [_ Hprim].
    rewrite Forall_forall in IH, Hm, Hl, Ht, Hprim.
    apply (deepEq_object h a c _ _ Ha Hc).
    + intros k v. rewrite assoc_kidProps. destruct (assoc k lk) as [lt|] eqn:Ek; [|done].
      intros [= <-]. apply assoc_Some_elem in Ek.
      destruct (Hm _ Ek) as (tt & Htt & Hmt). simpl in Htt, Hmt.
      exists (valueOf tt). rewrite assoc_kidProps, Htt. split; [done|].
      apply (IH _ Ek); try done; [apply (Hl _ Ek)| |apply (Hprim _ Ek)].
      apply (Ht (k, tt)). now apply assoc_Some_elem.
    + intros k w. rewrite !assoc_kidProps. intros Hw.
      destruct (assoc k tk) as [tt|] eqn:Ek; [|done].
      destruct (Hk k) as [lt Hlt]; [rewrite Ek; eauto|]. rewrite Hlt. simpl.
      now eexists.
Qed.

Lemma arepr_agree h h' t :
  arepr h t -> (forall x, x ∈ addrs t -> h' !! x = h !! x) -> arepr h' t.
Proof.
  induction t as [v|a kids IH] using atree_ind'; [done|].
  intros [Ha Hk]%treeAll_node Hx. apply treeAll_node. split.
  - rewrite Hx; [done|]. rewrite addrs_node. apply list_elem_of_here.
  - rewrite Forall_forall in IH, Hk. apply Forall_forall. intros [k t] Hin.
    apply (IH _ Hin); [now apply Hk|]. intros x Hxt. apply Hx.
    rewrite addrs_node. apply list_elem_of_further. now apply (kidAddrs_elem _ k t).
Qed.

(** No object of the tree has the key [k0]. *)
Definition avoidsKey (k0 : string) : atree -> Prop :=
  treeAll (fun _ => True) (fun _ kids => k0 ∉ map fst kids).

Lemma lastKey_snoc p k : lastKey (p ++ [k]) = k.
Proof.
  unfold lastKey. rewrite length_app. simpl. rewrite Nat.add_sub.
  rewrite lookup_app_r by done. now rewrite Nat.sub_diag.
Qed.

(** A record ends in a key of one of the two trees. *)
Lemma tdiff_lastKey k0 l : forall p r,
  avoidsKey k0 l -> avoidsKey k0 r ->
  Forall (fun c => lastKey (changePath c) <> k0) (tdiff p l r).
Proof.
  induction l as [v|a lk IH] using atree_ind'; intros p r Hl Hr; [apply Forall_nil_2|].
  destruct r as [w|b rk]; [apply Forall_nil_2|].
  apply treeAll_node in Hl as [Hla Hl], Hr as [Hra Hr].
  rewrite Forall_forall in IH, Hl, Hr.
  assert (Hkl : forall k t, (k, t) ∈ lk -> k <> k0).
  { intros k t Hin ->. apply Hla, list_elem_of_fmap. now exists (k0, t). }
  assert (Hkr : forall k t, (k, t) ∈ rk -> k <> k0).
  { intros k t Hin ->. apply Hra, list_elem_of_fmap. now exists (k0, t). }
  rewrite tdiff_node. apply Forall_app. split.
  - apply Forall_flat_map, Forall_forall. intros [k lt] Hin.
    unfold tchild. cbn [fst snd].
    assert (Hone : forall c, changePath c = p ++ [k] ->
              Forall (fun c => lastKey (changePath c) <> k0) [c]).
    { intros c Hc. apply Forall_singleton. rewrite Hc, lastKey_snoc. now apply (Hkl k lt). }
    destruct (assoc k rk) as [rt|] eqn:Ek; [|now apply Hone].
    assert (Hleaf : Forall (fun c => lastKey (changePath c) <> k0)
                      (leafChange (p ++ [k]) (valueOf lt) (valueOf rt))).
    { unfold leafChange. destruct (sameValueZero _ _); [apply Forall_nil_2|now apply Hone]. }
    destruct lt as [v|x lkk]; [done|]. destruct rt as [w|y rkk]; [done|].
    apply (IH _ Hin); [apply (Hl _ Hin)|].
    apply (Hr (k, ANode y rkk)). now apply assoc_Some_elem.
  - unfold tnew. apply Forall_flat_map, Forall_forall. intros [k rt] Hin. cbn [fst snd].
    destruct (hasKey k lk); [apply Forall_nil_2|].
    apply Forall_singleton. cbn [changePath]. rewrite lastKey_snoc. now apply (Hkr k rt).
Qed.

(** X20.  Plain objects are reverted whatever the array-revert helper and
    in both modes.  Let left and right be trees of plain objects of the
    store, acyclic, with primitive leaves, with distinct, non-empty keys at
    every object and without the key ['__proto__'], let no key be rejected
    by the prefilter, and let the target be a copy of right whose objects
    are all distinct and none of which is an object of left.  Then [diff]
    returns records which, given the field names that [revertChange] reads
    and reverted one by one from the last to the first on the target,
    leave left as it was and make the target deeply equal to left: the
    same keys at every object, whatever their order, and the same leaves
    up to SameValueZero. *)
Theorem roundtrip_plain_objects hash rac pf oi (h : heap) (left right target : atree) :
  (forall p k, rejects pf p k = false) ->
  isNode left = true -> isNode right = true ->
  arepr h left -> arepr h right -> arepr h target ->
  primLeaves left -> primLeaves right ->
  keysOK left -> keysOK right -> acyclicTree left ->
  avoidsKey "__proto__" left -> avoidsKey "__proto__" right ->
  copyOf target right -> NoDup (addrs target) ->
  Forall (fun x => x ∉ addrs target) (addrs left) ->
  exists cs h',
    diff hash h (valueOf left) (valueOf right) pf oi = Some (h, cs)
    /\ revertAll rac (map toChangeDoc (reverse cs)) h (valueOf target) = Returns h'
    /\ arepr h' left
    /\ deepEq h' (valueOf left) (valueOf target).
Proof.
  intros Hpf Hnl Hnr Hl Hr Ht Hpl Hpr Hkl Hkr Hac Hal Har Hcopy Hnd Hdisj.
  assert (Hnt : isNode target = true) by (destruct target, right; done).
  destruct (tdiff_reverts left right target Hnl Hnr Hpl Hkl Hkr Hcopy)
    as (t' & Hplay & Hm).
  destruct (revertAll_tree rac (reverse (tdiff [] left right)) h target t' Ht Hnd Hnt)
    as (h' & Hrev & Ht' & Hv & Hframe);
    [apply Forall_reverse; now apply tdiff_lastKey|exact Hplay|].
  assert (Hl' : arepr h' left).
  { apply (arepr_agree h); [done|]. rewrite Forall_forall in Hdisj.
    intros x Hx. apply Hframe. now apply Hdisj. }
  exists (tdiff [] left right), h'. split_and!; try done.
  - now apply diff_trees.
  - rewrite <- Hv. now apply matches_deepEq.
Qed.

(** The store of [left = {a: 1, b: {c: 2}, d: 4}],
    [right = {a: 3, b: {c: 2, e: 5}, f: 6}] and a copy of [right]. *)
Definition roundtripStore : heap :=
  [ Obj CObject [("a", num 1); ("b", VRef 1); ("d", num 4)];
    Obj CObject [("c", num 2)];
    Obj CObject [("a", num 3); ("b", VRef 3); ("f", num 6)];
    Obj CObject [("c", num 2); ("e", num 5)];
    Obj CObject [("a", num 3); ("b", VRef 5); ("f", num 6)];
    Obj CObject [("c", num 2); ("e", num 5)] ].

Definition roundtripLeft : atree :=
  ANode 0 [("a", AVal (num 1)); ("b", ANode 1 [("c", AVal (num 2))]); ("d", AVal (num 4))].

Definition roundtripRight (a b : addr) : atree :=
  ANode a [("a", AVal (num 3));
           ("b", ANode b [("c", AVal (num 2)); ("e", AVal (num 5))]);
           ("f", AVal (num 6))].

Lemma roundtrip_plain_objects_witness :
  exists cs h',
    diff zeroHash roundtripStore (VRef 0) (VRef 2) None false = Some (roundtripStore, cs)
    /\ revertAll (fun h _ _ _ => Returns h) (map toChangeDoc (reverse cs))
         roundtripStore (VRef 4) = Returns h'
    /\ arepr h' roundtripLeft
    /\ deepEq h' (VRef 0) (VRef 4).
Proof.
  apply (roundtrip_plain_objects zeroHash (fun h _ _ _ => Returns h) None false
           roundtripStore roundtripLeft (roundtripRight 2 3) (roundtripRight 4 5)).
  - intros p k. reflexivity.
  - reflexivity.
  - reflexivity.
  - simpl. repeat split; reflexivity.
  - simpl. repeat split; reflexivity.
  - simpl. repeat split; reflexivity.
  - simpl. repeat split; reflexivity.
  - simpl. repeat split; reflexivity.
  - simpl. repeat split; apply (bool_decide_unpack _); vm_compute; exact I.
  - simpl. repeat split; apply (bool_decide_unpack _); vm_compute; exact I.
  - simpl. repeat split; apply (bool_decide_unpack _); vm_compute; exact I.
  - simpl. repeat split; apply (bool_decide_unpack _); vm_compute; exact I.
  - simpl. repeat split; apply (bool_decide_unpack _); vm_compute; exact I.
  - simpl. repeat split; reflexivity.
  - apply (bool_decide_unpack _). vm_compute. exact I.
  - apply (bool_decide_unpack _). vm_compute. exact I.
Defined.

(** The store of [left = {}], [right = {'': 1}] and a copy of [right]. *)
Definition emptyKeyRoundtripStore : heap :=
  [Obj CObject []; Obj CObject [("", num 1)]; Obj CObject [("", num 1)]].

(** ** Witnesses and counterexamples on concrete stores *)

(** The store of [diff({a: 0}, {})]. *)
Definition falsyStore : heap := [Obj CObject [("a", num 0)]; Obj CObject []].

(** The store of [a = {}; a.self = a; b = {}; b.self = b]. *)
Definition cycleStore : heap :=
  [Obj CObject [("self", VRef 0)]; Obj CObject [("self", VRef 1)]].

Lemma diff_type_mismatch_witness :
  diff zeroHash [] (num 1) (VStr "a") None false
  = Some ([], [ChE [] (num 1) (VStr "a")]).
Proof.
  apply (diff_type_mismatch zeroHash [] (num 1) (VStr "a") None false).
  simpl. discriminate.
Defined.

(** C4 as stated fails: [0] and ["a"] have different type tags, and the one
    record is New, not Edited. *)
Lemma diff_type_mismatch_counterexample :
  realTypeOf [] (num 0) <> realTypeOf [] (VStr "a")
  /\ strictEq (num 0) (VStr "a") = false
  /\ diff zeroHash [] (num 0) (VStr "a") None false = Some ([], [ChN [] (VStr "a")]).
Proof. split; [simpl; discriminate|]. split; reflexivity. Qed.

Lemma diff_present_falsy_witness :
  diff zeroHash falsyStore (VRef 0) (VRef 1) None false
  = Some (falsyStore, [ChD ["a"] (num 0)]).
Proof.
  apply (diff_present_falsy zeroHash falsyStore 0 1 "a" (num 0) None false);
    [discriminate | reflexivity | reflexivity | exact I].
Defined.

Lemma diff_self_cycles_witness :
  diff zeroHash cycleStore (VRef 0) (VRef 1) None false
  = Some (cycleStore, [ChE ["self"] (VRef 0) (VRef 1)]).
Proof.
  apply (diff_self_cycles zeroHash cycleStore 0 1 None false);
    [discriminate | reflexivity | reflexivity | exact I].
Defined.

(** C8 as stated fails: the run terminates, but with one record, not none. *)
Lemma diff_self_cycles_counterexample :
  diff zeroHash cycleStore (VRef 0) (VRef 1) None false
  <> Some (cycleStore, []).
Proof. vm_compute. discriminate. Qed.

(** * Further properties of the engines *)

(** ** Termination and the store *)

(** X1.  [deepDiff] started by the public entry points terminates on every
    store, cyclic values included, and the recursion is never deeper than
    the number of objects in the store plus two: with that depth or any
    greater one the run returns the same store and the same records. *)
Theorem diff_terminates hash (h : heap) l r pf oi :
  exists res,
    diff hash h l r pf oi = Some res
    /\ forall fuel, length h + 2 <= fuel ->
         deepDiff hash fuel h l r (topOpts pf oi) = Some res.
Proof.
  destruct (diff_total hash h l r pf oi) as (h' & cs & Hd & _).
  exists (h', cs). split; [done|]. intros fuel Hfuel.
  now apply (deepDiff_mono hash (length h + 2)).
Qed.

Lemma diff_terminates_witness :
  exists res,
    diff zeroHash cycleStore (VRef 0) (VRef 1) None true = Some res
    /\ deepDiff zeroHash 100 cycleStore (VRef 0) (VRef 1) (topOpts None true) = Some res.
Proof.
  destruct (diff_terminates zeroHash cycleStore (VRef 0) (VRef 1) None true)
    as (res & Hd & Hfuel).
  exists res. split; [exact Hd|]. apply Hfuel. simpl. lia.
Defined.

(** X2.  Without the order-independent mode a run reads the store and never
    writes it: whatever the two values are, the store after [diff] is the
    store before it. *)
Theorem diff_positional_store hash (h : heap) l r pf :
  exists cs, diff hash h l r pf false = Some (h, cs).
Proof.
  destruct (diff_total hash h l r pf false) as (h' & cs & Hd & _).
  exists cs. rewrite Hd. unfold diff in Hd.
  now apply deepDiff_positional_heap in Hd as ->.
Qed.

Lemma insertByHash_Permutation hash x l : insertByHash hash x l ≡ₚ x :: l.
Proof.
  induction l as [|y l IH]; simpl; [done|].
  destruct (hash x <=? hash y)%Z; [done|]. rewrite IH. apply Permutation_swap.
Qed.

Lemma sortByHash_Permutation hash l : sortByHash hash l ≡ₚ l.
Proof.
  induction l as [|x l IH]; simpl; [done|].
  unfold sortByHash in *. simpl. now rewrite insertByHash_Permutation, IH.
Qed.

Lemma sortElems_Permutation hash es : sortElems hash es ≡ₚ es.
Proof.
  unfold sortElems. rewrite sortByHash_Permutation.
  induction es as [|e es IH]; [done|].
  destruct e as [[| |b|n|s|a]|]; simpl; try (now constructor).
  - etrans; [symmetry; apply Permutation_middle|]. now constructor.
  - rewrite app_assoc. etrans; [symmetry; apply Permutation_middle|].
    constructor. now rewrite <- app_assoc.
Qed.

(** An object after a run: the same object, or the same array with its
    elements in another order. *)
Definition sameButSorted (o o' : object) : Prop :=
  props o' = props o /\
  match cls o, cls o' with
  | CArray es, CArray es' => es' ≡ₚ es
  | c, c' => c' = c
  end.

Lemma sameButSorted_refl o : sameButSorted o o.
Proof. split; [done|]. now destruct (cls o). Qed.

Lemma sameButSorted_trans o1 o2 o3 :
  sameButSorted o1 o2 -> sameButSorted o2 o3 -> sameButSorted o1 o3.
Proof.
  intros [Hp1 Hc1] [Hp2 Hc2]. split; [congruence|].
  destruct (cls o1), (cls o2), (cls o3); try done; try congruence.
  etrans; eassumption.
Qed.

Lemma sortInPlace_sameButSorted hash (h : heap) v :
  Forall2 sameButSorted h (sortInPlace hash h v).
Proof.
  assert (Hrefl : Forall2 sameButSorted h h).
  { apply Forall2_same_length_lookup_2; [done|].
    intros i x y Hx Hy. simplify_eq. apply sameButSorted_refl. }
  unfold sortInPlace. destruct v as [| | | | |a]; try done.
  destruct (h !! a) as [[[|es| |] ps]|] eqn:Ea; try done.
  rewrite <- (list_insert_id h a _ Ea) at 1.
  apply Forall2_insert; [done|]. split; [done|]. simpl.
  apply sortElems_Permutation.
Qed.

(** X3.  In the order-independent mode [diff] writes to the store only by
    sorting arrays in place: after the run the store holds the same objects
    with the same named properties, and each array holds the elements it
    held before, possibly in another order. *)
Theorem diff_order_independent_store hash (h : heap) l r pf oi :
  exists h' cs,
    diff hash h l r pf oi = Some (h', cs)
    /\ Forall2 sameButSorted h h'.
Proof.
  destruct (diff_total hash h l r pf oi) as (h' & cs & H & _).
  exists h', cs. split; [done|]. unfold diff in H.
  eapply (deepDiff_inv hash (Forall2 sameButSorted) oi (fun _ _ => True))
    in H as [H _]; [exact H| | | |done|done|done].
  - intros h0. apply Forall2_same_length_lookup_2; [done|].
    intros i x y Hx Hy. simplify_eq. apply sameButSorted_refl.
  - intros h1 h2 h3 H12. revert h3.
    induction H12 as [|o1 o2 h1 h2 Ho _ IH]; intros h3 H23; [done|].
    apply Forall2_cons_inv_l in H23 as (o3 & h3' & Ho' & H23 & ->).
    constructor; [now apply (sameButSorted_trans o1 o2)|now apply IH].
  - intros _ h0 v. apply sortInPlace_sameButSorted.
Qed.

(** ** Primitives, dates and regular expressions at the root *)

Lemma SFeqb_truthy a b :
  SFeqb a b = true -> numIsZero a || numIsNaN a = numIsZero b || numIsNaN b.
Proof.
  destruct a as [s|s| |s m e], b as [s'|s'| |s' m' e']; try done;
    unfold SFeqb; simpl; try (now destruct s); try (now destruct s').
  all: try now destruct s, s'.
Qed.

Lemma sameValueZero_truthy l r : sameValueZero l r = true -> truthy l = truthy r.
Proof.
  unfold sameValueZero.
  destruct l as [| |b1|n1|s1|a1], r as [| |b2|n2|s2|a2]; simpl; try done.
  - rewrite orb_false_r. now intros ->%Bool.eqb_prop.
  - intros [H|[H1 H2]%andb_true_iff]%orb_true_iff.
    + f_equal. now apply SFeqb_truthy.
    + now rewrite H1, H2, !orb_true_r.
  - rewrite orb_false_r. now intros ->%String.eqb_eq.
Qed.

Lemma falsy_same_tag h l r :
  truthy l = false -> truthy r = false ->
  realTypeOf h l = realTypeOf h r -> sameValueZero l r = true.
Proof.
  unfold sameValueZero.
  destruct l as [| |b1|n1|s1|a1], r as [| |b2|n2|s2|a2]; simpl; try done;
    try (destruct (numIsNaN n1); done); try (destruct (numIsNaN n2); done).
  - now intros -> ->.
  - destruct n1 as [s|s| |s m e], n2 as [s'|s'| |s' m' e']; try done.
  - intros H1%negb_false_iff%String.eqb_eq H2%negb_false_iff%String.eqb_eq _.
    subst. reflexivity.
Qed.

(** X4.  Two primitives with the same type tag, compared at the root: no
    record when they are equal (NaN equals NaN, +0 equals -0); otherwise a
    falsy left value counts as absent and the record is an addition, a
    falsy right value counts as absent and the record is a deletion, and
    only two truthy values give an edit.  So [diff(0, 5)] is one New record
    and [diff('a', '')] one Deleted record. *)
Theorem diff_same_type_primitives hash (h : heap) l r pf oi :
  isRef l = false -> isRef r = false ->
  realTypeOf h l = realTypeOf h r ->
  diff hash h l r pf oi
  = Some (h, if sameValueZero l r then []
             else if negb (truthy l) then [ChN [] r]
             else if negb (truthy r) then [ChD [] l]
             else [ChE [] l r]).
Proof.
  intros Hl Hr Htag. rewrite diff_top. unfold deepDiffBody, topOpts.
  cbn [key prefilter path stack orderIndependent default from_option id keyTruthy
       andb recoverable orb].
  rewrite (realTypeOf_nonref h l "regexp") by (simpl; tauto). cbn [andb].
  rewrite !orb_false_r, Htag, String.eqb_refl. cbn [negb].
  rewrite (realTypeOf_nonref h r "date") by (simpl; tauto). cbn [andb].
  replace (truthy l && truthy r && String.eqb (typeof l) "object") with false
    by (destruct l; simpl; try done; now rewrite ?andb_false_r).
  destruct (sameValueZero l r) eqn:Esv.
  - rewrite (sameValueZero_truthy _ _ Esv).
    assert (Heq : (if negb (strictEq l r)
      then if negb (String.eqb (typeof l) "number" &&
                    match l with VNum n => numIsNaN n | _ => false end &&
                    match r with VNum n => numIsNaN n | _ => false end)
           then Some (h, [ChE [] l r]) else Some (h, [])
      else Some (h, [])) = Some (h, @nil RawChangeT)).
    { unfold sameValueZero in Esv. destruct (strictEq l r); [done|].
      destruct l as [| |b1|n1|s1|a1], r as [| |b2|n2|s2|a2]; try done.
      simpl in Esv. simpl. now rewrite Esv. }
    destruct (truthy r); cbn [negb andb]; exact Heq.
  - assert (Hne : strictEq l r = false)
      by (unfold sameValueZero in Esv; now apply orb_false_iff in Esv as [? _]).
    assert (Hnan : String.eqb (typeof l) "number" &&
                    match l with VNum n => numIsNaN n | _ => false end &&
                    match r with VNum n => numIsNaN n | _ => false end = false).
    { unfold sameValueZero in Esv. apply orb_false_iff in Esv as [_ Esv].
      destruct l as [| |b1|n1|s1|a1], r as [| |b2|n2|s2|a2]; try done;
        simpl; now rewrite ?andb_false_r. }
    rewrite Hne, Hnan. cbn [negb].
    destruct (truthy l) eqn:El, (truthy r) eqn:Er; cbn [negb andb]; try done.
    now rewrite (falsy_same_tag h l r El Er Htag) in Esv.
Qed.

Lemma diff_same_type_primitives_witness :
  diff zeroHash [] (num 0) (num 5) None false = Some ([], [ChN [] (num 5)]).
Proof.
  apply (diff_same_type_primitives zeroHash [] (num 0) (num 5) None false);
    reflexivity.
Defined.

(** X5.  Two dates are compared by [lhs - rhs !== 0]: one Edited record at
    the root, carrying the two dates, when their time values differ or one
    of them is invalid, whatever own properties the dates have; no record
    when the time values are equal and the dates have no own property. *)
Theorem diff_dates hash (h : heap) a b ta tb psa psb pf oi :
  h !! a = Some (Obj (CDate ta) psa) ->
  h !! b = Some (Obj (CDate tb) psb) ->
  ((ta = None \/ tb = None \/ ta <> tb) ->
     diff hash h (VRef a) (VRef b) pf oi = Some (h, [ChE [] (VRef a) (VRef b)]))
  /\ (is_Some ta -> ta = tb -> psa = [] -> psb = [] ->
        diff hash h (VRef a) (VRef b) pf oi = Some (h, [])).
Proof.
  intros Ha Hb.
  assert (Hta : realTypeOf h (VRef a) = "date") by (simpl; now rewrite Ha).
  assert (Htb : realTypeOf h (VRef b) = "date") by (simpl; now rewrite Hb).
  assert (Hd : dateMinusNonZero h (VRef a) (VRef b)
               = match ta, tb with
                 | Some x, Some y => negb (Z.eqb x y)
                 | _, _ => true
                 end).
  { unfold dateMinusNonZero, timeValue. simpl. now rewrite Ha, Hb. }
  rewrite diff_top. unfold deepDiffBody, topOpts.
  cbn [key prefilter path stack orderIndependent default from_option id keyTruthy
       andb recoverable orb truthy negb typeof existsb].
  rewrite Hta, Htb.
  change (String.eqb "date" "regexp") with false.
  cbn [andb truthy orb negb typeof]. rewrite Hta, Htb, Hd.
  change (String.eqb "date" "date") with true.
  change (String.eqb "object" "object") with true. cbn [andb negb].
  split.
  - intros Hne.
    destruct ta as [x|], tb as [y|]; try done.
    destruct (Z.eqb_spec x y) as [->|?]; [|done]. now destruct Hne as [?|[?|?]].
  - intros [x ->] <- -> ->. rewrite Z.eqb_refl. cbn [negb].
    unfold isArray, ownKeys. simpl. rewrite Ha, Hb. reflexivity.
Qed.

Lemma diff_dates_witness :
  diff zeroHash [Obj (CDate (Some 5%Z)) []; Obj (CDate (Some 7%Z)) []]
       (VRef 0) (VRef 1) None false
  = Some ([Obj (CDate (Some 5%Z)) []; Obj (CDate (Some 7%Z)) []],
          [ChE [] (VRef 0) (VRef 1)]).
Proof.
  apply (proj1 (diff_dates zeroHash
                  [Obj (CDate (Some 5%Z)) []; Obj (CDate (Some 7%Z)) []]
                  0 1 (Some 5%Z) (Some 7%Z) [] [] None false eq_refl eq_refl)).
  right. right. discriminate.
Defined.



(** ** Objects without a common key *)

(** A key only the right object has: the record is an addition, whatever
    the value. *)
Lemma deepDiff_new_key hash fuel (h : heap) v p k a b st pf oi :
  k <> "" -> accepts pf p k ->
  hasOwnProperty h a k = false ->
  truthy b = true -> hasOwnProperty h b k = true ->
  deepDiff hash (S fuel) h VNull v
    (Opts pf oi (Some k) (Some p) (Some (Frame a b :: st)))
  = Some (h, [ChN (p ++ [k]) v]).
Proof.
  intros Hk Hpf Hak Hb Hbk. rewrite deepDiff_S. unfold deepDiffBody.
  cbn [key prefilter path stack default from_option id keyName].
  rewrite (keyTruthy_Some _ Hk), (accepts_false _ _ _ Hpf).
  cbn [andb realTypeOf]. unfold recoverable.
  cbn [st_lhs st_rhs keyName default from_option id truthy String.eqb Ascii.eqb Bool.eqb].
  rewrite Hak, Hb, Hbk. rewrite andb_false_r. cbn [andb orb negb].
  now rewrite orb_true_r.
Qed.

Lemma indexOfKey_absent k (ks : list string) :
  k ∉ ks -> indexOfKey k (map Some ks) = None.
Proof.
  induction ks as [|k' ks IH]; [done|]. intros [Hne Hk]%not_elem_of_cons. simpl.
  destruct (String.eqb_spec k' k); [congruence|]. now rewrite IH.
Qed.

Section DisjointKeys.

Variable hash : heap -> value -> Z.
Variable fuel : nat.
Variable h : heap.
Variables a b : addr.
Variables psa psb : list (string * value).
Variable pf : option PrefilterT.
Variable oi : bool.
Variable p : list string.
Variable st : list StackT.

Hypothesis Ha : h !! a = Some (Obj CObject psa).
Hypothesis Hb : h !! b = Some (Obj CObject psb).

Local Abbreviation rec :=
  (fun h0 l0 r0 k =>
     deepDiff hash (S fuel) h0 l0 r0
       (Opts pf oi (Some k) (Some p) (Some (Frame (VRef a) (VRef b) :: st)))).

Lemma lhsKeysLoop_all_deleted (ks : list string) (rk : list string) :
  Forall (fun k => k <> "" /\ accepts pf p k /\ (k ∈ map fst psa)
                   /\ (k ∉ map fst psb) /\ (k ∉ rk)) ks ->
  lhsKeysLoop rec h (VRef a) (VRef b) ks (map Some rk)
  = Some (h, map (fun k => ChD (p ++ [k]) (getProp h (VRef a) k)) ks, map Some rk).
Proof using Ha Hb.
  induction ks as [|k ks IH]; [done|].
  intros [(Hk & Hpf & Hin & Hnb & Hrk) Hks]%Forall_cons. cbn [lhsKeysLoop].
  rewrite (indexOfKey_absent _ _ Hrk), deepDiff_left_only; try done.
  - cbn. rewrite (IH Hks). reflexivity.
  - rewrite (hasOwnProperty_plain _ _ _ _ Ha). apply bool_decide_eq_true.
    now apply assoc_is_Some_keys.
  - rewrite (hasOwnProperty_plain _ _ _ _ Hb). cbn [truthy andb].
    apply bool_decide_eq_false. now rewrite assoc_is_Some_keys.
Qed.

Lemma rhsKeysLoop_all_new (ks : list string) :
  Forall (fun k => k <> "" /\ accepts pf p k /\ (k ∉ map fst psa)
                   /\ (k ∈ map fst psb)) ks ->
  rhsKeysLoop rec h (VRef b) (map Some ks)
  = Some (h, map (fun k => ChN (p ++ [k]) (getProp h (VRef b) k)) ks).
Proof using Ha Hb.
  induction ks as [|k ks IH]; [done|].
  intros [(Hk & Hpf & Hna & Hin) Hks]%Forall_cons. cbn [map rhsKeysLoop].
  rewrite (keyTruthy_Some _ Hk). cbn [keyName default from_option id].
  rewrite deepDiff_new_key; try done.
  - cbn. rewrite (IH Hks). reflexivity.
  - rewrite (hasOwnProperty_plain _ _ _ _ Ha).
    apply bool_decide_eq_false. now rewrite assoc_is_Some_keys.
  - rewrite (hasOwnProperty_plain _ _ _ _ Hb). apply bool_decide_eq_true.
    now apply assoc_is_Some_keys.
Qed.

End DisjointKeys.

Lemma getProp_NoDup (h : heap) a ps k v :
  h !! a = Some (Obj CObject ps) -> NoDup (map fst ps) -> (k, v) ∈ ps ->
  getProp h (VRef a) k = v.
Proof.
  intros Ha Hnd Hin. rewrite (getProp_plain _ _ _ _ Ha).
  now rewrite (assoc_NoDup _ _ _ Hnd Hin).
Qed.

(** X7.  Two plain objects without a common key, whatever their values
    are: [diff] yields one Deleted record per key of the left object, in
    the order of its keys, followed by one New record per key of the right
    object, in the order of its keys, each at the path of its key and
    carrying the value under it, [undefined] or an object included; the
    store is unchanged.  (The keys are non-empty and the prefilter lets
    them through.) *)
Theorem diff_disjoint_keys hash (h : heap) a b psa psb pf oi :
  h !! a = Some (Obj CObject psa) ->
  h !! b = Some (Obj CObject psb) ->
  NoDup (map fst psa) -> NoDup (map fst psb) ->
  Forall (fun k => k <> "" /\ accepts pf [] k /\ (k ∉ map fst psb)) (map fst psa) ->
  Forall (fun k => k <> "" /\ accepts pf [] k) (map fst psb) ->
  diff hash h (VRef a) (VRef b) pf oi
  = Some (h, map (fun kv => ChD [kv.1] kv.2) psa
             ++ map (fun kv => ChN [kv.1] kv.2) psb).
Proof.
  intros Ha Hb Hnda Hndb Hka Hkb.
  rewrite (diff_objects hash h a b psa psb pf oi Ha Hb). cbv zeta.
  rewrite Nat.add_1_r.
  rewrite (lhsKeysLoop_all_deleted hash (length h) h a b psa psb pf oi [] [] Ha Hb).
  2:{ rewrite Forall_forall in Hka. apply Forall_forall. intros k Hk.
      destruct (Hka k Hk) as (? & ? & ?). done. }
  cbn [mbind option_bind].
  rewrite (rhsKeysLoop_all_new hash (length h) h a b psa psb pf oi [] [] Ha Hb).
  2:{ rewrite Forall_forall in Hka, Hkb. apply Forall_forall. intros k Hk.
      destruct (Hkb k Hk) as (? & ?). split_and!; try done.
      intros Hin. now destruct (Hka k Hin) as (_ & _ & ?). }
  cbn [mbind option_bind]. do 2 f_equal. f_equal.
  - rewrite map_map. apply map_ext_in. intros [k v] Hin%list_elem_of_In. simpl.
    f_equal. now apply (getProp_NoDup h a psa).
  - rewrite map_map. apply map_ext_in. intros [k v] Hin%list_elem_of_In. simpl.
    f_equal. now apply (getProp_NoDup h b psb).
Qed.

Lemma diff_disjoint_keys_witness :
  diff zeroHash
    [Obj CObject [("a", VUndef)]; Obj CObject [("b", VNull); ("c", VRef 0)]]
    (VRef 0) (VRef 1) None true
  = Some ([Obj CObject [("a", VUndef)]; Obj CObject [("b", VNull); ("c", VRef 0)]],
          [ChD ["a"] VUndef; ChN ["b"] VNull; ChN ["c"] (VRef 0)]).
Proof.
  apply (diff_disjoint_keys zeroHash
           [Obj CObject [("a", VUndef)]; Obj CObject [("b", VNull); ("c", VRef 0)]]
           0 1 [("a", VUndef)] [("b", VNull); ("c", VRef 0)] None true
           eq_refl eq_refl).
  - apply (bool_decide_unpack _). vm_compute. exact I.
  - apply (bool_decide_unpack _). vm_compute. exact I.
  - repeat constructor; try discriminate.
    intros H. apply (bool_decide_pack _) in H. vm_compute in H. exact H.
  - repeat constructor; discriminate.
Defined.

(** ** Arrays of primitives *)

(** Two primitives under a key that both enclosing objects have. *)
Lemma deepDiff_element_pair hash fuel (h : heap) lv rv k p a b st pf oi :
  k <> "" -> rejects pf p k = false ->
  hasOwnProperty h (VRef a) k = true ->
  hasOwnProperty h (VRef b) k = true ->
  isRef lv = false -> isRef rv = false ->
  deepDiff hash (S fuel) h lv rv
    (Opts pf oi (Some k) (Some p) (Some (Frame (VRef a) (VRef b) :: st)))
  = Some (h, leafChange (p ++ [k]) lv rv).
Proof.
  intros Hk Hpf Hak Hbk Hl Hr. rewrite deepDiff_S. unfold deepDiffBody.
  cbn [key prefilter path stack default from_option id keyName].
  rewrite (keyTruthy_Some _ Hk). fold (rejects pf p k). rewrite Hpf.
  cbn [andb]. rewrite (realTypeOf_nonref h lv "regexp") by (simpl; tauto).
  cbn [andb]. unfold recoverable. cbn [st_lhs st_rhs keyName default from_option id truthy].
  rewrite Hak, Hbk. cbn [andb]. rewrite !orb_true_r. cbn [andb negb].
  unfold leafChange.
  destruct (String.eqb_spec (realTypeOf h lv) (realTypeOf h rv)) as [Heq|Hne].
  - cbn [negb]. rewrite (realTypeOf_nonref h lv "date") by (simpl; tauto).
    cbn [andb].
    replace (truthy lv && truthy rv && String.eqb (typeof lv) "object") with false
      by (destruct lv; simpl in *; try done; now rewrite ?andb_false_r).
    unfold sameValueZero. destruct (strictEq lv rv); [done|]. cbn [negb orb].
    destruct lv as [| | |n1| |], rv as [| | |n2| |]; try done.
    all: simpl; rewrite ?andb_false_r; try done.
    now destruct (numIsNaN n1 && numIsNaN n2).
  - cbn [negb].
    destruct (sameValueZero lv rv) eqn:E; [|done].
    now apply (sameValueZero_realTypeOf h) in E.
Qed.

Lemma hasOwnProperty_index (h : heap) a es ps i x :
  h !! a = Some (Obj (CArray es) ps) -> es !! i = Some (Some x) ->
  hasOwnProperty h (VRef a) (indexToString i) = true.
Proof.
  intros Ha Hi. unfold hasOwnProperty. rewrite Ha. cbn [cls].
  now rewrite parseIndex_indexToString, Hi.
Qed.

Lemma getIndex_Some (h : heap) a es ps i x :
  h !! a = Some (Obj (CArray es) ps) -> es !! i = Some (Some x) ->
  getIndex h (VRef a) i = x.
Proof.
  intros Ha Hi. unfold getIndex. now rewrite (elemsOf_array _ _ _ _ Ha), Hi.
Qed.

(** The element loop on two arrays of primitives without holes: one Edited
    record for each index where the two elements differ, from the highest
    index down. *)
Lemma arrayLoop_primitives hash fuel (h : heap) a b (le re : list value) pl pr pf oi p st n :
  h !! a = Some (Obj (CArray (map Some le)) pl) ->
  h !! b = Some (Obj (CArray (map Some re)) pr) ->
  Forall (fun x => isRef x = false) le ->
  Forall (fun x => isRef x = false) re ->
  (forall i, i < n -> rejects pf p (indexToString i) = false) ->
  n <= length le -> n <= length re ->
  arrayLoop (fun h0 l0 r0 k =>
       deepDiff hash (S fuel) h0 l0 r0
         (Opts pf oi (Some k) (Some p) (Some (Frame (VRef a) (VRef b) :: st))))
     h (VRef a) (VRef b) n
  = Some (h, flat_map (fun i => leafChange (p ++ [indexToString i])
                                  (default VUndef (le !! i)) (default VUndef (re !! i)))
                      (reverse (seq 0 n))).
Proof.
  intros Ha Hb Hle Hre Hpf Hnl Hnr. induction n as [|n IH]; [done|].
  rewrite seq_S, reverse_app. cbn [arrayLoop reverse rev_append app flat_map plus].
  destruct (lookup_lt_is_Some_2 le n) as [x Hx]; [lia|].
  destruct (lookup_lt_is_Some_2 re n) as [y Hy]; [lia|].
  assert (Hxe : map Some le !! n = Some (Some x)) by now rewrite list_lookup_fmap, Hx.
  assert (Hye : map Some re !! n = Some (Some y)) by now rewrite list_lookup_fmap, Hy.
  rewrite (getIndex_Some _ _ _ _ _ _ Ha Hxe), (getIndex_Some _ _ _ _ _ _ Hb Hye).
  rewrite deepDiff_element_pair.
  - cbn [mbind option_bind]. rewrite IH by (intros; try apply Hpf; lia).
    cbn [mbind option_bind]. now rewrite Hx, Hy.
  - apply indexToString_nonempty.
  - apply Hpf. lia.
  - now apply (hasOwnProperty_index _ _ _ _ _ _ Ha Hxe).
  - now apply (hasOwnProperty_index _ _ _ _ _ _ Hb Hye).
  - rewrite Forall_forall in Hle. apply Hle. now apply list_elem_of_lookup_2 in Hx.
  - rewrite Forall_forall in Hre. apply Hre. now apply list_elem_of_lookup_2 in Hy.
Qed.

(** X8.  Two arrays of primitives without holes, compared by position: the
    records are first one array change per index that only the longer array
    has, from the last index down (a New item when the right array is the
    longer one, a Deleted item when the left one is), and then one Edited
    record for each common index where the elements differ, again from the
    highest index down; equal elements, NaN against NaN included, give no
    record, and the store is unchanged.  (The prefilter lets the common
    indices through.) *)
Theorem diff_primitive_arrays hash (h : heap) a b (le re : list value) pl pr pf :
  h !! a = Some (Obj (CArray (map Some le)) pl) ->
  h !! b = Some (Obj (CArray (map Some re)) pr) ->
  Forall (fun x => isRef x = false) le ->
  Forall (fun x => isRef x = false) re ->
  (forall i, i < min (length re) (length le) ->
     rejects pf [] (indexToString i) = false) ->
  diff hash h (VRef a) (VRef b) pf false
  = Some (h,
      map (fun i => ChA [] i (ItN (default VUndef (re !! i))))
          (reverse (seq (length le) (length re - length le)))
      ++ map (fun i => ChA [] i (ItD (default VUndef (le !! i))))
             (reverse (seq (length re) (length le - length re)))
      ++ flat_map (fun i => leafChange [indexToString i]
                              (default VUndef (le !! i)) (default VUndef (re !! i)))
                  (reverse (seq 0 (min (length re) (length le))))).
Proof.
  intros Ha Hb Hle Hre Hpf.
  rewrite (diff_arrays hash h a b _ pl _ pr pf false Ha Hb). cbv zeta.
  rewrite !length_map, Nat.add_1_r.
  rewrite (arrayLoop_primitives hash (length h) h a b le re pl pr pf false [] []);
    try done; try lia.
  cbn [mbind option_bind app]. rewrite !tailItems_map. do 3 f_equal.
  - apply map_ext. intros i. unfold getIndex.
    rewrite (elemsOf_array _ _ _ _ Hb), list_lookup_fmap.
    now destruct (re !! i).
  - f_equal. apply map_ext. intros i. unfold getIndex.
    rewrite (elemsOf_array _ _ _ _ Ha), list_lookup_fmap.
    now destruct (le !! i).
Qed.

Definition primArrayStore : heap :=
  [Obj (CArray [Some (num 1); Some (num 2); Some (num 3)]) [];
   Obj (CArray [Some (num 1); Some (num 5)]) []].

Lemma diff_primitive_arrays_witness :
  diff zeroHash primArrayStore (VRef 0) (VRef 1) None false
  = Some (primArrayStore, [ChA [] 2 (ItD (num 3)); ChE ["1"] (num 2) (num 5)]).
Proof.
  apply (diff_primitive_arrays zeroHash primArrayStore 0 1
           [num 1; num 2; num 3] [num 1; num 5] [] [] None eq_refl eq_refl).
  - repeat constructor.
  - repeat constructor.
  - intros i _. reflexivity.
Defined.

(** ** Arrays in the order-independent mode *)

(** The values of a list are in ascending order of their keys. *)
Fixpoint sortedByHash (hash : value -> Z) (l : list value) : Prop :=
  match l with
  | [] => True
  | x :: l' => Forall (fun y => (hash x <= hash y)%Z) l' /\ sortedByHash hash l'
  end.

Lemma insertByHash_sorted hash x l :
  sortedByHash hash l -> sortedByHash hash (insertByHash hash x l).
Proof.
  induction l as [|y l IH]; intros Hl; simpl; [done|].
  destruct Hl as [Hy Hl]. destruct (Z.leb_spec (hash x) (hash y)) as [Hxy|Hxy].
  - simpl. split_and!; try done. constructor; [done|].
    eapply Forall_impl; [exact Hy|]. simpl. intros z Hz. lia.
  - simpl. split; [|now apply IH].
    rewrite insertByHash_Permutation. constructor; [lia|done].
Qed.

Lemma sortByHash_sorted hash l : sortedByHash hash (sortByHash hash l).
Proof.
  induction l as [|x l IH]; [done|]. unfold sortByHash in *. simpl.
  now apply insertByHash_sorted.
Qed.

(** Two sorted lists with the same values, whose keys tell the values
    apart, are the same list. *)
Lemma sortedByHash_unique hash l1 : forall l2,
  sortedByHash hash l1 -> sortedByHash hash l2 -> l1 ≡ₚ l2 ->
  (forall x y, x ∈ l1 -> y ∈ l1 -> hash x = hash y -> x = y) ->
  l1 = l2.
Proof.
  induction l1 as [|x l1 IH]; intros l2 H1 H2 Hperm Hinj.
  - now apply Permutation_nil_l in Hperm.
  - destruct l2 as [|y l2]; [now apply Permutation_nil_r in Hperm|].
    destruct H1 as [Hx H1], H2 as [Hy H2].
    assert (Hyin : y ∈ x :: l1) by (rewrite Hperm; apply list_elem_of_here).
    assert (Hxin : x ∈ y :: l2) by (rewrite <- Hperm; apply list_elem_of_here).
    assert (Hxy : x = y).
    { apply Hinj; [apply list_elem_of_here|done|].
      rewrite Forall_forall in Hx, Hy.
      apply elem_of_cons in Hyin as [->|Hyin]; [done|].
      apply elem_of_cons in Hxin as [->|Hxin]; [done|].
      specialize (Hx _ Hyin). specialize (Hy _ Hxin). lia. }
    subst y. f_equal. apply Permutation_cons_inv in Hperm.
    apply IH; try done. intros x' y' Hx' Hy'. apply Hinj; now apply list_elem_of_further.
Qed.

Lemma insertByHash_ext hash1 hash2 x l :
  (forall y, y ∈ x :: l -> hash1 y = hash2 y) ->
  insertByHash hash1 x l = insertByHash hash2 x l.
Proof.
  induction l as [|y l IH]; intros Hext; simpl; [done|].
  rewrite (Hext x), (Hext y);
    [|apply list_elem_of_further, list_elem_of_here|apply list_elem_of_here].
  destruct (hash2 x <=? hash2 y)%Z; [done|]. f_equal. apply IH.
  intros z [->|Hz]%elem_of_cons; apply Hext.
  - apply list_elem_of_here.
  - now do 2 apply list_elem_of_further.
Qed.

Lemma sortByHash_ext hash1 hash2 l :
  (forall y, y ∈ l -> hash1 y = hash2 y) ->
  sortByHash hash1 l = sortByHash hash2 l.
Proof.
  induction l as [|x l IH]; intros Hext; [done|]. unfold sortByHash in *. simpl.
  rewrite IH by (intros; now apply Hext, list_elem_of_further).
  apply insertByHash_ext. intros y Hy. apply Hext.
  apply elem_of_cons in Hy as [->|Hy]; [apply list_elem_of_here|].
  apply list_elem_of_further.
  now rewrite <- (sortByHash_Permutation hash2 l).
Qed.

Lemma filter_Permutation {A : Type} (f : A -> bool) (l1 l2 : list A) :
  l1 ≡ₚ l2 -> List.filter f l1 ≡ₚ List.filter f l2.
Proof.
  induction 1 as [|x l1 l2 _ IH|x y l|l1 l2 l3 _ IH1 _ IH2]; simpl.
  - done.
  - destruct (f x); [now constructor|done].
  - destruct (f x), (f y); try done. apply Permutation_swap.
  - etrans; eassumption.
Qed.

Lemma constant_Permutation {A : Type} (c : A) (l1 l2 : list A) :
  Forall (fun x => x = c) l1 -> l1 ≡ₚ l2 -> l1 = l2.
Proof.
  intros Hc Hperm.
  assert (Hc2 : Forall (fun x => x = c) l2) by now rewrite <- Hperm.
  apply Permutation_length in Hperm. revert l2 Hperm Hc2.
  induction Hc as [|x l1 -> _ IH]; intros [|y l2] Hlen Hc2; try done.
  apply Forall_cons in Hc2 as [-> Hc2]. f_equal. apply IH; [|done].
  simpl in Hlen. lia.
Qed.

(** Sorting two arrays that hold the same elements gives the same array,
    when the hash tells the compared elements apart. *)
Lemma sortElems_Permutation_eq hash1 hash2 (es1 es2 : list (option value)) :
  es1 ≡ₚ es2 ->
  (forall x, Some x ∈ es1 -> hash1 x = hash2 x) ->
  (forall x y, Some x ∈ es1 -> Some y ∈ es1 -> hash1 x = hash1 y -> x = y) ->
  sortElems hash1 es1 = sortElems hash2 es2.
Proof.
  intros Hperm Hext Hinj. unfold sortElems.
  assert (Hcomp : forall (x : value) (es : list (option value)),
            x ∈ omap comparedElem es -> Some x ∈ es).
  { intros x es (e & He & Hx)%list_elem_of_omap.
    destruct e as [[]|]; simpl in Hx; now simplify_eq. }
  f_equal; [f_equal|f_equal].
  - rewrite <- (sortByHash_ext hash1 hash2 (omap comparedElem es2)).
    2:{ intros y Hy. apply Hext. rewrite Hperm. now apply Hcomp. }
    apply (sortedByHash_unique hash1); try apply sortByHash_sorted.
    + rewrite !sortByHash_Permutation. now rewrite Hperm.
    + intros x y Hx Hy. rewrite sortByHash_Permutation in Hx, Hy.
      apply Hinj; now apply Hcomp.
  - apply (constant_Permutation (Some VUndef)); [|now apply filter_Permutation].
    apply Forall_forall. intros e He%list_elem_of_In%filter_In.
    destruct He as [_ He]. now destruct e as [[]|].
  - apply (constant_Permutation None); [|now apply filter_Permutation].
    apply Forall_forall. intros e He%list_elem_of_In%filter_In.
    destruct He as [_ He]. now destruct e as [[]|].
Qed.

Definition primOrHole (e : option value) : Prop :=
  match e with
  | Some x => isRef x = false
  | None => True
  end.

(** The element loop on two arrays that hold the same primitives at the same
    indices gives no record. *)
Lemma arrayLoop_same hash fuel (h : heap) a b es pl pr pf oi p st n :
  h !! a = Some (Obj (CArray es) pl) ->
  h !! b = Some (Obj (CArray es) pr) ->
  Forall primOrHole es ->
  arrayLoop (fun h0 l0 r0 k =>
       deepDiff hash (S fuel) h0 l0 r0
         (Opts pf oi (Some k) (Some p) (Some (Frame (VRef a) (VRef b) :: st))))
     h (VRef a) (VRef b) n
  = Some (h, []).
Proof.
  intros Ha Hb Hes. induction n as [|n IH]; [done|]. cbn [arrayLoop].
  assert (Hsame : getIndex h (VRef b) n = getIndex h (VRef a) n).
  { unfold getIndex. now rewrite (elemsOf_array _ _ _ _ Ha), (elemsOf_array _ _ _ _ Hb). }
  rewrite Hsame, deepDiff_same_primitive.
  - cbn [mbind option_bind]. rewrite IH. reflexivity.
  - unfold getIndex. rewrite (elemsOf_array _ _ _ _ Ha).
    destruct (es !! n) as [[x|]|] eqn:En; try done.
    rewrite Forall_forall in Hes. apply (Hes (Some x)).
    now apply list_elem_of_lookup_2 in En.
  - unfold recoverable. cbn [stack default from_option id st_lhs st_rhs key truthy andb].
    cbn [keyName default from_option id]. unfold hasOwnProperty. rewrite Ha, Hb.
    cbn [cls]. now rewrite parseIndex_indexToString.
Qed.

(** X9.  In the order-independent mode two distinct arrays that hold the
    same primitives (and equally many holes), in whatever order, give no
    record, provided the hash of a primitive does not depend on the store
    and tells the elements of the array apart; both arrays are left sorted
    in the same order. *)
Theorem diff_order_independent_permutation hash (h : heap) a b le re pl pr pf :
  a <> b ->
  h !! a = Some (Obj (CArray le) pl) ->
  h !! b = Some (Obj (CArray re) pr) ->
  Forall primOrHole le ->
  le ≡ₚ re ->
  (forall h1 h2 x, isRef x = false -> hash h1 x = hash h2 x) ->
  (forall x y, Some x ∈ le -> Some y ∈ le -> hash h x = hash h y -> x = y) ->
  diff hash h (VRef a) (VRef b) pf true
  = Some (<[b := Obj (CArray (sortElems (hash h) le)) pr]>
            (<[a := Obj (CArray (sortElems (hash h) le)) pl]> h), []).
Proof.
  intros Hab Ha Hb Hprim Hperm Hheap Hinj.
  set (s := sortElems (hash h) le).
  set (h1 := <[a := Obj (CArray s) pl]> h).
  assert (Hs1 : sortInPlace hash h (VRef a) = h1)
    by (unfold sortInPlace; now rewrite Ha).
  assert (Hb1 : h1 !! b = Some (Obj (CArray re) pr))
    by (unfold h1; now rewrite list_lookup_insert_ne).
  assert (Hsort : sortElems (hash h1) re = s).
  { symmetry. apply sortElems_Permutation_eq; [done| |done].
    intros x Hx. apply Hheap. rewrite Forall_forall in Hprim. apply (Hprim _ Hx). }
  assert (Hs2 : sortInPlace hash h1 (VRef b) = <[b := Obj (CArray s) pr]> h1)
    by (unfold sortInPlace; now rewrite Hb1, Hsort).
  rewrite (diff_arrays hash h a b le pl re pr pf true Ha Hb). cbv zeta.
  rewrite Hs1, Hs2. set (hs := <[b := Obj (CArray s) pr]> h1).
  assert (Has : hs !! a = Some (Obj (CArray s) pl)).
  { unfold hs, h1. rewrite list_lookup_insert_ne by done.
    apply list_lookup_insert_eq. now apply lookup_lt_Some in Ha. }
  assert (Hbs : hs !! b = Some (Obj (CArray s) pr)).
  { unfold hs. apply list_lookup_insert_eq. unfold h1. rewrite length_insert.
    now apply lookup_lt_Some in Hb. }
  rewrite Nat.add_1_r.
  rewrite (arrayLoop_same hash (length h) hs a b s pl pr pf true [] [] _ Has Hbs).
  - cbn [mbind option_bind]. rewrite (Permutation_length Hperm), Nat.sub_diag.
    reflexivity.
  - unfold s. rewrite sortElems_Permutation. exact Hprim.
Qed.

(** A hash of strings that tells strings of different lengths apart. *)
Definition lengthHash : heap -> value -> Z :=
  fun _ v => match v with VStr s => Z.of_nat (String.length s) | _ => 0%Z end.

(** The store of [['ccc', 'a', 'bb']] and [['bb', 'ccc', 'a']]. *)
Definition shuffledStore : heap :=
  [Obj (CArray [Some (VStr "ccc"); Some (VStr "a"); Some (VStr "bb")]) [];
   Obj (CArray [Some (VStr "bb"); Some (VStr "ccc"); Some (VStr "a")]) []].

Lemma diff_order_independent_permutation_witness :
  diff lengthHash shuffledStore (VRef 0) (VRef 1) None true
  = Some ([Obj (CArray [Some (VStr "a"); Some (VStr "bb"); Some (VStr "ccc")]) [];
           Obj (CArray [Some (VStr "a"); Some (VStr "bb"); Some (VStr "ccc")]) []], []).
Proof.
  apply (diff_order_independent_permutation lengthHash shuffledStore 0 1
           [Some (VStr "ccc"); Some (VStr "a"); Some (VStr "bb")]
           [Some (VStr "bb"); Some (VStr "ccc"); Some (VStr "a")] [] [] None).
  - discriminate.
  - reflexivity.
  - reflexivity.
  - repeat constructor.
  - apply (Permutation_app_comm [Some (VStr "ccc"); Some (VStr "a")] [Some (VStr "bb")]).
  - intros h1 h2 x _. reflexivity.
  - intros x y Hx Hy.
    repeat (apply elem_of_cons in Hx as [Hx|Hx]; [injection Hx as ->|]);
      try (now apply elem_of_nil in Hx);
      repeat (apply elem_of_cons in Hy as [Hy|Hy]; [injection Hy as ->|]);
      try (now apply elem_of_nil in Hy); simpl; intros; (reflexivity || discriminate).
Defined.

(** ** The prefilter *)

(** Every key on the way from the path [p] down the segments [q] was let
    through by the prefilter, asked with the path above the key. *)
Fixpoint passes (pf : option PrefilterT) (p q : list string) : Prop :=
  match q with
  | [] => True
  | k :: q' => rejects pf p k = false /\ passes pf (p ++ [k]) q'
  end.

(** The records of a run lie at or below the path the run works at, behind
    keys that the prefilter let through. *)
Definition passedBelow (pf : option PrefilterT) (p : list string) (c : RawChangeT) : Prop :=
  exists q, changePath c = p ++ q /\ passes pf p q.

Lemma passedBelow_here pf p c : changePath c = p -> passedBelow pf p c.
Proof. intros Hc. exists []. now rewrite app_nil_r. Qed.

Lemma passedBelow_key pf p k c :
  rejects pf p k = false -> passedBelow pf (p ++ [k]) c -> passedBelow pf p c.
Proof.
  intros Hk (q & Hc & Hq). exists (k :: q). split; [now rewrite Hc, <- app_assoc|done].
Qed.

Lemma deepDiff_passes hash : forall fuel h l r o h' cs,
  deepDiff hash fuel h l r o = Some (h', cs) ->
  Forall (passedBelow (prefilter o) (currentPathOf o)) cs.
Proof.
  induction fuel as [|fuel IH]; intros h l r o h' cs H; [done|].
  rewrite deepDiff_S in H.
  assert (Hrec : forall k h0 l0 r0 h1 cs1 st,
    deepDiff hash fuel h0 l0 r0
      (Opts (prefilter o) (orderIndependent o) (Some k)
            (Some (currentPathOf o)) st) = Some (h1, cs1) ->
    True /\ Forall (passedBelow (prefilter o) (currentPathOf o)) cs1).
  { intros k h0 l0 r0 h1 cs1 st E. split; [done|].
    pose proof (IH _ _ _ _ _ _ E) as Hcs. cbn [prefilter] in Hcs.
    unfold currentPathOf at 1 in Hcs. cbn [key path keyName default from_option id] in Hcs.
    destruct (keyTruthy (Some k)) eqn:Ek; [|done].
    destruct (rejects (prefilter o) (currentPathOf o) k) eqn:Erej.
    - destruct fuel as [|fuel']; [done|]. rewrite deepDiff_S in E.
      unfold deepDiffBody in E. cbv zeta in E.
      cbn [key prefilter path keyName default from_option id] in E.
      rewrite Ek in E. fold (rejects (prefilter o) (currentPathOf o) k) in E.
      rewrite Erej in E. cbn [andb] in E. simplify_eq. constructor.
    - eapply Forall_impl; [exact Hcs|]. intros c. now apply passedBelow_key. }
  unfold deepDiffBody in H; cbv zeta in H. fold (currentPathOf o) in H.
  repeat match type of H with
  | (if ?c then _ else _) = _ => destruct c eqn:?
  end; simplify_eq;
  try (repeat constructor; now apply passedBelow_here).
  - destruct (arrayLoop _ _ _ _ _) as [[h1 c1]|] eqn:E; simpl in H; [|done].
    simplify_eq.
    eapply (arrayLoop_inv (fun _ _ => True)) in E as [_ ?];
      [| done | done | intros; eapply Hrec; eauto].
    rewrite !Forall_app. split_and!; [| |done].
    all: match goal with |- Forall _ (tailItems ?mk ?p ?h0 ?arr ?lo ?n) =>
           induction n; simpl; constructor; [now apply passedBelow_here|done] end.
  - destruct (lhsKeysLoop _ _ _ _ _ _) as [[[h1 c1] rk]|] eqn:E1; simpl in H; [|done].
    destruct (rhsKeysLoop _ _ _ _) as [[h2 c2]|] eqn:E2; simpl in H; [|done].
    simplify_eq.
    eapply (lhsKeysLoop_inv (fun _ _ => True)) in E1 as [_ ?];
      [| done | done | intros; eapply Hrec; eauto].
    eapply (rhsKeysLoop_inv (fun _ _ => True)) in E2 as [_ ?];
      [| done | done | intros; eapply Hrec; eauto].
    now apply Forall_app.
Qed.

Lemma passes_prefix pf : forall q p p' k,
  passes pf p q -> (p' ++ [k]) `prefix_of` (p ++ q) -> length p <= length p' ->
  rejects pf p' k = false.
Proof.
  induction q as [|k0 q IH]; intros p p' k Hq [rest Hpre] Hlen.
  - rewrite app_nil_r in Hpre. apply (f_equal length) in Hpre.
    rewrite !length_app in Hpre. simpl in Hpre. lia.
  - destruct Hq as [Hk0 Hq].
    destruct (decide (length p = length p')) as [Heq|Hne].
    + rewrite <- !app_assoc in Hpre. apply app_inj_1 in Hpre as [-> Hpre]; [|done].
      simpl in Hpre. now simplify_eq.
    + apply (IH (p ++ [k0]) p' k Hq).
      * exists rest. now rewrite <- (app_assoc p [k0] q).
      * rewrite length_app. simpl. lia.
Qed.

(** X10.  No record of [diff] lies at or below a key that the prefilter
    rejects: for every record and every key on its path, the prefilter,
    asked with the path above the key and the key, answered false. *)
Theorem diff_respects_prefilter hash (h : heap) l r pf oi :
  exists h' cs,
    diff hash h l r pf oi = Some (h', cs)
    /\ Forall (fun c => forall p k, (p ++ [k]) `prefix_of` changePath c ->
                          rejects pf p k = false) cs.
Proof.
  destruct (diff_total hash h l r pf oi) as (h' & cs & H & _).
  exists h', cs. split; [done|].
  apply deepDiff_passes in H. cbn in H.
  eapply Forall_impl; [exact H|]. intros c (q & Hc & Hq) p k Hpre.
  rewrite Hc in Hpre. apply (passes_prefix pf q [] p k Hq Hpre). simpl. lia.
Qed.

(** X11.  No record of [diff] has the empty string as a segment of its
    path: a value under the key [''] is compared at the path of the object
    that holds it. *)
Theorem diff_no_empty_segment hash (h : heap) l r pf oi :
  exists h' cs,
    diff hash h l r pf oi = Some (h', cs)
    /\ Forall (fun c => "" ∉ changePath c) cs.
Proof.
  destruct (diff_total hash h l r pf oi) as (h' & cs & H & _).
  exists h', cs. split; [done|]. apply deepDiff_no_empty_segment in H.
  eapply Forall_impl; [exact H|]. intros c Hc Hin. apply Hc in Hin.
  cbn in Hin. now apply elem_of_nil in Hin.
Qed.

(** ** Trees of plain objects *)

(** X12.  On two acyclic trees of plain objects with primitive leaves and
    non-empty keys, with a prefilter that rejects nothing, [diff] leaves
    the store as it is and yields the records of [tdiff]: for each key of
    the left object, in the order of its keys, the records of the two
    sub-objects when both sides hold an object under it, one Edited record
    when both sides have it and the two values differ otherwise, one
    Deleted record when the right object lacks it; then one New record for
    each key that only the right object has, in the order of its keys. *)
Theorem diff_plain_trees hash pf oi (h : heap) (l r : atree) :
  (forall p k, rejects pf p k = false) ->
  isNode l = true -> isNode r = true ->
  arepr h l -> arepr h r -> primLeaves l -> primLeaves r ->
  keysOK l -> keysOK r -> acyclicTree l ->
  diff hash h (valueOf l) (valueOf r) pf oi = Some (h, tdiff [] l r).
Proof. intros Hpf. now apply diff_trees. Qed.

Lemma diff_plain_trees_witness :
  diff zeroHash roundtripStore (VRef 0) (VRef 2) None false
  = Some (roundtripStore,
          [ChE ["a"] (num 1) (num 3); ChN ["b"; "e"] (num 5);
           ChD ["d"] (num 4); ChN ["f"] (num 6)]).
Proof.
  apply (diff_plain_trees zeroHash None false roundtripStore roundtripLeft
           (roundtripRight 2 3)).
  - intros p k. reflexivity.
  - reflexivity.
  - reflexivity.
  - simpl. repeat split; reflexivity.
  - simpl. repeat split; reflexivity.
  - simpl. repeat split; reflexivity.
  - simpl. repeat split; reflexivity.
  - simpl. repeat split; apply (bool_decide_unpack _); vm_compute; exact I.
  - simpl. repeat split; apply (bool_decide_unpack _); vm_compute; exact I.
  - simpl. repeat split; apply (bool_decide_unpack _); vm_compute; exact I.
Defined.

Lemma copyOf_refl t : copyOf t t.
Proof.
  induction t as [v|a kids IH] using atree_ind'; [done|].
  apply copyOf_node. induction IH as [|kt kids Hkt _ IHk]; constructor; [done|done].
Qed.

Lemma deepEq_refl h v : deepEq h v v.
Proof.
  destruct v as [| | | | |a]; try (apply deepEq_prim; [done|done|apply sameValueZero_refl]).
  apply deepEq_same.
Qed.

(** Deeply equal trees give no record. *)
Lemma deepEq_tdiff h l : forall p r,
  isNode l = true -> isNode r = true ->
  arepr h l -> arepr h r -> primLeaves l -> primLeaves r ->
  keysOK l -> keysOK r ->
  deepEq h (valueOf l) (valueOf r) -> tdiff p l r = [].
Proof.
  induction l as [v|a lk IH] using atree_ind'; intros p r Hnl Hnr Hl Hr Hpl Hpr Hkl Hkr Heq;
    [done|].
  destruct r as [w|b rk]; [done|].
  apply treeAll_node in Hl as [Ha Hl], Hr as [Hb Hr], Hpl as [_ Hpl], Hpr as [_ Hpr].
  apply treeAll_node in Hkl as [[Hndl _] Hkl], Hkr as [[Hndr _] Hkr].
  rewrite Forall_forall in IH, Hl, Hr, Hpl, Hpr, Hkl, Hkr.
  assert (Hfacts :
    (forall k v, assoc k (kidProps lk) = Some v ->
       exists w, assoc k (kidProps rk) = Some w /\ deepEq h v w)
    /\ (forall k w, assoc k (kidProps rk) = Some w -> is_Some (assoc k (kidProps lk)))).
  { cbn [valueOf] in Heq.
    inversion Heq as [? ? Hv|?|? ? ps qs Ha' Hb' H1 H2]; [discriminate Hv| |].
    - subst. rewrite Ha in Hb. injection Hb as Hb. rewrite <- Hb. split.
      + intros k v Hk. exists v. split; [done|apply deepEq_refl].
      + intros k w Hk. rewrite Hk. eauto.
    - subst. rewrite Ha in Ha'. rewrite Hb in Hb'. now simplify_eq. }
  destruct Hfacts as [H1 H2].
  rewrite tdiff_node.
  assert (Hchild : forall kt, kt ∈ lk -> tchild p rk kt = []).
  { intros [k lt] Hin. unfold tchild. cbn [fst snd].
    pose proof (assoc_NoDup _ _ _ Hndl Hin) as Hk.
    destruct (H1 k (valueOf lt)) as (w & Hw & Hd).
    { now rewrite assoc_kidProps, Hk. }
    rewrite assoc_kidProps in Hw. destruct (assoc k rk) as [rt|] eqn:Ek; [|done].
    simpl in Hw. injection Hw as <-.
    pose proof (assoc_Some_elem _ _ _ Ek) as Hinr.
    pose proof (Hpl _ Hin) as Hplt. pose proof (Hpr _ Hinr) as Hprt.
    cbn [snd] in Hplt, Hprt.
    assert (Hleaf : isNode lt && isNode rt = false ->
                    leafChange (p ++ [k]) (valueOf lt) (valueOf rt) = []).
    { intros Hnn. unfold leafChange.
      replace (sameValueZero (valueOf lt) (valueOf rt)) with true; [done|].
      symmetry. destruct lt as [v|x lkk]; cbn [valueOf] in *.
      - simpl in Hplt.
        inversion Hd as [? ? _ _ Hs|?|]; subst; try done.
      - destruct rt as [w|y rkk]; [|done]. simpl in Hprt. cbn [valueOf] in Hd.
        inversion Hd as [? ? Hv|?|]; subst; try done. }
    destruct lt as [v|x lkk]; [now apply Hleaf|].
    destruct rt as [w|y rkk]; [now apply Hleaf|].
    apply (IH _ Hin); try done.
    + apply (Hl _ Hin).
    + apply (Hr _ Hinr).
    + apply (Hkl _ Hin).
    + apply (Hkr _ Hinr). }
  assert (Hl0 : flat_map (tchild p rk) lk = []).
  { clear -Hchild. induction lk as [|kt lk IHlk]; [done|]. simpl.
    rewrite Hchild by apply list_elem_of_here. simpl. apply IHlk.
    intros kt' Hin. apply Hchild. now apply list_elem_of_further. }
  rewrite Hl0. cbn [app]. unfold tnew.
  assert (Hnew : forall kr, kr ∈ rk -> hasKey kr.1 lk = true).
  { intros [k rt] Hin. cbn [fst]. apply hasKey_true.
    rewrite <- keys_kidProps. apply assoc_is_Some_keys.
    apply (H2 k (valueOf rt)). rewrite assoc_kidProps.
    now rewrite (assoc_NoDup _ _ _ Hndr Hin). }
  clear -Hnew. induction rk as [|kr rk IHrk]; [done|]. simpl.
  rewrite Hnew by apply list_elem_of_here. simpl. apply IHrk.
  intros kr' Hin. apply Hnew. now apply list_elem_of_further.
Qed.

(** X13.  On such trees [diff] yields no record exactly when the two values
    are deeply equal: primitives equal up to SameValueZero, and objects
    that are the same object or have the same keys, whatever their order,
    with deeply equal values under each key. *)
Theorem diff_empty_iff_deepEq hash pf oi (h : heap) (l r : atree) :
  (forall p k, rejects pf p k = false) ->
  isNode l = true -> isNode r = true ->
  arepr h l -> arepr h r -> primLeaves l -> primLeaves r ->
  keysOK l -> keysOK r -> acyclicTree l ->
  diff hash h (valueOf l) (valueOf r) pf oi = Some (h, [])
  <-> deepEq h (valueOf l) (valueOf r).
Proof.
  intros Hpf Hnl Hnr Hl Hr Hpl Hpr Hkl Hkr Hac.
  rewrite (diff_trees hash pf oi Hpf h l r) by done. split.
  - intros [= Hempty].
    destruct (tdiff_reverts l r r Hnl Hnr Hpl Hkl Hkr (copyOf_refl r)) as (t' & Hplay & Hm).
    rewrite Hempty in Hplay. cbn in Hplay. injection Hplay as <-.
    now apply matches_deepEq.
  - intros Heq. now rewrite (deepEq_tdiff h l [] r).
Qed.

Lemma diff_empty_iff_deepEq_witness : deepEq roundtripStore (VRef 2) (VRef 4).
Proof.
  apply (proj1 (diff_empty_iff_deepEq zeroHash None false roundtripStore
                  (roundtripRight 2 3) (roundtripRight 4 5)
                  (fun _ _ => eq_refl) eq_refl eq_refl
                  ltac:(simpl; repeat split; reflexivity)
                  ltac:(simpl; repeat split; reflexivity)
                  ltac:(simpl; repeat split; reflexivity)
                  ltac:(simpl; repeat split; reflexivity)
                  ltac:(simpl; repeat split; apply (bool_decide_unpack _); vm_compute; exact I)
                  ltac:(simpl; repeat split; apply (bool_decide_unpack _); vm_compute; exact I)
                  ltac:(simpl; repeat split; apply (bool_decide_unpack _); vm_compute; exact I))).
  vm_compute. reflexivity.
Defined.

(** [target[p0][p1]...]: the value found by following a path, reading
    [undefined] where there is nothing to read. *)
Fixpoint readPath (h : heap) (v : value) (p : list string) : value :=
  match p with
  | [] => v
  | k :: p' => readPath h (getProp h v k) p'
  end.

Lemma readPath_app h v p q : readPath h v (p ++ q) = readPath h (readPath h v p) q.
Proof. revert v. induction p as [|k p IH]; intros v; simpl; [done|apply IH]. Qed.

(** The values a record carries are the values found at its path: the left
    value in the left tree, the right value in the right tree. *)
Definition faithful (h : heap) (left right : value) (c : RawChangeT) : Prop :=
  match c with
  | ChN p r => readPath h right p = r
  | ChD p l => readPath h left p = l
  | ChE p l r => readPath h left p = l /\ readPath h right p = r
  | ChA _ _ _ => False
  end.

Lemma getProp_kids (h : heap) a kids k t :
  h !! a = Some (Obj CObject (kidProps kids)) -> NoDup (map fst kids) ->
  (k, t) ∈ kids -> getProp h (VRef a) k = valueOf t.
Proof.
  intros Ha Hnd Hin. rewrite (getProp_plain _ _ _ _ Ha), assoc_kidProps.
  now rewrite (assoc_NoDup _ _ _ Hnd Hin).
Qed.

Lemma tdiff_faithful (h : heap) left right l : forall q r,
  arepr h l -> arepr h r -> keysOK l -> keysOK r ->
  readPath h left q = valueOf l -> readPath h right q = valueOf r ->
  Forall (faithful h left right) (tdiff q l r).
Proof.
  induction l as [v|a lk IH] using atree_ind'; intros q r Hl Hr Hkl Hkr Hql Hqr;
    [apply Forall_nil_2|].
  destruct r as [w|b rk]; [apply Forall_nil_2|].
  apply treeAll_node in Hl as [Ha Hl], Hr as [Hb Hr].
  apply treeAll_node in Hkl as [[Hndl _] Hkl], Hkr as [[Hndr _] Hkr].
  rewrite Forall_forall in IH, Hl, Hr, Hkl, Hkr. cbn [valueOf] in Hql, Hqr.
  assert (Hreadl : forall k t, (k, t) ∈ lk -> readPath h left (q ++ [k]) = valueOf t).
  { intros k t Hin. rewrite readPath_app, Hql. cbn [readPath].
    now apply (getProp_kids h a lk). }
  assert (Hreadr : forall k t, (k, t) ∈ rk -> readPath h right (q ++ [k]) = valueOf t).
  { intros k t Hin. rewrite readPath_app, Hqr. cbn [readPath].
    now apply (getProp_kids h b rk). }
  rewrite tdiff_node. apply Forall_app. split.
  - apply Forall_flat_map, Forall_forall. intros [k lt] Hin.
    unfold tchild. cbn [fst snd].
    destruct (assoc k rk) as [rt|] eqn:Ek.
    + pose proof (assoc_Some_elem _ _ _ Ek) as Hinr.
      assert (Hleaf : Forall (faithful h left right)
                        (leafChange (q ++ [k]) (valueOf lt) (valueOf rt))).
      { unfold leafChange. destruct (sameValueZero _ _); [apply Forall_nil_2|].
        apply Forall_singleton. split; [now apply Hreadl|now apply Hreadr]. }
      destruct lt as [v|x lkk]; [done|]. destruct rt as [w|y rkk]; [done|].
      apply (IH _ Hin).
      * apply (Hl _ Hin).
      * apply (Hr _ Hinr).
      * apply (Hkl _ Hin).
      * apply (Hkr _ Hinr).
      * now apply Hreadl.
      * now apply Hreadr.
    + apply Forall_singleton. now apply Hreadl.
  - unfold tnew. apply Forall_flat_map, Forall_forall. intros [k rt] Hin. cbn [fst snd].
    destruct (hasKey k lk); [apply Forall_nil_2|].
    apply Forall_singleton. now apply Hreadr.
Qed.

(** X14.  On such trees every record tells what is stored at its path: a
    New record carries the value read at its path from the right value, a
    Deleted record the value read at its path from the left value, an
    Edited record both; and no record is an array change. *)
Theorem diff_records_faithful hash pf oi (h : heap) (l r : atree) :
  (forall p k, rejects pf p k = false) ->
  isNode l = true -> isNode r = true ->
  arepr h l -> arepr h r -> primLeaves l -> primLeaves r ->
  keysOK l -> keysOK r -> acyclicTree l ->
  exists cs,
    diff hash h (valueOf l) (valueOf r) pf oi = Some (h, cs)
    /\ Forall (faithful h (valueOf l) (valueOf r)) cs.
Proof.
  intros Hpf Hnl Hnr Hl Hr Hpl Hpr Hkl Hkr Hac.
  exists (tdiff [] l r). split; [now apply diff_trees|].
  now apply tdiff_faithful.
Qed.

Lemma diff_records_faithful_witness :
  exists cs,
    diff zeroHash roundtripStore (VRef 0) (VRef 2) None false = Some (roundtripStore, cs)
    /\ Forall (faithful roundtripStore (VRef 0) (VRef 2)) cs.
Proof.
  apply (diff_records_faithful zeroHash None false roundtripStore roundtripLeft
           (roundtripRight 2 3)).
  - intros p k. reflexivity.
  - reflexivity.
  - reflexivity.
  - simpl. repeat split; reflexivity.
  - simpl. repeat split; reflexivity.
  - simpl. repeat split; reflexivity.
  - simpl. repeat split; reflexivity.
  - simpl. repeat split; apply (bool_decide_unpack _); vm_compute; exact I.
  - simpl. repeat split; apply (bool_decide_unpack _); vm_compute; exact I.
  - simpl. repeat split; apply (bool_decide_unpack _); vm_compute; exact I.
Defined.

(** ** Reverting records that the engine cannot place *)

(** X15.  [revertChange] tests [change.kind], and the records [deepDiff]
    pushes have the fields k, p, l, r, i and it: reverting any list of
    records as they were pushed changes nothing, whatever the target. *)
Theorem revert_ignores_raw_records rac (cs : list RawChangeT) (h : heap) target :
  revertAll rac (map rawObject cs) h target = Returns h.
Proof.
  induction cs as [|c cs IH]; [done|]. cbn [map revertAll].
  assert (Hc : revertChange rac h target (Some (rawObject c)) = Returns h).
  { unfold revertChange. replace (assoc "kind" (rawObject c)) with (@None field)
      by now destruct c.
    cbn [fieldTruthy]. now rewrite andb_false_r. }
  rewrite Hc. exact IH.
Qed.

(** X16.  A record with an empty path, as [diff] yields for a difference at
    the root, is reverted under the key ['undefined']: the loop over the
    leading segments does not run and [change.path[0]] is [undefined].  On
    an object a deletion or an edit stores the left value under that key
    and an addition deletes that key; on a truthy primitive target a
    deletion or an edit throws a TypeError. *)
Theorem revert_root_record rac (h : heap) a ps l r :
  h !! a = Some (Obj CObject ps) ->
  revertChange rac h (VRef a) (Some (toChangeDoc (ChE [] l r)))
    = Returns (<[a := Obj CObject (setNamed "undefined" l ps)]> h)
  /\ revertChange rac h (VRef a) (Some (toChangeDoc (ChD [] l)))
    = Returns (<[a := Obj CObject (setNamed "undefined" l ps)]> h)
  /\ revertChange rac h (VRef a) (Some (toChangeDoc (ChN [] r)))
    = Returns (<[a := Obj CObject (removeProp "undefined" ps)]> h)
  /\ (forall t, truthy t = true -> isRef t = false ->
        revertChange rac h t (Some (toChangeDoc (ChE [] l r))) = Throws TypeError
        /\ revertChange rac h t (Some (toChangeDoc (ChD [] l))) = Throws TypeError).
Proof.
  intros Ha.
  assert (Hset : setV h (VRef a) "undefined" l
                 = Returns (<[a := Obj CObject (setNamed "undefined" l ps)]> h))
    by now apply setV_plain.
  split_and!.
  - unfold revertChange. cbn -[setV]. exact Hset.
  - unfold revertChange. cbn -[setV]. exact Hset.
  - cbn. now rewrite Ha.
  - intros t Ht Hr. unfold revertChange. rewrite Ht.
    split; cbn; now destruct t.
Qed.

Lemma revert_root_record_witness :
  revertChange (fun h _ _ _ => Returns h) emptyObjectStore (VRef 0)
    (Some (toChangeDoc (ChE [] (num 1) (VStr "a"))))
  = Returns [Obj CObject [("undefined", num 1)]].
Proof.
  apply (revert_root_record (fun h _ _ _ => Returns h) emptyObjectStore 0 []
           (num 1) (VStr "a") eq_refl).
Defined.

Lemma inheritedName_proto k : inheritedName k = false -> k <> "__proto__".
Proof. now intros H ->. Qed.

(** The walk of [revertChange] from a plain object that lacks the first
    segment, along segments that no object inherits: every segment gets a
    new empty object, chained under the previous one, and nothing else in
    the store changes. *)
Lemma walk_creates ks : forall (h : heap) a ps,
  h !! a = Some (Obj CObject ps) ->
  match ks with k :: _ => assoc k ps = None | [] => True end ->
  Forall (fun k => inheritedName k = false) ks ->
  exists h1 a1 ps1,
    walk h (VRef a) ks = Returns (h1, VRef a1)
    /\ h1 !! a1 = Some (Obj CObject ps1)
    /\ length h1 = length h + length ks
    /\ (a1 = a \/ length h <= a1)
    /\ (forall x, x < length h -> x <> a -> h1 !! x = h !! x)
    /\ (forall o', readPath (<[a1 := o']> h1) (VRef a) ks = VRef a1).
Proof.
  induction ks as [|k ks IH]; intros h a ps Ha Hk Hin.
  - exists h, a, ps. simpl. split_and!; try done; try lia; now left.
  - apply Forall_cons in Hin as [Hik Hin].
    pose proof (lookup_lt_Some _ _ _ Ha) as Hlt.
    set (n := length h).
    set (h1 := <[a := Obj CObject (setNamed k (VRef n) ps)]> (h ++ [Obj CObject []])).
    assert (Ha1 : h1 !! a = Some (Obj CObject (setNamed k (VRef n) ps))).
    { unfold h1. apply list_lookup_insert_eq. rewrite length_app. simpl. lia. }
    assert (Hn1 : h1 !! n = Some (Obj CObject [])).
    { unfold h1. rewrite list_lookup_insert_ne by (unfold n; lia).
      rewrite lookup_app_r by (unfold n; lia). now rewrite Nat.sub_diag. }
    assert (Hlen1 : length h1 = S n).
    { unfold h1. rewrite length_insert, length_app. simpl. unfold n. lia. }
    destruct (IH h1 n [] Hn1) as (h2 & a2 & ps2 & Hw & Ha2 & Hlen & Hge & Hframe & Hread).
    { now destruct ks. }
    { done. }
    exists h2, a2, ps2.
    assert (Ha2a : a2 <> a) by (destruct Hge; unfold n in *; lia).
    assert (Hh2a : h2 !! a = Some (Obj CObject (setNamed k (VRef n) ps))).
    { rewrite Hframe; [done| |]; unfold n in *; lia. }
    split_and!.
    + cbn [walk]. rewrite (getV_plain_None _ _ _ _ Ha Hk Hik).
      cbn [typeof obind].
      change (String.eqb "undefined" "undefined") with true.
      rewrite (setV_plain (h ++ [Obj CObject []]) a ps k (VRef (length h)))
        by (try apply inheritedName_proto; try done; now rewrite lookup_app_l).
      cbn [obind]. fold n h1.
      rewrite (getV_plain_Some _ _ _ _ _ Ha1 (assoc_setNamed_eq _ _ _)).
      cbn [obind]. exact Hw.
    + done.
    + rewrite Hlen, Hlen1. simpl. unfold n. lia.
    + right. destruct Hge; unfold n in *; lia.
    + intros x Hx Hxa. rewrite Hframe by (unfold n in *; lia).
      unfold h1. rewrite list_lookup_insert_ne by done. now apply lookup_app_l.
    + intros o'. cbn [readPath].
      assert (Hg : getProp (<[a2:=o']> h2) (VRef a) k = VRef n).
      { unfold getProp. cbn [deref]. rewrite list_lookup_insert_ne by done.
        rewrite Hh2a. unfold getOwn. cbn [cls props].
        now rewrite assoc_setNamed_eq. }
      rewrite Hg. apply Hread.
Qed.

(** X17.  Reverting a deletion or an edit on a plain object that lacks the
    first segment of the path (or with a path of one segment), where no
    leading segment is a name that objects inherit from [Object.prototype]
    and the last segment is not ['__proto__'], creates a new empty object
    for every segment but the last, each stored under the previous one,
    and stores the left value under the last segment: reading the path
    from the target gives the left value back, the store grows by one
    object per inner segment, and no other object of the store changes. *)
Theorem revert_creates_path rac (h : heap) a ps ks k l r :
  h !! a = Some (Obj CObject ps) ->
  match ks with k1 :: _ => assoc k1 ps = None | [] => True end ->
  Forall (fun k1 => inheritedName k1 = false) ks ->
  k <> "__proto__" ->
  exists h',
    revertChange rac h (VRef a) (Some (toChangeDoc (ChE (ks ++ [k]) l r))) = Returns h'
    /\ revertChange rac h (VRef a) (Some (toChangeDoc (ChD (ks ++ [k]) l))) = Returns h'
    /\ readPath h' (VRef a) (ks ++ [k]) = l
    /\ length h' = length h + length ks
    /\ (forall x, x < length h -> x <> a -> h' !! x = h !! x).
Proof.
  intros Ha Hk Hin Hlastk.
  destruct (walk_creates ks h a ps Ha Hk Hin)
    as (h1 & a1 & ps1 & Hw & Ha1 & Hlen & Hge & Hframe & Hread).
  pose proof (lookup_lt_Some _ _ _ Ha) as Hlt.
  pose proof (lookup_lt_Some _ _ _ Ha1) as Hlt1.
  exists (<[a1 := Obj CObject (setNamed k l ps1)]> h1).
  assert (Htake : take (length (ks ++ [k]) - 1) (ks ++ [k]) = ks).
  { rewrite length_app. simpl. rewrite Nat.add_sub. now rewrite take_app_length. }
  assert (Hlast : (ks ++ [k]) !! (length (ks ++ [k]) - 1) = Some k).
  { rewrite length_app. simpl. rewrite Nat.add_sub.
    rewrite lookup_app_r by done. now rewrite Nat.sub_diag. }
  pose proof (setV_plain h1 a1 ps1 k l Ha1 Hlastk) as Hset.
  split_and!.
  - unfold revertChange. cbn [toChangeDoc assoc String.eqb Ascii.eqb Bool.eqb
      fieldTruthy truthy andb negb kindCaseOf fieldValue].
    rewrite Htake, Hlast, Hw. cbn [obind default from_option id].
    exact Hset.
  - unfold revertChange. cbn [toChangeDoc assoc String.eqb Ascii.eqb Bool.eqb
      fieldTruthy truthy andb negb kindCaseOf fieldValue].
    rewrite Htake, Hlast, Hw. cbn [obind default from_option id].
    exact Hset.
  - rewrite readPath_app, Hread. cbn [readPath]. unfold getProp. cbn [deref].
    rewrite list_lookup_insert_eq by done. unfold getOwn. cbn [cls props].
    now rewrite assoc_setNamed_eq.
  - now rewrite length_insert.
  - intros x Hx Hxa. destruct (decide (x = a1)) as [->|Hne].
    + destruct Hge; [done|lia].
    + rewrite list_lookup_insert_ne by done. now apply Hframe.
Qed.

Lemma revert_creates_path_witness :
  exists h',
    revertChange (fun h _ _ _ => Returns h) emptyObjectStore (VRef 0)
      (Some (toChangeDoc (ChE (["a"; "b"] ++ ["c"]) (num 1) (num 2)))) = Returns h'
    /\ revertChange (fun h _ _ _ => Returns h) emptyObjectStore (VRef 0)
         (Some (toChangeDoc (ChD (["a"; "b"] ++ ["c"]) (num 1)))) = Returns h'
    /\ readPath h' (VRef 0) (["a"; "b"] ++ ["c"]) = num 1
    /\ length h' = length emptyObjectStore + length ["a"; "b"]
    /\ (forall x, x < length emptyObjectStore -> x <> 0 -> h' !! x = emptyObjectStore !! x).
Proof.
  apply (revert_creates_path (fun h _ _ _ => Returns h) emptyObjectStore 0 []
           ["a"; "b"] "c" (num 1) (num 2)); [reflexivity|reflexivity| |done].
  repeat constructor.
Defined.

Lemma removeProp_insertIndexProp {A : Type} i k (v : A) ps :
  assoc k ps = None -> removeProp k (insertIndexProp i k v ps) = ps.
Proof.
  induction ps as [|[k' v'] ps IH]; simpl; [now rewrite String.eqb_refl|].
  destruct (String.eqb k' k) eqn:E; [done|]. intros H.
  destruct (arrayIndex k') as [j|]; [destruct (j <? i)|]; simpl;
    rewrite ?E, ?String.eqb_refl; try done. now rewrite IH.
Qed.

Lemma removeProp_app_new {A : Type} k (v : A) ps :
  assoc k ps = None -> removeProp k (ps ++ [(k, v)]) = ps.
Proof.
  induction ps as [|[k' v'] ps IH]; simpl; [now rewrite String.eqb_refl|].
  destruct (String.eqb k' k) eqn:E; [done|]. intros H. now rewrite IH.
Qed.

Lemma removeProp_setNamed {A : Type} k (v : A) ps :
  assoc k ps = None -> removeProp k (setNamed k v ps) = ps.
Proof.
  intros Hk. unfold setNamed.
  replace (hasKey k ps) with false
    by (symmetry; apply hasKey_false; now apply assoc_None_keys).
  unfold insertProp. destruct (arrayIndex k).
  - now apply removeProp_insertIndexProp.
  - now apply removeProp_app_new.
Qed.

(** X18.  On a plain object that lacks the key [k], with [k] other than
    ['__proto__'], reverting a deletion at path [[k]] and then reverting an
    addition at the same path gives back the store as it was: the key is
    added in its place in the enumeration order and removed again. *)
Theorem revert_addition_undoes_deletion rac (h : heap) a ps k l r :
  h !! a = Some (Obj CObject ps) ->
  assoc k ps = None ->
  k <> "__proto__" ->
  exists h1,
    revertChange rac h (VRef a) (Some (toChangeDoc (ChD [k] l))) = Returns h1
    /\ getProp h1 (VRef a) k = l
    /\ revertChange rac h1 (VRef a) (Some (toChangeDoc (ChN [k] r))) = Returns h.
Proof.
  intros Ha Hk Hproto. pose proof (lookup_lt_Some _ _ _ Ha) as Hlt.
  exists (<[a := Obj CObject (setNamed k l ps)]> h). split_and!.
  - unfold revertChange. cbn -[setV]. now apply setV_plain.
  - unfold getProp. cbn [deref]. rewrite list_lookup_insert_eq by done.
    unfold getOwn. cbn [cls props]. now rewrite assoc_setNamed_eq.
  - cbn. rewrite list_lookup_insert_eq by done. cbn.
    rewrite (removeProp_setNamed _ _ _ Hk), list_insert_insert_eq.
    now rewrite list_insert_id.
Qed.

Lemma revert_addition_undoes_deletion_witness :
  exists h1,
    revertChange (fun h _ _ _ => Returns h) falsyStore (VRef 0)
      (Some (toChangeDoc (ChD ["7"] (VStr "x")))) = Returns h1
    /\ getProp h1 (VRef 0) "7" = VStr "x"
    /\ revertChange (fun h _ _ _ => Returns h) h1 (VRef 0)
         (Some (toChangeDoc (ChN ["7"] VUndef))) = Returns falsyStore.
Proof.
  apply (revert_addition_undoes_deletion (fun h _ _ _ => Returns h) falsyStore 0
           [("a", num 0)] "7" (VStr "x") VUndef); [reflexivity|reflexivity|done].
Defined.

(** A property that reads other than [undefined] on the object itself is
    an own property, and [it[k]] reads it. *)
Lemma getV_own (h : heap) a k v :
  getProp h (VRef a) k = v -> v <> VUndef -> getV h (VRef a) k = Returns v.
Proof.
  unfold getProp, getV, hasOwnProperty, getOwn. cbn [deref].
  destruct (h !! a) as [[c ps]|]; [|congruence]. cbn [cls props].
  intros Hv Hne.
  assert (Hp : default VUndef (assoc k ps) = v ->
               bool_decide (is_Some (assoc k ps)) = true).
  { intros E. apply bool_decide_eq_true. destruct (assoc k ps); [now eexists|].
    simpl in E. congruence. }
  destruct c as [|es|t|src fl]; try (rewrite (Hp Hv); now rewrite Hv).
  destruct (parseIndex k) as [i|].
  - destruct (es !! i) as [[x|]|]; congruence.
  - destruct (String.eqb k "length"); cbn [orb]; [congruence|].
    rewrite (Hp Hv). now rewrite Hv.
Qed.

(** X19.  [revertChange] creates an object only where a segment reads
    [undefined]: when the first segment of a path of two or more segments
    holds [null] in the target, reverting any record with that path throws
    a TypeError, whatever its kind. *)
Theorem revert_through_null_throws rac (h : heap) a c k k2 rest :
  changePath c = k :: k2 :: rest ->
  getProp h (VRef a) k = VNull ->
  revertChange rac h (VRef a) (Some (toChangeDoc c)) = Throws TypeError.
Proof.
  intros Hp Hnull.
  assert (Hwalk : forall ks, walk h (VRef a) (k :: ks)
            = match ks with [] => Returns (h, VNull) | _ :: _ => Throws TypeError end).
  { intros ks. assert (Hg : getV h (VRef a) k = Returns VNull)
      by now apply getV_own.
    cbn [walk]. rewrite Hg. cbn [typeof obind].
    change (String.eqb "object" "undefined") with false. cbn [obind].
    rewrite Hg. now destruct ks. }
  assert (Htake : forall p, p = k :: k2 :: rest ->
            take (length p - 1) p = k :: take (length rest) (k2 :: rest)).
  { intros p ->. cbn [length Nat.sub]. now rewrite ?Nat.sub_0_r. }
  unfold revertChange.
  destruct c as [p r|p l|p l r|p i it]; simpl in Hp;
    cbn [toChangeDoc assoc String.eqb Ascii.eqb Bool.eqb fieldTruthy truthy andb negb
         kindCaseOf fieldValue];
    rewrite (Htake p Hp), Hwalk; now destruct rest.
Qed.

(** The store of [{a: null}]. *)
Definition nullSegmentStore : heap := [Obj CObject [("a", VNull)]].

Lemma revert_through_null_throws_witness :
  revertChange (fun h _ _ _ => Returns h) nullSegmentStore (VRef 0)
    (Some (toChangeDoc (ChE ["a"; "b"] (num 1) (num 2)))) = Throws TypeError.
Proof.
  apply (revert_through_null_throws (fun h _ _ _ => Returns h) nullSegmentStore 0
           (ChE ["a"; "b"] (num 1) (num 2)) "a" "b" []); reflexivity.
Defined.

(** ** Records of an unrecognized kind *)

Lemma walk_follows (h : heap) pre : forall v v' ks,
  follows h v pre = Some v' -> walk h v (pre ++ ks) = walk h v' ks.
Proof.
  induction pre as [|k pre IH]; intros v v' ks Hf; simpl in Hf.
  - now simplify_eq.
  - destruct v as [| | | | |a]; try done.
    destruct (getProp h (VRef a) k) as [| | | | |] eqn:Hg; try done;
      (assert (Hget : getV h (VRef a) k = Returns (getProp h (VRef a) k))
         by (apply getV_own; [done|now rewrite Hg]));
      rewrite Hg in Hget;
      cbn [app walk]; rewrite Hget; cbn [obind typeof];
      (match goal with
       | |- context [String.eqb ?s "undefined"] =>
           change (String.eqb s "undefined") with false
       end);
      cbn [obind]; rewrite Hget; cbn [obind]; now apply IH.
Qed.

Lemma setNamed_nil {A : Type} k (v : A) : setNamed k v [] = [(k, v)].
Proof.
  unfold setNamed, hasKey, insertProp. simpl.
  now destruct (arrayIndex k).
Qed.

Lemma walk_cons (h : heap) it k ks :
  walk h it (k :: ks)
  = do v <- getV h it k;
    do h1 <- (if String.eqb (typeof v) "undefined"
              then setV (h ++ [Obj CObject []]) it k (VRef (length h))
              else Returns h);
    do it' <- getV h1 it k;
    walk h1 it' ks.
Proof. reflexivity. Qed.

(** The walk from a plain object whose first segment reads [undefined]:
    it returns the store with one new object per segment. *)
Lemma walk_vivifies ks : forall (h : heap) a ps k1,
  h !! a = Some (Obj CObject ps) ->
  default VUndef (assoc k1 ps) = VUndef ->
  Forall (fun k => inheritedName k = false) (k1 :: ks) ->
  walk h (VRef a) (k1 :: ks)
  = Returns (vivified h a ps k1 ks, VRef (length h + length ks)).
Proof.
  induction ks as [|k2 ks IH]; intros h a ps k1 Ha Hk Hin;
    apply Forall_cons in Hin as [Hik Hin];
    pose proof (lookup_lt_Some _ _ _ Ha) as Hlt;
    set (n := length h);
    set (h1 := <[a := Obj CObject (setNamed k1 (VRef n) ps)]> (h ++ [Obj CObject []]));
    (assert (Hget : getV h (VRef a) k1 = Returns VUndef)
       by (destruct (assoc k1 ps) as [v|] eqn:E;
           [simpl in Hk; subst v; now apply (getV_plain_Some h a ps)
           |now apply (getV_plain_None h a ps)]));
    (assert (Hset : setV (h ++ [Obj CObject []]) (VRef a) k1 (VRef n) = Returns h1)
       by (apply setV_plain; [now rewrite lookup_app_l|now apply inheritedName_proto]));
    (assert (Ha1 : h1 !! a = Some (Obj CObject (setNamed k1 (VRef n) ps)))
       by (apply list_lookup_insert_eq; rewrite length_app; simpl; lia));
    (assert (Hget1 : getV h1 (VRef a) k1 = Returns (VRef n))
       by (apply (getV_plain_Some _ _ _ _ _ Ha1), assoc_setNamed_eq));
    (assert (Hh1 : h1 = <[a := Obj CObject (setNamed k1 (VRef n) ps)]> h ++ [Obj CObject []])
       by (unfold h1; now rewrite insert_app_l));
    rewrite walk_cons, Hget; cbn [typeof obind];
    change (String.eqb "undefined" "undefined") with true;
    fold n; rewrite Hset; cbn [obind]; rewrite Hget1; cbn [obind].
  - cbn [walk]. unfold vivified. fold n. cbn [chain length].
    now rewrite Hh1, Nat.add_0_r.
  - assert (Hn1 : h1 !! n = Some (Obj CObject [])).
    { rewrite Hh1, lookup_app_r by (rewrite length_insert; unfold n; lia).
      rewrite length_insert. fold n. now rewrite Nat.sub_diag. }
    assert (Hlen1 : length h1 = S n).
    { rewrite Hh1, length_app, length_insert. simpl. unfold n. lia. }
    rewrite (IH h1 n [] k2 Hn1 eq_refl Hin). unfold vivified. fold n.
    rewrite Hlen1, setNamed_nil. cbn [chain length].
    f_equal. f_equal; [|f_equal; lia].
    rewrite Hh1 at 1.
    rewrite insert_app_r_alt by (rewrite length_insert; unfold n; lia).
    rewrite length_insert. fold n. rewrite Nat.sub_diag. cbn [insert list_insert].
    now rewrite <- app_assoc.
Qed.

(** C3, as amended.  [revertChange] leaves the store as it is when the
    target is falsy, when the record is absent or its kind is absent or
    falsy, and when the kind is none of 'A', 'D', 'E', 'N' and either the
    path has at most one segment or every leading segment of the path is
    present in the target (it reads, on the object itself, a value other
    than [undefined]).  With such a kind nothing is written at the final
    location, but where the leading segments lead to a plain object on
    which the next one reads [undefined], and neither it nor a later
    leading segment is a name inherited from [Object.prototype], the walk
    has created one new object per remaining leading segment: the first is
    stored under its segment in that plain object, each holds the next
    under its segment, the last is empty, and the rest of the store is as
    before. *)
Theorem revertChange_noop rac (h : heap) target change :
  (truthy target = false
   \/ fieldTruthy (change ≫= assoc "kind") = false
   \/ (exists c p, change = Some c /\ kindCaseOf (assoc "kind" c) = CaseDefault
         /\ assoc "path" c = Some (FKeys p) /\ length p <= 1) ->
   revertChange rac h target change = Returns h)
  /\ (forall c pre k v, change = Some c ->
        kindCaseOf (assoc "kind" c) = CaseDefault ->
        assoc "path" c = Some (FKeys (pre ++ [k])) ->
        follows h target pre = Some v ->
        revertChange rac h target change = Returns h)
  /\ (forall c pre k1 ks k a ps, change = Some c ->
        fieldTruthy (assoc "kind" c) = true ->
        kindCaseOf (assoc "kind" c) = CaseDefault ->
        assoc "path" c = Some (FKeys (pre ++ k1 :: ks ++ [k])) ->
        truthy target = true ->
        follows h target pre = Some (VRef a) ->
        h !! a = Some (Obj CObject ps) ->
        default VUndef (assoc k1 ps) = VUndef ->
        Forall (fun k' => inheritedName k' = false) (k1 :: ks) ->
        revertChange rac h target change = Returns (vivified h a ps k1 ks)).
Proof.
  split_and!.
  - intros [Ht|[Hk|(c & p & -> & Hk & Hp & Hlen)]]; unfold revertChange.
    + destruct change as [c|]; [|done]. now rewrite Ht.
    + destruct change as [c|]; [|done]. simpl in Hk. rewrite Hk.
      now rewrite andb_false_r.
    + destruct (truthy target && _); [|done]. rewrite Hp, Hk.
      replace (length p - 1) with 0 by lia. now rewrite take_0.
  - intros c pre k v -> Hk Hp Hf. unfold revertChange.
    destruct (truthy target && _); [|done]. rewrite Hp, Hk.
    rewrite length_app. cbn [length]. rewrite Nat.add_sub, take_app_length.
    rewrite <- (app_nil_r pre), (walk_follows h pre target v [] Hf). reflexivity.
  - intros c pre k1 ks k a ps -> Hkt Hk Hp Ht Hf Ha Hk1 Hin. unfold revertChange.
    rewrite Ht, Hkt, Hp, Hk. cbn [andb].
    replace (take (length (pre ++ k1 :: ks ++ [k]) - 1) (pre ++ k1 :: ks ++ [k]))
      with (pre ++ k1 :: ks).
    2:{ replace (pre ++ k1 :: ks ++ [k]) with ((pre ++ k1 :: ks) ++ [k])
          by now rewrite <- app_assoc.
        rewrite length_app. cbn [length]. now rewrite Nat.add_sub, take_app_length. }
    rewrite (walk_follows h pre target (VRef a) (k1 :: ks) Hf).
    now rewrite (walk_vivifies ks h a ps k1 Ha Hk1 Hin).
Qed.

(** The store of [{x: {}}]. *)
Definition nestedEmptyStore : heap := [Obj CObject [("x", VRef 1)]; Obj CObject []].

Lemma revertChange_noop_witness :
  revertChange (fun h _ _ _ => Returns h) emptyObjectStore (VRef 0)
    (Some [("kind", FVal (VStr "X")); ("path", FKeys ["a"])])
  = Returns emptyObjectStore
  /\ revertChange (fun h _ _ _ => Returns h) nestedEmptyStore (VRef 0)
       (Some [("kind", FVal (VStr "X")); ("path", FKeys (["x"] ++ ["a"]))])
     = Returns nestedEmptyStore
  /\ revertChange (fun h _ _ _ => Returns h) nestedEmptyStore (VRef 0)
       (Some [("kind", FVal (VStr "X")); ("path", FKeys (["x"] ++ "a" :: ["b"] ++ ["c"]))])
     = Returns [Obj CObject [("x", VRef 1)]; Obj CObject [("a", VRef 2)];
                Obj CObject [("b", VRef 3)]; Obj CObject []].
Proof.
  split_and!.
  - apply (proj1 (revertChange_noop (fun h _ _ _ => Returns h) emptyObjectStore (VRef 0)
                    (Some [("kind", FVal (VStr "X")); ("path", FKeys ["a"])]))).
    right. right. eexists _, ["a"]. repeat split; simpl; lia.
  - apply (proj1 (proj2 (revertChange_noop (fun h _ _ _ => Returns h) nestedEmptyStore
                           (VRef 0)
                           (Some [("kind", FVal (VStr "X"));
                                  ("path", FKeys (["x"] ++ ["a"]))])))
             [("kind", FVal (VStr "X")); ("path", FKeys (["x"] ++ ["a"]))]
             ["x"] "a" (VRef 1)); reflexivity.
  - apply (proj2 (proj2 (revertChange_noop (fun h _ _ _ => Returns h) nestedEmptyStore
                           (VRef 0)
                           (Some [("kind", FVal (VStr "X"));
                                  ("path", FKeys (["x"] ++ "a" :: ["b"] ++ ["c"]))])))
             [("kind", FVal (VStr "X")); ("path", FKeys (["x"] ++ "a" :: ["b"] ++ ["c"]))]
             ["x"] "a" ["b"] "c" 1 []); try reflexivity.
    repeat constructor.
Defined.

(** C3 as stated fails: an unrecognized kind 'X' with path [a, b] on the
    target [{}] leaves [{a: {}}]. *)
Lemma revertChange_noop_counterexample :
  kindCaseOf (Some (FVal (VStr "X"))) = CaseDefault
  /\ revertChange (fun h _ _ _ => Returns h) emptyObjectStore (VRef 0)
       (Some [("kind", FVal (VStr "X")); ("path", FKeys ["a"; "b"])])
     = Returns [Obj CObject [("a", VRef 1)]; Obj CObject []].
Proof. split; reflexivity. Qed.

(** ** Arrays that grow at the tail *)

Lemma arrayLoop_comparedDown rec n : forall (h : heap) l r h' cs,
  arrayLoop rec h l r n = Some (h', cs) ->
  comparedDown (fun h0 i => rec h0 (getIndex h0 l i) (getIndex h0 r i) (indexToString i))
    n h h' cs.
Proof.
  induction n as [|n IH]; intros h l r h' cs H; simpl in H.
  - simplify_eq. constructor.
  - destruct (rec _ _ _ _) as [[h1 c1]|] eqn:E1; simpl in H; [|done].
    destruct (arrayLoop _ _ _ _ _) as [[h2 c2]|] eqn:E2; simpl in H; [|done].
    simplify_eq. econstructor; [exact E1|]. now apply IH.
Qed.

(** The store of [diff([1,2], [1,5,3,4])]: the left array at 0, the right
    array at 1. *)
Definition growEditStore : heap :=
  [Obj (CArray [Some (num 1); Some (num 2)]) [];
   Obj (CArray [Some (num 1); Some (num 5); Some (num 3); Some (num 4)]) []].

(** C7.  Array comparison is positional with tail-anchored insertions: when
    the right array is longer, the run first emits one array change wrapping
    a New item per extra tail index, in descending index order, and then
    recurses on the common prefix: the later records are those of the
    comparisons of [left[i]] with [right[i]] under the key [i], for every
    index [i] of the left array from the last one down to 0 (so every such
    record has a path that starts with an index of the left array).  Where
    the two arrays hold primitives, compared by position, these are one
    Edited record for each common index at which the elements differ.  In
    particular [diff([1,2], [1,2,3,4])] is exactly the two records for
    indices 3 and 2, and [diff([1,2], [1,5,3,4])] is these two followed by
    the Edited record of index 1. *)
Theorem array_tail_growth :
  (forall hash (h : heap) a b le pl re pr pf (oi : bool),
     h !! a = Some (Obj (CArray le) pl) ->
     h !! b = Some (Obj (CArray re) pr) ->
     length le < length re ->
     let hs := if oi then sortInPlace hash (sortInPlace hash h (VRef a)) (VRef b)
               else h in
     exists h' cs,
       diff hash h (VRef a) (VRef b) pf oi
       = Some (h', map (fun i => ChA [] i (ItN (getIndex hs (VRef b) i)))
                       (reverse (seq (length le) (length re - length le))) ++ cs)
       /\ comparedDown
            (fun h0 i =>
               deepDiff hash (length h + 1) h0
                 (getIndex h0 (VRef a) i) (getIndex h0 (VRef b) i)
                 (Opts pf oi (Some (indexToString i)) (Some [])
                    (Some [Frame (VRef a) (VRef b)])))
            (length le) hs h' cs
       /\ Forall (fun c => exists i, i < length le /\
                    [indexToString i] `prefix_of` changePath c) cs)
  /\ (forall hash (h : heap) a b (le re : list value) pl pr pf,
        h !! a = Some (Obj (CArray (map Some le)) pl) ->
        h !! b = Some (Obj (CArray (map Some re)) pr) ->
        Forall (fun x => isRef x = false) le ->
        Forall (fun x => isRef x = false) re ->
        (forall i, i < length le -> rejects pf [] (indexToString i) = false) ->
        length le < length re ->
        diff hash h (VRef a) (VRef b) pf false
        = Some (h,
            map (fun i => ChA [] i (ItN (default VUndef (re !! i))))
                (reverse (seq (length le) (length re - length le)))
            ++ flat_map (fun i =>
                  if sameValueZero (default VUndef (le !! i)) (default VUndef (re !! i))
                  then []
                  else [ChE [indexToString i] (default VUndef (le !! i))
                          (default VUndef (re !! i))])
                 (reverse (seq 0 (length le)))))
  /\ (forall hash pf,
        diff hash growStore (VRef 0) (VRef 1) pf false
        = Some (growStore, [ChA [] 3 (ItN (num 4)); ChA [] 2 (ItN (num 3))]))
  /\ (forall hash,
        diff hash growEditStore (VRef 0) (VRef 1) None false
        = Some (growEditStore,
                [ChA [] 3 (ItN (num 4)); ChA [] 2 (ItN (num 3));
                 ChE ["1"] (num 2) (num 5)])).
Proof.
  assert (Hprim : forall hash (h : heap) a b (le re : list value) pl pr pf,
        h !! a = Some (Obj (CArray (map Some le)) pl) ->
        h !! b = Some (Obj (CArray (map Some re)) pr) ->
        Forall (fun x => isRef x = false) le ->
        Forall (fun x => isRef x = false) re ->
        (forall i, i < length le -> rejects pf [] (indexToString i) = false) ->
        length le < length re ->
        diff hash h (VRef a) (VRef b) pf false
        = Some (h,
            map (fun i => ChA [] i (ItN (default VUndef (re !! i))))
                (reverse (seq (length le) (length re - length le)))
            ++ flat_map (fun i =>
                  if sameValueZero (default VUndef (le !! i)) (default VUndef (re !! i))
                  then []
                  else [ChE [indexToString i] (default VUndef (le !! i))
                          (default VUndef (re !! i))])
                 (reverse (seq 0 (length le))))).
  { intros hash h a b le re pl pr pf Ha Hb Hle Hre Hpf Hlen.
    rewrite (diff_arrays hash h a b _ pl _ pr pf false Ha Hb). cbv zeta.
    rewrite !length_map, Nat.add_1_r.
    replace (min (length re) (length le)) with (length le) by lia.
    rewrite (arrayLoop_primitives hash (length h) h a b le re pl pr pf false [] []);
      try done; try lia.
    cbn [mbind option_bind app]. rewrite !tailItems_map.
    replace (length le - length re) with 0 by lia. cbn [seq reverse rev_append map app].
    do 3 f_equal. apply map_ext. intros i. unfold getIndex.
    rewrite (elemsOf_array _ _ _ _ Hb), list_lookup_fmap.
    now destruct (re !! i). }
  split_and!; [|exact Hprim|apply diff_grow_example|].
  - intros hash h a b le pl re pr pf oi Ha Hb Hlen hs.
    destruct (diff_total hash h (VRef a) (VRef b) pf oi) as (h' & cs0 & Hd & _).
    rewrite (diff_arrays _ _ _ _ _ _ _ _ _ _ Ha Hb) in Hd |- *. fold hs in Hd |- *.
    destruct (arrayLoop _ _ _ _ _) as [[h1 cs]|] eqn:E; [|done].
    simpl in Hd |- *. exists h1, cs. split_and!.
    + replace (length le - length re) with 0 by lia. simpl.
      now rewrite tailItems_map.
    + apply arrayLoop_comparedDown in E.
      now replace (min (length re) (length le)) with (length le) in E by lia.
    + apply arrayLoop_paths in E. eapply Forall_impl; [exact E|].
      intros c (i & Hi & Hc). exists i. split; [lia|done].
  - intros hash.
    rewrite (Hprim hash growEditStore 0 1 [num 1; num 2] [num 1; num 5; num 3; num 4]
               [] [] None eq_refl eq_refl); [reflexivity| | | |simpl; lia].
    + repeat constructor.
    + repeat constructor.
    + intros i _. reflexivity.
Qed.

Lemma array_tail_growth_witness :
  exists h' cs,
    diff zeroHash growStore (VRef 0) (VRef 1) None true
    = Some (h', map (fun i => ChA [] i (ItN (getIndex
                 (sortInPlace zeroHash (sortInPlace zeroHash growStore (VRef 0)) (VRef 1))
                 (VRef 1) i)))
               (reverse (seq 2 (4 - 2))) ++ cs)
    /\ comparedDown
         (fun h0 i =>
            deepDiff zeroHash (length growStore + 1) h0
              (getIndex h0 (VRef 0) i) (getIndex h0 (VRef 1) i)
              (Opts None true (Some (indexToString i)) (Some [])
                 (Some [Frame (VRef 0) (VRef 1)])))
         2 (sortInPlace zeroHash (sortInPlace zeroHash growStore (VRef 0)) (VRef 1)) h' cs
    /\ Forall (fun c => exists i, i < 2 /\ [indexToString i] `prefix_of` changePath c) cs.
Proof.
  apply (proj1 array_tail_growth zeroHash growStore 0 1
           [Some (num 1); Some (num 2)] []
           [Some (num 1); Some (num 2); Some (num 3); Some (num 4)] [] None true);
    [reflexivity | reflexivity | simpl; lia].
Defined.

(** * Reverting the records of a run: objects, dates and arrays *)

(** ** Trees of objects, dates and arrays *)

(** The kind of a node: a plain object, a date with its time value, or an
    array with its length. *)
Inductive gclass :=
| GObject
| GDate (t : option Z)
| GArray (len : nat).

(** A finite tree of objects of the store: a node is the object at an
    address with its kind and its children, a leaf any other value.  The
    children of a plain object or of a date are its properties in
    enumeration order; the children of an array are its elements, each
    under its index, and a hole has no child. *)
#[warnings="-register-all"] Inductive gtree :=
| GVal (v : value)
| GNode (a : addr) (c : gclass) (kids : list (string * gtree)).

Definition gvalueOf (t : gtree) : value :=
  match t with
  | GVal v => v
  | GNode a _ _ => VRef a
  end.

Definition gisNode (t : gtree) : bool :=
  match t with GNode _ _ _ => true | GVal _ => false end.

(** The properties that the children stand for. *)
Definition gprops (kids : list (string * gtree)) : list (string * value) :=
  map (fun kt => (kt.1, gvalueOf kt.2)) kids.

(** The elements of an array of the given length with the given children. *)
Definition gelems (len : nat) (kids : list (string * gtree)) : list (option value) :=
  map (fun i => assoc (indexToString i) (gprops kids)) (seq 0 len).

(** The object of the store that a node stands for; an array of a tree has
    no named properties. *)
Definition objectOf (c : gclass) (kids : list (string * gtree)) : object :=
  match c with
  | GObject => Obj CObject (gprops kids)
  | GDate t => Obj (CDate t) (gprops kids)
  | GArray len => Obj (CArray (gelems len kids)) []
  end.

(** The addresses of the nodes. *)
Fixpoint gaddrs (t : gtree) : list addr :=
  match t with
  | GVal _ => []
  | GNode a _ kids =>
      a :: (fix all (ks : list (string * gtree)) : list addr :=
              match ks with
              | [] => []
              | kt :: ks' => gaddrs kt.2 ++ all ks'
              end) kids
  end.

Definition gkidAddrs (kids : list (string * gtree)) : list addr :=
  flat_map (fun kt => gaddrs kt.2) kids.

(** A property of every leaf and of every node of a tree. *)
Fixpoint gAll (PL : value -> Prop)
    (PN : addr -> gclass -> list (string * gtree) -> Prop) (t : gtree) : Prop :=
  match t with
  | GVal v => PL v
  | GNode a c kids =>
      PN a c kids
      /\ (fix all (ks : list (string * gtree)) : Prop :=
            match ks with
            | [] => True
            | kt :: ks' => gAll PL PN kt.2 /\ all ks'
            end) kids
  end.

(** Whether a key addresses a child of a node of this kind: every key of a
    plain object or a date, the indices below the length of an array. *)
Definition fitsb (c : gclass) (k : string) : bool :=
  match c with
  | GArray len =>
      match arrayIndex k with
      | Some i => i <? len
      | None => false
      end
  | _ => true
  end.

(** The store holds the tree. *)
Definition grepr (h : heap) : gtree -> Prop :=
  gAll (fun _ => True) (fun a c kids => h !! a = Some (objectOf c kids)).

(** Every leaf is a primitive. *)
Definition gprimLeaves : gtree -> Prop :=
  gAll (fun v => isRef v = false) (fun _ _ _ => True).

(** The keys of every node are distinct and none is empty; the children of
    an array are under indices below its length, which is below
    2^32 - 1. *)
Definition gkeysOK : gtree -> Prop :=
  gAll (fun _ => True)
       (fun _ c kids =>
          NoDup (map fst kids) /\ ("" ∉ map fst kids)
          /\ match c with
             | GArray len =>
                 (Z.of_nat len < 4294967295)%Z
                 /\ Forall (fun k => fitsb c k = true) (map fst kids)
             | _ => True
             end).

(** No node has the key [k0]. *)
Definition gavoids (k0 : string) : gtree -> Prop :=
  gAll (fun _ => True) (fun _ _ kids => k0 ∉ map fst kids).

(** No node lies below itself. *)
Definition gacyclic : gtree -> Prop :=
  gAll (fun _ => True) (fun a _ kids => a ∉ gkidAddrs kids).

(** In the order-independent mode the tree has no array. *)
Definition positional (oi : bool) : gtree -> Prop :=
  gAll (fun _ => True)
       (fun _ c _ => match c with GArray _ => oi = false | _ => True end).

(** [t] is a copy of [r]: the same kinds, the same keys in the same order,
    the same leaves, nodes for nodes. *)
Fixpoint gcopyOf (t r : gtree) : Prop :=
  match t, r with
  | GVal v, GVal w => v = w
  | GNode _ ct tk, GNode _ cr rk =>
      ct = cr
      /\ (fix all (ts rs : list (string * gtree)) : Prop :=
            match ts, rs with
            | [], [] => True
            | kt :: ts', kr :: rs' => kt.1 = kr.1 /\ gcopyOf kt.2 kr.2 /\ all ts' rs'
            | _, _ => False
            end) tk rk
  | _, _ => False
  end.

(** Whether the engine descends into a pair of objects of these kinds: two
    plain objects, two arrays, or two dates of the same valid time. *)
Definition descends (cl cr : gclass) : bool :=
  match cl, cr with
  | GObject, GObject => true
  | GDate (Some t1), GDate (Some t2) => Z.eqb t1 t2
  | GArray _, GArray _ => true
  | _, _ => false
  end.

(** Wherever the engine compares an array of the left tree with an array
    of the right tree, the right one is at most one element longer. *)
Fixpoint growsByOne (l r : gtree) {struct l} : Prop :=
  match l, r with
  | GNode _ cl lk, GNode _ cr rk =>
      descends cl cr = true ->
      match cl, cr with
      | GArray nl, GArray nr => nr <= S nl
      | _, _ => True
      end
      /\ (fix all (ks : list (string * gtree)) : Prop :=
            match ks with
            | [] => True
            | kt :: ks' =>
                match assoc kt.1 rk with
                | Some rt => growsByOne kt.2 rt
                | None => True
                end /\ all ks'
            end) lk
  | _, _ => True
  end.

(** The two roots are objects into which the engine descends, and two root
    arrays have the same length. *)
Definition sameRoot (l r : gtree) : Prop :=
  match l, r with
  | GNode _ cl _, GNode _ cr _ =>
      descends cl cr = true
      /\ match cl, cr with
         | GArray nl, GArray nr => nl = nr
         | _, _ => True
         end
  | _, _ => False
  end.

(** The records of the two tail loops of the array case. *)
Definition gtails (p : list string) (nl nr : nat) (lk rk : list (string * gtree))
    : list RawChangeT :=
  map (fun i => ChA p i (ItN (default VUndef (assoc (indexToString i) (gprops rk)))))
      (reverse (seq nl (nr - nl)))
  ++ map (fun i => ChA p i (ItD (default VUndef (assoc (indexToString i) (gprops lk)))))
         (reverse (seq nr (nl - nr))).

(** The records of a run on two trees, as a function of the trees. *)
Fixpoint gdiff (p : list string) (l r : gtree) {struct l} : list RawChangeT :=
  match l, r with
  | GNode _ cl lk, GNode _ cr rk =>
      let at_ :=
        fix at_ (ks : list (string * gtree)) (k : string) : list RawChangeT :=
          match ks with
          | [] =>
              match assoc k rk with
              | Some rt => [ChN (p ++ [k]) (gvalueOf rt)]
              | None => []
              end
          | kt :: ks' =>
              if String.eqb kt.1 k then
                match assoc k rk with
                | Some rt =>
                    match kt.2, rt with
                    | GNode _ c1 _, GNode _ c2 _ =>
                        if descends c1 c2 then gdiff (p ++ [k]) kt.2 rt
                        else [ChE (p ++ [k]) (gvalueOf kt.2) (gvalueOf rt)]
                    | lt, _ => leafChange (p ++ [k]) (gvalueOf lt) (gvalueOf rt)
                    end
                | None => [ChD (p ++ [k]) (gvalueOf kt.2)]
                end
              else at_ ks' k
          end in
      match cl, cr with
      | GArray nl, GArray nr =>
          gtails p nl nr lk rk
          ++ flat_map (fun i => at_ lk (indexToString i)) (reverse (seq 0 (min nr nl)))
      | _, _ =>
          flat_map (fun kt : string * gtree => at_ lk kt.1) lk
          ++ flat_map (fun kr : string * gtree =>
                         if hasKey kr.1 lk then [] else at_ lk kr.1) rk
      end
  | _, _ => []
  end.

(** The records for a pair of children under the same key. *)
Definition gpair (p : list string) (lt rt : gtree) : list RawChangeT :=
  match lt, rt with
  | GNode _ c1 _, GNode _ c2 _ =>
      if descends c1 c2 then gdiff p lt rt
      else [ChE p (gvalueOf lt) (gvalueOf rt)]
  | _, _ => leafChange p (gvalueOf lt) (gvalueOf rt)
  end.

(** The records for one key of two nodes. *)
Definition gat (p : list string) (lk rk : list (string * gtree)) (k : string)
    : list RawChangeT :=
  match assoc k lk, assoc k rk with
  | Some lt, Some rt => gpair (p ++ [k]) lt rt
  | Some lt, None => [ChD (p ++ [k]) (gvalueOf lt)]
  | None, Some rt => [ChN (p ++ [k]) (gvalueOf rt)]
  | None, None => []
  end.

(** The records of two nodes: of two arrays, the tails and then the common
    indices from the last one down; of two other objects, the keys of the
    left one and then the keys only the right one has. *)
Definition gnode (p : list string) (cl cr : gclass) (lk rk : list (string * gtree))
    : list RawChangeT :=
  match cl, cr with
  | GArray nl, GArray nr =>
      gtails p nl nr lk rk
      ++ flat_map (fun i => gat p lk rk (indexToString i)) (reverse (seq 0 (min nr nl)))
  | _, _ =>
      flat_map (fun kt : string * gtree => gat p lk rk kt.1) lk
      ++ flat_map (fun kr : string * gtree =>
                     if hasKey kr.1 lk then [] else gat p lk rk kr.1) rk
  end.

(** *** Unfolding and induction *)

Lemma gAll_node PL PN a c kids :
  gAll PL PN (GNode a c kids) <->
  PN a c kids /\ Forall (fun kt => gAll PL PN kt.2) kids.
Proof.
  simpl. apply and_iff_compat_l.
  induction kids as [|kt kids IH].
  - split; intros _; [apply Forall_nil_2|exact I].
  - rewrite Forall_cons, IH. done.
Qed.

Lemma gaddrs_node a c kids : gaddrs (GNode a c kids) = a :: gkidAddrs kids.
Proof.
  unfold gkidAddrs. simpl. f_equal.
  all: induction kids as [|kt kids IH]; [done|]; simpl; now rewrite IH.
Qed.

Lemma gcopyOf_node a ct tk b cr rk :
  gcopyOf (GNode a ct tk) (GNode b cr rk) <->
  ct = cr /\ Forall2 (fun kt kr => kt.1 = kr.1 /\ gcopyOf kt.2 kr.2) tk rk.
Proof.
  simpl. apply and_iff_compat_l. revert rk.
  induction tk as [|kt tk IH]; intros [|kr rk].
  - split; intros _; [apply Forall2_nil_2|exact I].
  - split; [done|inversion 1].
  - split; [done|inversion 1].
  - rewrite Forall2_cons, IH. tauto.
Qed.

Lemma growsByOne_node a cl lk b cr rk :
  growsByOne (GNode a cl lk) (GNode b cr rk) <->
  (descends cl cr = true ->
   match cl, cr with
   | GArray nl, GArray nr => nr <= S nl
   | _, _ => True
   end
   /\ Forall (fun kt => match assoc kt.1 rk with
                        | Some rt => growsByOne kt.2 rt
                        | None => True
                        end) lk).
Proof.
  simpl. apply forall_proper. intros _. apply and_iff_compat_l.
  induction lk as [|kt lk IH].
  - split; intros _; [apply Forall_nil_2|exact I].
  - rewrite Forall_cons, IH. done.
Qed.

Lemma gdiff_node p a cl lk b cr rk :
  gdiff p (GNode a cl lk) (GNode b cr rk) = gnode p cl cr lk rk.
Proof.
  assert (Hat : forall ks k,
    (fix at_ (ks : list (string * gtree)) (k : string) : list RawChangeT :=
       match ks with
       | [] =>
           match assoc k rk with
           | Some rt => [ChN (p ++ [k]) (gvalueOf rt)]
           | None => []
           end
       | kt :: ks' =>
           if String.eqb kt.1 k then
             match assoc k rk with
             | Some rt =>
                 match kt.2, rt with
                 | GNode _ c1 _, GNode _ c2 _ =>
                     if descends c1 c2 then gdiff (p ++ [k]) kt.2 rt
                     else [ChE (p ++ [k]) (gvalueOf kt.2) (gvalueOf rt)]
                 | lt, _ => leafChange (p ++ [k]) (gvalueOf lt) (gvalueOf rt)
                 end
             | None => [ChD (p ++ [k]) (gvalueOf kt.2)]
             end
           else at_ ks' k
       end) ks k = gat p ks rk k).
  { induction ks as [|[k' lt] ks IH]; intros k; unfold gat; cbn [assoc fst snd].
    - done.
    - destruct (String.eqb k' k); [|apply IH].
      destruct (assoc k rk) as [rt|]; [|done].
      unfold gpair. destruct lt, rt; done. }
  cbn [gdiff]. unfold gnode.
  destruct cl, cr; f_equal;
    try (apply flat_map_ext; intros ?; rewrite ?Hat; try done);
    try (destruct (hasKey _ _); [done|apply Hat]).
Qed.

Fixpoint gtree_ind' (P : gtree -> Prop)
    (Hval : forall v, P (GVal v))
    (Hnode : forall a c kids, Forall (fun kt => P kt.2) kids -> P (GNode a c kids))
    (t : gtree) : P t :=
  match t with
  | GVal v => Hval v
  | GNode a c kids =>
      Hnode a c kids
        ((fix all (ks : list (string * gtree)) : Forall (fun kt => P kt.2) ks :=
            match ks with
            | [] => Forall_nil_2 _
            | kt :: ks' => Forall_cons_2 _ _ _ (gtree_ind' P Hval Hnode kt.2) (all ks')
            end) kids)
  end.

(** *** Reading the nodes of a tree *)

Lemma indexToString_inj i j : indexToString i = indexToString j -> i = j.
Proof.
  intros H. apply (f_equal parseIndex) in H.
  rewrite !parseIndex_indexToString in H. congruence.
Qed.

Lemma assoc_gprops k kids :
  assoc k (gprops kids) = gvalueOf <$> assoc k kids.
Proof.
  induction kids as [|[k' t] kids IH]; simpl; [done|].
  now destruct (String.eqb k' k).
Qed.

Lemma keys_gprops kids : map fst (gprops kids) = map fst kids.
Proof. unfold gprops. rewrite map_map. done. Qed.

Lemma hasKey_gprops k kids : hasKey k (gprops kids) = hasKey k kids.
Proof.
  unfold hasKey. apply bool_decide_ext. rewrite assoc_gprops. apply fmap_is_Some.
Qed.

(** The keys that a node of this kind can have. *)
Definition keyFits (c : gclass) (k : string) : Prop :=
  match c with
  | GArray len => exists i, i < len /\ k = indexToString i
  | _ => True
  end.

Lemma arrayIndex_Some k i :
  arrayIndex k = Some i -> k = indexToString i /\ (Z.of_nat i < 4294967295)%Z.
Proof.
  unfold arrayIndex. destruct (parseIndex k) as [n|] eqn:Ep; [|done].
  destruct (Z.ltb_spec (Z.of_nat n) 4294967295); [|done]. intros [= ->].
  split; [|done]. unfold parseIndex in Ep.
  destruct (NilZero.uint_of_string k); [|done].
  destruct (String.eqb_spec (indexToString (Nat.of_uint u)) k); [|done].
  now simplify_eq.
Qed.

Lemma fitsb_keyFits c k : fitsb c k = true -> keyFits c k.
Proof.
  destruct c as [| |len]; try done. unfold fitsb. cbn [keyFits].
  destruct (arrayIndex k) as [i|] eqn:Ei; [|done].
  intros Hi%Nat.ltb_lt. apply arrayIndex_Some in Ei as [-> _]. now exists i.
Qed.

Lemma length_gelems len kids : length (gelems len kids) = len.
Proof. unfold gelems. now rewrite length_map, length_seq. Qed.

Lemma gelems_lookup len kids i :
  i < len -> gelems len kids !! i = Some (assoc (indexToString i) (gprops kids)).
Proof.
  intros Hi. unfold gelems. rewrite list_lookup_fmap, lookup_seq_lt by done. done.
Qed.

Lemma node_getProp (h : heap) a c kids k :
  h !! a = Some (objectOf c kids) -> keyFits c k ->
  getProp h (VRef a) k = default VUndef (gvalueOf <$> assoc k kids).
Proof.
  intros Ha Hfit. unfold getProp. cbn [deref]. rewrite Ha.
  destruct c as [|t|len]; cbn [objectOf].
  - unfold getOwn. cbn [cls props]. now rewrite assoc_gprops.
  - unfold getOwn. cbn [cls props]. now rewrite assoc_gprops.
  - destruct Hfit as (i & Hi & ->). unfold getOwn. cbn [cls props].
    rewrite parseIndex_indexToString, (gelems_lookup _ _ _ Hi), assoc_gprops.
    now destruct (assoc (indexToString i) kids).
Qed.

Lemma node_hasOwn (h : heap) a c kids k :
  h !! a = Some (objectOf c kids) -> keyFits c k ->
  hasOwnProperty h (VRef a) k = hasKey k kids.
Proof.
  intros Ha Hfit. unfold hasOwnProperty. rewrite Ha.
  destruct c as [|t|len]; cbn [objectOf cls props].
  - unfold hasKey. apply bool_decide_ext. rewrite assoc_gprops. apply fmap_is_Some.
  - unfold hasKey. apply bool_decide_ext. rewrite assoc_gprops. apply fmap_is_Some.
  - destruct Hfit as (i & Hi & ->).
    rewrite parseIndex_indexToString, (gelems_lookup _ _ _ Hi), assoc_gprops.
    unfold hasKey. destruct (assoc (indexToString i) kids); cbn [fmap option_fmap option_map].
    + symmetry. apply bool_decide_eq_true. now eexists.
    + symmetry. apply bool_decide_eq_false. now intros [? ?].
Qed.

Lemma node_getIndex (h : heap) a len kids i :
  h !! a = Some (objectOf (GArray len) kids) -> i < len ->
  getIndex h (VRef a) i = default VUndef (gvalueOf <$> assoc (indexToString i) kids).
Proof.
  intros Ha Hi. unfold getIndex, elemsOf. cbn [deref]. rewrite Ha. cbn [objectOf].
  rewrite (gelems_lookup _ _ _ Hi), assoc_gprops.
  now destruct (assoc (indexToString i) kids).
Qed.

Definition tagOf (c : gclass) : string :=
  match c with
  | GObject => "object"
  | GDate _ => "date"
  | GArray _ => "array"
  end.

Lemma node_realTypeOf (h : heap) a c kids :
  h !! a = Some (objectOf c kids) -> realTypeOf h (VRef a) = tagOf c.
Proof. intros Ha. cbn [realTypeOf]. rewrite Ha. now destruct c. Qed.

Lemma node_timeValue (h : heap) a t kids :
  h !! a = Some (objectOf (GDate t) kids) -> timeValue h (VRef a) = t.
Proof. intros Ha. unfold timeValue. cbn [deref]. now rewrite Ha. Qed.

Lemma node_ownKeys (h : heap) a c kids :
  h !! a = Some (objectOf c kids) ->
  match c with GArray _ => False | _ => True end ->
  ownKeys h (VRef a) = map fst kids.
Proof.
  intros Ha Hc. unfold ownKeys. cbn [deref]. rewrite Ha.
  destruct c; [| |done]; cbn [objectOf]; apply keys_gprops.
Qed.

Lemma node_isArray (h : heap) a c kids :
  h !! a = Some (objectOf c kids) ->
  isArray h (VRef a) = match c with GArray _ => true | _ => false end.
Proof. intros Ha. unfold isArray. cbn [deref]. rewrite Ha. now destruct c. Qed.

Lemma node_elemsOf (h : heap) a len kids :
  h !! a = Some (objectOf (GArray len) kids) ->
  elemsOf h (VRef a) = gelems len kids.
Proof. intros Ha. unfold elemsOf. cbn [deref]. now rewrite Ha. Qed.

(** *** The engine on the children of two nodes *)

Section GTreeDiff.

Variable hash : heap -> value -> Z.
Variable pf : option PrefilterT.
Variable oi : bool.
Hypothesis pf_accepts : forall p k, rejects pf p k = false.

(** Two values under a key that both objects have, one of them at least a
    primitive. *)
Lemma deepDiff_present_pair fuel (h : heap) lv rv k p a b st :
  k <> "" ->
  hasOwnProperty h (VRef a) k = true ->
  hasOwnProperty h (VRef b) k = true ->
  isRef lv && isRef rv = false ->
  deepDiff hash (S fuel) h lv rv
    (Opts pf oi (Some k) (Some p) (Some (Frame (VRef a) (VRef b) :: st)))
  = Some (h, leafChange (p ++ [k]) lv rv).
Proof using pf_accepts.
  intros Hk Hak Hbk Hnot. rewrite deepDiff_S. unfold deepDiffBody.
  cbn [key prefilter path stack default from_option id keyName].
  rewrite (keyTruthy_Some _ Hk). fold (rejects pf p k). rewrite pf_accepts.
  cbn [andb].
  assert (Hre : String.eqb (realTypeOf h lv) "regexp"
                && String.eqb (realTypeOf h rv) "regexp" = false).
  { apply andb_false_iff in Hnot as [Hl|Hr].
    - rewrite (realTypeOf_nonref h lv "regexp") by (done || (simpl; tauto)). done.
    - rewrite (realTypeOf_nonref h rv "regexp") by (done || (simpl; tauto)).
      apply andb_false_r. }
  rewrite Hre.
  unfold recoverable. cbn [st_lhs st_rhs keyName default from_option id truthy].
  rewrite Hak, Hbk. cbn [andb]. rewrite !orb_true_r. cbn [andb negb].
  unfold leafChange.
  destruct (String.eqb_spec (realTypeOf h lv) (realTypeOf h rv)) as [Heq|Hne].
  - cbn [negb].
    assert (Hprim : isRef lv = false /\ isRef rv = false).
    { destruct lv as [| | | | |x], rv as [| | | | |y]; try done; exfalso.
      all: simpl in Heq; try destruct (numIsNaN _);
           repeat match type of Heq with
           | context [match ?h !! ?z with _ => _ end] =>
               destruct (h !! z) as [[[] ?]|]
           end; done. }
    destruct Hprim as [Hl Hr].
    rewrite (realTypeOf_nonref h lv "date") by (done || (simpl; tauto)).
    cbn [andb].
    replace (truthy lv && truthy rv && String.eqb (typeof lv) "object") with false
      by (destruct lv; simpl in *; try done; now rewrite ?andb_false_r).
    unfold sameValueZero. destruct (strictEq lv rv); [done|]. cbn [negb orb].
    destruct lv as [| | |n1| |], rv as [| | |n2| |]; try done.
    all: simpl; rewrite ?andb_false_r; try done.
    now destruct (numIsNaN n1 && numIsNaN n2).
  - cbn [negb].
    destruct (sameValueZero lv rv) eqn:E; [|done].
    now apply (sameValueZero_realTypeOf h) in E.
Qed.

(** Two objects under a key that both objects have, of kinds into which
    the engine does not descend. *)
Lemma deepDiff_mismatch fuel (h : heap) x y c1 c2 k1 k2 k p a b st :
  k <> "" ->
  h !! x = Some (objectOf c1 k1) ->
  h !! y = Some (objectOf c2 k2) ->
  descends c1 c2 = false ->
  deepDiff hash (S fuel) h (VRef x) (VRef y)
    (Opts pf oi (Some k) (Some p) (Some (Frame (VRef a) (VRef b) :: st)))
  = Some (h, [ChE (p ++ [k]) (VRef x) (VRef y)]).
Proof using pf_accepts.
  intros Hk Hx Hy Hd. rewrite deepDiff_S. unfold deepDiffBody.
  cbn [key prefilter path stack default from_option id keyName].
  rewrite (keyTruthy_Some _ Hk). fold (rejects pf p k). rewrite pf_accepts.
  cbn [andb]. rewrite (node_realTypeOf _ _ _ _ Hx), (node_realTypeOf _ _ _ _ Hy).
  replace (String.eqb (tagOf c1) "regexp") with false by now destruct c1.
  cbn [andb truthy orb negb].
  rewrite (node_realTypeOf _ _ _ _ Hx), (node_realTypeOf _ _ _ _ Hy).
  destruct c1 as [|t1|n1], c2 as [|t2|n2]; try done.
  change (String.eqb (tagOf (GDate t1)) (tagOf (GDate t2))) with true.
  change (String.eqb (tagOf (GDate t1)) "date") with true.
  cbn [negb andb]. unfold dateMinusNonZero.
  rewrite (node_timeValue _ _ _ _ Hx), (node_timeValue _ _ _ _ Hy).
  destruct t1 as [z1|], t2 as [z2|]; try done.
  simpl in Hd. now rewrite Hd.
Qed.

(** A key that only the left object has, or only the right one. *)
Lemma deepDiff_absent_right fuel (h : heap) lv rv k p a b st :
  k <> "" ->
  hasOwnProperty h (VRef a) k = true ->
  hasOwnProperty h (VRef b) k = false ->
  rv = VUndef \/ rv = VNull ->
  deepDiff hash (S fuel) h lv rv
    (Opts pf oi (Some k) (Some p) (Some (Frame (VRef a) (VRef b) :: st)))
  = Some (h, [ChD (p ++ [k]) lv]).
Proof using pf_accepts.
  intros Hk Hak Hbk Hrv. rewrite deepDiff_S. unfold deepDiffBody.
  cbn [key prefilter path stack default from_option id keyName].
  rewrite (keyTruthy_Some _ Hk). fold (rejects pf p k). rewrite pf_accepts.
  cbn [andb].
  replace (String.eqb (realTypeOf h rv) "regexp") with false
    by (destruct Hrv as [-> | ->]; done).
  rewrite andb_false_r.
  unfold recoverable. cbn [st_lhs st_rhs keyName default from_option id truthy].
  rewrite Hak, Hbk. cbn [andb]. rewrite !orb_true_r.
  replace (truthy rv) with false by (destruct Hrv as [-> | ->]; done).
  reflexivity.
Qed.

Lemma deepDiff_absent_left fuel (h : heap) lv rv k p a b st :
  k <> "" ->
  hasOwnProperty h (VRef a) k = false ->
  hasOwnProperty h (VRef b) k = true ->
  lv = VUndef \/ lv = VNull ->
  deepDiff hash (S fuel) h lv rv
    (Opts pf oi (Some k) (Some p) (Some (Frame (VRef a) (VRef b) :: st)))
  = Some (h, [ChN (p ++ [k]) rv]).
Proof using pf_accepts.
  intros Hk Hak Hbk Hlv. rewrite deepDiff_S. unfold deepDiffBody.
  cbn [key prefilter path stack default from_option id keyName].
  rewrite (keyTruthy_Some _ Hk). fold (rejects pf p k). rewrite pf_accepts.
  cbn [andb].
  replace (String.eqb (realTypeOf h lv) "regexp") with false
    by (destruct Hlv as [-> | ->]; done).
  cbn [andb].
  unfold recoverable. cbn [st_lhs st_rhs keyName default from_option id truthy].
  rewrite Hak, Hbk. cbn [andb]. rewrite !orb_true_r.
  replace (truthy lv) with false by (destruct Hlv as [-> | ->]; done).
  reflexivity.
Qed.

(** An index at which both arrays have a hole. *)
Lemma deepDiff_absent_both fuel (h : heap) k p a b st :
  hasOwnProperty h (VRef a) k = false ->
  hasOwnProperty h (VRef b) k = false ->
  deepDiff hash (S fuel) h VUndef VUndef
    (Opts pf oi (Some k) (Some p) (Some (Frame (VRef a) (VRef b) :: st)))
  = Some (h, []).
Proof.
  intros Hak Hbk. apply deepDiff_same_primitive; [done|].
  cbn [stack key default from_option id recoverable st_lhs st_rhs keyName truthy].
  now rewrite Hak, Hbk.
Qed.

End GTreeDiff.

Section GNodeDiff.

Variable hash : heap -> value -> Z.
Variable pf : option PrefilterT.
Variable oi : bool.
Hypothesis pf_accepts : forall p k, rejects pf p k = false.

(** The body on two plain objects or two dates of the same valid time: the
    two key loops. *)
Lemma deepDiffBody_keys d (h : heap) a b cl cr lk rk o :
  h !! a = Some (objectOf cl lk) ->
  h !! b = Some (objectOf cr rk) ->
  descends cl cr = true ->
  match cl with GArray _ => False | _ => True end ->
  prefilter o = pf ->
  existsb (fun f => strictEq (st_lhs f) (VRef a)) (default [] (stack o)) = false ->
  let rec := fun h0 l0 r0 k =>
    d h0 l0 r0 (Opts pf (orderIndependent o) (Some k) (Some (currentPathOf o))
                  (Some (Frame (VRef a) (VRef b) :: default [] (stack o)))) in
  deepDiffBody hash d h (VRef a) (VRef b) o =
    '(h1, c1, rk') ← lhsKeysLoop rec h (VRef a) (VRef b) (map fst lk)
                        (map Some (map fst rk));
    '(h2, c2) ← rhsKeysLoop rec h1 (VRef b) rk';
    Some (h2, c1 ++ c2).
Proof using pf_accepts.
  intros Ha Hb Hd Hcl Hpf Hst rec. unfold deepDiffBody. cbv zeta. rewrite Hpf.
  fold (rejects pf (default [] (path o)) (keyName (key o))).
  rewrite pf_accepts, andb_false_r. fold (currentPathOf o).
  rewrite (node_realTypeOf _ _ _ _ Ha), (node_realTypeOf _ _ _ _ Hb).
  replace (String.eqb (tagOf cl) "regexp") with false by now destruct cl.
  cbn [andb truthy orb negb typeof].
  rewrite (node_realTypeOf _ _ _ _ Ha), (node_realTypeOf _ _ _ _ Hb).
  change (String.eqb "object" "object") with true.
  rewrite Hst, (node_isArray _ _ _ _ Ha).
  assert (Hcr : match cr with GArray _ => False | _ => True end)
    by (destruct cl as [|[]|], cr as [|[]|]; done).
  rewrite (node_ownKeys _ _ _ _ Ha Hcl), (node_ownKeys _ _ _ _ Hb Hcr).
  destruct cl as [|[z1|]|], cr as [|[z2|]|]; try done; try (cbn [tagOf]; reflexivity).
  cbn [tagOf].
  change (String.eqb "date" "date") with true.
  cbn [negb andb]. unfold dateMinusNonZero.
  rewrite (node_timeValue _ _ _ _ Ha), (node_timeValue _ _ _ _ Hb).
  simpl in Hd. now rewrite Hd.
Qed.

(** The body on two arrays compared by position: the tails and the loop
    over the common indices. *)
Lemma deepDiffBody_arrays d (h : heap) a b nl nr lk rk o :
  h !! a = Some (objectOf (GArray nl) lk) ->
  h !! b = Some (objectOf (GArray nr) rk) ->
  prefilter o = pf -> orderIndependent o = false ->
  existsb (fun f => strictEq (st_lhs f) (VRef a)) (default [] (stack o)) = false ->
  let rec := fun h0 l0 r0 k =>
    d h0 l0 r0 (Opts pf false (Some k) (Some (currentPathOf o))
                  (Some (Frame (VRef a) (VRef b) :: default [] (stack o)))) in
  deepDiffBody hash d h (VRef a) (VRef b) o =
    '(h', cs) ← arrayLoop rec h (VRef a) (VRef b) (min nr nl);
    Some (h', gtails (currentPathOf o) nl nr lk rk ++ cs).
Proof using pf_accepts.
  intros Ha Hb Hpf Hoi Hst rec. unfold deepDiffBody. cbv zeta. rewrite Hpf, Hoi.
  fold (rejects pf (default [] (path o)) (keyName (key o))).
  rewrite pf_accepts, andb_false_r. fold (currentPathOf o).
  rewrite (node_realTypeOf _ _ _ _ Ha), (node_realTypeOf _ _ _ _ Hb).
  cbn [tagOf].
  change (String.eqb "array" "regexp") with false.
  change (String.eqb "array" "array") with true.
  change (String.eqb "array" "date") with false.
  cbn [andb truthy orb negb typeof].
  rewrite (node_realTypeOf _ _ _ _ Ha), (node_realTypeOf _ _ _ _ Hb).
  cbn [tagOf].
  change (String.eqb "array" "array") with true.
  change (String.eqb "array" "date") with false.
  change (String.eqb "object" "object") with true.
  cbn [andb negb]. rewrite Hst, (node_isArray _ _ _ _ Ha).
  rewrite (node_elemsOf _ _ _ _ Ha), (node_elemsOf _ _ _ _ Hb), !length_gelems.
  fold rec. destruct (arrayLoop rec h (VRef a) (VRef b) (min nr nl)) as [[h' cs]|];
    [|done].
  cbn [mbind option_bind]. f_equal. f_equal. rewrite app_assoc. f_equal.
  unfold gtails. rewrite !tailItems_map. f_equal.
  - apply map_ext_in. intros i Hi. apply list_elem_of_In in Hi.
    rewrite elem_of_reverse, elem_of_seq in Hi.
    rewrite (node_getIndex _ _ _ _ _ Hb) by lia. now rewrite assoc_gprops.
  - apply map_ext_in. intros i Hi. apply list_elem_of_In in Hi.
    rewrite elem_of_reverse, elem_of_seq in Hi.
    rewrite (node_getIndex _ _ _ _ _ Ha) by lia. now rewrite assoc_gprops.
Qed.

(** The recursive call of the body on the nodes at [a] and [b]. *)
Definition gchildCall (fuel : nat) (a b : addr) (cp : list string) (st : list StackT)
    : heap -> value -> value -> string -> diffResult :=
  fun h0 l0 r0 k =>
    deepDiff hash fuel h0 l0 r0
      (Opts pf oi (Some k) (Some cp) (Some (Frame (VRef a) (VRef b) :: st))).

(** The value that the engine passes for one side of a key: the value of
    the child, or [undefined] or [null] where there is none. *)
Definition sideOK (ot : option gtree) (v : value) : Prop :=
  match ot with
  | Some t => v = gvalueOf t
  | None => v = VUndef \/ v = VNull
  end.

Section GNodeLoops.

Variable fuel : nat.
Variable h : heap.
Variables a b : addr.
Variables cl cr : gclass.
Variables lk rk : list (string * gtree).
Variable cp : list string.
Variable st : list StackT.

Hypothesis Ha : h !! a = Some (objectOf cl lk).
Hypothesis Hb : h !! b = Some (objectOf cr rk).
Hypothesis lk_nodup : NoDup (map fst lk).
Hypothesis rk_nodup : NoDup (map fst rk).
Hypothesis lk_nonempty : "" ∉ map fst lk.
Hypothesis rk_nonempty : "" ∉ map fst rk.
Hypothesis lk_repr : Forall (fun kt => grepr h kt.2 /\ gprimLeaves kt.2) lk.
Hypothesis rk_repr : Forall (fun kt => grepr h kt.2 /\ gprimLeaves kt.2) rk.

Local Abbreviation rec := (gchildCall fuel a b cp st).

(** What the induction gives for the children into which the engine
    descends. *)
Hypothesis child_runs : forall k lt rt h' cs,
  assoc k lk = Some lt -> assoc k rk = Some rt ->
  match lt, rt with
  | GNode _ c1 _, GNode _ c2 _ => descends c1 c2 = true
  | _, _ => False
  end ->
  rec h (gvalueOf lt) (gvalueOf rt) k = Some (h', cs) ->
  h' = h /\ cs = gdiff (cp ++ [k]) lt rt.

Lemma kid_repr (kids : list (string * gtree)) k t :
  Forall (fun kt => grepr h kt.2 /\ gprimLeaves kt.2) kids ->
  assoc k kids = Some t -> grepr h t /\ gprimLeaves t.
Proof.
  intros Hk Ht. rewrite Forall_forall in Hk. apply (Hk (k, t)).
  now apply assoc_Some_elem.
Qed.

(** The call for one key. *)
Lemma child_gat k lv rv h' cs :
  k <> "" -> keyFits cl k -> keyFits cr k ->
  sideOK (assoc k lk) lv -> sideOK (assoc k rk) rv ->
  (assoc k lk = None -> assoc k rk = None -> lv = VUndef /\ rv = VUndef) ->
  rec h lv rv k = Some (h', cs) ->
  h' = h /\ cs = gat cp lk rk k.
Proof using All.
  intros Hk Hfl Hfr Hl Hr Hnone H. unfold gchildCall in H.
  destruct fuel as [|f]; [done|].
  pose proof (node_hasOwn h a cl lk k Ha Hfl) as Hoa.
  pose proof (node_hasOwn h b cr rk k Hb Hfr) as Hob.
  unfold hasKey in Hoa, Hob. unfold gat.
  destruct (assoc k lk) as [lt|] eqn:El, (assoc k rk) as [rt|] eqn:Er;
    cbn [sideOK] in Hl, Hr.
  - subst lv rv.
    rewrite bool_decide_eq_true_2 in Hoa by now eexists.
    rewrite bool_decide_eq_true_2 in Hob by now eexists.
    destruct (kid_repr lk k lt lk_repr El) as [Hlr Hlp].
    destruct (kid_repr rk k rt rk_repr Er) as [Hrr Hrp].
    assert (Hleaf : isRef (gvalueOf lt) && isRef (gvalueOf rt) = false ->
              h' = h /\ cs = leafChange (cp ++ [k]) (gvalueOf lt) (gvalueOf rt)).
    { intros Hnot. rewrite deepDiff_present_pair in H by done. now simplify_eq. }
    unfold gpair. destruct lt as [lv|x c1 k1], rt as [rv|y c2 k2].
    + apply Hleaf. cbn in Hlp. cbn [gvalueOf]. now rewrite Hlp.
    + apply Hleaf. cbn in Hlp. cbn [gvalueOf]. now rewrite Hlp.
    + apply Hleaf. cbn in Hrp. cbn [gvalueOf]. rewrite Hrp. apply andb_false_r.
    + destruct (descends c1 c2) eqn:Ed.
      * apply (child_runs k _ _ h' cs El Er Ed). exact H.
      * apply gAll_node in Hlr as [Hx _], Hrr as [Hy _]. cbn [gvalueOf] in H |- *.
        rewrite (deepDiff_mismatch hash pf oi pf_accepts _ _ _ _ _ _ _ _ _ _ _ _ _
                   Hk Hx Hy Ed) in H.
        now simplify_eq.
  - subst lv.
    rewrite bool_decide_eq_true_2 in Hoa by now eexists.
    rewrite bool_decide_eq_false_2 in Hob by (intros [? ?]; done).
    rewrite deepDiff_absent_right in H by done. now simplify_eq.
  - subst rv.
    rewrite bool_decide_eq_false_2 in Hoa by (intros [? ?]; done).
    rewrite bool_decide_eq_true_2 in Hob by now eexists.
    rewrite deepDiff_absent_left in H by done. now simplify_eq.
  - destruct (Hnone eq_refl eq_refl) as [-> ->].
    rewrite bool_decide_eq_false_2 in Hoa by (intros [? ?]; done).
    rewrite bool_decide_eq_false_2 in Hob by (intros [? ?]; done).
    rewrite deepDiff_absent_both in H by done. now simplify_eq.
Qed.

Lemma getProp_side x c kids k :
  h !! x = Some (objectOf c kids) -> keyFits c k ->
  sideOK (assoc k kids) (getProp h (VRef x) k).
Proof.
  intros Hx Hfit. rewrite (node_getProp _ _ _ _ _ Hx Hfit).
  destruct (assoc k kids); cbn; [done|now left].
Qed.

Lemma getIndex_side x len kids i :
  h !! x = Some (objectOf (GArray len) kids) -> i < len ->
  sideOK (assoc (indexToString i) kids) (getIndex h (VRef x) i)
  /\ (assoc (indexToString i) kids = None -> getIndex h (VRef x) i = VUndef).
Proof.
  intros Hx Hi. rewrite (node_getIndex _ _ _ _ _ Hx Hi).
  destruct (assoc (indexToString i) kids); cbn; [done|]. split; [now left|done].
Qed.

(** The loop over the common indices of two arrays. *)
Lemma arrayLoop_gtree nl nr n : forall h' cs,
  cl = GArray nl -> cr = GArray nr -> n <= min nr nl ->
  arrayLoop rec h (VRef a) (VRef b) n = Some (h', cs) ->
  h' = h
  /\ cs = flat_map (fun i => gat cp lk rk (indexToString i)) (reverse (seq 0 n)).
Proof using All.
  intros h' cs Hcl Hcr. revert h' cs.
  pose proof Ha as Ha'. pose proof Hb as Hb'. rewrite Hcl in Ha'. rewrite Hcr in Hb'.
  induction n as [|n IH]; intros h' cs Hn H.
  { simpl in H. now simplify_eq. }
  rewrite seq_S, reverse_app. cbn [reverse rev_append app flat_map plus].
  cbn [arrayLoop] in H.
  apply bind_Some in H as ([h1 c1] & E1 & H).
  destruct (getIndex_side a nl lk n Ha') as [Hsl Hnl]; [lia|].
  destruct (getIndex_side b nr rk n Hb') as [Hsr Hnr]; [lia|].
  apply child_gat in E1 as [-> ->]; try done.
  - apply bind_Some in H as ([h2 c2] & E2 & H).
    apply IH in E2 as [-> ->]; [|lia]. now simplify_eq.
  - apply indexToString_nonempty.
  - rewrite Hcl. exists n. split; [lia|done].
  - rewrite Hcr. exists n. split; [lia|done].
  - intros El Er. split; [now apply Hnl|now apply Hnr].
Qed.

Hypothesis not_arrays : match cl, cr with
                        | GArray _, _ | _, GArray _ => False
                        | _, _ => True
                        end.

Lemma fits_any k : keyFits cl k /\ keyFits cr k.
Proof using not_arrays. clear -not_arrays. destruct cl, cr; done. Qed.

Lemma lhsKeysLoop_gtree ks : forall D h' cs rk',
  ks ⊆ lk -> NoDup (map fst ks) -> (forall k, k ∈ map fst ks -> k ∉ D) ->
  lhsKeysLoop rec h (VRef a) (VRef b) (map fst ks) (map (mask D) (map fst rk))
    = Some (h', cs, rk') ->
  h' = h /\ cs = flat_map (fun kt : string * gtree => gat cp lk rk kt.1) ks
  /\ rk' = map (mask (reverse (map fst ks) ++ D)) (map fst rk).
Proof using All.
  induction ks as [|[k lt] ks IH]; intros D h' cs rk' Hsub Hnd HD H.
  { simpl in H. now simplify_eq. }
  cbn [map fst lhsKeysLoop] in H.
  apply NoDup_cons in Hnd as [Hk Hnd].
  assert (Hin : (k, lt) ∈ lk) by (apply Hsub, list_elem_of_here).
  assert (Hkne : k <> "").
  { intros ->. apply lk_nonempty. apply list_elem_of_fmap. now exists ("", lt). }
  assert (HkD : k ∉ D) by (apply HD, list_elem_of_here).
  assert (Hlast : reverse (map fst ((k, lt) :: ks)) ++ D
                  = reverse (map fst ks) ++ k :: D).
  { cbn [map fst]. now rewrite reverse_cons, <- app_assoc. }
  rewrite Hlast. cbn [flat_map fst snd].
  destruct (fits_any k) as [Hfl Hfr].
  assert (El : assoc k lk = Some lt) by now apply assoc_NoDup.
  pose proof (getProp_side a cl lk k Ha Hfl) as Hsl.
  pose proof (getProp_side b cr rk k Hb Hfr) as Hsr.
  destruct (assoc k rk) as [rt|] eqn:Ert.
  - assert (Hkr : k ∈ map fst rk).
    { apply assoc_is_Some_keys. rewrite Ert. now eexists. }
    destruct (indexOfKey_mask_Some k D (map fst rk) rk_nodup Hkr HkD) as (i & Hi & Hins).
    rewrite Hi, Hins in H.
    apply bind_Some in H as ([h1 c1] & E1 & H).
    apply child_gat in E1 as [-> ->]; try done; [|now rewrite Ert|congruence].
    apply bind_Some in H as ([[h2 c2] rk2] & E2 & H).
    apply IH in E2 as (-> & -> & ->); try done.
    + now simplify_eq.
    + intros x Hx. apply Hsub. now apply list_elem_of_further.
    + intros k' Hk' [->|?]%elem_of_cons; [done|]. apply (HD k'); [|done].
      now apply list_elem_of_further.
  - assert (Hkr : k ∉ map fst rk).
    { intros Hkr. apply assoc_is_Some_keys in Hkr. rewrite Ert in Hkr. now destruct Hkr. }
    rewrite indexOfKey_mask_None in H by now left.
    apply bind_Some in H as ([h1 c1] & E1 & H).
    apply child_gat in E1 as [-> ->]; try done;
      [|rewrite Ert; now right|congruence].
    apply bind_Some in H as ([[h2 c2] rk2] & E2 & H).
    rewrite <- (mask_absent k D (map fst rk) Hkr) in E2.
    apply IH in E2 as (-> & -> & ->); try done.
    + now simplify_eq.
    + intros x Hx. apply Hsub. now apply list_elem_of_further.
    + intros k' Hk' [->|?]%elem_of_cons; [done|]. apply (HD k'); [|done].
      now apply list_elem_of_further.
Qed.

Lemma rhsKeysLoop_gtree D ks : forall h' cs,
  (forall k, k ∈ D <-> k ∈ map fst lk) ->
  ks ⊆ rk ->
  rhsKeysLoop rec h (VRef b) (map (mask D) (map fst ks)) = Some (h', cs) ->
  h' = h
  /\ cs = flat_map (fun kr : string * gtree =>
                      if hasKey kr.1 lk then [] else gat cp lk rk kr.1) ks.
Proof using All.
  intros h' cs HD. revert h' cs.
  induction ks as [|[k rt] ks IH]; intros h' cs Hsub H.
  { simpl in H. now simplify_eq. }
  cbn [map fst] in H. cbn [flat_map fst snd].
  assert (Hin : (k, rt) ∈ rk) by (apply Hsub, list_elem_of_here).
  assert (Hsub' : ks ⊆ rk) by (intros x Hx; apply Hsub; now apply list_elem_of_further).
  unfold mask at 1 in H. case_bool_decide as HkD; cbn [rhsKeysLoop] in H.
  - cbn [keyTruthy] in H. apply HD in HkD. apply hasKey_true in HkD. rewrite HkD.
    now apply IH.
  - assert (Hkne : k <> "").
    { intros ->. apply rk_nonempty. apply list_elem_of_fmap. now exists ("", rt). }
    rewrite (keyTruthy_Some _ Hkne) in H. cbn [keyName default from_option id] in H.
    assert (Hkl : hasKey k lk = false).
    { apply hasKey_false. intros ?. apply HkD. now apply HD. }
    rewrite Hkl.
    destruct (fits_any k) as [Hfl Hfr].
    assert (Er : assoc k rk = Some rt) by now apply assoc_NoDup.
    assert (El : assoc k lk = None).
    { apply hasKey_false in Hkl. rewrite <- assoc_is_Some_keys in Hkl.
      now apply eq_None_not_Some. }
    pose proof (getProp_side b cr rk k Hb Hfr) as Hsr.
    apply bind_Some in H as ([h1 c1] & E1 & H).
    apply child_gat in E1 as [-> ->]; try done;
      [|rewrite El; now right|congruence].
    apply bind_Some in H as ([h2 c2] & E2 & H).
    apply IH in E2 as [-> ->]; [|done]. now simplify_eq.
Qed.

End GNodeLoops.

End GNodeDiff.

(** The engine descends into the pair. *)
Definition descendsInto (l r : gtree) : Prop :=
  match l, r with
  | GNode _ c1 _, GNode _ c2 _ => descends c1 c2 = true
  | _, _ => False
  end.

Lemma kids_elem (P : gtree -> Prop) (kids : list (string * gtree)) k t :
  Forall (fun kt => P kt.2) kids -> assoc k kids = Some t -> P t.
Proof.
  intros Hk Ht. rewrite Forall_forall in Hk. apply (Hk (k, t)).
  now apply assoc_Some_elem.
Qed.

Lemma gkidAddrs_elem kids k t x :
  (k, t) ∈ kids -> x ∈ gaddrs t -> x ∈ gkidAddrs kids.
Proof.
  intros Hin Hx. unfold gkidAddrs. apply list_elem_of_In, in_flat_map.
  exists (k, t). split; now apply list_elem_of_In.
Qed.

Section GDiff.

Variable hash : heap -> value -> Z.
Variable pf : option PrefilterT.
Variable oi : bool.
Hypothesis pf_accepts : forall p k, rejects pf p k = false.

Section Body.

Variable fuel : nat.
Variable h : heap.
Variables a b : addr.
Variables cl cr : gclass.
Variables lk rk : list (string * gtree).
Variable o : DeepDiffOptsT.

Hypothesis Ha : h !! a = Some (objectOf cl lk).
Hypothesis Hb : h !! b = Some (objectOf cr rk).
Hypothesis Hd : descends cl cr = true.
Hypothesis lk_nodup : NoDup (map fst lk).
Hypothesis rk_nodup : NoDup (map fst rk).
Hypothesis lk_nonempty : "" ∉ map fst lk.
Hypothesis rk_nonempty : "" ∉ map fst rk.
Hypothesis lk_repr : Forall (fun kt => grepr h kt.2 /\ gprimLeaves kt.2) lk.
Hypothesis rk_repr : Forall (fun kt => grepr h kt.2 /\ gprimLeaves kt.2) rk.
Hypothesis Hpf : prefilter o = pf.
Hypothesis Hoi : orderIndependent o = oi.
Hypothesis Hst :
  existsb (fun f => strictEq (st_lhs f) (VRef a)) (default [] (stack o)) = false.
Hypothesis child_runs : forall k lt rt h' cs,
  assoc k lk = Some lt -> assoc k rk = Some rt -> descendsInto lt rt ->
  gchildCall hash pf oi fuel a b (currentPathOf o) (default [] (stack o))
    h (gvalueOf lt) (gvalueOf rt) k = Some (h', cs) ->
  h' = h /\ cs = gdiff (currentPathOf o ++ [k]) lt rt.

Lemma body_keys_gnode h' cs :
  match cl with GArray _ => False | _ => True end ->
  deepDiffBody hash (deepDiff hash fuel) h (VRef a) (VRef b) o = Some (h', cs) ->
  h' = h /\ cs = gnode (currentPathOf o) cl cr lk rk.
Proof using All.
  intros Hcl H.
  rewrite (deepDiffBody_keys hash pf pf_accepts _ _ _ _ _ _ _ _ _ Ha Hb Hd Hcl Hpf Hst)
    in H.
  rewrite Hoi in H.
  fold (gchildCall hash pf oi fuel a b (currentPathOf o) (default [] (stack o))) in H.
  apply bind_Some in H as ([[h1 c1] rk1] & E1 & H).
  apply bind_Some in H as ([h2 c2] & E2 & H).
  replace (map Some (map fst rk)) with (map (mask []) (map fst rk)) in E1.
  2:{ apply map_ext. intros k. unfold mask. rewrite bool_decide_eq_false_2; [done|].
      apply not_elem_of_nil. }
  assert (Hna : match cl, cr with
                | GArray _, _ | _, GArray _ => False
                | _, _ => True
                end) by (destruct cl as [|[]|], cr as [|[]|]; done).
  eapply (lhsKeysLoop_gtree hash pf oi pf_accepts fuel h a b cl cr lk rk
            (currentPathOf o) (default [] (stack o))
            Ha Hb lk_nodup rk_nodup lk_nonempty rk_nonempty lk_repr rk_repr
            child_runs Hna lk) in E1 as (-> & -> & ->);
    [| done | done | intros k _; apply not_elem_of_nil].
  eapply (rhsKeysLoop_gtree hash pf oi pf_accepts fuel h a b cl cr lk rk
            (currentPathOf o) (default [] (stack o))
            Ha Hb lk_nodup rk_nodup lk_nonempty rk_nonempty lk_repr rk_repr
            child_runs Hna _ rk) in E2 as [-> ->]; [| | done].
  - simplify_eq. split; [done|]. unfold gnode. now destruct cl, cr.
  - intros k. rewrite app_nil_r, elem_of_reverse. done.
Qed.

Lemma body_arrays_gnode nl nr h' cs :
  cl = GArray nl -> cr = GArray nr -> oi = false ->
  deepDiffBody hash (deepDiff hash fuel) h (VRef a) (VRef b) o = Some (h', cs) ->
  h' = h /\ cs = gnode (currentPathOf o) cl cr lk rk.
Proof using All.
  intros Hcl Hcr Hoif H.
  pose proof Ha as Ha'. pose proof Hb as Hb'. rewrite Hcl in Ha'. rewrite Hcr in Hb'.
  assert (Hoi' : orderIndependent o = false) by congruence.
  rewrite (deepDiffBody_arrays hash pf pf_accepts _ _ _ _ _ _ _ _ _
             Ha' Hb' Hpf Hoi' Hst) in H.
  apply bind_Some in H as ([h1 c1] & E1 & H).
  assert (Hruns : forall k lt rt h' cs,
    assoc k lk = Some lt -> assoc k rk = Some rt ->
    match lt, rt with
    | GNode _ c1 _, GNode _ c2 _ => descends c1 c2 = true
    | _, _ => False
    end ->
    gchildCall hash pf false fuel a b (currentPathOf o) (default [] (stack o))
      h (gvalueOf lt) (gvalueOf rt) k = Some (h', cs) ->
    h' = h /\ cs = gdiff (currentPathOf o ++ [k]) lt rt).
  { rewrite <- Hoif. exact child_runs. }
  apply (arrayLoop_gtree hash pf false pf_accepts fuel h a b cl cr lk rk
           (currentPathOf o) (default [] (stack o))
           Ha Hb lk_nodup rk_nodup lk_nonempty rk_nonempty lk_repr rk_repr
           Hruns nl nr (min nr nl) h1 c1 Hcl Hcr (le_n _)) in E1 as [-> ->].
  injection H as <- <-. split; [done|]. unfold gnode. now rewrite Hcl, Hcr.
Qed.

End Body.

(** A run on two trees records what [gdiff] says and leaves the store as
    it is. *)
Lemma deepDiff_gnodes fuel : forall h l r o h' cs,
  descendsInto l r ->
  grepr h l -> grepr h r -> gprimLeaves l -> gprimLeaves r ->
  gkeysOK l -> gkeysOK r -> gacyclic l -> positional oi l ->
  (forall x, x ∈ gaddrs l -> x ∉ stackAddrs (default [] (stack o))) ->
  prefilter o = pf -> orderIndependent o = oi ->
  deepDiff hash fuel h (gvalueOf l) (gvalueOf r) o = Some (h', cs) ->
  h' = h /\ cs = gdiff (currentPathOf o) l r.
Proof using pf_accepts.
  induction fuel as [|fuel IH];
    intros h l r o h' cs Hd Hl Hr Hpl Hpr Hkl Hkr Hac Hpos Hst Hpf Hoi H; [done|].
  destruct l as [v|a cl lk]; [done|]. destruct r as [w|b cr rk]; [done|].
  cbn in Hd.
  apply gAll_node in Hl as [Ha Hl], Hr as [Hb Hr], Hpl as [_ Hpl], Hpr as [_ Hpr].
  apply gAll_node in Hkl as [(Hndl & Hnel & Hfl) Hkl], Hkr as [(Hndr & Hner & Hfr) Hkr].
  apply gAll_node in Hac as [Haa Hac]. apply gAll_node in Hpos as [Hpa Hpos].
  cbn [gvalueOf] in H. rewrite deepDiff_S in H. rewrite gdiff_node.
  assert (Hex : existsb (fun f => strictEq (st_lhs f) (VRef a)) (default [] (stack o))
                = false).
  { apply existsb_stack_notin, Hst. rewrite gaddrs_node. apply list_elem_of_here. }
  assert (Hlr : Forall (fun kt => grepr h kt.2 /\ gprimLeaves kt.2) lk)
    by (apply Forall_and; split; done).
  assert (Hrr : Forall (fun kt => grepr h kt.2 /\ gprimLeaves kt.2) rk)
    by (apply Forall_and; split; done).
  assert (Hchild : forall k lt rt h1 c1,
    assoc k lk = Some lt -> assoc k rk = Some rt -> descendsInto lt rt ->
    gchildCall hash pf oi fuel a b (currentPathOf o) (default [] (stack o))
      h (gvalueOf lt) (gvalueOf rt) k = Some (h1, c1) ->
    h1 = h /\ c1 = gdiff (currentPathOf o ++ [k]) lt rt).
  { intros k lt rt h1 c1 El Er Hdd Hrun. unfold gchildCall in Hrun.
    assert (Hkne : k <> "").
    { intros ->. apply Hnel. apply assoc_is_Some_keys. rewrite El. now eexists. }
    apply IH in Hrun; try done.
    - unfold currentPathOf in Hrun at 1.
      cbn [key path keyName default from_option id] in Hrun.
      now rewrite (keyTruthy_Some _ Hkne) in Hrun.
    - apply (kids_elem _ lk k lt Hl El).
    - apply (kids_elem _ rk k rt Hr Er).
    - apply (kids_elem _ lk k lt Hpl El).
    - apply (kids_elem _ rk k rt Hpr Er).
    - apply (kids_elem _ lk k lt Hkl El).
    - apply (kids_elem _ rk k rt Hkr Er).
    - apply (kids_elem _ lk k lt Hac El).
    - apply (kids_elem _ lk k lt Hpos El).
    - intros x Hx. cbn [stack default from_option id]. unfold stackAddrs. cbn.
      fold (stackAddrs (default [] (stack o))).
      apply assoc_Some_elem in El.
      apply not_elem_of_cons. split.
      + intros ->. apply Haa. now apply (gkidAddrs_elem lk k lt).
      + apply Hst. rewrite gaddrs_node. apply list_elem_of_further.
        now apply (gkidAddrs_elem lk k lt). }
  destruct cl as [|t1|nl] eqn:Ecl.
  - eapply (body_keys_gnode fuel h a b GObject cr lk rk o); try done.
  - eapply (body_keys_gnode fuel h a b (GDate t1) cr lk rk o); try done.
  - destruct cr as [|t2|nr] eqn:Ecr; try done.
    eapply (body_arrays_gnode fuel h a b (GArray nl) (GArray nr) lk rk o); try done.
Qed.

(** [diff] on two trees. *)
Lemma diff_gtrees h l r :
  descendsInto l r ->
  grepr h l -> grepr h r -> gprimLeaves l -> gprimLeaves r ->
  gkeysOK l -> gkeysOK r -> gacyclic l -> positional oi l ->
  diff hash h (gvalueOf l) (gvalueOf r) pf oi = Some (h, gdiff [] l r).
Proof using pf_accepts.
  intros Hd Hl Hr Hpl Hpr Hkl Hkr Hac Hpos.
  destruct (diff_total hash h (gvalueOf l) (gvalueOf r) pf oi) as (h' & cs & Hdf & _).
  rewrite Hdf. unfold diff in Hdf.
  apply (deepDiff_gnodes _ h l r) in Hdf as [-> ->]; try done.
  intros x _. apply not_elem_of_nil.
Qed.

End GDiff.

(** *** Reverting on a tree of objects, dates and arrays *)

(** A change of a node: of its kind and of its children. *)
Definition nodeChange : Type :=
  gclass -> list (string * gtree) -> option (gclass * list (string * gtree)).

(** [it[k] = l] *)
Definition setKid (k : string) (l : value) : nodeChange :=
  fun c kids => if fitsb c k then Some (c, setNamed k (GVal l) kids) else None.

(** [delete it[k]] *)
Definition dropKid (k : string) : nodeChange :=
  fun c kids =>
    if fitsb c k && negb (hasKey k (removeProp k kids))
    then Some (c, removeProp k kids) else None.

(** Undoing the insertion of the last element of an array. *)
Definition dropLast (i : nat) : nodeChange :=
  fun c kids =>
    match c with
    | GArray len =>
        if len =? S i then Some (GArray i, removeProp (indexToString i) kids) else None
    | _ => None
    end.

(** Undoing the deletion of the last element of an array. *)
Definition appendKid (i : nat) (l : value) : nodeChange :=
  fun c kids =>
    match c with
    | GArray len =>
        if len =? i then Some (GArray (S i), setNamed (indexToString i) (GVal l) kids)
        else None
    | _ => None
    end.

(** The node a path leads to. *)
Fixpoint gnodeAt (q : list string) (t : gtree)
    : option (addr * gclass * list (string * gtree)) :=
  match q with
  | [] =>
      match t with
      | GNode a c kids => Some (a, c, kids)
      | GVal _ => None
      end
  | k :: q' =>
      match t with
      | GNode _ c kids =>
          if fitsb c k then
            match assoc k kids with
            | Some ch => gnodeAt q' ch
            | None => None
            end
          else None
      | GVal _ => None
      end
  end.

(** The tree in which the node at path [q] is changed by [f]. *)
Fixpoint gupdate (q : list string) (f : nodeChange) (t : gtree) : option gtree :=
  match q with
  | [] =>
      match t with
      | GNode a c kids =>
          match f c kids with
          | Some (c', kids') => Some (GNode a c' kids')
          | None => None
          end
      | GVal _ => None
      end
  | k :: q' =>
      match t with
      | GNode a c kids =>
          if fitsb c k then
            match assoc k kids with
            | Some ch =>
                match gupdate q' f ch with
                | Some ch' => Some (GNode a c (replaceProp k ch' kids))
                | None => None
                end
            | None => None
            end
          else None
      | GVal _ => None
      end
  end.

(** What reverting one record does to a tree: a deletion or an edit stores
    the left value as it is, an addition removes the key, an array change
    undoes the change of the tail of the array at the path. *)
Definition gapply (c : RawChangeT) (t : gtree) : option gtree :=
  match c with
  | ChD p l | ChE p l _ => gupdate (take (length p - 1) p) (setKid (lastKey p) l) t
  | ChN p _ => gupdate (take (length p - 1) p) (dropKid (lastKey p)) t
  | ChA p i (ItN _) => gupdate p (dropLast i) t
  | ChA p i (ItD l) => gupdate p (appendKid i l) t
  end.

Fixpoint gplay (cs : list RawChangeT) (t : gtree) : option gtree :=
  match cs with
  | [] => Some t
  | c :: cs' =>
      match gapply c t with
      | Some t' => gplay cs' t'
      | None => None
      end
  end.

(** Where the left array has a hole, the target may hold [undefined]. *)
Definition holeFilled (cl : gclass) (tk : list (string * gtree)) (k : string) : Prop :=
  match cl with
  | GArray _ => fitsb cl k = true /\ assoc k tk = Some (GVal VUndef)
  | _ => False
  end.

(** The target holds what the left tree holds: at a leaf the same value up
    to SameValueZero, and for an object of the left tree either that
    object itself or an object of the same kind that matches it key by
    key; where the left array has a hole the target may hold
    [undefined]. *)
Fixpoint gmatches (l t : gtree) {struct l} : Prop :=
  match l, t with
  | GVal v, GVal w => sameValueZero v w = true
  | GVal _, GNode _ _ _ => False
  | GNode x _ _, GVal w => w = VRef x
  | GNode _ cl lk, GNode _ ct tk =>
      (ct = cl /\ descends cl cl = true)
      /\ (fix all (ks : list (string * gtree)) : Prop :=
            match ks with
            | [] => True
            | kt :: ks' =>
                (exists tt, assoc kt.1 tk = Some tt /\ gmatches kt.2 tt) /\ all ks'
            end) lk
      /\ (forall k, is_Some (assoc k tk) ->
            is_Some (assoc k lk) \/ holeFilled cl tk k)
  end.

Lemma gmatches_node x cl lk y ct tk :
  gmatches (GNode x cl lk) (GNode y ct tk) <->
  (ct = cl /\ descends cl cl = true)
  /\ Forall (fun kt => exists tt, assoc kt.1 tk = Some tt /\ gmatches kt.2 tt) lk
  /\ (forall k, is_Some (assoc k tk) ->
        is_Some (assoc k lk) \/ holeFilled cl tk k).
Proof.
  simpl. apply and_iff_compat_l, and_iff_compat_r.
  induction lk as [|kt lk IH].
  - split; intros _; [apply Forall_nil_2|exact I].
  - rewrite Forall_cons, IH. done.
Qed.

Lemma gmatches_self_leaf lt : gmatches lt (GVal (gvalueOf lt)).
Proof. destruct lt as [v|x c lk]; simpl; [apply sameValueZero_refl|done]. Qed.

(** *** Property lists: keys *)

Lemma keys_replaceProp {A : Type} k (v : A) ps :
  map fst (replaceProp k v ps) = map fst ps.
Proof.
  induction ps as [|[k' v'] ps IH]; simpl; [done|].
  destruct (String.eqb_spec k' k) as [->|Hne]; simpl; [done|]. now rewrite IH.
Qed.

Lemma keys_insertIndexProp {A : Type} i k (v : A) ps :
  map fst (insertIndexProp i k v ps) ≡ₚ k :: map fst ps.
Proof.
  induction ps as [|[k' v'] ps IH]; simpl; [done|].
  destruct (arrayIndex k') as [j|]; [|done]. destruct (j <? i); [|done].
  simpl. rewrite IH. apply perm_swap.
Qed.

Lemma keys_setNamed {A : Type} k (v : A) ps :
  map fst (setNamed k v ps)
  ≡ₚ if hasKey k ps then map fst ps else k :: map fst ps.
Proof.
  unfold setNamed. destruct (hasKey k ps).
  - now rewrite keys_replaceProp.
  - unfold insertProp. destruct (arrayIndex k).
    + apply keys_insertIndexProp.
    + rewrite map_app. simpl. symmetry. apply Permutation_cons_append.
Qed.

Lemma NoDup_setNamed {A : Type} k (v : A) ps :
  NoDup (map fst ps) -> NoDup (map fst (setNamed k v ps)).
Proof.
  intros Hnd. rewrite keys_setNamed. destruct (hasKey k ps) eqn:E; [done|].
  apply NoDup_cons. split; [|done]. now apply hasKey_false.
Qed.

Lemma NoDup_removeProp {A : Type} k (ps : list (string * A)) :
  NoDup (map fst ps) -> NoDup (map fst (removeProp k ps)).
Proof. intros Hnd. apply (sublist_NoDup _ _ Hnd (removeProp_keys_sublist k ps)). Qed.

Lemma NoDup_replaceProp {A : Type} k (v : A) ps :
  NoDup (map fst ps) -> NoDup (map fst (replaceProp k v ps)).
Proof. now rewrite keys_replaceProp. Qed.

(** *** Records below a key *)

Lemma gtails_prepend p0 p nl nr lk rk :
  gtails (p0 ++ p) nl nr lk rk = map (prependPath p0) (gtails p nl nr lk rk).
Proof. unfold gtails. rewrite map_app, !map_map. done. Qed.

(** The records of a run below a path are the records of the run at the
    root, with the path put in front of theirs. *)
Lemma gdiff_prepend p0 l : forall p r,
  gdiff (p0 ++ p) l r = map (prependPath p0) (gdiff p l r).
Proof.
  induction l as [v|a cl lk IH] using gtree_ind'; intros p [w|b cr rk]; try done.
  rewrite !gdiff_node.
  assert (Hat : forall k,
    gat (p0 ++ p) lk rk k = map (prependPath p0) (gat p lk rk k)).
  { intros k. unfold gat. rewrite <- app_assoc.
    destruct (assoc k lk) as [lt|] eqn:El, (assoc k rk) as [rt|]; try done.
    unfold gpair. destruct lt as [lv|x c1 k1], rt as [rv|y c2 k2];
      try apply leafChange_prepend.
    destruct (descends c1 c2); [|done].
    rewrite Forall_forall in IH. apply (IH (k, GNode x c1 k1)).
    now apply assoc_Some_elem. }
  assert (Hfm : forall (A : Type) (f f' : A -> list RawChangeT) (xs : list A),
    (forall x, f' x = map (prependPath p0) (f x)) ->
    flat_map f' xs = map (prependPath p0) (flat_map f xs)).
  { intros A f f' xs Hf. induction xs as [|x xs IHx]; [done|].
    simpl. now rewrite map_app, Hf, IHx. }
  unfold gnode.
  destruct cl as [|t1|nl], cr as [|t2|nr]; rewrite map_app; f_equal;
    try apply gtails_prepend; apply Hfm; intros x; try apply Hat;
    (destruct (hasKey x.1 lk); [done|apply Hat]).
Qed.

(** A record that can be reverted below a key: it has a key to work at, or
    it is an array change. *)
Definition liftable (c : RawChangeT) : Prop :=
  match c with
  | ChA _ _ _ => True
  | _ => changePath c <> []
  end.

Lemma liftable_prepend k c : liftable (prependPath [k] c).
Proof. now destruct c. Qed.

Lemma gdiff_liftable l r : Forall liftable (gdiff [] l r).
Proof.
  destruct l as [v|a cl lk], r as [w|b cr rk]; try apply Forall_nil_2.
  rewrite gdiff_node.
  assert (Hat : forall k, Forall liftable (gat [] lk rk k)).
  { intros k. unfold gat. simpl.
    destruct (assoc k lk) as [lt|], (assoc k rk) as [rt|];
      try apply Forall_nil_2; try (now apply Forall_singleton).
    assert (Hleaf : forall lv rv, Forall liftable (leafChange [k] lv rv)).
    { intros lv rv. unfold leafChange. destruct (sameValueZero lv rv);
        [apply Forall_nil_2|]. now apply Forall_singleton. }
    unfold gpair. destruct lt as [lv|x c1 k1], rt as [rv|y c2 k2];
      try apply Hleaf.
    destruct (descends c1 c2); [|now apply Forall_singleton].
    change [k] with ([k] ++ []). rewrite gdiff_prepend.
    apply Forall_fmap, Forall_forall. intros c _. apply liftable_prepend. }
  assert (Htl : forall nl nr, Forall liftable (gtails [] nl nr lk rk)).
  { intros nl nr. unfold gtails. apply Forall_app. split;
      apply Forall_fmap, Forall_forall; now intros i _. }
  unfold gnode. destruct cl, cr; apply Forall_app; split;
    try apply Htl; apply Forall_flat_map, Forall_forall; intros x _;
    try apply Hat.
  all: destruct (hasKey _ _); [apply Forall_nil_2|apply Hat].
Qed.

(** Reverting a record below the key [k] of a node reverts the record on
    the child under [k]. *)
Lemma gapply_lift k c a cn kids ch :
  liftable c -> fitsb cn k = true -> assoc k kids = Some ch ->
  gapply (prependPath [k] c) (GNode a cn kids)
  = gapply c ch ≫= (fun ch' => Some (GNode a cn (replaceProp k ch' kids))).
Proof.
  intros Hp Hfit Hk.
  assert (Hgen : forall p f, p <> [] ->
    gupdate (take (length (k :: p) - 1) (k :: p)) f (GNode a cn kids)
    = gupdate (take (length p - 1) p) f ch
        ≫= (fun ch' => Some (GNode a cn (replaceProp k ch' kids)))).
  { intros [|k0 p] f Hne; [done|].
    cbn [length Nat.sub]. rewrite !Nat.sub_0_r. cbn [take gupdate]. rewrite Hfit, Hk.
    now destruct (gupdate _ f ch). }
  assert (Hfull : forall p f,
    gupdate (k :: p) f (GNode a cn kids)
    = gupdate p f ch ≫= (fun ch' => Some (GNode a cn (replaceProp k ch' kids)))).
  { intros p f. cbn [gupdate]. rewrite Hfit, Hk. now destruct (gupdate p f ch). }
  assert (Hlast : forall p, p <> [] -> lastKey ([k] ++ p) = lastKey p).
  { intros [|k0 p] Hne; [done|]. unfold lastKey. cbn [app length Nat.sub].
    now rewrite !Nat.sub_0_r. }
  destruct c as [p r|p l|p l r|p i [r|l]]; simpl in Hp; cbn [prependPath gapply];
    rewrite ?Hlast by done; try apply Hgen; try apply Hfull; done.
Qed.

Lemma gplay_lift k a cn cs : forall kids ch ch',
  Forall liftable cs -> fitsb cn k = true ->
  assoc k kids = Some ch -> gplay cs ch = Some ch' ->
  gplay (map (prependPath [k]) cs) (GNode a cn kids)
  = Some (GNode a cn (replaceProp k ch' kids)).
Proof.
  induction cs as [|c cs IH]; intros kids ch ch' Hne Hfit Hk Hplay; simpl in Hplay.
  - simplify_eq. simpl. now rewrite replaceProp_id.
  - apply Forall_cons in Hne as [Hc Hne].
    destruct (gapply c ch) as [ch1|] eqn:E1; [|done].
    cbn [map gplay]. rewrite (gapply_lift _ _ _ _ _ _ Hc Hfit Hk), E1. cbn.
    rewrite (IH _ ch1 ch' Hne); [now rewrite replaceProp_idem|done| |done].
    apply assoc_replaceProp_eq. rewrite Hk. eauto.
Qed.

Lemma gplay_app cs1 cs2 t :
  gplay (cs1 ++ cs2) t = gplay cs1 t ≫= gplay cs2.
Proof.
  revert t. induction cs1 as [|c cs1 IH]; intros t; simpl; [done|].
  destruct (gapply c t); [apply IH|done].
Qed.

(** *** The tree the records lead back to *)

(** What the final target holds under a key, seen from the left node. *)
Definition relLeft (lk tk : list (string * gtree)) (k : string) : Prop :=
  match assoc k lk with
  | Some lt => exists tt, assoc k tk = Some tt /\ gmatches lt tt
  | None => assoc k tk = None
  end.

(** What the copy holds under a key, seen from the right node. *)
Definition relCopy (rk tk : list (string * gtree)) (k : string) : Prop :=
  match assoc k rk with
  | Some rt => exists tt, assoc k tk = Some tt /\ gcopyOf tt rt
  | None => assoc k tk = None
  end.

Lemma gcopy_assoc (tk rk : list (string * gtree)) k :
  Forall2 (fun kt kr => kt.1 = kr.1 /\ gcopyOf kt.2 kr.2) tk rk ->
  relCopy rk tk k.
Proof.
  unfold relCopy.
  induction 1 as [|[k1 tt] [k2 rt] tk rk [Hk Hc] _ IH]; simpl; [done|].
  simpl in Hk, Hc. subst k2. destruct (String.eqb k1 k); [eauto|done].
Qed.

Lemma gcopy_keys (tk rk : list (string * gtree)) :
  Forall2 (fun kt kr => kt.1 = kr.1 /\ gcopyOf kt.2 kr.2) tk rk ->
  map fst tk = map fst rk.
Proof. induction 1 as [|? ? ? ? [Hk _] _ IH]; simpl; [done|]. now rewrite Hk, IH. Qed.

(** The records of a run on two objects, reverted last one first on a copy
    of the right one, lead back to the left one. *)
Definition greverts (l : gtree) : Prop :=
  forall r t,
    descendsInto l r ->
    gprimLeaves l -> gkeysOK l -> gkeysOK r -> gcopyOf t r -> growsByOne l r ->
    exists t', gplay (reverse (gdiff [] l r)) t = Some t' /\ gmatches l t'.

Section RevertKeys.

Variables (c : addr) (ct : gclass).
Variables lk rk : list (string * gtree).

Hypothesis left_ready : forall k lt,
  assoc k lk = Some lt -> greverts lt /\ gprimLeaves lt /\ gkeysOK lt.
Hypothesis right_ready : forall k rt, assoc k rk = Some rt -> gkeysOK rt.
Hypothesis pairs_ready : forall k lt rt,
  assoc k lk = Some lt -> assoc k rk = Some rt -> growsByOne lt rt.

(** The records for one key. *)
Lemma grevert_key k tk :
  fitsb ct k = true -> NoDup (map fst tk) -> relCopy rk tk k ->
  exists tk1,
    gplay (reverse (gat [] lk rk k)) (GNode c ct tk) = Some (GNode c ct tk1)
    /\ relLeft lk tk1 k
    /\ (forall k', k' <> k -> assoc k' tk1 = assoc k' tk)
    /\ NoDup (map fst tk1).
Proof using All.
  intros Hfit Hnd Hcopy. unfold relCopy in Hcopy. unfold relLeft, gat.
  assert (Hset : forall lt r0, assoc k lk = Some lt ->
    exists tk1,
      gplay (reverse [ChE ([] ++ [k]) (gvalueOf lt) r0]) (GNode c ct tk)
      = Some (GNode c ct tk1)
      /\ gplay (reverse [ChD ([] ++ [k]) (gvalueOf lt)]) (GNode c ct tk)
         = Some (GNode c ct tk1)
      /\ (exists tt, assoc k tk1 = Some tt /\ gmatches lt tt)
      /\ (forall k', k' <> k -> assoc k' tk1 = assoc k' tk)
      /\ NoDup (map fst tk1)).
  { intros lt r0 El. exists (setNamed k (GVal (gvalueOf lt)) tk).
    assert (Hap : gupdate [] (setKid k (gvalueOf lt)) (GNode c ct tk)
                  = Some (GNode c ct (setNamed k (GVal (gvalueOf lt)) tk))).
    { cbn [gupdate]. unfold setKid. now rewrite Hfit. }
    split_and!.
    - unfold reverse. cbn [rev_append app gplay gapply length Nat.sub take].
      unfold lastKey. cbn [length Nat.sub lookup list_lookup default from_option id].
      now rewrite Hap.
    - unfold reverse. cbn [rev_append app gplay gapply length Nat.sub take].
      unfold lastKey. cbn [length Nat.sub lookup list_lookup default from_option id].
      now rewrite Hap.
    - exists (GVal (gvalueOf lt)). split; [apply assoc_setNamed_eq|apply gmatches_self_leaf].
    - intros k' Hne. now apply assoc_setNamed_ne.
    - now apply NoDup_setNamed. }
  destruct (assoc k lk) as [lt|] eqn:El, (assoc k rk) as [rt|] eqn:Er.
  - destruct Hcopy as (tt & Htt & Hc).
    destruct (left_ready k lt El) as (IH & Hprim & Hkeys).
    destruct (Hset lt (gvalueOf rt) eq_refl) as (tkS & HplayE & _ & HmS & HsameS & HndS).
    assert (Hleaf : exists tk1,
      gplay (reverse (leafChange ([] ++ [k]) (gvalueOf lt) (gvalueOf rt))) (GNode c ct tk)
      = Some (GNode c ct tk1)
      /\ ((gisNode lt && gisNode rt = false) ->
          (exists tt, assoc k tk1 = Some tt /\ gmatches lt tt))
      /\ (forall k', k' <> k -> assoc k' tk1 = assoc k' tk)
      /\ NoDup (map fst tk1)).
    { unfold leafChange.
      destruct (sameValueZero (gvalueOf lt) (gvalueOf rt)) eqn:Esv.
      - exists tk. split_and!; try done. intros Hnn. exists tt. split; [done|].
        destruct lt as [v|x cx lkk], rt as [w|y cy rkk], tt as [u|z cz tkk];
          simpl in *; try done.
        + now subst.
        + apply sameValueZero_ref_r in Esv. subst v. done.
        + apply sameValueZero_ref_l in Esv. now subst.
      - exists tkS. split_and!; try done. }
    unfold gpair. destruct lt as [v|x cx lkk].
    { destruct Hleaf as (tk1 & H1 & H2 & H3 & H4). exists tk1. split_and!; try done.
      now apply H2. }
    destruct rt as [w|y cy rkk].
    { destruct Hleaf as (tk1 & H1 & H2 & H3 & H4). exists tk1. split_and!; try done.
      now apply H2. }
    destruct (descends cx cy) eqn:Ed.
    + cbn [app]. change [k] with ([k] ++ []). rewrite gdiff_prepend, <- fmap_reverse.
      destruct (IH (GNode y cy rkk) tt Ed Hprim Hkeys (right_ready k _ Er) Hc
                  (pairs_ready k _ _ El Er)) as (tt' & Hplay & Hm).
      exists (replaceProp k tt' tk). split_and!.
      * apply (gplay_lift _ _ _ _ _ tt); [|done|done|done].
        apply Forall_reverse, gdiff_liftable.
      * exists tt'. split; [|done]. apply assoc_replaceProp_eq. rewrite Htt. eauto.
      * intros k' Hne. now apply assoc_replaceProp_ne.
      * now apply NoDup_replaceProp.
    + exists tkS. split_and!; done.
  - destruct (Hset lt VUndef eq_refl) as (tkS & _ & HplayD & HmS & HsameS & HndS).
    exists tkS. split_and!; done.
  - exists (removeProp k tk). split_and!.
    + unfold reverse. cbn [rev_append app gplay gapply length Nat.sub take].
      unfold lastKey. cbn [length Nat.sub lookup list_lookup default from_option id].
      cbn [gupdate]. unfold dropKid. rewrite Hfit.
      replace (hasKey k (removeProp k tk)) with false; [done|].
      symmetry. apply hasKey_false. rewrite <- assoc_is_Some_keys.
      rewrite assoc_removeProp_eq by done. now intros [? ?].
    + now apply assoc_removeProp_eq.
    + intros k' Hne. now apply assoc_removeProp_ne.
    + now apply NoDup_removeProp.
  - exists tk. split_and!; done.
Qed.

(** The records for a list of keys, some of them skipped. *)
Lemma grevert_keys (skip : string -> bool) ks : forall tk,
  NoDup ks ->
  (forall k, k ∈ ks -> fitsb ct k = true) ->
  NoDup (map fst tk) ->
  (forall k, k ∈ ks -> skip k = false -> relCopy rk tk k) ->
  exists tk',
    gplay (flat_map (fun k => if skip k then [] else reverse (gat [] lk rk k)) ks)
          (GNode c ct tk) = Some (GNode c ct tk')
    /\ (forall k, k ∈ ks -> skip k = false -> relLeft lk tk' k)
    /\ (forall k, k ∉ ks \/ skip k = true -> assoc k tk' = assoc k tk)
    /\ NoDup (map fst tk').
Proof using All.
  induction ks as [|k ks IH]; intros tk Hks Hfit Hnd Hcopy.
  - exists tk. simpl. split_and!; try done. by intros k ?%elem_of_nil.
  - apply NoDup_cons in Hks as [Hk Hks]. cbn [flat_map].
    assert (Hfit' : forall k', k' ∈ ks -> fitsb ct k' = true).
    { intros k' Hk'. apply Hfit. now apply list_elem_of_further. }
    destruct (skip k) eqn:Es.
    + destruct (IH tk Hks Hfit' Hnd) as (tk' & Hplay & Hrel & Hsame & Hnd').
      { intros k' Hk'. apply Hcopy. now apply list_elem_of_further. }
      exists tk'. cbn [app]. split_and!; try done.
      * intros k' [->|Hin]%elem_of_cons Hk'; [congruence|now apply Hrel].
      * intros k' [Hk'|Hk'].
        -- apply Hsame. left. intros ?. apply Hk'. now apply list_elem_of_further.
        -- destruct (decide (k' ∈ ks)); [apply Hsame; now right|apply Hsame; now left].
    + destruct (grevert_key k tk) as (tk1 & Hplay1 & Hrel1 & Hsame1 & Hnd1).
      { apply Hfit, list_elem_of_here. }
      { done. }
      { apply Hcopy; [apply list_elem_of_here|done]. }
      destruct (IH tk1 Hks Hfit' Hnd1) as (tk' & Hplay & Hrel & Hsame & Hnd').
      { intros k' Hk' Hs. unfold relCopy. rewrite Hsame1.
        - apply Hcopy; [now apply list_elem_of_further|done].
        - intros ->. done. }
      exists tk'. split_and!; try done.
      * rewrite gplay_app, Hplay1. exact Hplay.
      * intros k' [->|Hin]%elem_of_cons Hk'; [|now apply Hrel].
        unfold relLeft. rewrite Hsame by now left. exact Hrel1.
      * intros k' Hk'.
        assert (Hne : k' <> k).
        { intros ->. destruct Hk' as [Hk'|Hk']; [|congruence].
          apply Hk', list_elem_of_here. }
        rewrite <- (Hsame1 k' Hne). apply Hsame.
        destruct Hk' as [Hk'|Hk']; [left|now right].
        intros ?. apply Hk'. now apply list_elem_of_further.
Qed.

End RevertKeys.

Lemma arrayIndex_indexToString i :
  (Z.of_nat i < 4294967295)%Z -> arrayIndex (indexToString i) = Some i.
Proof.
  intros Hi. unfold arrayIndex. rewrite parseIndex_indexToString.
  apply Z.ltb_lt in Hi. now rewrite Hi.
Qed.

Lemma fitsb_index len i :
  i < len -> (Z.of_nat len < 4294967295)%Z ->
  fitsb (GArray len) (indexToString i) = true.
Proof.
  intros Hi Hlen. unfold fitsb. rewrite arrayIndex_indexToString by lia.
  now apply Nat.ltb_lt.
Qed.

Lemma NoDup_index_keys lo n : NoDup (map indexToString (seq lo n)).
Proof.
  apply NoDup_fmap_2_strong; [|apply NoDup_seq].
  intros i j _ _. apply indexToString_inj.
Qed.

Lemma flat_map_keys {A B : Type} (f : string * A -> list B) (g : string -> list B) l :
  (forall kt, f kt = g kt.1) -> flat_map f l = flat_map g (map fst l).
Proof.
  intros Hf. induction l as [|kt l IH]; [done|]. simpl. now rewrite Hf, IH.
Qed.

Lemma flat_map_indices {B : Type} (g : string -> list B) (l : list nat) :
  flat_map (fun i => g (indexToString i)) l = flat_map g (map indexToString l).
Proof. induction l as [|i l IH]; [done|]. simpl. now rewrite IH. Qed.

Lemma index_key_dec lo hi k :
  (exists j, lo <= j < hi /\ k = indexToString j)
  \/ (forall j, lo <= j < hi -> k <> indexToString j).
Proof.
  destruct (parseIndex k) as [i|] eqn:Ep.
  - assert (Hk : k = indexToString i).
    { unfold parseIndex in Ep. destruct (NilZero.uint_of_string k); [|done].
      destruct (String.eqb_spec (indexToString (Nat.of_uint u)) k); [|done].
      now simplify_eq. }
    destruct (decide (lo <= i < hi)) as [Hi|Hi].
    + left. now exists i.
    + right. intros j Hj E. rewrite Hk in E. apply indexToString_inj in E. lia.
  - right. intros j _ ->. now rewrite parseIndex_indexToString in Ep.
Qed.

(** Undoing the deletions at the tail of an array, lowest index first. *)
Lemma append_run c (v : nat -> value) n : forall j0 tk,
  NoDup (map fst tk) ->
  exists tk',
    gplay (map (fun j => ChA [] j (ItD (v j))) (seq j0 n)) (GNode c (GArray j0) tk)
    = Some (GNode c (GArray (j0 + n)) tk')
    /\ (forall j, j0 <= j < j0 + n -> assoc (indexToString j) tk' = Some (GVal (v j)))
    /\ (forall k, (forall j, j0 <= j < j0 + n -> k <> indexToString j) ->
          assoc k tk' = assoc k tk)
    /\ NoDup (map fst tk').
Proof.
  induction n as [|n IH]; intros j0 tk Hnd.
  - exists tk. simpl. rewrite Nat.add_0_r. split_and!; try done. intros j Hj. lia.
  - destruct (IH (S j0) (setNamed (indexToString j0) (GVal (v j0)) tk))
      as (tk' & Hplay & Hnew & Hsame & Hnd'); [now apply NoDup_setNamed|].
    exists tk'. split_and!; [| | |done].
    + cbn [seq map gplay gapply gupdate]. unfold appendKid. rewrite Nat.eqb_refl.
      rewrite Hplay. do 3 f_equal. lia.
    + intros j Hj. destruct (decide (j = j0)) as [->|Hne].
      * rewrite Hsame; [apply assoc_setNamed_eq|].
        intros j Hj' E. apply indexToString_inj in E. lia.
      * apply Hnew. lia.
    + intros k Hk. rewrite Hsame.
      * apply assoc_setNamed_ne. apply Hk. lia.
      * intros j Hj. apply Hk. lia.
Qed.

(** Reverting the records of a run, last one first, on a copy of the right
    tree gives a tree that holds what the left tree holds. *)
Lemma gdiff_reverts l : greverts l.
Proof.
  induction l as [v|a cl lk IH] using gtree_ind';
    intros r t Hd Hprim Hkl Hkr Hcopy Hgrow; [done|].
  destruct r as [w|b cr rk]; [done|]. destruct t as [u|c ct tk]; [done|].
  cbn in Hd.
  apply gcopyOf_node in Hcopy as [-> Hcopy].
  apply gAll_node in Hprim as [_ Hprim].
  apply gAll_node in Hkl as [(Hlnd & Hlne & Hlc) Hkl].
  apply gAll_node in Hkr as [(Hrnd & Hrne & Hrc) Hkr].
  pose proof (proj1 (growsByOne_node _ _ _ _ _ _) Hgrow Hd) as [Hlen Hpairs].
  clear Hgrow.
  assert (Hleft : forall k lt,
    assoc k lk = Some lt -> greverts lt /\ gprimLeaves lt /\ gkeysOK lt).
  { intros k lt El. split_and!.
    - apply (kids_elem _ lk k lt IH El).
    - apply (kids_elem _ lk k lt Hprim El).
    - apply (kids_elem _ lk k lt Hkl El). }
  assert (Hright : forall k rt, assoc k rk = Some rt -> gkeysOK rt).
  { intros k rt Er. apply (kids_elem _ rk k rt Hkr Er). }
  assert (Hpr : forall k lt rt,
    assoc k lk = Some lt -> assoc k rk = Some rt -> growsByOne lt rt).
  { intros k lt rt El Er. rewrite Forall_forall in Hpairs.
    specialize (Hpairs (k, lt) (assoc_Some_elem _ _ _ El)). cbn [fst snd] in Hpairs.
    now rewrite Er in Hpairs. }
  assert (Htnd : NoDup (map fst tk)) by now rewrite (gcopy_keys _ _ Hcopy).
  assert (Hcp : forall k, relCopy rk tk k) by (intros k; now apply gcopy_assoc).
  assert (Htk : forall k, assoc k rk = None -> assoc k tk = None).
  { intros k Ek. specialize (Hcp k). unfold relCopy in Hcp. now rewrite Ek in Hcp. }
  assert (Hlkm : forall tk', (forall k, k ∈ map fst lk -> relLeft lk tk' k) ->
    Forall (fun kt => exists tt, assoc kt.1 tk' = Some tt /\ gmatches kt.2 tt) lk).
  { intros tk' Hrel. apply Forall_forall. intros [k lt] Hin. cbn [fst snd].
    assert (Hk : k ∈ map fst lk) by (apply list_elem_of_fmap; now exists (k, lt)).
    specialize (Hrel k Hk). unfold relLeft in Hrel.
    now rewrite (assoc_NoDup _ _ _ Hlnd Hin) in Hrel. }
  rewrite gdiff_node.
  assert (Hobj : (forall k, fitsb cr k = true) -> cr = cl ->
    exists t',
      gplay (reverse
               (flat_map (fun kt : string * gtree => gat [] lk rk kt.1) lk
                ++ flat_map (fun kr : string * gtree =>
                               if hasKey kr.1 lk then [] else gat [] lk rk kr.1) rk))
            (GNode c cr tk) = Some t'
      /\ gmatches (GNode a cl lk) t').
  { intros Hfit Hcl. rewrite reverse_app, gplay_app, !reverse_flat_map.
    rewrite (flat_map_keys _ (fun k => if hasKey k lk then []
                                       else reverse (gat [] lk rk k)) (reverse rk))
      by (intros kt; now destruct (hasKey kt.1 lk)).
    rewrite (flat_map_keys _ (fun k => if (fun _ => false) k then []
                                       else reverse (gat [] lk rk k)) (reverse lk))
      by done.
    destruct (grevert_keys c cr lk rk Hleft Hright Hpr (fun k => hasKey k lk)
                (map fst (reverse rk)) tk)
      as (tk1 & Hplay1 & Hrel1 & Hsame1 & Hnd1); try done.
    { now rewrite fmap_reverse, reverse_Permutation. }
    rewrite Hplay1. cbn [mbind option_bind].
    destruct (grevert_keys c cr lk rk Hleft Hright Hpr (fun _ => false)
                (map fst (reverse lk)) tk1)
      as (tk2 & Hplay2 & Hrel2 & Hsame2 & Hnd2); try done.
    { now rewrite fmap_reverse, reverse_Permutation. }
    { intros k Hk _. unfold relCopy. rewrite Hsame1; [apply Hcp|]. right.
      apply hasKey_true. now rewrite fmap_reverse, elem_of_reverse in Hk. }
    exists (GNode c cr tk2). split; [done|]. apply gmatches_node.
    split_and!; [done|subst cr; now destruct cl as [|[]|]| |].
    - apply Hlkm. intros k Hk. apply Hrel2; [|done].
      now rewrite fmap_reverse, elem_of_reverse.
    - intros k Hs. left. destruct (assoc k lk) as [lt|] eqn:El; [now eexists|].
      exfalso. assert (Hkl' : k ∉ map fst lk).
      { rewrite <- assoc_is_Some_keys, El. now intros [? ?]. }
      rewrite Hsame2 in Hs by (left; now rewrite fmap_reverse, elem_of_reverse).
      destruct (assoc k rk) as [rt|] eqn:Er.
      + assert (Hkr' : k ∈ map fst (reverse rk)).
        { rewrite fmap_reverse, elem_of_reverse. apply assoc_is_Some_keys.
          rewrite Er. now eexists. }
        specialize (Hrel1 k Hkr'). unfold relLeft in Hrel1. rewrite El in Hrel1.
        rewrite Hrel1 in Hs; [now destruct Hs|]. now apply hasKey_false.
      + rewrite Hsame1 in Hs.
        * rewrite (Htk k Er) in Hs. now destruct Hs.
        * left. rewrite fmap_reverse, elem_of_reverse, <- assoc_is_Some_keys, Er.
          now intros [? ?]. }
  unfold gnode. destruct cl as [|[z1|]|nl], cr as [|[z2|]|nr]; try done.
  - now apply Hobj.
  - apply Hobj; [done|]. simpl in Hd. apply Z.eqb_eq in Hd. now subst.
  - (* two arrays *)
    destruct Hlc as [Hnlb Hlfit], Hrc as [Hnrb Hrfit].
    set (m := min nr nl).
    rewrite reverse_app, gplay_app, reverse_flat_map, reverse_involutive.
    rewrite (flat_map_indices (fun k => reverse (gat [] lk rk k))).
    destruct (grevert_keys c (GArray nr) lk rk Hleft Hright Hpr (fun _ => false)
                (map indexToString (seq 0 m)) tk)
      as (tkE & HplayE & HrelE & HsameE & HndE); try done.
    { apply NoDup_index_keys. }
    { intros k (i & -> & Hi)%list_elem_of_fmap. apply elem_of_seq in Hi.
      apply fitsb_index; [unfold m in Hi; lia|done]. }
    rewrite HplayE. cbn [mbind option_bind].
    assert (HinE : forall i, i < m -> relLeft lk tkE (indexToString i)).
    { intros i Hi. apply HrelE; [|done]. apply list_elem_of_fmap. exists i.
      split; [done|]. apply elem_of_seq. lia. }
    assert (HoutE : forall k, (forall i, i < m -> k <> indexToString i) ->
              assoc k tkE = assoc k tk).
    { intros k Hk. apply HsameE. left. intros (i & -> & Hi)%list_elem_of_fmap.
      apply elem_of_seq in Hi. apply (Hk i); [lia|done]. }
    assert (Hrkeys : forall k, is_Some (assoc k tk) ->
              exists i, i < nr /\ k = indexToString i).
    { intros k Hs. destruct (assoc k rk) as [rt|] eqn:Er.
      - rewrite Forall_forall in Hrfit.
        apply (fitsb_keyFits (GArray nr)), Hrfit, assoc_is_Some_keys.
        rewrite Er. now eexists.
      - rewrite (Htk k Er) in Hs. now destruct Hs. }
    assert (Hlkeys : forall k, is_Some (assoc k lk) ->
              exists i, i < nl /\ k = indexToString i).
    { intros k Hs. rewrite Forall_forall in Hlfit.
      now apply (fitsb_keyFits (GArray nl)), Hlfit, assoc_is_Some_keys. }
    unfold gtails. rewrite reverse_app, <- !fmap_reverse, !reverse_involutive.
    destruct (decide (nr <= nl)) as [Hle|Hgt].
    + replace (nr - nl) with 0 by lia. cbn [seq fmap list_fmap app].
      rewrite app_nil_r.
      destruct (append_run c
                  (fun j => default VUndef (assoc (indexToString j) (gprops lk)))
                  (nl - nr) nr tkE HndE)
        as (tk' & Hplay & Hnew & Hsame & Hnd').
      replace (nr + (nl - nr)) with nl in Hplay, Hnew, Hsame by lia.
      exists (GNode c (GArray nl) tk'). split; [exact Hplay|].
      apply gmatches_node. split_and!; [done|done| |].
      * apply Hlkm. intros k Hk. apply assoc_is_Some_keys in Hk.
        destruct (Hlkeys k Hk) as (i & Hi & ->). unfold relLeft.
        destruct (decide (i < nr)) as [Hlt|Hge].
        -- rewrite Hsame; [apply HinE; unfold m; lia|].
           intros j Hj E. apply indexToString_inj in E. lia.
        -- destruct Hk as [lt Hlt]. rewrite Hlt, Hnew by lia.
           rewrite assoc_gprops, Hlt. cbn. exists (GVal (gvalueOf lt)).
           split; [done|apply gmatches_self_leaf].
      * intros k Hs. destruct (assoc k lk) as [lt|] eqn:El; [left; now eexists|].
        right. destruct (index_key_dec nr nl k) as [(j & Hj & ->)|Hno].
        -- split; [apply fitsb_index; [lia|done]|].
           rewrite Hnew by done. now rewrite assoc_gprops, El.
        -- exfalso. rewrite Hsame in Hs.
           2:{ exact Hno. }
           destruct (index_key_dec 0 m k) as [(i & Hi & ->)|Hno'].
           ++ assert (Hi' : i < m) by lia. specialize (HinE i Hi'). unfold relLeft in HinE. rewrite El in HinE.
              rewrite HinE in Hs. now destruct Hs.
           ++ rewrite HoutE in Hs.
              2:{ intros i Hi. apply Hno'. lia. }
              destruct (Hrkeys k Hs) as (i & Hi & ->). apply (Hno' i); [|done].
              unfold m. lia.
    + assert (nr = S nl) by lia. subst nr.
      replace (nl - S nl) with 0 by lia. replace (S nl - nl) with 1 by lia.
      cbn [seq fmap list_fmap app gplay gapply gupdate]. unfold dropLast.
      rewrite Nat.eqb_refl.
      exists (GNode c (GArray nl) (removeProp (indexToString nl) tkE)).
      split; [done|].
      assert (Hm : m = nl) by (unfold m; lia).
      apply gmatches_node. split_and!; [done|done| |].
      * apply Hlkm. intros k Hk. apply assoc_is_Some_keys in Hk.
        destruct (Hlkeys k Hk) as (i & Hi & ->). unfold relLeft.
        rewrite assoc_removeProp_ne.
        -- apply HinE. lia.
        -- intros E. apply indexToString_inj in E. lia.
      * intros k Hs. left.
        assert (Hne : k <> indexToString nl).
        { intros ->. rewrite assoc_removeProp_eq in Hs by done. now destruct Hs. }
        rewrite assoc_removeProp_ne in Hs by done.
        destruct (index_key_dec 0 m k) as [(i & Hi & ->)|Hno'].
        -- assert (Hi' : i < m) by lia. specialize (HinE i Hi').
           unfold relLeft in HinE.
           destruct (assoc (indexToString i) lk) as [lt|]; [now eexists|].
           rewrite HinE in Hs. now destruct Hs.
        -- exfalso. rewrite HoutE in Hs.
           2:{ intros i Hi. apply Hno'. lia. }
           destruct (Hrkeys k Hs) as (i & Hi & ->).
           destruct (decide (i = nl)) as [->|Hi']; [done|].
           apply (Hno' i); [lia|done].
Qed.

(** *** The store and the tree change alike *)

Lemma gprops_replaceProp k t kids :
  gprops (replaceProp k t kids) = replaceProp k (gvalueOf t) (gprops kids).
Proof.
  induction kids as [|[k' t'] kids IH]; simpl; [done|].
  destruct (String.eqb k' k); simpl; [done|]. now rewrite IH.
Qed.

Lemma gprops_insertIndexProp i k t kids :
  gprops (insertIndexProp i k t kids) = insertIndexProp i k (gvalueOf t) (gprops kids).
Proof.
  induction kids as [|[k' t'] kids IH]; simpl; [done|].
  destruct (arrayIndex k') as [j|]; [|done].
  destruct (j <? i); simpl; [|done]. now rewrite IH.
Qed.

Lemma gprops_setNamed k t kids :
  gprops (setNamed k t kids) = setNamed k (gvalueOf t) (gprops kids).
Proof.
  unfold setNamed. rewrite hasKey_gprops. destruct (hasKey k kids).
  - apply gprops_replaceProp.
  - unfold insertProp. destruct (arrayIndex k).
    + apply gprops_insertIndexProp.
    + unfold gprops. now rewrite map_app.
Qed.

Lemma gprops_removeProp k kids :
  gprops (removeProp k kids) = removeProp k (gprops kids).
Proof.
  induction kids as [|[k' t'] kids IH]; simpl; [done|].
  destruct (String.eqb k' k); simpl; [done|]. now rewrite IH.
Qed.

Lemma gprops_replace_same k ch ch' kids :
  assoc k kids = Some ch -> gvalueOf ch' = gvalueOf ch ->
  gprops (replaceProp k ch' kids) = gprops kids.
Proof.
  intros Hk Hv. rewrite gprops_replaceProp, Hv. apply replaceProp_id.
  now rewrite assoc_gprops, Hk.
Qed.

Lemma objectOf_replace_same c k ch ch' kids :
  assoc k kids = Some ch -> gvalueOf ch' = gvalueOf ch ->
  objectOf c (replaceProp k ch' kids) = objectOf c kids.
Proof.
  intros Hk Hv. unfold objectOf, gelems.
  now rewrite (gprops_replace_same _ _ _ _ Hk Hv).
Qed.

Lemma gelems_eq len kids es :
  length es = len ->
  (forall i, i < len -> es !! i = Some (assoc (indexToString i) (gprops kids))) ->
  gelems len kids = es.
Proof.
  intros Hlen Hes. apply list_eq. intros i.
  destruct (decide (i < len)) as [Hi|Hi].
  - now rewrite (gelems_lookup _ _ _ Hi), Hes.
  - rewrite !lookup_ge_None_2; [done|lia|rewrite length_gelems; lia].
Qed.

Lemma gelems_setNamed len kids i v :
  i < len ->
  gelems len (setNamed (indexToString i) (GVal v) kids)
  = <[i := Some v]> (gelems len kids).
Proof.
  intros Hi. apply gelems_eq; [now rewrite length_insert, length_gelems|].
  intros j Hj. rewrite gprops_setNamed. cbn [gvalueOf].
  destruct (decide (j = i)) as [->|Hne].
  - rewrite list_lookup_insert_eq by now rewrite length_gelems.
    now rewrite assoc_setNamed_eq.
  - rewrite list_lookup_insert_ne by done. rewrite (gelems_lookup _ _ _ Hj).
    rewrite assoc_setNamed_ne; [done|]. intros E. now apply indexToString_inj in E.
Qed.

Lemma gelems_removeProp len kids i :
  i < len -> hasKey (indexToString i) (removeProp (indexToString i) kids) = false ->
  gelems len (removeProp (indexToString i) kids) = <[i := None]> (gelems len kids).
Proof.
  intros Hi Hk. apply gelems_eq; [now rewrite length_insert, length_gelems|].
  intros j Hj. destruct (decide (j = i)) as [->|Hne].
  - rewrite list_lookup_insert_eq by now rewrite length_gelems.
    f_equal. rewrite assoc_gprops. apply hasKey_false in Hk.
    rewrite <- assoc_is_Some_keys in Hk.
    destruct (assoc (indexToString i) (removeProp (indexToString i) kids)); [|done].
    exfalso. apply Hk. now eexists.
  - rewrite list_lookup_insert_ne by done. rewrite (gelems_lookup _ _ _ Hj).
    rewrite gprops_removeProp, assoc_removeProp_ne; [done|].
    intros E. now apply indexToString_inj in E.
Qed.

Lemma gelems_dropLast i kids :
  gelems i (removeProp (indexToString i) kids) = removelast (gelems (S i) kids).
Proof.
  unfold gelems at 2. rewrite seq_S, map_app. cbn [map]. rewrite removelast_last.
  apply gelems_eq; [now rewrite length_map, length_seq|].
  intros j Hj. rewrite list_lookup_fmap, lookup_seq_lt by done. cbn.
  rewrite gprops_removeProp, assoc_removeProp_ne; [done|].
  intros E. apply indexToString_inj in E. lia.
Qed.

Lemma gelems_append i kids l :
  gelems (S i) (setNamed (indexToString i) (GVal l) kids) = gelems i kids ++ [Some l].
Proof.
  apply gelems_eq; [rewrite length_app, length_gelems; simpl; lia|].
  intros j Hj. rewrite gprops_setNamed. cbn [gvalueOf].
  destruct (decide (j = i)) as [->|Hne].
  - rewrite lookup_app_r by (rewrite length_gelems; lia).
    rewrite length_gelems, Nat.sub_diag. cbn. now rewrite assoc_setNamed_eq.
  - rewrite lookup_app_l by (rewrite length_gelems; lia).
    rewrite gelems_lookup by lia.
    rewrite assoc_setNamed_ne; [done|]. intros E. now apply indexToString_inj in E.
Qed.

(** Reading, writing and deleting a child of a node. *)
Lemma node_getV (h : heap) a c kids k x cx xk :
  h !! a = Some (objectOf c kids) -> fitsb c k = true ->
  assoc k kids = Some (GNode x cx xk) ->
  getV h (VRef a) k = Returns (VRef x).
Proof.
  intros Ha Hfit Hk. apply getV_own; [|done].
  rewrite (node_getProp _ _ _ _ _ Ha (fitsb_keyFits _ _ Hfit)). now rewrite Hk.
Qed.

Lemma node_setV (h : heap) a c kids k v :
  h !! a = Some (objectOf c kids) -> fitsb c k = true -> k <> "__proto__" ->
  setV h (VRef a) k v = Returns (<[a := objectOf c (setNamed k (GVal v) kids)]> h).
Proof.
  intros Ha Hfit Hk. unfold setV. rewrite Ha.
  assert (Hacc : inheritedAccessor (cls (objectOf c kids)) k = false).
  { unfold inheritedAccessor. apply String.eqb_neq in Hk. rewrite Hk. now destruct c. }
  rewrite Hacc, andb_false_r.
  destruct c as [|t|len]; cbn [objectOf].
  - unfold setOwn. cbn [cls props obind]. now rewrite gprops_setNamed.
  - unfold setOwn. cbn [cls props obind]. now rewrite gprops_setNamed.
  - unfold fitsb in Hfit. destruct (arrayIndex k) as [i|] eqn:Ei; [|done].
    apply Nat.ltb_lt in Hfit. pose proof (arrayIndex_Some _ _ Ei) as [-> _].
    unfold setOwn. cbn [cls props]. rewrite Ei. cbn [obind].
    unfold setElem. rewrite length_gelems.
    replace (i <? len) with true by (symmetry; now apply Nat.ltb_lt).
    now rewrite gelems_setNamed.
Qed.

Lemma node_deleteV (h : heap) a c kids k :
  h !! a = Some (objectOf c kids) -> fitsb c k = true ->
  hasKey k (removeProp k kids) = false ->
  deleteV h (VRef a) k = Returns (<[a := objectOf c (removeProp k kids)]> h).
Proof.
  intros Ha Hfit Hk. unfold deleteV. rewrite Ha.
  destruct c as [|t|len]; cbn [objectOf].
  - unfold deleteOwn. cbn [cls props obind]. now rewrite gprops_removeProp.
  - unfold deleteOwn. cbn [cls props obind]. now rewrite gprops_removeProp.
  - unfold fitsb in Hfit. destruct (arrayIndex k) as [i|] eqn:Ei; [|done].
    apply Nat.ltb_lt in Hfit. pose proof (arrayIndex_Some _ _ Ei) as [-> _].
    unfold deleteOwn. cbn [cls props]. rewrite Ei. cbn [obind].
    now rewrite gelems_removeProp.
Qed.

(** *** Trees in a changed store *)

Lemma gkidAddrs_app k1 k2 : gkidAddrs (k1 ++ k2) = gkidAddrs k1 ++ gkidAddrs k2.
Proof. unfold gkidAddrs. apply flat_map_app. Qed.

Lemma gkidAddrs_cons kt kids : gkidAddrs (kt :: kids) = gaddrs kt.2 ++ gkidAddrs kids.
Proof. done. Qed.

Lemma grepr_frame h t x o : grepr h t -> x ∉ gaddrs t -> grepr (<[x:=o]> h) t.
Proof.
  induction t as [v|a c kids IH] using gtree_ind'; [done|].
  intros [Ha Hk]%gAll_node Hx. rewrite gaddrs_node in Hx.
  apply not_elem_of_cons in Hx as [Hxa Hx]. apply gAll_node. split.
  - now rewrite list_lookup_insert_ne.
  - rewrite Forall_forall in IH, Hk. rewrite Forall_forall. intros [k t] Hin.
    apply (IH (k, t) Hin); [now apply (Hk (k, t))|].
    intros ?. apply Hx. now apply (gkidAddrs_elem kids k t).
Qed.

Lemma grepr_agree h h' t :
  grepr h t -> (forall x, x ∈ gaddrs t -> h' !! x = h !! x) -> grepr h' t.
Proof.
  induction t as [v|a c kids IH] using gtree_ind'; [done|].
  intros [Ha Hk]%gAll_node Hx. apply gAll_node. split.
  - rewrite Hx; [done|]. rewrite gaddrs_node. apply list_elem_of_here.
  - rewrite Forall_forall in IH, Hk. apply Forall_forall. intros [k t] Hin.
    apply (IH _ Hin); [now apply Hk|]. intros x Hxt. apply Hx.
    rewrite gaddrs_node. apply list_elem_of_further. now apply (gkidAddrs_elem _ k t).
Qed.

Lemma grepr_leaf h t : gisNode t = false -> grepr h t.
Proof. now destruct t. Qed.

Lemma gnodeAt_gupdate q f : forall t t',
  gupdate q f t = Some t' ->
  exists ap c kp c' kp', gnodeAt q t = Some (ap, c, kp) /\ f c kp = Some (c', kp').
Proof.
  induction q as [|k q IH]; intros [v|a c kids] t' H; simpl in *; try done.
  - destruct (f c kids) as [[c' kids']|] eqn:E; [|done]. eauto 10.
  - destruct (fitsb c k); [|done]. destruct (assoc k kids) as [ch|]; [|done].
    destruct (gupdate q f ch) as [ch'|] eqn:E; [|done]. eauto.
Qed.

Lemma gupdate_valueOf q f : forall t t',
  gupdate q f t = Some t' -> gvalueOf t' = gvalueOf t /\ gisNode t' = true.
Proof.
  destruct q as [|k q]; intros [v|a c kids] t' H; simpl in *; try done.
  - destruct (f c kids) as [[c' kids']|]; [|done]. now simplify_eq.
  - destruct (fitsb c k); [|done]. destruct (assoc k kids) as [ch|]; [|done].
    destruct (gupdate q f ch) as [ch'|]; [|done]. now simplify_eq.
Qed.

(** The walk of [revertChange] along a path of the tree creates nothing
    and ends at the node the path leads to. *)
Lemma walk_gnodeAt h q : forall t ap c kp,
  grepr h t -> gnodeAt q t = Some (ap, c, kp) ->
  walk h (gvalueOf t) q = Returns (h, VRef ap)
  /\ h !! ap = Some (objectOf c kp) /\ ap ∈ gaddrs t.
Proof.
  induction q as [|k q IH]; intros [v|a ca kids] ap c kp Ht H; simpl in H; try done.
  - simplify_eq. apply gAll_node in Ht as [Ha _]. rewrite gaddrs_node.
    split; [done|]. split; [done|apply list_elem_of_here].
  - destruct (fitsb ca k) eqn:Hfit; [|done].
    destruct (assoc k kids) as [ch|] eqn:Ec; [|done].
    apply gAll_node in Ht as [Ha Hk]. rewrite Forall_forall in Hk.
    pose proof (assoc_Some_elem _ _ _ Ec) as Hin.
    destruct (IH ch ap c kp (Hk (k, ch) Hin) H) as (Hw & Hap & Hin').
    destruct ch as [|x cx xk]; [now destruct q|].
    pose proof (node_getV h a ca kids k x cx xk Ha Hfit Ec) as Hget.
    split; [|split; [done|]].
    + rewrite walk_cons. cbn [gvalueOf]. rewrite Hget. cbn [obind typeof].
      change (String.eqb "object" "undefined") with false.
      cbn [obind]. rewrite Hget. exact Hw.
    + rewrite gaddrs_node. apply list_elem_of_further.
      now apply (gkidAddrs_elem kids k (GNode x cx xk)).
Qed.

(** A change of a node that keeps or drops the subtrees that were there
    and adds nothing but leaves. *)
Definition gshrinking (f : nodeChange) : Prop :=
  forall c kids c' kids', f c kids = Some (c', kids') ->
    (forall kt, kt ∈ kids' -> kt ∈ kids \/ gisNode kt.2 = false)
    /\ gkidAddrs kids' `sublist_of` gkidAddrs kids.

Lemma gshrinks_replaceProp k l kids :
  (forall kt, kt ∈ replaceProp k (GVal l) kids -> kt ∈ kids \/ gisNode kt.2 = false)
  /\ gkidAddrs (replaceProp k (GVal l) kids) `sublist_of` gkidAddrs kids.
Proof.
  induction kids as [|[k' t] kids [IH1 IH2]]; simpl.
  - split; [by intros ? ?%elem_of_nil|done].
  - destruct (String.eqb k' k).
    + split.
      * intros kt [->|?]%elem_of_cons; [now right|]. left. now apply list_elem_of_further.
      * rewrite ?gkidAddrs_cons. simpl. now apply sublist_inserts_l.
    + split.
      * intros kt [->|Hin]%elem_of_cons; [left; apply list_elem_of_here|].
        destruct (IH1 kt Hin); [left; now apply list_elem_of_further|now right].
      * rewrite ?gkidAddrs_cons. now apply sublist_app.
Qed.

Lemma gshrinks_insertIndexProp i k l kids :
  (forall kt, kt ∈ insertIndexProp i k (GVal l) kids ->
     kt ∈ kids \/ gisNode kt.2 = false)
  /\ gkidAddrs (insertIndexProp i k (GVal l) kids) `sublist_of` gkidAddrs kids.
Proof.
  induction kids as [|[k' t] kids [IH1 IH2]]; simpl.
  - split; [|done]. intros kt [->|?%elem_of_nil]%elem_of_cons; [now right|done].
  - assert (Hhere : (forall kt, kt ∈ (k, GVal l) :: (k', t) :: kids ->
                       kt ∈ (k', t) :: kids \/ gisNode kt.2 = false)
                    /\ gkidAddrs ((k, GVal l) :: (k', t) :: kids)
                         `sublist_of` gkidAddrs ((k', t) :: kids)).
    { split; [|done]. intros kt [->|?]%elem_of_cons; [now right|now left]. }
    destruct (arrayIndex k') as [j|]; [|done]. destruct (j <? i); [|done]. split.
    + intros kt [->|Hin]%elem_of_cons; [left; apply list_elem_of_here|].
      destruct (IH1 kt Hin); [left; now apply list_elem_of_further|now right].
    + rewrite ?gkidAddrs_cons. now apply sublist_app.
Qed.

Lemma gshrinks_setNamed k l kids :
  (forall kt, kt ∈ setNamed k (GVal l) kids -> kt ∈ kids \/ gisNode kt.2 = false)
  /\ gkidAddrs (setNamed k (GVal l) kids) `sublist_of` gkidAddrs kids.
Proof.
  unfold setNamed. destruct (hasKey k kids).
  - apply gshrinks_replaceProp.
  - unfold insertProp. destruct (arrayIndex k).
    + apply gshrinks_insertIndexProp.
    + split.
      * intros kt [?|[->|?%elem_of_nil]%elem_of_cons]%elem_of_app;
          [now left|now right|done].
      * rewrite gkidAddrs_app. simpl. now rewrite app_nil_r.
Qed.

Lemma gshrinks_removeProp k kids :
  (forall kt, kt ∈ removeProp k kids -> kt ∈ kids \/ gisNode kt.2 = false)
  /\ gkidAddrs (removeProp k kids) `sublist_of` gkidAddrs kids.
Proof.
  induction kids as [|[k' t] kids [IH1 IH2]]; simpl.
  - split; [by intros ? ?%elem_of_nil|done].
  - destruct (String.eqb k' k).
    + split.
      * intros kt ?. left. now apply list_elem_of_further.
      * rewrite ?gkidAddrs_cons. now apply sublist_inserts_l.
    + split.
      * intros kt [->|Hin]%elem_of_cons; [left; apply list_elem_of_here|].
        destruct (IH1 kt Hin); [left; now apply list_elem_of_further|now right].
      * rewrite ?gkidAddrs_cons. now apply sublist_app.
Qed.

Lemma gshrinking_setKid k l : gshrinking (setKid k l).
Proof.
  intros c kids c' kids'. unfold setKid. destruct (fitsb c k); [|done].
  intros [= <- <-]. apply gshrinks_setNamed.
Qed.

Lemma gshrinking_dropKid k : gshrinking (dropKid k).
Proof.
  intros c kids c' kids'. unfold dropKid. destruct (_ && _); [|done].
  intros [= <- <-]. apply gshrinks_removeProp.
Qed.

Lemma gshrinking_dropLast i : gshrinking (dropLast i).
Proof.
  intros c kids c' kids'. unfold dropLast. destruct c as [| |len]; try done.
  destruct (len =? S i); [|done]. intros [= <- <-]. apply gshrinks_removeProp.
Qed.

Lemma gshrinking_appendKid i l : gshrinking (appendKid i l).
Proof.
  intros c kids c' kids'. unfold appendKid. destruct c as [| |len]; try done.
  destruct (len =? i); [|done]. intros [= <- <-]. apply gshrinks_setNamed.
Qed.

(** Writing the changed node into the store gives the changed tree. *)
Lemma gupdate_repr h f q : forall t t' ap c kp c' kp',
  gshrinking f ->
  grepr h t -> NoDup (gaddrs t) ->
  gnodeAt q t = Some (ap, c, kp) -> f c kp = Some (c', kp') ->
  gupdate q f t = Some t' ->
  grepr (<[ap := objectOf c' kp']> h) t'
  /\ gaddrs t' `sublist_of` gaddrs t.
Proof.
  intros t t' ap c kp c' kp' Hf. revert t t'.
  induction q as [|k q IH]; intros [v|a ca kids] t' Ht Hnd Hat Hfc Hup;
    simpl in Hat, Hup; try done.
  - simplify_eq. rewrite Hfc in Hup. simplify_eq.
    destruct (Hf _ _ _ _ Hfc) as [Hf1 Hf2].
    apply gAll_node in Ht as [Ha Hk]. rewrite gaddrs_node in Hnd.
    apply NoDup_cons in Hnd as [Hap Hnd]. split.
    + apply gAll_node. split.
      * apply list_lookup_insert_eq. now apply lookup_lt_Some in Ha.
      * rewrite Forall_forall in Hk. rewrite Forall_forall. intros kt Hin.
        destruct (Hf1 kt Hin) as [Hin'|Hleaf]; [|now apply grepr_leaf].
        apply grepr_frame; [now apply Hk|]. intros ?. apply Hap.
        destruct kt as [k t]. now apply (gkidAddrs_elem kp k t).
    + rewrite !gaddrs_node. now apply sublist_skip.
  - destruct (fitsb ca k) eqn:Hfit; [|done].
    destruct (assoc k kids) as [ch|] eqn:Ec; [|done].
    destruct (gupdate q f ch) as [ch'|] eqn:Ec'; [|done]. simplify_eq.
    apply gAll_node in Ht as [Ha Hk].
    destruct (gupdate_valueOf _ _ _ _ Ec') as [Hv _].
    pose proof (objectOf_replace_same ca k ch ch' kids Ec Hv) as Hobj.
    destruct (assoc_split _ _ _ Ec) as (pre & post & -> & Hpre & Hrep).
    rewrite Hrep in Hobj |- *.
    rewrite gaddrs_node, gkidAddrs_app, gkidAddrs_cons in Hnd.
    cbn [snd] in Hnd. apply NoDup_cons in Hnd as [Ha' Hnd].
    apply NoDup_app in Hnd as (Hndpre & Hdis1 & Hnd).
    apply NoDup_app in Hnd as (Hndc & Hdis2 & Hndpost).
    apply Forall_app in Hk as [Hkpre Hk]. apply Forall_cons in Hk as [Hc Hkpost].
    cbn [snd] in Hc.
    destruct (IH ch ch' Hc Hndc Hat Hfc Ec') as [IH1 IH2].
    destruct (walk_gnodeAt h q ch ap c kp Hc Hat) as (_ & _ & Hapc).
    split.
    + apply gAll_node. split.
      * rewrite list_lookup_insert_ne.
        2:{ intros ->. apply Ha'. apply elem_of_app. right. apply elem_of_app. now left. }
        now rewrite Hobj.
      * apply Forall_app. split; [|apply Forall_cons; split; [done|]].
        -- rewrite Forall_forall in Hkpre. rewrite Forall_forall. intros [k' t] Hin.
           apply grepr_frame; [now apply (Hkpre (k', t))|].
           intros Hx. apply (Hdis1 ap); [now apply (gkidAddrs_elem pre k' t)|].
           apply elem_of_app. now left.
        -- rewrite Forall_forall in Hkpost. rewrite Forall_forall. intros [k' t] Hin.
           apply grepr_frame; [now apply (Hkpost (k', t))|].
           intros Hx. apply (Hdis2 ap); [done|]. now apply (gkidAddrs_elem post k' t).
    + rewrite !gaddrs_node, !gkidAddrs_app, !gkidAddrs_cons. cbn [snd].
      apply sublist_skip, sublist_app; [done|]. now apply sublist_app.
Qed.

(** *** Reverting the records on the store *)

(** What is assumed of the array-revert helper of [./utils]: it undoes a
    change of the tail of an array.  Given the array, the index of its last
    element and a New item, it drops the last element; given the array, its
    length as the index and a Deleted item, it puts the deleted element
    back at the end. *)
Definition undoesTailChanges
    (rac : heap -> value -> option field -> option field -> outcome heap) : Prop :=
  forall (h : heap) a es ps,
    h !! a = Some (Obj (CArray es) ps) ->
    (forall r, es <> [] ->
       rac h (VRef a) (Some (FVal (VNum (numOfNat (length es - 1)))))
           (Some (FRec (toItemDoc (ItN r))))
       = Returns (<[a := Obj (CArray (removelast es)) ps]> h))
    /\ (forall l,
          rac h (VRef a) (Some (FVal (VNum (numOfNat (length es)))))
              (Some (FRec (toItemDoc (ItD l))))
          = Returns (<[a := Obj (CArray (es ++ [Some l])) ps]> h)).

(** A record that [revertChange] can work on: an array change below the
    root, and no write to the key ['__proto__']. *)
Definition revertible (c : RawChangeT) : Prop :=
  match c with
  | ChA p _ _ => p <> []
  | ChD p _ | ChE p _ _ => lastKey p <> "__proto__"
  | ChN _ _ => True
  end.

Lemma gnodeAt_snoc q k : forall t x cx xk,
  gnodeAt (q ++ [k]) t = Some (x, cx, xk) ->
  exists ap c kp,
    gnodeAt q t = Some (ap, c, kp) /\ fitsb c k = true
    /\ assoc k kp = Some (GNode x cx xk).
Proof.
  induction q as [|k0 q IH]; intros [v|a ca kids] x cx xk H; simpl in H; try done.
  - destruct (fitsb ca k) eqn:Hfit; [|done].
    destruct (assoc k kids) as [[|y cy yk]|] eqn:Ek; try done.
    simpl in H. simplify_eq. exists a, ca, kids. done.
  - destruct (fitsb ca k0) eqn:Hfit; [|done].
    destruct (assoc k0 kids) as [ch|] eqn:Ek; [|done].
    destruct (IH ch x cx xk H) as (ap & c & kp & Hat & Hf & Hk).
    exists ap, c, kp. simpl. now rewrite Hfit, Ek.
Qed.

Lemma path_split (p : list string) :
  p <> [] -> p = take (length p - 1) p ++ [lastKey p].
Proof.
  intros Hp. destruct (exists_last Hp) as (q & k & ->).
  rewrite lastKey_snoc, length_app. cbn [length].
  now rewrite Nat.add_sub, take_app_length.
Qed.

(** Reverting one renamed record on a tree of the store. *)
Lemma grevertChange_tree rac h t c t' :
  undoesTailChanges rac ->
  grepr h t -> NoDup (gaddrs t) -> gisNode t = true ->
  revertible c ->
  gapply c t = Some t' ->
  exists h',
    revertChange rac h (gvalueOf t) (Some (toChangeDoc c)) = Returns h'
    /\ grepr h' t' /\ NoDup (gaddrs t') /\ gisNode t' = true
    /\ gvalueOf t' = gvalueOf t
    /\ (forall x, x ∈ gaddrs t' -> x ∈ gaddrs t)
    /\ (forall x, x ∉ gaddrs t -> h' !! x = h !! x).
Proof.
  intros Hrac Ht Hnd Hnode Hok Hap.
  assert (Hgen : forall f q, gshrinking f ->
    gupdate q f t = Some t' ->
    exists ap c kp c' kp',
      gnodeAt q t = Some (ap, c, kp)
      /\ walk h (gvalueOf t) q = Returns (h, VRef ap)
      /\ h !! ap = Some (objectOf c kp)
      /\ f c kp = Some (c', kp')
      /\ grepr (<[ap := objectOf c' kp']> h) t'
      /\ NoDup (gaddrs t') /\ gisNode t' = true /\ gvalueOf t' = gvalueOf t
      /\ (forall x, x ∈ gaddrs t' -> x ∈ gaddrs t)
      /\ (forall x, x ∉ gaddrs t -> <[ap := objectOf c' kp']> h !! x = h !! x)).
  { intros f q Hf Hup.
    destruct (gnodeAt_gupdate _ _ _ _ Hup) as (ap & c0 & kp & c' & kp' & Hat & Hfc).
    destruct (walk_gnodeAt h _ t ap c0 kp Ht Hat) as (Hw & Hlk & Hin).
    destruct (gupdate_repr h f _ t t' ap c0 kp c' kp' Hf Ht Hnd Hat Hfc Hup) as [Hr Hsub].
    destruct (gupdate_valueOf _ _ _ _ Hup) as [Hv Hn].
    exists ap, c0, kp, c', kp'. split_and!; try done.
    - now apply (sublist_NoDup _ _ Hnd Hsub).
    - intros x Hx. now apply (elem_of_sublist _ _ _ Hx Hsub).
    - intros x Hx. apply list_lookup_insert_ne. intros ->. done. }
  unfold revertChange. destruct t as [|a ca kids]; [done|].
  cbn [gvalueOf truthy andb] in *.
  destruct c as [p r|p l|p l r|p i [r|l]]; cbn [gapply] in Hap; cbn [revertible] in Hok.
  - destruct (Hgen _ _ (gshrinking_dropKid _) Hap)
      as (ap & c0 & kp & c' & kp' & _ & Hw & Hlk & Hfc & Hr & Hnd' & Hn' & Hv & Hsub & Hfr).
    unfold dropKid in Hfc. destruct (fitsb c0 (lastKey p)) eqn:Hfit; [|done].
    destruct (hasKey (lastKey p) (removeProp (lastKey p) kp)) eqn:Hgone; [done|].
    cbn in Hfc. simplify_eq.
    cbn -[gaddrs]. rewrite Hw. cbn [obind]. fold (lastKey p).
    rewrite (node_deleteV _ _ _ _ _ Hlk Hfit Hgone). eauto 10.
  - destruct (Hgen _ _ (gshrinking_setKid _ l) Hap)
      as (ap & c0 & kp & c' & kp' & _ & Hw & Hlk & Hfc & Hr & Hnd' & Hn' & Hv & Hsub & Hfr).
    unfold setKid in Hfc. destruct (fitsb c0 (lastKey p)) eqn:Hfit; [|done].
    simplify_eq.
    cbn -[gaddrs]. rewrite Hw. cbn [obind fieldValue]. fold (lastKey p).
    rewrite (node_setV _ _ _ _ _ _ Hlk Hfit Hok). eauto 10.
  - destruct (Hgen _ _ (gshrinking_setKid _ l) Hap)
      as (ap & c0 & kp & c' & kp' & _ & Hw & Hlk & Hfc & Hr & Hnd' & Hn' & Hv & Hsub & Hfr).
    unfold setKid in Hfc. destruct (fitsb c0 (lastKey p)) eqn:Hfit; [|done].
    simplify_eq.
    cbn -[gaddrs]. rewrite Hw. cbn [obind fieldValue]. fold (lastKey p).
    rewrite (node_setV _ _ _ _ _ _ Hlk Hfit Hok). eauto 10.
  - destruct (Hgen _ _ (gshrinking_dropLast _) Hap)
      as (x & cx & xk & c' & kp' & Hat & _ & Hx & Hfc & Hr & Hnd' & Hn' & Hv & Hsub & Hfr).
    unfold dropLast in Hfc. destruct cx as [| |len]; try done.
    destruct (Nat.eqb_spec len (S i)) as [->|]; [|done]. simplify_eq.
    rewrite (path_split p Hok) in Hat.
    destruct (gnodeAt_snoc _ _ _ _ _ _ Hat) as (ap & c0 & kp & Hatp & Hfit & Hk).
    destruct (walk_gnodeAt h _ _ ap c0 kp Ht Hatp) as (Hw & Hlk & _).
    cbn -[gaddrs gelems]. cbn [gvalueOf] in Hw. rewrite Hw. cbn [obind].
    fold (lastKey p). rewrite (node_getV _ _ _ _ _ _ _ _ Hlk Hfit Hk). cbn [obind].
    cbn [objectOf] in Hx. destruct (Hrac h x _ _ Hx) as [HN _].
    rewrite length_gelems in HN. cbn [Nat.sub] in HN. rewrite Nat.sub_0_r in HN.
    specialize (HN r). cbn [toItemDoc] in HN. rewrite HN.
    2:{ intros E. apply (f_equal length) in E. now rewrite length_gelems in E. }
    cbn [objectOf] in Hr, Hfr. rewrite gelems_dropLast in Hr, Hfr. eauto 10.
  - destruct (Hgen _ _ (gshrinking_appendKid _ l) Hap)
      as (x & cx & xk & c' & kp' & Hat & _ & Hx & Hfc & Hr & Hnd' & Hn' & Hv & Hsub & Hfr).
    unfold appendKid in Hfc. destruct cx as [| |len]; try done.
    destruct (Nat.eqb_spec len i) as [->|]; [|done]. simplify_eq.
    rewrite (path_split p Hok) in Hat.
    destruct (gnodeAt_snoc _ _ _ _ _ _ Hat) as (ap & c0 & kp & Hatp & Hfit & Hk).
    destruct (walk_gnodeAt h _ _ ap c0 kp Ht Hatp) as (Hw & Hlk & _).
    cbn -[gaddrs gelems]. cbn [gvalueOf] in Hw. rewrite Hw. cbn [obind].
    fold (lastKey p). rewrite (node_getV _ _ _ _ _ _ _ _ Hlk Hfit Hk). cbn [obind].
    cbn [objectOf] in Hx. destruct (Hrac h x _ _ Hx) as [_ HD].
    rewrite length_gelems in HD. specialize (HD l). cbn [toItemDoc] in HD.
    rewrite HD.
    cbn [objectOf] in Hr, Hfr. rewrite gelems_append in Hr, Hfr. eauto 10.
Qed.

(** Reverting a list of renamed records, one after the other. *)
Lemma grevertAll_tree rac cs : forall h t t',
  undoesTailChanges rac ->
  grepr h t -> NoDup (gaddrs t) -> gisNode t = true ->
  Forall revertible cs ->
  gplay cs t = Some t' ->
  exists h',
    revertAll rac (map toChangeDoc cs) h (gvalueOf t) = Returns h'
    /\ grepr h' t' /\ gvalueOf t' = gvalueOf t
    /\ (forall x, x ∉ gaddrs t -> h' !! x = h !! x).
Proof.
  induction cs as [|c cs IH]; intros h t t' Hrac Ht Hnd Hnode Hok Hplay; simpl in Hplay.
  - simplify_eq. exists h. simpl. eauto.
  - destruct (gapply c t) as [t1|] eqn:E1; [|done].
    apply Forall_cons in Hok as [Hc Hok].
    destruct (grevertChange_tree rac h t c t1 Hrac Ht Hnd Hnode Hc E1)
      as (h1 & Hrev & Hr1 & Hnd1 & Hn1 & Hv1 & Hsub1 & Hfr1).
    destruct (IH h1 t1 t' Hrac Hr1 Hnd1 Hn1 Hok Hplay) as (h' & Hall & Hr' & Hv' & Hfr').
    exists h'. cbn [map revertAll]. rewrite Hrev. cbn [obind]. rewrite <- Hv1, Hall.
    split_and!; try done.
    intros x Hx. rewrite Hfr'; [now apply Hfr1|]. intros ?. apply Hx. now apply Hsub1.
Qed.

(** *** Deep equality of objects, dates and arrays *)

(** [es[i]]: a hole reads [undefined]. *)
Definition elemAt (es : list (option value)) (i : nat) : value :=
  match es !! i with
  | Some (Some x) => x
  | _ => VUndef
  end.

(** Deep equality of two values of a store: primitives by SameValueZero;
    objects by reference, or two plain objects, two dates of the same
    valid time or two arrays of the same length, key by key whatever the
    key order, and the arrays index by index as their elements read. *)
#[warnings="-register-all"] Inductive deepEqual (h : heap) : value -> value -> Prop :=
| deepEqual_prim v w :
    isRef v = false -> isRef w = false -> sameValueZero v w = true ->
    deepEqual h v w
| deepEqual_same a : deepEqual h (VRef a) (VRef a)
| deepEqual_object a b ps qs :
    h !! a = Some (Obj CObject ps) ->
    h !! b = Some (Obj CObject qs) ->
    (forall k v, assoc k ps = Some v ->
       exists w, assoc k qs = Some w /\ deepEqual h v w) ->
    (forall k w, assoc k qs = Some w -> is_Some (assoc k ps)) ->
    deepEqual h (VRef a) (VRef b)
| deepEqual_date a b t ps qs :
    h !! a = Some (Obj (CDate (Some t)) ps) ->
    h !! b = Some (Obj (CDate (Some t)) qs) ->
    (forall k v, assoc k ps = Some v ->
       exists w, assoc k qs = Some w /\ deepEqual h v w) ->
    (forall k w, assoc k qs = Some w -> is_Some (assoc k ps)) ->
    deepEqual h (VRef a) (VRef b)
| deepEqual_array a b es fs ps qs :
    h !! a = Some (Obj (CArray es) ps) ->
    h !! b = Some (Obj (CArray fs) qs) ->
    length es = length fs ->
    (forall i, i < length es -> deepEqual h (elemAt es i) (elemAt fs i)) ->
    (forall k v, assoc k ps = Some v ->
       exists w, assoc k qs = Some w /\ deepEqual h v w) ->
    (forall k w, assoc k qs = Some w -> is_Some (assoc k ps)) ->
    deepEqual h (VRef a) (VRef b).

Lemma elemAt_gelems len kids i :
  i < len ->
  elemAt (gelems len kids) i = default VUndef (gvalueOf <$> assoc (indexToString i) kids).
Proof.
  intros Hi. unfold elemAt. rewrite (gelems_lookup _ _ _ Hi), assoc_gprops.
  now destruct (assoc (indexToString i) kids).
Qed.

(** A target that holds what the left tree holds is deeply equal to it. *)
Lemma gmatches_deepEqual h l : forall t,
  grepr h l -> grepr h t -> gprimLeaves l -> gmatches l t ->
  deepEqual h (gvalueOf l) (gvalueOf t).
Proof.
  induction l as [v|a cl lk IH] using gtree_ind'; intros [w|c ct tk] Hl Ht Hprim Hm;
    simpl in Hm; try done.
  - simpl in Hprim. apply deepEqual_prim; [done| |done].
    destruct w; try done. apply sameValueZero_ref_r in Hm. now subst.
  - subst w. apply deepEqual_same.
  - apply (gmatches_node a cl lk c ct tk) in Hm as ([-> Hdd] & Hm & Hk).
    apply gAll_node in Hl as [Ha Hl]. apply gAll_node in Ht as [Hc Ht].
    apply gAll_node in Hprim as [_ Hprim].
    assert (Hkid : forall k lt, assoc k lk = Some lt ->
      exists tt, assoc k tk = Some tt /\ deepEqual h (gvalueOf lt) (gvalueOf tt)).
    { intros k lt El. pose proof (assoc_Some_elem _ _ _ El) as Hin.
      rewrite Forall_forall in Hm. destruct (Hm _ Hin) as (tt & Htt & Hmt).
      cbn [fst snd] in Htt, Hmt. exists tt. split; [done|].
      rewrite Forall_forall in IH. apply (IH _ Hin); cbn [snd]; try done.
      - apply (kids_elem _ lk k lt Hl El).
      - apply (kids_elem _ tk k tt Ht Htt).
      - apply (kids_elem _ lk k lt Hprim El). }
    assert (Hfwd : forall k v, assoc k (gprops lk) = Some v ->
      exists w, assoc k (gprops tk) = Some w /\ deepEqual h v w).
    { intros k v. rewrite assoc_gprops. destruct (assoc k lk) as [lt|] eqn:Ek; [|done].
      intros [= <-]. destruct (Hkid k lt Ek) as (tt & Htt & Hd).
      exists (gvalueOf tt). now rewrite assoc_gprops, Htt. }
    assert (Hbwd : match cl with GArray _ => False | _ => True end ->
      forall k w, assoc k (gprops tk) = Some w -> is_Some (assoc k (gprops lk))).
    { intros Hcl k w. rewrite !assoc_gprops. intros Hw.
      destruct (assoc k tk) as [tt|] eqn:Ek; [|done].
      destruct (Hk k) as [[lt Hlt]|Hh]; [rewrite Ek; now eexists| |].
      - rewrite Hlt. now eexists.
      - now destruct cl. }
    cbn [gvalueOf]. destruct cl as [|[z|]|len]; try done.
    + apply (deepEqual_object h a c _ _ Ha Hc Hfwd). now apply Hbwd.
    + apply (deepEqual_date h a c z _ _ Ha Hc Hfwd). now apply Hbwd.
    + cbn [objectOf] in Ha, Hc.
      apply (deepEqual_array h a c _ _ _ _ Ha Hc);
        [now rewrite !length_gelems| |done|done].
      rewrite length_gelems. intros i Hi. rewrite !elemAt_gelems by done.
      destruct (assoc (indexToString i) lk) as [lt|] eqn:El.
      * destruct (Hkid _ lt El) as (tt & Htt & Hd). now rewrite Htt.
      * destruct (assoc (indexToString i) tk) as [tt|] eqn:Et.
        -- destruct (Hk (indexToString i)) as [[lt Hlt]|[_ Hh]];
             [rewrite Et; now eexists|congruence|].
           rewrite Et in Hh. injection Hh as ->. cbn. now apply deepEqual_prim.
        -- cbn. now apply deepEqual_prim.
Qed.

(** *** The records of a run can be reverted *)

Lemma gdiff_writes k0 l : forall p r,
  gavoids k0 l ->
  Forall (fun c => match c with
                   | ChD p' _ | ChE p' _ _ => lastKey p' <> k0
                   | _ => True
                   end) (gdiff p l r).
Proof.
  induction l as [v|a cl lk IH] using gtree_ind'; intros p [w|b cr rk] Hl;
    try apply Forall_nil_2.
  apply gAll_node in Hl as [Hla Hl].
  assert (Hkl : forall k, is_Some (assoc k lk) -> k <> k0).
  { intros k Hs ->. now apply Hla, assoc_is_Some_keys. }
  rewrite gdiff_node.
  assert (Hat : forall k,
    Forall (fun c => match c with
                     | ChD p' _ | ChE p' _ _ => lastKey p' <> k0
                     | _ => True
                     end) (gat p lk rk k)).
  { intros k. unfold gat.
    destruct (assoc k lk) as [lt|] eqn:El, (assoc k rk) as [rt|];
      try apply Forall_nil_2; try (now apply Forall_singleton).
    - assert (Hne : k <> k0) by (apply Hkl; rewrite El; now eexists).
      assert (Hleaf : forall lv rv,
        Forall (fun c => match c with
                         | ChD p' _ | ChE p' _ _ => lastKey p' <> k0
                         | _ => True
                         end) (leafChange (p ++ [k]) lv rv)).
      { intros lv rv. unfold leafChange. destruct (sameValueZero lv rv);
          [apply Forall_nil_2|]. apply Forall_singleton. now rewrite lastKey_snoc. }
      unfold gpair. destruct lt as [lv|x c1 k1], rt as [rv|y c2 k2]; try apply Hleaf.
      destruct (descends c1 c2).
      + rewrite Forall_forall in IH. apply (IH (k, GNode x c1 k1)).
        * now apply assoc_Some_elem.
        * apply (kids_elem _ lk k _ Hl El).
      + apply Forall_singleton. now rewrite lastKey_snoc.
    - apply Forall_singleton. rewrite lastKey_snoc. apply Hkl. rewrite El.
      now eexists. }
  assert (Htl : forall nl nr,
    Forall (fun c => match c with
                     | ChD p' _ | ChE p' _ _ => lastKey p' <> k0
                     | _ => True
                     end) (gtails p nl nr lk rk)).
  { intros nl nr. unfold gtails. apply Forall_app. split;
      apply Forall_fmap, Forall_forall; now intros i _. }
  unfold gnode. destruct cl, cr; apply Forall_app; split;
    try apply Htl; apply Forall_flat_map, Forall_forall; intros x _;
    try apply Hat.
  all: destruct (hasKey _ _); [apply Forall_nil_2|apply Hat].
Qed.

Lemma gdiff_array_paths l r :
  sameRoot l r ->
  Forall (fun c => match c with ChA p' _ _ => p' <> [] | _ => True end)
         (gdiff [] l r).
Proof.
  destruct l as [v|a cl lk], r as [w|b cr rk]; try done. intros [Hd Hlen].
  rewrite gdiff_node.
  assert (Hat : forall k,
    Forall (fun c => match c with ChA p' _ _ => p' <> [] | _ => True end)
           (gat [] lk rk k)).
  { intros k. unfold gat. simpl.
    destruct (assoc k lk) as [lt|], (assoc k rk) as [rt|];
      try apply Forall_nil_2; try (now apply Forall_singleton).
    assert (Hleaf : forall lv rv,
      Forall (fun c => match c with ChA p' _ _ => p' <> [] | _ => True end)
             (leafChange [k] lv rv)).
    { intros lv rv. unfold leafChange. destruct (sameValueZero lv rv);
        [apply Forall_nil_2|]. now apply Forall_singleton. }
    unfold gpair. destruct lt as [lv|x c1 k1], rt as [rv|y c2 k2];
      try apply Hleaf.
    destruct (descends c1 c2); [|now apply Forall_singleton].
    change [k] with ([k] ++ []). rewrite gdiff_prepend.
    apply Forall_fmap, Forall_forall. now intros [] _. }
  assert (Hfm : forall (A : Type) (f : A -> string) (xs : list A),
    Forall (fun c => match c with ChA p' _ _ => p' <> [] | _ => True end)
           (flat_map (fun x => gat [] lk rk (f x)) xs)).
  { intros A f xs. apply Forall_flat_map, Forall_forall. intros x _. apply Hat. }
  assert (Hfn : Forall (fun c => match c with ChA p' _ _ => p' <> [] | _ => True end)
           (flat_map (fun kr : string * gtree =>
                        if hasKey kr.1 lk then [] else gat [] lk rk kr.1) rk)).
  { apply Forall_flat_map, Forall_forall. intros x _.
    destruct (hasKey _ _); [apply Forall_nil_2|apply Hat]. }
  unfold gnode. destruct cl as [|t1|nl], cr as [|t2|nr]; try done;
    apply Forall_app; split; try apply Hfn;
    try apply (Hfm _ (fun kt : string * gtree => kt.1));
    try apply (Hfm _ indexToString).
  subst nr. unfold gtails. rewrite Nat.sub_diag. apply Forall_nil_2.
Qed.

Lemma gdiff_revertible l r :
  sameRoot l r -> gavoids "__proto__" l -> Forall revertible (gdiff [] l r).
Proof.
  intros Hroot Hav.
  pose proof (gdiff_array_paths l r Hroot) as H1.
  pose proof (gdiff_writes "__proto__" l [] r Hav) as H2.
  rewrite Forall_forall in H1, H2. apply Forall_forall. intros c Hc.
  specialize (H1 c Hc). specialize (H2 c Hc). now destruct c.
Qed.


(** An array-revert helper for the examples: whatever the index, it drops
    the last element for a New item and puts the deleted element at the
    end for a Deleted item. *)
Definition revertAtTail (h : heap) (arr : value) (index item : option field)
    : outcome heap :=
  match arr, item with
  | VRef a, Some (FRec it) =>
      match h !! a with
      | Some (Obj (CArray es) ps) =>
          match kindCaseOf (assoc "kind" it) with
          | CaseN => Returns (<[a := Obj (CArray (removelast es)) ps]> h)
          | CaseD =>
              do l <- fieldValue (assoc "lhs" it);
              Returns (<[a := Obj (CArray (es ++ [Some l])) ps]> h)
          | _ => OutsideModel
          end
      | _ => OutsideModel
      end
  | _, _ => OutsideModel
  end.

Lemma revertAtTail_undoes : undoesTailChanges revertAtTail.
Proof.
  intros h a es ps Ha. split; intros; unfold revertAtTail; now rewrite Ha.
Qed.

(** The store of
    [left = {d: new Date(5), xs: [1, {c: 2}, 3], ys: [1]}],
    [right = {d: new Date(7), xs: [1, {c: 4}], ys: [1, 2]}]
    and a copy of [right]. *)
Definition mixedStore : heap :=
  [ Obj CObject [("d", VRef 1); ("xs", VRef 2); ("ys", VRef 4)];
    Obj (CDate (Some 5%Z)) [];
    Obj (CArray [Some (num 1); Some (VRef 3); Some (num 3)]) [];
    Obj CObject [("c", num 2)];
    Obj (CArray [Some (num 1)]) [];
    Obj CObject [("d", VRef 6); ("xs", VRef 7); ("ys", VRef 9)];
    Obj (CDate (Some 7%Z)) [];
    Obj (CArray [Some (num 1); Some (VRef 8)]) [];
    Obj CObject [("c", num 4)];
    Obj (CArray [Some (num 1); Some (num 2)]) [];
    Obj CObject [("d", VRef 11); ("xs", VRef 12); ("ys", VRef 14)];
    Obj (CDate (Some 7%Z)) [];
    Obj (CArray [Some (num 1); Some (VRef 13)]) [];
    Obj CObject [("c", num 4)];
    Obj (CArray [Some (num 1); Some (num 2)]) [] ].

Definition mixedLeft : gtree :=
  GNode 0 GObject
    [("d", GNode 1 (GDate (Some 5%Z)) []);
     ("xs", GNode 2 (GArray 3)
              [("0", GVal (num 1)); ("1", GNode 3 GObject [("c", GVal (num 2))]);
               ("2", GVal (num 3))]);
     ("ys", GNode 4 (GArray 1) [("0", GVal (num 1))])].

Definition mixedRight (a : addr) : gtree :=
  GNode a GObject
    [("d", GNode (a + 1) (GDate (Some 7%Z)) []);
     ("xs", GNode (a + 2) (GArray 2)
              [("0", GVal (num 1)); ("1", GNode (a + 3) GObject [("c", GVal (num 4))])]);
     ("ys", GNode (a + 4) (GArray 2) [("0", GVal (num 1)); ("1", GVal (num 2))])].


(** The store of [left = {r: /a/}], [right = {r: /b/}] and a copy of
    [right]. *)
Definition regexpStore : heap :=
  [ Obj CObject [("r", VRef 1)]; Obj (CRegExp "a" "") [];
    Obj CObject [("r", VRef 3)]; Obj (CRegExp "b" "") [];
    Obj CObject [("r", VRef 5)]; Obj (CRegExp "b" "") [] ].

(** The store of [left = {a: 1}], [right = {a: 2}] and a copy of [right]. *)
Definition editStore : heap :=
  [Obj CObject [("a", num 1)]; Obj CObject [("a", num 2)]; Obj CObject [("a", num 2)]].

(** The store of [left = ['a', 'bb']], [right = ['bb', 'a']] and a copy of
    [right]. *)
Definition swappedStore : heap :=
  [ Obj (CArray [Some (VStr "a"); Some (VStr "bb")]) [];
    Obj (CArray [Some (VStr "bb"); Some (VStr "a")]) [];
    Obj (CArray [Some (VStr "bb"); Some (VStr "a")]) [] ].

(** The store of an array [[1]] with a property [x], of [right = [1]] and of
    a copy of [right]. *)
Definition namedArrayStore : heap :=
  [ Obj (CArray [Some (num 1)]) [("x", num 1)];
    Obj (CArray [Some (num 1)]) [];
    Obj (CArray [Some (num 1)]) [] ].

Ltac refute_deepEqual :=
  let H := fresh "H" in
  intros H; inversion H; subst;
  repeat match goal with
         | Hl : _ !! _ = Some _ |- _ => vm_compute in Hl; simplify_eq
         end;
  try discriminate.

